(** * NET transport proxy engine (src/transport/net.cc)

    A shallow embedding of the proxy side of the NET transport: the
    bank map that lays staging memory out in banks, the reference
    counted shared buffer pool, the send-side connect handshake, and the
    send and receive progress state machines.

    C integers are modelled as [Z] with the wrap-around of their width
    written out; pointers are addresses in [Z] with [0] for NULL.  What
    the outside world answers (the fabric plugin, the CUDA runtime, the
    allocator, memory written by the compute engine) is passed in as an
    explicit environment, and what the code asks of the outside world is
    appended to an event log. *)

From Stdlib Require Import ZArith Lia Bool List.
From stdpp Require Import base tactics option list.
Import ListNotations.

Local Open Scope Z_scope.

(** ** Machine integers *)

Module CInt.

(** [uint32_t] and [uint64_t] values, reduced modulo their width. *)
Definition wrap32 (x : Z) : Z := x mod 2 ^ 32.
Definition wrap64 (x : Z) : Z := x mod 2 ^ 64.

(** [int] as a two's complement 32-bit value. *)
Definition int32 (x : Z) : Z := (x + 2 ^ 31) mod 2 ^ 32 - 2 ^ 31.

(** Arrays indexed by a C integer are total functions on [Z]; [upd] is
    the store [a[i] = x]. *)
Definition upd {A} (a : Z -> A) (i : Z) (x : A) : Z -> A :=
  fun j => if j =? i then x else a j.

End CInt.
Export CInt.

(** ** Constants of the device interface

    Modelled from the spec: [NCCL_STEPS] and the protocol enumeration are
    declared in a header that is not part of this source file; the spec
    gives the ring depth 8 and the protocols LL, LL128 and SIMPLE. *)
Definition NCCL_STEPS : Z := 8.
Definition NCCL_NUM_PROTOCOLS : Z := 3.
Definition NCCL_PROTO_LL : Z := 0.
Definition NCCL_PROTO_LL128 : Z := 1.
Definition NCCL_PROTO_SIMPLE : Z := 2.

(** [ncclResult_t], as far as this file produces it. *)
Inductive ncclResult_t :=
| ncclSuccess
| ncclUnhandledCudaError
| ncclSystemError
| ncclInternalError
| ncclRemoteError.

(** ** Bank map *)

Module BankMap.

Definition NCCL_NET_MAP_HOSTMEM : Z := 0.
Definition NCCL_NET_MAP_DEVMEM : Z := 1.
Definition NCCL_NET_MAP_SHARED_HOSTMEM : Z := 2.
Definition NCCL_NET_MAP_SHARED_DEVMEM : Z := 3.
Definition NCCL_NET_MAP_GDCMEM : Z := 4.
Definition NCCL_NET_MAP_MEMS : Z := 5.

Definition NCCL_NET_MAP_MASK_DEVMEM : Z := 0x40000000.
Definition NCCL_NET_MAP_MASK_SHARED : Z := 0x80000000.
Definition NCCL_NET_MAP_MASK_USED : Z := 0x20000000.
Definition NCCL_NET_MAP_MASK_OFFSET : Z := 0x1fffffff.

(** [struct connectMapMem]: the two views of a bank and its size.  The
    identity of the bank (shm path or IPC handle) is an opaque number. *)
Record connectMapMem := mkMem {
  gpuPtr : Z;
  cpuPtr : Z;
  size : Z;
  ipc : Z
}.

Definition zeroMem : connectMapMem := mkMem 0 0 0 0.

(** The named slots of [connectMap.offsets]. *)
Inductive offsetName :=
| sendMem
| recvMem
| buffs (p : Z).

Record offsets_t := mkOffsets {
  o_sendMem : Z;
  o_recvMem : Z;
  o_buffs : Z -> Z
}.

(** [struct connectMap]. *)
Record connectMap := mkMap {
  sameProcess : Z;
  shared : Z;
  cudaDev : Z;
  mems : Z -> connectMapMem;
  offsets : offsets_t
}.

(** A zero-filled map, as [ncclCalloc] leaves it. *)
Definition freshMap : connectMap :=
  mkMap 0 0 0 (fun _ => zeroMem) (mkOffsets 0 0 (fun _ => 0)).

Definition mem_at (m : connectMap) (bank : Z) : connectMapMem := mems m bank.

Definition set_mem (m : connectMap) (bank : Z) (x : connectMapMem) : connectMap :=
  mkMap (sameProcess m) (shared m) (cudaDev m) (upd (mems m) bank x) (offsets m).

Definition set_size (x : connectMapMem) (s : Z) : connectMapMem :=
  mkMem (gpuPtr x) (cpuPtr x) s (ipc x).

Definition get_offset (m : connectMap) (n : offsetName) : Z :=
  match n with
  | sendMem => o_sendMem (offsets m)
  | recvMem => o_recvMem (offsets m)
  | buffs p => o_buffs (offsets m) p
  end.

Definition set_offset (m : connectMap) (n : offsetName) (w : Z) : connectMap :=
  let o := offsets m in
  mkMap (sameProcess m) (shared m) (cudaDev m) (mems m)
    match n with
    | sendMem => mkOffsets w (o_recvMem o) (o_buffs o)
    | recvMem => mkOffsets (o_sendMem o) w (o_buffs o)
    | buffs p => mkOffsets (o_sendMem o) (o_recvMem o) (upd (o_buffs o) p w)
    end.

(** The macros that read an offset word [w]. *)
Definition NCCL_NET_MAP_OFFSET_BANK (w : Z) : Z := Z.shiftr w 30.

Definition NCCL_NET_MAP_OFFSET_NULL (w : Z) : bool := Z.shiftr w 29 =? 0.

Definition NCCL_NET_MAP_DEV_MEM (w : Z) : bool :=
  negb (Z.land w NCCL_NET_MAP_MASK_DEVMEM =? 0).

Inductive view := cpu | gpu.

Definition view_ptr (v : view) (x : connectMapMem) : Z :=
  match v with cpu => cpuPtr x | gpu => gpuPtr x end.

Definition NCCL_NET_MAP_GET_POINTER (m : connectMap) (v : view) (n : offsetName) : Z :=
  let w := get_offset m n in
  if NCCL_NET_MAP_OFFSET_NULL w then 0
  else view_ptr v (mem_at m (NCCL_NET_MAP_OFFSET_BANK w))
       + Z.land w NCCL_NET_MAP_MASK_OFFSET.

(** [NCCL_NET_MAP_ADD_POINTER(mapStruct, shared, dev, memSize, offsetName)].
    [bank] is an [int]; the offset word is a [uint32_t]; the bank sizes
    are [int]s. *)
Definition NCCL_NET_MAP_ADD_POINTER
    (m : connectMap) (shared dev memSize : Z) (n : offsetName) : connectMap :=
  let bank := int32 (NCCL_NET_MAP_MASK_USED + dev * NCCL_NET_MAP_MASK_DEVMEM
                     + shared * NCCL_NET_MAP_MASK_SHARED) in
  if shared =? 0 then
    if negb (dev =? 0) then
      let d := mem_at m NCCL_NET_MAP_DEVMEM in
      let m1 := set_offset m n (wrap32 (bank + size d)) in
      set_mem m1 NCCL_NET_MAP_DEVMEM (set_size d (int32 (size d + memSize)))
    else
      let h := mem_at m NCCL_NET_MAP_HOSTMEM in
      let m1 := set_offset m n (wrap32 (bank + size h)) in
      set_mem m1 NCCL_NET_MAP_HOSTMEM (set_size h (int32 (size h + memSize)))
  else
    set_offset m n (wrap32 bank).

(** The operation under the name the design gives it: the two flags are
    booleans at every call site. *)
Definition addSlot (m : connectMap) (shared dev : bool) (memSize : Z) (n : offsetName)
  : connectMap :=
  NCCL_NET_MAP_ADD_POINTER m (Z.b2z shared) (Z.b2z dev) memSize n.

Definition devMem (m : connectMap) (n : offsetName) : bool :=
  NCCL_NET_MAP_DEV_MEM (get_offset m n).

(** The word that [addSlot] stores, in closed form. *)
Definition slot_word (shared dev : bool) (off : Z) : Z :=
  wrap32 (2 ^ 29 + Z.b2z dev * 2 ^ 30 + Z.b2z shared * 2 ^ 31 + off).

(** The bank a non-shared slot is appended to. *)
Definition own_bank (dev : bool) : Z :=
  if dev then NCCL_NET_MAP_DEVMEM else NCCL_NET_MAP_HOSTMEM.

(** The layout of the offset word as the design document words it: bit
    31 the present flag, bit 30 the shared flag, bit 29 the device flag.
    It is compared below with the layout the macros implement. *)
Definition documented_layout (w : Z) (used shared dev : bool) (off : Z) : Prop :=
  Z.testbit w 31 = used /\ Z.testbit w 30 = shared /\ Z.testbit w 29 = dev /\
  Z.land w (2 ^ 29 - 1) = off.

(** A sequence of [addSlot] calls. *)
Record call := mkCall {
  c_shared : bool;
  c_dev : bool;
  c_size : Z;
  c_name : offsetName
}.

Definition addSlot_call (m : connectMap) (c : call) : connectMap :=
  addSlot m (c_shared c) (c_dev c) (c_size c) (c_name c).

Definition addSlots (m : connectMap) (cs : list call) : connectMap :=
  fold_left addSlot_call cs m.




End BankMap.

(** ** Control flow of the C functions

    A function body runs over a mutable state [S].  A statement either
    falls through with a value, leaves the function with a result code
    (a [return], also the one hidden in [NCCLCHECK] and [CUDACHECK]), or
    has no defined behaviour in C (an access out of bounds, a division
    by zero, a loop that does not end).  Writes made before the function
    is left stay in the state. *)

Module Exec.

Inductive step (A : Type) :=
| Next (a : A)
| Exit (r : ncclResult_t)
| Undef.
Arguments Next {A} a.
Arguments Exit {A} r.
Arguments Undef {A}.

Definition M (S A : Type) : Type := S -> step A * S.

Definition ret {S A} (a : A) : M S A := fun s => (Next a, s).

Definition bind {S A B} (m : M S A) (f : A -> M S B) : M S B :=
  fun s =>
    match m s with
    | (Next a, s') => f a s'
    | (Exit r, s') => (Exit r, s')
    | (Undef, s') => (Undef, s')
    end.

Definition exit {S A} (r : ncclResult_t) : M S A := fun s => (Exit r, s).
Definition undef {S A} : M S A := fun s => (Undef, s).
Definition get {S} : M S S := fun s => (Next s, s).
Definition put {S} (s : S) : M S unit := fun _ => (Next tt, s).
Definition modify {S} (f : S -> S) : M S unit := fun s => (Next tt, f s).

(** [NCCLCHECK(call)]: leave with the callee's code unless it succeeded. *)
Definition NCCLCHECK {S} (r : ncclResult_t) : M S unit :=
  match r with
  | ncclSuccess => ret tt
  | _ => exit r
  end.

(** [CUDACHECK(call)]: a failed CUDA call leaves with
    [ncclUnhandledCudaError]. *)
Definition CUDACHECK {S} (ok : bool) : M S unit :=
  if ok then ret tt else exit ncclUnhandledCudaError.

(** [NCCLCHECK(f(...))] around a call of a function of this file: the
    callee's [ncclSuccess] falls through, any other code is passed up. *)
Definition NCCLCHECK_call {S} (m : M S unit) : M S unit :=
  fun s =>
    match m s with
    | (Next _, s') => (Next tt, s')
    | (Exit ncclSuccess, s') => (Next tt, s')
    | (Exit r, s') => (Exit r, s')
    | (Undef, s') => (Undef, s')
    end.

Definition when {S} (c : bool) (m : M S unit) : M S unit :=
  if c then m else ret tt.

(** [for (i = 0; i < n; i++) body(i)], counting from [i]. *)
Fixpoint for_loop {S} (n : nat) (i : Z) (body : Z -> M S unit) : M S unit :=
  match n with
  | O => ret tt
  | S n' => bind (body i) (fun _ => for_loop n' (i + 1) body)
  end.

(** Partial correctness of a statement: from a state in [P], falling
    through lands in [Q] and leaving the function with code [r] lands in
    [E r]. *)
Definition hoare {S A} (P : S -> Prop) (m : M S A)
    (Q : A -> S -> Prop) (E : ncclResult_t -> S -> Prop) : Prop :=
  forall s, P s ->
    match m s with
    | (Next a, s') => Q a s'
    | (Exit r, s') => E r s'
    | (Undef, _) => True
    end.

(** What is known after a statement that did not run into undefined
    behaviour, whether it fell through or left the function. *)
Definition after {S A} (o : step A * S) (Q : S -> Prop) : Prop :=
  match o with
  | (Undef, _) => True
  | (_, s') => Q s'
  end.

(** Total correctness of a statement: from a state in [P] its behaviour
    is defined, falling through lands in [Q] and leaving the function
    with code [r] lands in [E r]. *)
Definition total {S A} (P : S -> Prop) (m : M S A)
    (Q : A -> S -> Prop) (E : ncclResult_t -> S -> Prop) : Prop :=
  forall s, P s ->
    match m s with
    | (Next a, s') => Q a s'
    | (Exit r, s') => E r s'
    | (Undef, _) => False
    end.

(** The behaviour of a statement is defined, and [Q] holds when it is
    over, whether it fell through or left the function. *)
Definition lands {S A} (o : step A * S) (Q : S -> Prop) : Prop :=
  match o with
  | (Undef, _) => False
  | (_, s') => Q s'
  end.

(** The same, with the codes the statement may leave the function
    with. *)
Definition lands_with {S A} (o : step A * S) (Q : S -> Prop)
    (X : ncclResult_t -> Prop) : Prop :=
  match o with
  | (Next _, s') => Q s'
  | (Exit r, s') => Q s' /\ X r
  | (Undef, _) => False
  end.

(** A statement keeps [I] and never leaves with [ncclSuccess]. *)
Definition stable {S A} (I : S -> Prop) (m : M S A) : Prop :=
  hoare I m (fun _ s => I s) (fun r _ => r <> ncclSuccess).

End Exec.
Export Exec.

Declare Scope exec_scope.
Delimit Scope exec_scope with exec.
Notation "'let*' x ':=' m 'in' k" := (bind m (fun x => k))
  (at level 10, x name, m at level 100, k at level 200) : exec_scope.
Notation "m ';;' k" := (bind m (fun _ => k))
  (at level 100, k at level 200, right associativity) : exec_scope.

(** ** Shared buffer pool *)

Module SharedPool.
Local Open Scope exec_scope.

Definition NCCL_SHARED_STEPS : Z := 16.

(** [struct ncclProxySharedP2p], declared in the proxy header: the
    fields this file touches. *)
Record ncclProxySharedP2p := mkP2p {
  refcount : Z;
  p_size : Z;
  cudaBuff : Z;
  hostBuff : Z;
  p_ipc : Z
}.

Record ncclProxyPeer := mkPeer {
  send : ncclProxySharedP2p;
  recv : ncclProxySharedP2p
}.

(** A zero-filled peer record, as [ncclCalloc] returns it. *)
Definition zeroP2p : ncclProxySharedP2p := mkP2p 0 0 0 0 0.
Definition zeroPeer : ncclProxyPeer := mkPeer zeroP2p zeroP2p.

(** What the pool asks of the allocator and of the CUDA runtime. *)
Inductive event :=
| EvCallocPeers (n : Z)
| EvCallocPeer (localRank : Z)
| EvCudaCalloc (ptr size : Z)
| EvIpcGetMemHandle (ptr : Z)
| EvCudaHostCalloc (ptr size : Z)
| EvCudaFree (ptr : Z)
| EvCudaHostFree (ptr : Z)
| EvFreePeer (localRank : Z)
| EvFreePeers.

(** [comm->proxyState.progressState.localPeers]: NULL, or an array of
    [comm->localRanks] pointers, each NULL or a peer record; and the
    log of allocator and runtime calls. *)
Record pool := mkPool {
  localPeers : option (list (option ncclProxyPeer));
  log : list event
}.

(** The fields of [comm] the pool reads. *)
Record comm_t := mkComm {
  localRanks : Z;
  p2pChunkSize : Z
}.

(** The answers of the allocator and of the CUDA runtime. *)
Record env_t := mkEnv {
  calloc_peers : ncclResult_t;
  calloc_peer : ncclResult_t;
  cudaCalloc : ncclResult_t * Z;
  ipcGetMemHandle : bool * Z;
  cudaHostCalloc : ncclResult_t * Z;
  cudaFree : bool;
  cudaHostFree : ncclResult_t
}.

(** The out-parameters of [sharedBuffersInit]: [None] for a NULL
    pointer, else the value the pointee holds. *)
Record outs := mkOuts {
  out_gpuPtr : option Z;
  out_cpuPtr : option Z;
  out_size : option Z;
  out_ipc : option Z
}.

Definition emit (e : event) : M pool unit :=
  modify (fun st => mkPool (localPeers st) (log st ++ [e])).

Definition set_localPeers (ps : option (list (option ncclProxyPeer))) : M pool unit :=
  modify (fun st => mkPool ps (log st)).

(** [localPeers[localRank]], undefined out of bounds or through NULL. *)
Definition read_peer (localRank : Z) : M pool (option ncclProxyPeer) :=
  let* st := get in
  match localPeers st with
  | None => undef
  | Some ps =>
      if (0 <=? localRank) && (localRank <? Z.of_nat (length ps)) then
        match ps !! Z.to_nat localRank with
        | Some p => ret p
        | None => undef
        end
      else undef
  end.

Definition write_peer (localRank : Z) (p : option ncclProxyPeer) : M pool unit :=
  let* st := get in
  match localPeers st with
  | None => undef
  | Some ps =>
      if (0 <=? localRank) && (localRank <? Z.of_nat (length ps)) then
        set_localPeers (Some (<[Z.to_nat localRank := p]> ps))
      else undef
  end.

(** [type == 0 ? &peer->send : &peer->recv] *)
Definition dir (type : Z) (p : ncclProxyPeer) : ncclProxySharedP2p :=
  if type =? 0 then send p else recv p.

Definition set_dir (type : Z) (p : ncclProxyPeer) (x : ncclProxySharedP2p) : ncclProxyPeer :=
  if type =? 0 then mkPeer x (recv p) else mkPeer (send p) x.

(** Field access through [state], which points into the peer record of
    [localRank]. *)
Definition read_state (localRank type : Z) : M pool ncclProxySharedP2p :=
  let* p := read_peer localRank in
  match p with
  | Some peer => ret (dir type peer)
  | None => undef
  end.

Definition write_state (localRank type : Z) (x : ncclProxySharedP2p) : M pool unit :=
  let* p := read_peer localRank in
  match p with
  | Some peer => write_peer localRank (Some (set_dir type peer x))
  | None => undef
  end.

Definition lift {A} (m : M pool A) : M (pool * outs) A :=
  fun s => let '(a, p) := m (fst s) in (a, (p, snd s)).

Definition set_outs (f : outs -> outs) : M (pool * outs) unit :=
  modify (fun s => (fst s, f (snd s))).

(** Writing through an out-parameter that may be NULL. *)
Definition store_opt (old : option Z) (v : Z) : option Z :=
  match old with Some _ => Some v | None => None end.

Definition sharedBuffersInit (comm : comm_t) (env : env_t)
    (cuda localRank type sameProcess nChannels : Z) : M (pool * outs) unit :=
  if (cuda =? 0) && (sameProcess =? 0) then exit ncclInternalError
  else
    let* st := lift get in
    when (bool_decide (localPeers st = None))
      (NCCLCHECK (calloc_peers env) ;;
       lift (emit (EvCallocPeers (localRanks comm))) ;;
       lift (set_localPeers
               (Some (replicate (Z.to_nat (localRanks comm)) None)))) ;;
    let* p := lift (read_peer localRank) in
    when (bool_decide (p = None))
      (NCCLCHECK (calloc_peer env) ;;
       lift (emit (EvCallocPeer localRank)) ;;
       lift (write_peer localRank (Some zeroPeer))) ;;
    let* state := lift (read_state localRank type) in
    let state := mkP2p (int32 (refcount state + 1)) (p_size state)
                       (cudaBuff state) (hostBuff state) (p_ipc state) in
    let state :=
      if p_size state =? 0 then
        mkP2p (refcount state)
              (int32 (nChannels * NCCL_SHARED_STEPS * p2pChunkSize comm))
              (cudaBuff state) (hostBuff state) (p_ipc state)
      else state in
    lift (write_state localRank type state) ;;
    set_outs (fun o => mkOuts (out_gpuPtr o) (out_cpuPtr o)
                              (store_opt (out_size o) (p_size state)) (out_ipc o)) ;;
    when (negb (cuda =? 0) && (cudaBuff state =? 0))
      (NCCLCHECK (fst (cudaCalloc env)) ;;
       lift (emit (EvCudaCalloc (snd (cudaCalloc env)) (p_size state))) ;;
       lift (write_state localRank type
               (mkP2p (refcount state) (p_size state) (snd (cudaCalloc env))
                      (hostBuff state) (p_ipc state))) ;;
       when (sameProcess =? 0)
         (CUDACHECK (fst (ipcGetMemHandle env)) ;;
          lift (emit (EvIpcGetMemHandle (snd (cudaCalloc env)))) ;;
          lift (write_state localRank type
                  (mkP2p (refcount state) (p_size state) (snd (cudaCalloc env))
                         (hostBuff state) (snd (ipcGetMemHandle env)))))) ;;
    when ((cuda =? 0) && (hostBuff state =? 0))
      (NCCLCHECK (fst (cudaHostCalloc env)) ;;
       lift (emit (EvCudaHostCalloc (snd (cudaHostCalloc env)) (p_size state))) ;;
       lift (write_state localRank type
               (mkP2p (refcount state) (p_size state) (cudaBuff state)
                      (snd (cudaHostCalloc env)) (p_ipc state)))) ;;
    let* state := lift (read_state localRank type) in
    set_outs (fun o => mkOuts (out_gpuPtr o)
                (store_opt (out_cpuPtr o)
                   (if negb (cuda =? 0) then cudaBuff state else hostBuff state))
                (out_size o) (out_ipc o)) ;;
    let* o := (fun s => (Next (snd s), s)) in
    (if negb (sameProcess =? 0) then
      match out_gpuPtr o, out_cpuPtr o with
      | None, _ => ret tt
      | Some _, Some c =>
          set_outs (fun o => mkOuts (Some c) (out_cpuPtr o) (out_size o) (out_ipc o))
      | Some _, None => undef
      end
    else
      set_outs (fun o => mkOuts (store_opt (out_gpuPtr o) 0) (out_cpuPtr o)
                                (out_size o) (store_opt (out_ipc o) (p_ipc state)))) ;;
    exit ncclSuccess.

(** [sharedBuffersGet]: the offset of a slot of a channel in the pool. *)
Definition sharedBuffersGet (comm : comm_t) (channel slot : Z) : Z :=
  let globalSlot := int32 (int32 (channel * NCCL_SHARED_STEPS) + slot) in
  int32 (p2pChunkSize comm * globalSlot).

(** [for (r = 0; r < comm->localRanks; r++) if (localPeers[r]) return
    ncclSuccess;] *)
Definition any_peer_left (comm : comm_t) : M pool unit :=
  for_loop (Z.to_nat (localRanks comm)) 0
    (fun r => let* p := read_peer r in
              match p with
              | Some _ => exit ncclSuccess
              | None => ret tt
              end).

Definition sharedBuffersDestroy (comm : comm_t) (env : env_t)
    (localRank type : Z) : M pool unit :=
  let* st := get in
  when (bool_decide (localPeers st = None)) (NCCLCHECK ncclInternalError) ;;
  let* p := read_peer localRank in
  when (bool_decide (p = None)) (NCCLCHECK ncclInternalError) ;;
  let* state := read_state localRank type in
  when (p_size state =? 0) (NCCLCHECK ncclInternalError) ;;
  let state := mkP2p (int32 (refcount state - 1)) (p_size state)
                     (cudaBuff state) (hostBuff state) (p_ipc state) in
  write_state localRank type state ;;
  when (refcount state =? 0)
    (when (negb (cudaBuff state =? 0))
       (CUDACHECK (cudaFree env) ;; emit (EvCudaFree (cudaBuff state))) ;;
     when (negb (hostBuff state =? 0))
       (NCCLCHECK (cudaHostFree env) ;; emit (EvCudaHostFree (hostBuff state)))) ;;
  let* p := read_peer localRank in
  match p with
  | None => undef
  | Some peer =>
      if negb (refcount (send peer) =? 0) || negb (refcount (recv peer) =? 0)
      then exit ncclSuccess
      else
        emit (EvFreePeer localRank) ;;
        write_peer localRank None ;;
        any_peer_left comm ;;
        emit EvFreePeers ;;
        set_localPeers None ;;
        exit ncclSuccess
  end.

(** The other direction of a peer record. *)
Definition other_dir (type : Z) (p : ncclProxyPeer) : ncclProxySharedP2p :=
  if type =? 0 then recv p else send p.

Definition with_refcount (x : ncclProxySharedP2p) (r : Z) : ncclProxySharedP2p :=
  mkP2p r (p_size x) (cudaBuff x) (hostBuff x) (p_ipc x).

Definition is_null (p : option ncclProxyPeer) : bool :=
  match p with None => true | Some _ => false end.

(** The buffers of a direction that [sharedBuffersDestroy] hands back. *)
Definition buffer_frees (x : ncclProxySharedP2p) : list event :=
  (if cudaBuff x =? 0 then [] else [EvCudaFree (cudaBuff x)])
  ++ (if hostBuff x =? 0 then [] else [EvCudaHostFree (hostBuff x)]).

(** The state [sharedBuffersDestroy] leaves when it runs to the end. *)
Definition destroyed (st : pool) (ps : list (option ncclProxyPeer))
    (L type : Z) (peer : ncclProxyPeer) : pool :=
  let x := dir type peer in
  let r := int32 (refcount x - 1) in
  let peer' := set_dir type peer (with_refcount x r) in
  let lg := log st ++ (if r =? 0 then buffer_frees x else []) in
  if negb (refcount (send peer') =? 0) || negb (refcount (recv peer') =? 0)
  then mkPool (Some (<[Z.to_nat L := Some peer']> ps)) lg
  else if forallb is_null (<[Z.to_nat L := None]> ps)
       then mkPool None (lg ++ [EvFreePeer L; EvFreePeers])
       else mkPool (Some (<[Z.to_nat L := None]> ps)) (lg ++ [EvFreePeer L]).

End SharedPool.

(** ** Staging memory shared with the compute engine

    Modelled from the spec: [struct ncclSendMem] and [struct ncclRecvMem]
    are declared in a header that is not part of this source file; the
    spec lists their fields as [sendMem{head}] and [recvMem{tail,
    sizesFifo[NCCL_STEPS], offsFifo[NCCL_STEPS]}].  Memory is a typed
    heap: an object of each struct type is found under its address. *)

Module Staging.

Record ncclSendMem := mkSendMem {
  head : Z
}.

Record ncclRecvMem := mkRecvMem {
  tail : Z;
  sizesFifo : Z -> Z;
  offsFifo : Z -> Z
}.

Definition zeroSendMem : ncclSendMem := mkSendMem 0.
Definition zeroRecvMem : ncclRecvMem := mkRecvMem 0 (fun _ => 0) (fun _ => 0).

Record memory := mkMemory {
  sendMems : Z -> ncclSendMem;
  recvMems : Z -> ncclRecvMem;
  words64 : Z -> Z
}.

(** Zero-filled memory handed out by a calloc: the objects in
    [ptr, ptr + size) read as zero. *)
Definition in_range (ptr size a : Z) : bool := (ptr <=? a) && (a <? ptr + size).

Definition calloc_at (ptr size : Z) (mem : memory) : memory :=
  mkMemory
    (fun a => if in_range ptr size a then zeroSendMem else sendMems mem a)
    (fun a => if in_range ptr size a then zeroRecvMem else recvMems mem a)
    (fun a => if in_range ptr size a then 0 else words64 mem a).

Definition set_head (mem : memory) (ptr v : Z) : memory :=
  mkMemory (upd (sendMems mem) ptr (mkSendMem v)) (recvMems mem) (words64 mem).

Definition set_tail (mem : memory) (ptr v : Z) : memory :=
  let r := recvMems mem ptr in
  mkMemory (sendMems mem)
           (upd (recvMems mem) ptr (mkRecvMem v (sizesFifo r) (offsFifo r)))
           (words64 mem).

Definition set_sizesFifo (mem : memory) (ptr i v : Z) : memory :=
  let r := recvMems mem ptr in
  mkMemory (sendMems mem)
           (upd (recvMems mem) ptr (mkRecvMem (tail r) (upd (sizesFifo r) i v) (offsFifo r)))
           (words64 mem).

Definition set_offsFifo (mem : memory) (ptr i v : Z) : memory :=
  let r := recvMems mem ptr in
  mkMemory (sendMems mem)
           (upd (recvMems mem) ptr (mkRecvMem (tail r) (sizesFifo r) (upd (offsFifo r) i v)))
           (words64 mem).

Definition set_word64 (mem : memory) (ptr v : Z) : memory :=
  mkMemory (sendMems mem) (recvMems mem) (upd (words64 mem) ptr v).

End Staging.

(** ** Send-side connect *)

Module Connect.
Local Open Scope exec_scope.

(** Sizes, build options and parameters that come from outside this
    file. *)
Record config := mkConfig {
  sizeof_ncclNetHandle_t : Z;
  sizeof_connectMap : Z;
  sizeof_ncclSendMem : Z;
  sizeof_ncclRecvMem : Z;
  CUDA_IPC_MIN : Z;
  cuda_11070 : bool;
  ncclGdrCopy : Z;
  ncclParamNetSharedComms : Z;
  ncclParamGdrCopySyncEnable : Z
}.

Definition NCCL_PTR_HOST : Z := 1.
Definition NCCL_PTR_CUDA : Z := 2.

(** [ALIGN_SIZE(size, align)] rounds [size] up to a multiple of [align]. *)
Definition ALIGN_SIZE (size align : Z) : Z := Z.quot (size + align - 1) align * align.

(** [struct sendResources]; pointers are addresses, [0] is NULL. *)
Record sendResources := mkSendResources {
  map : BankMap.connectMap;
  netSendComm : Z;
  sendMem : Z;
  recvMem : Z;
  rank : Z;
  localRank : Z;
  remoteRank : Z;
  netDev : Z;
  useGdr : Z;
  useDmaBuf : Z;
  maxRecvs : Z;
  gdcSync : Z;
  gdrDesc : Z;
  shared : Z;
  channelId : Z;
  connIndex : Z;
  buffers : Z -> Z;
  buffSizes : Z -> Z;
  mhandles : Z -> Z;
  step : Z
}.

Definition set_map (x : sendResources) (v : BankMap.connectMap) : sendResources :=
  mkSendResources v (netSendComm x) (sendMem x) (recvMem x) (rank x) (localRank x) (remoteRank x) (netDev x) (useGdr x) (useDmaBuf x) (maxRecvs x) (gdcSync x) (gdrDesc x) (shared x) (channelId x) (connIndex x) (buffers x) (buffSizes x) (mhandles x) (step x).

Definition set_netSendComm (x : sendResources) (v : Z) : sendResources :=
  mkSendResources (map x) v (sendMem x) (recvMem x) (rank x) (localRank x) (remoteRank x) (netDev x) (useGdr x) (useDmaBuf x) (maxRecvs x) (gdcSync x) (gdrDesc x) (shared x) (channelId x) (connIndex x) (buffers x) (buffSizes x) (mhandles x) (step x).

Definition set_sendMem (x : sendResources) (v : Z) : sendResources :=
  mkSendResources (map x) (netSendComm x) v (recvMem x) (rank x) (localRank x) (remoteRank x) (netDev x) (useGdr x) (useDmaBuf x) (maxRecvs x) (gdcSync x) (gdrDesc x) (shared x) (channelId x) (connIndex x) (buffers x) (buffSizes x) (mhandles x) (step x).

Definition set_recvMem (x : sendResources) (v : Z) : sendResources :=
  mkSendResources (map x) (netSendComm x) (sendMem x) v (rank x) (localRank x) (remoteRank x) (netDev x) (useGdr x) (useDmaBuf x) (maxRecvs x) (gdcSync x) (gdrDesc x) (shared x) (channelId x) (connIndex x) (buffers x) (buffSizes x) (mhandles x) (step x).

Definition set_gdcSync (x : sendResources) (v : Z) : sendResources :=
  mkSendResources (map x) (netSendComm x) (sendMem x) (recvMem x) (rank x) (localRank x) (remoteRank x) (netDev x) (useGdr x) (useDmaBuf x) (maxRecvs x) v (gdrDesc x) (shared x) (channelId x) (connIndex x) (buffers x) (buffSizes x) (mhandles x) (step x).

Definition set_gdrDesc (x : sendResources) (v : Z) : sendResources :=
  mkSendResources (map x) (netSendComm x) (sendMem x) (recvMem x) (rank x) (localRank x) (remoteRank x) (netDev x) (useGdr x) (useDmaBuf x) (maxRecvs x) (gdcSync x) v (shared x) (channelId x) (connIndex x) (buffers x) (buffSizes x) (mhandles x) (step x).

Definition set_buffers (x : sendResources) (v : Z -> Z) : sendResources :=
  mkSendResources (map x) (netSendComm x) (sendMem x) (recvMem x) (rank x) (localRank x) (remoteRank x) (netDev x) (useGdr x) (useDmaBuf x) (maxRecvs x) (gdcSync x) (gdrDesc x) (shared x) (channelId x) (connIndex x) v (buffSizes x) (mhandles x) (step x).

Definition set_buffSizes (x : sendResources) (v : Z -> Z) : sendResources :=
  mkSendResources (map x) (netSendComm x) (sendMem x) (recvMem x) (rank x) (localRank x) (remoteRank x) (netDev x) (useGdr x) (useDmaBuf x) (maxRecvs x) (gdcSync x) (gdrDesc x) (shared x) (channelId x) (connIndex x) (buffers x) v (mhandles x) (step x).

Definition set_mhandles (x : sendResources) (v : Z -> Z) : sendResources :=
  mkSendResources (map x) (netSendComm x) (sendMem x) (recvMem x) (rank x) (localRank x) (remoteRank x) (netDev x) (useGdr x) (useDmaBuf x) (maxRecvs x) (gdcSync x) (gdrDesc x) (shared x) (channelId x) (connIndex x) (buffers x) (buffSizes x) v (step x).

Definition set_step (x : sendResources) (v : Z) : sendResources :=
  mkSendResources (map x) (netSendComm x) (sendMem x) (recvMem x) (rank x) (localRank x) (remoteRank x) (netDev x) (useGdr x) (useDmaBuf x) (maxRecvs x) (gdcSync x) (gdrDesc x) (shared x) (channelId x) (connIndex x) (buffers x) (buffSizes x) (mhandles x) v.

(** The fields of [comm] that connect reads. *)
Record comm_t := mkComm {
  comm_rank : Z;
  pidHash : Z -> Z;
  comm_buffSizes : Z -> Z;
  p2pnChannels : Z;
  allocP2pNetLLBuffers : Z;
  nRanks : Z;
  pool_comm : SharedPool.comm_t
}.

(** [struct ncclSharedNetComms], the send half. *)
Record ncclSharedNetComms := mkSharedNetComms {
  sendComm : Z -> Z;
  sendRefCount : Z -> Z
}.

Definition zeroSharedNetComms : ncclSharedNetComms :=
  mkSharedNetComms (fun _ => 0) (fun _ => 0).

(** Calls to the fabric plugin and to the runtime. *)
Inductive event :=
| EvNetConnect (netDev : Z)
| EvCudaCalloc (ptr size : Z)
| EvIpcGetMemHandle (ptr : Z)
| EvCudaHostCalloc (ptr size : Z)
| EvCreateShm (size : Z)
| EvGdrCudaCalloc (cpuPtr gpuPtr : Z)
| EvGetDmaBufFd (ptr size : Z)
| EvRegMrDmaBuf (comm ptr size type fd : Z)
| EvClose (fd : Z)
| EvRegMr (comm ptr size type : Z).

(** The answers of the fabric plugin, the allocator and the runtime. *)
Record env_t := mkEnv {
  netConnect : ncclResult_t * Z;
  calloc_netComms : ncclResult_t;
  cudaGetDevice : bool * Z;
  pool_env : SharedPool.env_t;
  devCalloc : ncclResult_t * Z;
  devIpcHandle : bool * Z;
  hostCalloc : ncclResult_t * Z;
  createShm : ncclResult_t * Z;
  gdrCalloc : ncclResult_t * (Z * Z * Z);
  getDmaBufFd : Z -> bool * Z;
  regMrDmaBuf : Z -> ncclResult_t * Z;
  regMr : Z -> ncclResult_t * Z
}.

(** What [sendProxyConnect] reads and writes: the resources of the
    connection, the progress state of the proxy (shared pool and shared
    fabric comms), staging memory, the out-parameters [*done] and
    [respBuff], and the log of calls to the outside. *)
Record world := mkWorld {
  res : sendResources;
  pool : SharedPool.pool;
  netComms : Z -> option (Z -> ncclSharedNetComms);
  mem : Staging.memory;
  done : Z;
  respBuff : option BankMap.connectMap;
  log : list event
}.

Definition set_res (x : world) (v : sendResources) : world :=
  mkWorld v (pool x) (netComms x) (mem x) (done x) (respBuff x) (log x).

Definition set_pool (x : world) (v : SharedPool.pool) : world :=
  mkWorld (res x) v (netComms x) (mem x) (done x) (respBuff x) (log x).

Definition set_netComms (x : world) (v : Z -> option (Z -> ncclSharedNetComms)) : world :=
  mkWorld (res x) (pool x) v (mem x) (done x) (respBuff x) (log x).

Definition set_mem (x : world) (v : Staging.memory) : world :=
  mkWorld (res x) (pool x) (netComms x) v (done x) (respBuff x) (log x).

Definition set_done (x : world) (v : Z) : world :=
  mkWorld (res x) (pool x) (netComms x) (mem x) v (respBuff x) (log x).

Definition set_respBuff (x : world) (v : option BankMap.connectMap) : world :=
  mkWorld (res x) (pool x) (netComms x) (mem x) (done x) v (log x).

Definition set_log (x : world) (v : list event) : world :=
  mkWorld (res x) (pool x) (netComms x) (mem x) (done x) (respBuff x) v.

Definition emit (e : event) : M world unit :=
  modify (fun w => set_log w (log w ++ [e])).

Definition upd_res (f : sendResources -> sendResources) : M world unit :=
  modify (fun w => set_res w (f (res w))).

Definition upd_map (f : BankMap.connectMap -> BankMap.connectMap) : M world unit :=
  upd_res (fun r => set_map r (f (map r))).

Definition upd_mapMem (bank : Z) (f : BankMap.connectMapMem -> BankMap.connectMapMem)
  : M world unit :=
  upd_map (fun m => BankMap.set_mem m bank (f (BankMap.mem_at m bank))).

(** Run a statement of the shared pool on the pool of this world. *)
Definition on_pool {A} (m : M SharedPool.pool A) : M world A :=
  fun w => let '(a, p) := m (pool w) in (a, set_pool w p).

(** [if (localPeers == NULL) NCCLCHECK(ncclCalloc(&localPeers, ...));
     if (localPeers[localRank] == NULL) NCCLCHECK(ncclCalloc(...));] *)
Definition ensure_peer (comm : comm_t) (env : env_t) (localRank : Z) : M world unit :=
  let penv := pool_env env in
  let* w := get in
  when (bool_decide (SharedPool.localPeers (pool w) = None))
    (NCCLCHECK (SharedPool.calloc_peers penv) ;;
     on_pool (SharedPool.emit (SharedPool.EvCallocPeers
                                 (SharedPool.localRanks (pool_comm comm)))) ;;
     on_pool (SharedPool.set_localPeers
                (Some (replicate (Z.to_nat (SharedPool.localRanks (pool_comm comm)))
                                 None)))) ;;
  let* p := on_pool (SharedPool.read_peer localRank) in
  when (bool_decide (p = None))
    (NCCLCHECK (SharedPool.calloc_peer penv) ;;
     on_pool (SharedPool.emit (SharedPool.EvCallocPeer localRank)) ;;
     on_pool (SharedPool.write_peer localRank (Some SharedPool.zeroPeer))).

(** [ncclNetConnect(comm, netDev, reqBuff, &sendComm)]: the comm the
    plugin hands back, NULL while the connection is not ready. *)
Definition ncclNetConnect (env : env_t) (netDev : Z) : M world Z :=
  emit (EvNetConnect netDev) ;;
  NCCLCHECK (fst (netConnect env)) ;;
  ret (snd (netConnect env)).

(** The first part of [sendProxyConnect]: check the request, get the
    fabric send comm, and answer [done = 0] while it is not ready. *)
Definition connect_fabric (cfg : config) (comm : comm_t) (env : env_t) (reqSize : Z)
  : M world unit :=
  when (negb (reqSize =? sizeof_ncclNetHandle_t cfg)) (exit ncclInternalError) ;;
  let* w := get in
  let r := res w in
  (if negb (shared r =? 0) then
     ensure_peer comm env (localRank r) ;;
     if (1 <? maxRecvs r) && negb (ncclParamNetSharedComms cfg =? 0) then
       let* w := get in
       when (bool_decide (netComms w (netDev r) = None))
         (NCCLCHECK (calloc_netComms env) ;;
          modify (fun w => set_netComms w
                    (upd (netComms w) (netDev r) (Some (fun _ => zeroSharedNetComms))))) ;;
       let* w := get in
       match netComms w (netDev r) with
       | None => undef
       | Some arr =>
           let comms := arr (remoteRank r) in
           let* c :=
             (if sendComm comms (channelId r) =? 0
              then ncclNetConnect env (netDev r)
              else ret (sendComm comms (channelId r))) in
           let comms := mkSharedNetComms (upd (sendComm comms) (channelId r) c)
                                         (sendRefCount comms) in
           let comms :=
             if negb (c =? 0) then
               mkSharedNetComms (sendComm comms)
                 (upd (sendRefCount comms) (channelId r)
                      (int32 (sendRefCount comms (channelId r) + 1)))
             else comms in
           modify (fun w => set_netComms w
                     (upd (netComms w) (netDev r) (Some (upd arr (remoteRank r) comms)))) ;;
           upd_res (fun r => set_netSendComm r c)
       end
     else
       let* c := ncclNetConnect env (netDev r) in
       upd_res (fun r => set_netSendComm r c)
   else
     let* c := ncclNetConnect env (netDev r) in
     upd_res (fun r => set_netSendComm r c)) ;;
  let* w := get in
  if netSendComm (res w) =? 0 then
    modify (fun w => set_done w 0) ;; exit ncclSuccess
  else
    modify (fun w => set_done w 1).

(** [NCCLCHECK(sharedBuffersInit(comm, useGdr, localRank, 0,
    map->sameProcess, comm->p2pnChannels, &mapMem->gpuPtr,
    &mapMem->cpuPtr, &mapMem->size, &mapMem->ipc))] with [mapMem =
    map->mems + bank]. *)
Definition call_sharedBuffersInit (comm : comm_t) (env : env_t) (bank : Z)
  : M world unit :=
  fun w =>
    let r := res w in
    let mm := BankMap.mem_at (map r) bank in
    let o := SharedPool.mkOuts (Some (BankMap.gpuPtr mm)) (Some (BankMap.cpuPtr mm))
                               (Some (BankMap.size mm)) (Some (BankMap.ipc mm)) in
    let '(a, (p, o')) :=
      NCCLCHECK_call
        (SharedPool.sharedBuffersInit (pool_comm comm) (pool_env env) (useGdr r)
           (localRank r) 0 (BankMap.sameProcess (map r)) (p2pnChannels comm))
        (pool w, o) in
    let mm' := BankMap.mkMem (default 0 (SharedPool.out_gpuPtr o'))
                             (default 0 (SharedPool.out_cpuPtr o'))
                             (default 0 (SharedPool.out_size o'))
                             (default 0 (SharedPool.out_ipc o')) in
    (a, set_res (set_pool w p) (set_map r (BankMap.set_mem (map r) bank mm'))).

(** The second part: fill in the bank map. *)
Definition build_map (cfg : config) (comm : comm_t) (env : env_t) : M world unit :=
  let* w := get in
  let r := res w in
  upd_map (fun m =>
    BankMap.mkMap (Z.b2z (pidHash comm (rank r) =? pidHash comm (comm_rank comm)))
                  (shared r) (BankMap.cudaDev m) (BankMap.mems m) (BankMap.offsets m)) ;;
  CUDACHECK (fst (cudaGetDevice env)) ;;
  upd_map (fun m =>
    BankMap.mkMap (BankMap.sameProcess m) (BankMap.shared m) (snd (cudaGetDevice env))
                  (BankMap.mems m) (BankMap.offsets m)) ;;
  (if shared r =? 0 then
     for_loop (Z.to_nat NCCL_NUM_PROTOCOLS) 0 (fun p =>
       upd_map (fun m =>
         BankMap.NCCL_NET_MAP_ADD_POINTER m 0
           (Z.b2z (negb (p =? NCCL_PROTO_LL) && negb (useGdr r =? 0)))
           (comm_buffSizes comm p) (BankMap.buffs p)) ;;
       upd_res (fun r => set_buffSizes r (upd (buffSizes r) p (comm_buffSizes comm p))))
   else
     let bank := if negb (useGdr r =? 0) then BankMap.NCCL_NET_MAP_SHARED_DEVMEM
                 else BankMap.NCCL_NET_MAP_SHARED_HOSTMEM in
     call_sharedBuffersInit comm env bank ;;
     let* w := get in
     let mapMem := BankMap.mem_at (map (res w)) bank in
     upd_res (fun r => set_buffSizes r
                (upd (buffSizes r) NCCL_PROTO_SIMPLE (BankMap.size mapMem))) ;;
     when (negb (allocP2pNetLLBuffers comm =? 0))
       (upd_map (fun m =>
          BankMap.NCCL_NET_MAP_ADD_POINTER m 0 0 (comm_buffSizes comm NCCL_PROTO_LL)
            (BankMap.buffs NCCL_PROTO_LL)) ;;
        upd_res (fun r => set_buffSizes r
                   (upd (buffSizes r) NCCL_PROTO_LL (comm_buffSizes comm NCCL_PROTO_LL)))) ;;
     upd_map (fun m =>
       BankMap.NCCL_NET_MAP_ADD_POINTER m 1 (useGdr r) (BankMap.size mapMem)
         (BankMap.buffs NCCL_PROTO_SIMPLE))) ;;
  upd_map (fun m =>
    BankMap.NCCL_NET_MAP_ADD_POINTER m 0 0 (sizeof_ncclSendMem cfg) BankMap.sendMem) ;;
  upd_map (fun m =>
    BankMap.NCCL_NET_MAP_ADD_POINTER m 0 0 (sizeof_ncclRecvMem cfg) BankMap.recvMem).

(** The third part: back the dedicated banks with memory. *)
Definition allocate_banks (cfg : config) (comm : comm_t) (env : env_t) : M world unit :=
  let* w := get in
  let r := res w in
  let m := map r in
  let DEVMEM := BankMap.NCCL_NET_MAP_DEVMEM in
  let HOSTMEM := BankMap.NCCL_NET_MAP_HOSTMEM in
  when (negb (BankMap.size (BankMap.mem_at m DEVMEM) =? 0))
    (when (shared r =? 0)
       (when (BankMap.sameProcess m =? 0)
          (upd_mapMem DEVMEM (fun x =>
             BankMap.set_size x (int32 (ALIGN_SIZE (BankMap.size x) (CUDA_IPC_MIN cfg))))) ;;
        NCCLCHECK (fst (devCalloc env)) ;;
        let* w := get in
        emit (EvCudaCalloc (snd (devCalloc env))
                (BankMap.size (BankMap.mem_at (map (res w)) DEVMEM))) ;;
        upd_mapMem DEVMEM (fun x =>
          BankMap.mkMem (snd (devCalloc env)) (snd (devCalloc env))
                        (BankMap.size x) (BankMap.ipc x))) ;;
     when (BankMap.sameProcess m =? 0)
       (CUDACHECK (fst (devIpcHandle env)) ;;
        let* w := get in
        emit (EvIpcGetMemHandle (BankMap.gpuPtr (BankMap.mem_at (map (res w)) DEVMEM))) ;;
        upd_mapMem DEVMEM (fun x =>
          BankMap.mkMem (BankMap.gpuPtr x) (BankMap.cpuPtr x) (BankMap.size x)
                        (snd (devIpcHandle env))))) ;;
  (if negb (BankMap.sameProcess m =? 0) then
     NCCLCHECK (fst (hostCalloc env)) ;;
     let* w := get in
     let sz := BankMap.size (BankMap.mem_at (map (res w)) HOSTMEM) in
     emit (EvCudaHostCalloc (snd (hostCalloc env)) sz) ;;
     modify (fun w => set_mem w (Staging.calloc_at (snd (hostCalloc env)) sz (mem w))) ;;
     upd_mapMem HOSTMEM (fun x =>
       BankMap.mkMem (snd (hostCalloc env)) (snd (hostCalloc env))
                     (BankMap.size x) (BankMap.ipc x))
   else
     NCCLCHECK (fst (createShm env)) ;;
     let* w := get in
     emit (EvCreateShm (BankMap.size (BankMap.mem_at (map (res w)) HOSTMEM))) ;;
     upd_mapMem HOSTMEM (fun x =>
       BankMap.mkMem (BankMap.gpuPtr x) (snd (createShm env))
                     (BankMap.size x) (BankMap.ipc x))) ;;
  when (negb (ncclGdrCopy cfg =? 0) && negb (BankMap.sameProcess m =? 0)
        && negb (ncclParamGdrCopySyncEnable cfg =? 0))
    (NCCLCHECK (fst (gdrCalloc env)) ;;
     let '(cpuPtr, gpuPtr, desc) := snd (gdrCalloc env) in
     emit (EvGdrCudaCalloc cpuPtr gpuPtr) ;;
     upd_res (fun r => set_gdrDesc (set_gdcSync r cpuPtr) desc) ;;
     upd_mapMem BankMap.NCCL_NET_MAP_GDCMEM (fun x =>
       BankMap.mkMem gpuPtr cpuPtr 8 (BankMap.ipc x))).

(** The fourth part: point the resources at [sendMem] and [recvMem] and
    initialise them.  A store through NULL is undefined. *)
Definition store_head (v : Z) : M world unit :=
  let* w := get in
  if sendMem (res w) =? 0 then undef
  else modify (fun w => set_mem w (Staging.set_head (mem w) (sendMem (res w)) v)).

Definition store_sizesFifo (i v : Z) : M world unit :=
  let* w := get in
  if recvMem (res w) =? 0 then undef
  else modify (fun w => set_mem w (Staging.set_sizesFifo (mem w) (recvMem (res w)) i v)).

Definition init_staging : M world unit :=
  upd_res (fun r => set_sendMem r
             (BankMap.NCCL_NET_MAP_GET_POINTER (map r) BankMap.cpu BankMap.sendMem)) ;;
  upd_res (fun r => set_recvMem r
             (BankMap.NCCL_NET_MAP_GET_POINTER (map r) BankMap.cpu BankMap.recvMem)) ;;
  let* w := get in
  store_head (wrap64 (if negb (BankMap.shared (map (res w)) =? 0)
                      then - NCCL_STEPS else 0)) ;;
  for_loop (Z.to_nat NCCL_STEPS) 0 (fun i => store_sizesFifo i (-1)).

(** The last part: register every buffer with the fabric and copy the
    map into the response. *)
Definition register_buffers (cfg : config) (env : env_t) (respSize : Z) : M world unit :=
  for_loop (Z.to_nat NCCL_NUM_PROTOCOLS) 0 (fun p =>
    upd_res (fun r => set_buffers r
               (upd (buffers r) p
                    (BankMap.NCCL_NET_MAP_GET_POINTER (map r) BankMap.cpu (BankMap.buffs p)))) ;;
    let* w := get in
    let r := res w in
    when (negb (buffers r p =? 0))
      (let type := if BankMap.NCCL_NET_MAP_DEV_MEM (BankMap.get_offset (map r) (BankMap.buffs p))
                   then NCCL_PTR_CUDA else NCCL_PTR_HOST in
       if cuda_11070 cfg && (type =? NCCL_PTR_CUDA) && negb (useDmaBuf r =? 0) then
         CUDACHECK (fst (getDmaBufFd env p)) ;;
         emit (EvGetDmaBufFd (buffers r p) (buffSizes r p)) ;;
         NCCLCHECK (fst (regMrDmaBuf env p)) ;;
         emit (EvRegMrDmaBuf (netSendComm r) (buffers r p) (buffSizes r p) type
                             (snd (getDmaBufFd env p))) ;;
         upd_res (fun r => set_mhandles r (upd (mhandles r) p (snd (regMrDmaBuf env p)))) ;;
         emit (EvClose (snd (getDmaBufFd env p)))
       else
         NCCLCHECK (fst (regMr env p)) ;;
         emit (EvRegMr (netSendComm r) (buffers r p) (buffSizes r p) type) ;;
         upd_res (fun r => set_mhandles r (upd (mhandles r) p (snd (regMr env p)))))) ;;
  when (negb (respSize =? sizeof_connectMap cfg)) (exit ncclInternalError) ;;
  modify (fun w => set_respBuff w (Some (map (res w)))) ;;
  exit ncclSuccess.

Definition sendProxyConnect (cfg : config) (comm : comm_t) (env : env_t)
    (reqSize respSize : Z) : M world unit :=
  connect_fabric cfg comm env reqSize ;;
  build_map cfg comm env ;;
  allocate_banks cfg comm env ;;
  init_staging ;;
  register_buffers cfg env respSize.

(** A shared connection of local rank 0 on a one-rank node that stages
    in host memory, before [sendProxyConnect] runs. *)
Definition example_config : config :=
  mkConfig 64 2048 4096 4096 2097152 true 0 1 1.

Definition example_comm : comm_t :=
  mkComm 0 (fun _ => 7) (fun _ => 65536) 2 0 2 (SharedPool.mkComm 1 1024).

Definition example_env : env_t :=
  mkEnv (ncclSuccess, 55) ncclSuccess (true, 0)
        (SharedPool.mkEnv ncclSuccess ncclSuccess (ncclSuccess, 300000) (true, 7)
                          (ncclSuccess, 200000) true ncclSuccess)
        (ncclSuccess, 400000) (true, 8) (ncclSuccess, 100000) (ncclSuccess, 500000)
        (ncclSuccess, (600000, 700000, 1))
        (fun _ => (true, 3)) (fun _ => (ncclSuccess, 9)) (fun _ => (ncclSuccess, 9)).

Definition example_world : world :=
  mkWorld
    (mkSendResources BankMap.freshMap 0 0 0 0 0 1 0 0 0 1 0 0 1 0 0
                     (fun _ => 0) (fun _ => 0) (fun _ => 0) 0)
    (SharedPool.mkPool None [])
    (fun _ => None)
    (Staging.mkMemory (fun _ => Staging.zeroSendMem) (fun _ => Staging.zeroRecvMem)
                      (fun _ => 0))
    0 None [].

(** What the parts of [sendProxyConnect] keep: the sharing mode of the
    connection ([connecting]), then also [*done = 1] ([connected]), then
    also the sharing mode recorded in the map ([mapped]). *)
Definition connecting (sh : Z) (w : world) : Prop :=
  shared (res w) = sh.

Definition connected (sh : Z) (w : world) : Prop :=
  shared (res w) = sh /\ done w = 1.

Definition mapped (sh : Z) (w : world) : Prop :=
  shared (res w) = sh /\ done w = 1 /\ BankMap.shared (map (res w)) = sh.

(** While [sizesFifo] is being filled: the head is set and the entries
    below [k] are -1. *)
Definition staging_upto (sh k : Z) (w : world) : Prop :=
  shared (res w) = sh /\ done w = 1
  /\ Staging.head (Staging.sendMems (mem w) (sendMem (res w)))
     = (if sh =? 0 then 0 else wrap64 (- NCCL_STEPS))
  /\ forall i, 0 <= i < k ->
       Staging.sizesFifo (Staging.recvMems (mem w) (recvMem (res w))) i = -1.

(** What holds of a connection once it is initialised: [*done] is 1,
    [sendMem->head] withholds the credits of a shared connection, and
    every entry of [recvMem->sizesFifo] is -1. *)
Definition staging_initialised (sh : Z) (w : world) : Prop :=
  Staging.head (Staging.sendMems (mem w) (sendMem (res w)))
    = (if sh =? 0 then 0 else wrap64 (- NCCL_STEPS))
  /\ forall i, 0 <= i < NCCL_STEPS ->
       Staging.sizesFifo (Staging.recvMems (mem w) (recvMem (res w))) i = -1.

End Connect.

(** ** Proxy operations

    Modelled from the spec: [struct ncclProxyArgs] and [struct
    ncclProxySubArgs] are declared in the proxy header, which is not part
    of this source file; the fields are the ones the progress functions
    use.  The cursors and [base] are [uint64_t] (the source copies them
    into [uint64_t] locals); [nsteps], [sliceSteps], [chunkSteps] and the
    op's [done] counter are [int]s.  [subs] holds the [nsubs] subs in
    use, so [args->nsubs] is its length. *)

Module Proxy.

Inductive ncclProxyOpState :=
| ncclProxyOpNone
| ncclProxyOpReady
| ncclProxyOpProgress.

Record ncclProxySubArgs := mkSub {
  connection : Z;
  channelId : Z;
  nsteps : Z;
  nbytes : Z;
  groupSize : Z;
  base : Z;
  posted : Z;
  received : Z;
  transmitted : Z;
  done : Z;
  requests : Z -> Z
}.

Definition set_groupSize (x : ncclProxySubArgs) (v : Z) : ncclProxySubArgs :=
  mkSub (connection x) (channelId x) (nsteps x) (nbytes x) v (base x) (posted x) (received x) (transmitted x) (done x) (requests x).

Definition set_base (x : ncclProxySubArgs) (v : Z) : ncclProxySubArgs :=
  mkSub (connection x) (channelId x) (nsteps x) (nbytes x) (groupSize x) v (posted x) (received x) (transmitted x) (done x) (requests x).

Definition set_posted (x : ncclProxySubArgs) (v : Z) : ncclProxySubArgs :=
  mkSub (connection x) (channelId x) (nsteps x) (nbytes x) (groupSize x) (base x) v (received x) (transmitted x) (done x) (requests x).

Definition set_received (x : ncclProxySubArgs) (v : Z) : ncclProxySubArgs :=
  mkSub (connection x) (channelId x) (nsteps x) (nbytes x) (groupSize x) (base x) (posted x) v (transmitted x) (done x) (requests x).

Definition set_transmitted (x : ncclProxySubArgs) (v : Z) : ncclProxySubArgs :=
  mkSub (connection x) (channelId x) (nsteps x) (nbytes x) (groupSize x) (base x) (posted x) (received x) v (done x) (requests x).

Definition set_done (x : ncclProxySubArgs) (v : Z) : ncclProxySubArgs :=
  mkSub (connection x) (channelId x) (nsteps x) (nbytes x) (groupSize x) (base x) (posted x) (received x) (transmitted x) v (requests x).

Definition set_requests (x : ncclProxySubArgs) (v : Z -> Z) : ncclProxySubArgs :=
  mkSub (connection x) (channelId x) (nsteps x) (nbytes x) (groupSize x) (base x) (posted x) (received x) (transmitted x) (done x) v.

Record ncclProxyArgs := mkArgs {
  subs : list ncclProxySubArgs;
  args_done : Z;
  sliceSteps : Z;
  chunkSteps : Z;
  protocol : Z;
  state : ncclProxyOpState;
  idle : Z
}.

Definition set_subs (x : ncclProxyArgs) (v : list ncclProxySubArgs) : ncclProxyArgs :=
  mkArgs v (args_done x) (sliceSteps x) (chunkSteps x) (protocol x) (state x) (idle x).

Definition set_args_done (x : ncclProxyArgs) (v : Z) : ncclProxyArgs :=
  mkArgs (subs x) v (sliceSteps x) (chunkSteps x) (protocol x) (state x) (idle x).

Definition set_state (x : ncclProxyArgs) (v : ncclProxyOpState) : ncclProxyArgs :=
  mkArgs (subs x) (args_done x) (sliceSteps x) (chunkSteps x) (protocol x) v (idle x).

Definition set_idle (x : ncclProxyArgs) (v : Z) : ncclProxyArgs :=
  mkArgs (subs x) (args_done x) (sliceSteps x) (chunkSteps x) (protocol x) (state x) v.

Definition nsubs (a : ncclProxyArgs) : Z := Z.of_nat (length (subs a)).

Definition is_state (a b : ncclProxyOpState) : bool :=
  match a, b with
  | ncclProxyOpNone, ncclProxyOpNone => true
  | ncclProxyOpReady, ncclProxyOpReady => true
  | ncclProxyOpProgress, ncclProxyOpProgress => true
  | _, _ => false
  end.

(** [DIVUP] and [ROUNDUP] on unsigned 64-bit operands. *)
Definition DIVUP (x y : Z) : Z := Z.quot (wrap64 (x + y - 1)) (wrap64 y).
Definition ROUNDUP (x y : Z) : Z := wrap64 (DIVUP x y * y).

(** Calls to the fabric plugin on the progress path. *)
Inductive netCall :=
| NetIsend (comm buff size tag mhandle : Z)
| NetIrecv (comm n : Z) (ptrs sizes tags mhandles : list Z)
| NetIflush (comm n : Z) (ptrs sizes mhandles : list Z)
| NetTest (request : Z).

(** Line formats of the LL protocols, from the device header. *)
Definition sizeof_ncclLLFifoLine : Z := 16.
Definition NCCL_LL128_LINEELEMS : Z := 16.
Definition NCCL_LL128_DATAELEMS : Z := 15.
Definition NCCL_LL_FLAG (a : Z) : Z := wrap32 a.

(** [0, 1, ..., n-1] as C integers. *)
Definition upto (n : Z) : list Z := List.map Z.of_nat (seq 0 (Z.to_nat n)).

(** An op as the caller hands it over: positive [sliceSteps], step
    counts that are non-negative [int]s. *)
Definition wf_op (a : ncclProxyArgs) : Prop :=
  0 < sliceSteps a < 2 ^ 31
  /\ Forall (fun x => 0 <= nsteps x < 2 ^ 31) (subs a).

(** A sub without steps, with nothing completed. *)
Definition no_steps (x : ncclProxySubArgs) : Prop := nsteps x = 0 /\ done x = 0.

(** No cursor of [x'] is behind the same cursor of [x]. *)
Definition cursors_le (x x' : ncclProxySubArgs) : Prop :=
  posted x <= posted x' /\ received x <= received x'
  /\ transmitted x <= transmitted x' /\ done x <= done x'.

(** From one state of an op to a later one: the same subs, the same
    [sliceSteps], and cursors that only moved forward. *)
Definition advanced (a a' : ncclProxyArgs) : Prop :=
  sliceSteps a' = sliceSteps a
  /\ Forall2 cursors_le (subs a) (subs a').

End Proxy.

(** ** Send progress *)

Module SendProxy.
Import Proxy.
Local Open Scope exec_scope.

(** What the outside answers while one sub is progressed: the fabric
    plugin's [isend] (code and request, NULL when nothing was posted) and
    [test] (code and done flag), and the flags the compute engine has
    written into the lines of a staging buffer. *)
Record sendEnv := mkSendEnv {
  isend : ncclResult_t * Z;
  test : ncclResult_t * Z;
  ll_flag1 : Z -> Z -> Z;
  ll_flag2 : Z -> Z -> Z;
  ll128_elem : Z -> Z -> Z
}.

(** What one iteration of the loop over the subs works on: the sub, the
    resources its connection points at, staging memory, and the op's
    [idle] flag and [done] counter. *)
Record local := mkLocal {
  sub : Proxy.ncclProxySubArgs;
  res : Connect.sendResources;
  mem : Staging.memory;
  op_idle : Z;
  op_done : Z;
  net : list Proxy.netCall
}.

Definition set_sub (x : local) (v : Proxy.ncclProxySubArgs) : local :=
  mkLocal v (res x) (mem x) (op_idle x) (op_done x) (net x).

Definition set_res (x : local) (v : Connect.sendResources) : local :=
  mkLocal (sub x) v (mem x) (op_idle x) (op_done x) (net x).

Definition set_mem (x : local) (v : Staging.memory) : local :=
  mkLocal (sub x) (res x) v (op_idle x) (op_done x) (net x).

Definition set_op_idle (x : local) (v : Z) : local :=
  mkLocal (sub x) (res x) (mem x) v (op_done x) (net x).

Definition set_op_done (x : local) (v : Z) : local :=
  mkLocal (sub x) (res x) (mem x) (op_idle x) v (net x).

Definition set_net (x : local) (v : list Proxy.netCall) : local :=
  mkLocal (sub x) (res x) (mem x) (op_idle x) (op_done x) v.

(** The op, the resources of every connection (by address), staging
    memory, and the log of fabric calls. *)
Record sendState := mkState {
  args : Proxy.ncclProxyArgs;
  resources : Z -> Connect.sendResources;
  mem_of : Staging.memory;
  net_of : list Proxy.netCall
}.

Definition set_args (x : sendState) (v : Proxy.ncclProxyArgs) : sendState :=
  mkState v (resources x) (mem_of x) (net_of x).

Definition set_resources (x : sendState) (v : Z -> Connect.sendResources) : sendState :=
  mkState (args x) v (mem_of x) (net_of x).

Definition set_mem_of (x : sendState) (v : Staging.memory) : sendState :=
  mkState (args x) (resources x) v (net_of x).

Definition set_net_of (x : sendState) (v : list Proxy.netCall) : sendState :=
  mkState (args x) (resources x) (mem_of x) v.

Definition upd_sub (f : ncclProxySubArgs -> ncclProxySubArgs) : M local unit :=
  modify (fun l => set_sub l (f (sub l))).

Definition emit (c : netCall) : M local unit :=
  modify (fun l => set_net l (net l ++ [c])).

(** Stores into staging memory; a store through NULL is undefined. *)
Definition store_offsFifo (i v : Z) : M local unit :=
  let* l := get in
  if Connect.recvMem (res l) =? 0 then undef
  else modify (fun l => set_mem l (Staging.set_offsFifo (mem l) (Connect.recvMem (res l)) i v)).

Definition store_sizesFifo (i v : Z) : M local unit :=
  let* l := get in
  if Connect.recvMem (res l) =? 0 then undef
  else modify (fun l => set_mem l (Staging.set_sizesFifo (mem l) (Connect.recvMem (res l)) i v)).

(** [volatile uint64_t* sendHead = resources->gdcSync ? resources->gdcSync
    : &resources->sendMem->head; *sendHead = v;] *)
Definition store_sendHead (v : Z) : M local unit :=
  let* l := get in
  let r := res l in
  if negb (Connect.gdcSync r =? 0) then
    modify (fun l => set_mem l (Staging.set_word64 (mem l) (Connect.gdcSync r) v))
  else if Connect.sendMem r =? 0 then undef
  else modify (fun l => set_mem l (Staging.set_head (mem l) (Connect.sendMem r) v)).

(** [(sub->base + cursor) % NCCL_STEPS] *)
Definition slot_of (x : ncclProxySubArgs) (cursor : Z) : Z :=
  int32 (Z.rem (wrap64 (base x + cursor)) NCCL_STEPS).

(** The gate of the first action:
    [sub->posted < sub->nsteps && sub->posted < sub->done + maxDepth]. *)
Definition may_post (x : ncclProxySubArgs) (maxDepth : Z) : bool :=
  (posted x <? wrap64 (nsteps x)) && (posted x <? wrap64 (done x + maxDepth)).

(** Post buffers to the GPU. *)
Definition post_credit (comm : SharedPool.comm_t) (sliceSteps maxDepth n s : Z)
  : M local unit :=
  let* l := get in
  let x := sub l in
  let buffSlot := slot_of x (posted x) in
  (if negb (Connect.shared (res l) =? 0) then
     (if wrap64 maxDepth =? 0 then undef else ret tt) ;;
     let sharedBuffSlot := int32 (Z.rem (posted x) (wrap64 maxDepth)) in
     let offset := SharedPool.sharedBuffersGet comm (channelId x)
                     (int32 (int32 (sharedBuffSlot * n) + s)) in
     store_offsFifo buffSlot offset ;;
     upd_sub (fun x => set_posted x (wrap64 (posted x + sliceSteps))) ;;
     let* l := get in
     store_sendHead (wrap64 (base (sub l) + posted (sub l) - NCCL_STEPS))
   else
     upd_sub (fun x => set_posted x (wrap64 (posted x + sliceSteps)))) ;;
  modify (fun l => set_op_idle l 0).

(** Is the slice that the compute engine wrote complete? *)
Definition ll128_ready (env : sendEnv) (useGdr buff size flag : Z) : bool :=
  if negb (useGdr =? 0) then true
  else
    let nFifoLines := int32 (DIVUP size (8 * NCCL_LL128_LINEELEMS)) in
    forallb (fun i => ll128_elem env buff
                        (i * NCCL_LL128_LINEELEMS + NCCL_LL128_DATAELEMS) =? flag)
            (upto nFifoLines).

Definition ll_ready (env : sendEnv) (buff size flag : Z) : bool :=
  let nFifoLines := int32 (DIVUP size sizeof_ncclLLFifoLine) in
  forallb (fun i => (ll_flag1 env buff i =? flag) && (ll_flag2 env buff i =? flag))
          (upto nFifoLines).

(** Check whether we received data from the GPU and send it to the
    network.  The result tells whether the iteration ends here (the
    [continue] after a posted send). *)
Definition try_send (env : sendEnv) (sliceSteps p stepSize localBuff mhandle : Z)
  : M local bool :=
  let* l := get in
  let x := sub l in
  let r := res l in
  if (transmitted x <? posted x) && (transmitted x <? wrap64 (done x + NCCL_STEPS)) then
    let buffSlot := slot_of x (transmitted x) in
    (if Connect.recvMem r =? 0 then undef else ret tt) ;;
    let rm := Staging.recvMems (mem l) (Connect.recvMem r) in
    if negb (Staging.sizesFifo rm buffSlot =? -1)
       && ((wrap64 (base x + transmitted x) <? Staging.tail rm) || (p =? NCCL_PROTO_LL))
    then
      let size := Staging.sizesFifo rm buffSlot in
      let shared := (p =? NCCL_PROTO_SIMPLE) && negb (Connect.shared r =? 0) in
      let buff := if shared then localBuff + Staging.offsFifo rm buffSlot
                  else localBuff + int32 (buffSlot * stepSize) in
      let ready :=
        if p =? NCCL_PROTO_LL128 then
          ll128_ready env (Connect.useGdr r) buff size (wrap64 (base x + transmitted x + 1))
        else if p =? NCCL_PROTO_LL then
          ll_ready env buff size (NCCL_LL_FLAG (wrap64 (base x + transmitted x + 1)))
        else true in
      if ready then
        emit (NetIsend (Connect.netSendComm r) buff size (Connect.rank r) mhandle) ;;
        NCCLCHECK (fst (isend env)) ;;
        upd_sub (fun x => set_requests x (upd (requests x) buffSlot (snd (isend env)))) ;;
        if negb (snd (isend env) =? 0) then
          store_sizesFifo buffSlot (-1) ;;
          upd_sub (fun x => set_transmitted x (wrap64 (transmitted x + sliceSteps))) ;;
          modify (fun l => set_op_idle l 0) ;;
          ret true
        else ret false
      else ret false
    else ret false
  else ret false.

(** Check whether the network has completed some send operations. *)
Definition reap (env : sendEnv) (sliceSteps : Z) : M local unit :=
  let* l := get in
  let x := sub l in
  when (done x <? transmitted x)
    (let buffSlot := slot_of x (done x) in
     emit (NetTest (requests x buffSlot)) ;;
     NCCLCHECK (fst (test env)) ;;
     when (negb (snd (test env) =? 0))
       (upd_sub (fun x => set_done x (wrap64 (done x + sliceSteps))) ;;
        let* l := get in
        when (Connect.shared (res l) =? 0)
          (store_sendHead (wrap64 (base (sub l) + done (sub l)))) ;;
        modify (fun l => set_op_idle l 0) ;;
        let* l := get in
        when (done (sub l) =? wrap64 (nsteps (sub l)))
          (modify (fun l => set_res l
                     (Connect.set_step (res l) (wrap64 (base (sub l) + nsteps (sub l))))) ;;
           modify (fun l => set_op_done l (int32 (op_done l + 1)))))).

(** The body of the loop over the subs of an op in progress. *)
Definition send_sub (comm : SharedPool.comm_t) (env : sendEnv)
    (sliceSteps p maxDepth n s : Z) : M local unit :=
  let* l := get in
  let x := sub l in
  let r := res l in
  if done x =? wrap64 (nsteps x) then ret tt
  else
    let mhandle := Connect.mhandles r p in
    let stepSize := int32 (Z.quot (Connect.buffSizes r p) NCCL_STEPS) in
    let localBuff := BankMap.NCCL_NET_MAP_GET_POINTER (Connect.map r) BankMap.cpu
                       (BankMap.buffs p) in
    if may_post x maxDepth then post_credit comm sliceSteps maxDepth n s
    else
      let* sent := try_send env sliceSteps p stepSize localBuff mhandle in
      if sent then ret tt else reap env sliceSteps.

(** Run the body on sub [s]: the iteration works in place on
    [args->subs[s]] and on the resources behind [sub->connection], so
    what it wrote stays also when it leaves the function. *)
Definition on_sub (s : Z) (body : M local unit) : M sendState unit :=
  fun st =>
    match subs (args st) !! Z.to_nat s with
    | None => (Undef, st)
    | Some x =>
        let a := args st in
        let l := mkLocal x (resources st (connection x)) (mem_of st)
                         (idle a) (args_done a) (net_of st) in
        let '(o, l') := body l in
        (o, mkState
              (mkArgs (<[Z.to_nat s := sub l']> (subs a)) (op_done l')
                      (sliceSteps a) (chunkSteps a) (protocol a) (state a) (op_idle l'))
              (upd (resources st) (connection x) (res l'))
              (mem l') (net l'))
    end.

Definition upd_args (f : ncclProxyArgs -> ncclProxyArgs) : M sendState unit :=
  modify (fun st => set_args st (f (args st))).

(** On entry to [ncclProxyOpReady]: rebase every sub and clear its
    cursors.  [ROUNDUP] divides by [chunkSteps]. *)
Definition send_ready_sub (chunkSteps : Z) : M local unit :=
  (if wrap64 chunkSteps =? 0 then undef else ret tt) ;;
  let* l := get in
  upd_sub (fun x => set_base x (ROUNDUP (Connect.step (res l)) chunkSteps)) ;;
  upd_sub (fun x => set_done (set_transmitted (set_posted x 0) 0) 0).

(** [maxDepth = std::min(NCCL_STEPS, NCCL_SHARED_STEPS/args->nsubs)] *)
Definition maxDepth_of (n : Z) : Z :=
  Z.min NCCL_STEPS (Z.quot SharedPool.NCCL_SHARED_STEPS n).

(** The block run on entry to Ready. *)
Definition send_ready : M sendState unit :=
  let* st := get in
  let a := args st in
  for_loop (length (subs a)) 0
    (fun s => on_sub s (send_ready_sub (chunkSteps a))) ;;
  upd_args (fun a => set_state a ncclProxyOpProgress).

(** The block run while the op is in progress. *)
Definition send_progress (comm : SharedPool.comm_t) (env : Z -> sendEnv)
  : M sendState unit :=
  let* st := get in
  let a := args st in
  (if nsubs a =? 0 then undef else ret tt) ;;
  let maxDepth := maxDepth_of (nsubs a) in
  for_loop (length (subs a)) 0
    (fun s => on_sub s (send_sub comm (env s) (sliceSteps a) (protocol a)
                                 maxDepth (nsubs a) s)) ;;
  let* st := get in
  when (args_done (args st) =? nsubs (args st))
    (upd_args (fun a => set_state a ncclProxyOpNone)).

Definition sendProxyProgress (comm : SharedPool.comm_t) (env : Z -> sendEnv)
  : M sendState unit :=
  let* st := get in
  when (is_state (state (args st)) ncclProxyOpReady) send_ready ;;
  upd_args (fun a => set_idle a 1) ;;
  let* st := get in
  when (is_state (state (args st)) ncclProxyOpProgress) (send_progress comm env) ;;
  exit ncclSuccess.

(** A sequence of progress calls, one environment per call; a call that
    returns an error ends the op. *)
Fixpoint send_calls (comm : SharedPool.comm_t) (envs : list (Z -> sendEnv))
    (st : sendState) : step unit * sendState :=
  match envs with
  | [] => (Exit ncclSuccess, st)
  | env :: envs' =>
      match sendProxyProgress comm env st with
      | (Exit ncclSuccess, st') =>
          match envs' with
          | [] => (Exit ncclSuccess, st')
          | _ => send_calls comm envs' st'
          end
      | other => other
      end
  end.

(** The cursors of one sub in a state the send machine can reach:
    ordered, multiples of [sliceSteps], below the point where a 64-bit
    cursor could wrap, and with fewer than [maxDepth + sliceSteps] steps
    posted beyond [done]. *)
Definition send_sub_ok (sl md : Z) (x : ncclProxySubArgs) : Prop :=
  0 <= nsteps x < 2 ^ 31
  /\ 0 <= done x /\ done x <= transmitted x /\ transmitted x <= posted x
  /\ posted x < 2 ^ 32
  /\ (sl | done x) /\ (sl | transmitted x) /\ (sl | posted x)
  /\ posted x < done x + md + sl.

Definition send_inv (a : ncclProxyArgs) : Prop :=
  0 < sliceSteps a < 2 ^ 31
  /\ Forall (send_sub_ok (sliceSteps a) (maxDepth_of (nsubs a))) (subs a).

(** Every connection has its staging memory mapped. *)
Definition pointers_ok (R : Z -> Connect.sendResources) : Prop :=
  forall c, Connect.recvMem (R c) <> 0 /\ Connect.sendMem (R c) <> 0.

(** What one iteration of the loop over the subs keeps. *)
Definition sub_post (sl md : Z) (l l' : local) : Prop :=
  send_sub_ok sl md (sub l') /\ cursors_le (sub l) (sub l')
  /\ Connect.recvMem (res l') = Connect.recvMem (res l)
  /\ Connect.sendMem (res l') = Connect.sendMem (res l).

(** An op whose cursors are in order, on connections with their
    staging memory mapped. *)
Definition send_ok (st : sendState) : Prop :=
  send_inv (args st) /\ subs (args st) <> [] /\ pointers_ok (resources st).

(** The fields of the op that progress does not write. *)
Definition same_op (st st' : sendState) : Prop :=
  sliceSteps (args st') = sliceSteps (args st)
  /\ chunkSteps (args st') = chunkSteps (args st)
  /\ protocol (args st') = protocol (args st)
  /\ state (args st') = state (args st).

(** Between two iterations of a loop over the subs that started in
    [st0]: every sub is in [G], is related by [Rg] to what it was, and
    what the subs share is in [KS]. *)
Definition loop_inv (G : ncclProxySubArgs -> Prop)
    (Rg : ncclProxySubArgs -> ncclProxySubArgs -> Prop)
    (KS : (Z -> Connect.sendResources) -> Staging.memory -> Z -> Z -> list netCall -> Prop)
    (st0 st : sendState) : Prop :=
  Forall G (subs (args st))
  /\ Forall2 Rg (subs (args st0)) (subs (args st))
  /\ KS (resources st) (mem_of st) (idle (args st)) (args_done (args st)) (net_of st)
  /\ same_op st0 st.

(** After the block that runs while the op is in progress, entered in
    [st0]. *)
Definition send_progressed (st0 st : sendState) : Prop :=
  send_ok st /\ advanced (args st0) (args st)
  /\ (state (args st) = state (args st0) \/ state (args st) = ncclProxyOpNone).

(** What a progress call on an op past Ready keeps, relative to the op
    [a0] it started from. *)
Definition send_kept (a0 : ncclProxyArgs) (st : sendState) : Prop :=
  send_ok st /\ advanced a0 (args st) /\ state (args st) <> ncclProxyOpReady.

(** An op as the caller hands it over, with the connections as the
    connect phase leaves them. *)
Definition wf_send (st : sendState) : Prop :=
  wf_op (args st)
  /\ subs (args st) <> []
  /\ wrap64 (chunkSteps (args st)) <> 0
  /\ pointers_ok (resources st).

(** An op of three subs of [nsteps] steps each, in slices of two, on
    connections that are not shared, and a fabric that accepts no send
    and completes none. *)
Definition example_resources : Connect.sendResources :=
  Connect.mkSendResources BankMap.freshMap 5 1000 2000 0 0 1 0 0 0 1 0 0 0 0 0
                          (fun _ => 0) (fun _ => 65536) (fun _ => 0) 0.

Definition example_sub (conn nsteps : Z) : ncclProxySubArgs :=
  mkSub conn conn nsteps 1000000 0 0 0 0 0 0 (fun _ => 0).

Definition example_mem : Staging.memory :=
  Staging.mkMemory (fun _ => Staging.zeroSendMem)
                   (fun _ => Staging.mkRecvMem 0 (fun _ => -1) (fun _ => 0))
                   (fun _ => 0).

Definition example_state (nsteps : Z) : sendState :=
  mkState
    (mkArgs [example_sub 0 nsteps; example_sub 1 nsteps; example_sub 2 nsteps]
            0 2 2 NCCL_PROTO_SIMPLE ncclProxyOpReady 0)
    (fun _ => example_resources) example_mem [].

Definition quiet_env : Z -> sendEnv :=
  fun _ => mkSendEnv (ncclSuccess, 0) (ncclSuccess, 0)
                     (fun _ _ => 0) (fun _ _ => 0) (fun _ _ => 0).

Definition example_comm : SharedPool.comm_t := SharedPool.mkComm 1 1024.

End SendProxy.

(** ** Receive progress *)

Module RecvProxy.
Import Proxy.
Local Open Scope exec_scope.

(** [struct recvResources]; pointers are addresses, [0] is NULL. *)
Record recvResources := mkRecvResources {
  map : BankMap.connectMap;
  netListenComm : Z;
  netRecvComm : Z;
  sendMem : Z;
  recvMem : Z;
  rank : Z;
  localRank : Z;
  remoteRank : Z;
  proxyRank : Z;
  netDev : Z;
  useGdr : Z;
  useDmaBuf : Z;
  needFlush : Z;
  maxRecvs : Z;
  gdcSync : Z;
  gdcFlush : Z;
  gdrDesc : Z;
  shared : Z;
  channelId : Z;
  connIndex : Z;
  buffers : Z -> Z;
  buffSizes : Z -> Z;
  mhandles : Z -> Z;
  step : Z
}.

Definition set_step (x : recvResources) (v : Z) : recvResources :=
  mkRecvResources (map x) (netListenComm x) (netRecvComm x) (sendMem x) (recvMem x) (rank x) (localRank x) (remoteRank x) (proxyRank x) (netDev x) (useGdr x) (useDmaBuf x) (needFlush x) (maxRecvs x) (gdcSync x) (gdcFlush x) (gdrDesc x) (shared x) (channelId x) (connIndex x) (buffers x) (buffSizes x) (mhandles x) v.

(** What the outside answers while one group is progressed: the fabric
    plugin's [irecv] and [iflush] (code and request, NULL when nothing
    was posted), and its [test] on the receive (code, done flag and the
    byte counts per member) and on the flush (code and done flag). *)
Record recvEnv := mkRecvEnv {
  irecv : ncclResult_t * Z;
  test_recv : ncclResult_t * (Z * list Z);
  iflush : ncclResult_t * Z;
  test_flush : ncclResult_t * Z
}.

(** What one iteration of a loop over the groups works on: the subs
    [subGroup[0..groupSize)], the resources of the connections, staging
    memory, and the op's [idle] flag and [done] counter. *)
Record glocal := mkGlocal {
  group : list Proxy.ncclProxySubArgs;
  res : Z -> recvResources;
  mem : Staging.memory;
  op_idle : Z;
  op_done : Z;
  net : list Proxy.netCall
}.

Definition set_group (x : glocal) (v : list Proxy.ncclProxySubArgs) : glocal :=
  mkGlocal v (res x) (mem x) (op_idle x) (op_done x) (net x).

Definition set_res (x : glocal) (v : Z -> recvResources) : glocal :=
  mkGlocal (group x) v (mem x) (op_idle x) (op_done x) (net x).

Definition set_mem (x : glocal) (v : Staging.memory) : glocal :=
  mkGlocal (group x) (res x) v (op_idle x) (op_done x) (net x).

Definition set_op_idle (x : glocal) (v : Z) : glocal :=
  mkGlocal (group x) (res x) (mem x) v (op_done x) (net x).

Definition set_op_done (x : glocal) (v : Z) : glocal :=
  mkGlocal (group x) (res x) (mem x) (op_idle x) v (net x).

Definition set_net (x : glocal) (v : list Proxy.netCall) : glocal :=
  mkGlocal (group x) (res x) (mem x) (op_idle x) (op_done x) v.

(** The op, the resources of every connection (by address), staging
    memory, and the log of fabric calls. *)
Record recvState := mkState {
  args : Proxy.ncclProxyArgs;
  resources : Z -> recvResources;
  mem_of : Staging.memory;
  net_of : list Proxy.netCall
}.

Definition set_args (x : recvState) (v : Proxy.ncclProxyArgs) : recvState :=
  mkState v (resources x) (mem_of x) (net_of x).

Definition set_resources (x : recvState) (v : Z -> recvResources) : recvState :=
  mkState (args x) v (mem_of x) (net_of x).

Definition set_mem_of (x : recvState) (v : Staging.memory) : recvState :=
  mkState (args x) (resources x) v (net_of x).

Definition set_net_of (x : recvState) (v : list Proxy.netCall) : recvState :=
  mkState (args x) (resources x) (mem_of x) v.

(** *** Entry to Ready: grouping *)

(** The locals [recvComm], [groupSize] and [maxRecvs] of the grouping
    loop. *)
Record grouping := mkGrouping {
  recvComm : Z;
  cur_groupSize : Z;
  cur_maxRecvs : Z
}.

(** [for (next=s; next<args->nsubs; next++) if (nextRes->netRecvComm ==
    recvComm) break;] *)
Fixpoint find_next (R : Z -> recvResources) (comm : Z)
    (subs : list ncclProxySubArgs) (fuel next : nat) : nat :=
  match fuel with
  | O => next
  | S fuel' =>
      match subs !! next with
      | Some x =>
          if netRecvComm (R (connection x)) =? comm then next
          else find_next R comm subs fuel' (S next)
      | None => next
      end
  end.

(** The three [memcpy]s that exchange [subs[s]] and [subs[next]]. *)
Definition swap_subs (s next : nat) (subs : list ncclProxySubArgs)
  : list ncclProxySubArgs :=
  match subs !! s, subs !! next with
  | Some a, Some b => <[next := a]> (<[s := b]> subs)
  | _, _ => subs
  end.

(** [for (int i=0; i<groupSize; i++) sub[-i].groupSize = groupSize;]
    with [sub = args->subs + s]; a store below [subs[0]] is undefined. *)
Fixpoint set_groupSizes (n : nat) (i : nat) (s : nat) (gs : Z)
    (subs : list ncclProxySubArgs) : option (list ncclProxySubArgs) :=
  match n with
  | O => Some subs
  | S n' =>
      if (s <? i)%nat then None
      else set_groupSizes n' (S i) s gs
             (alter (fun x => set_groupSize x gs) (s - i)%nat subs)
  end.

(** One iteration of the grouping loop, at sub [s]: first decide
    whether the sub extends the current group, and bring a sub on the
    same comm to position [s] if there is one later; the result is the
    [groupSize] before the increment and the subs. *)
Definition ready_choose (R : Z -> recvResources) (s : nat)
    (g : grouping) (subs : list ncclProxySubArgs) : Z * list ncclProxySubArgs :=
  let n := length subs in
  if cur_groupSize g =? cur_maxRecvs g then (0, subs)
  else if (0 <? s)%nat then
    let next := find_next R (recvComm g) subs (n - s) s in
    if (next =? n)%nat then (0, subs)
    else if negb (s =? next)%nat then (cur_groupSize g, swap_subs s next subs)
    else (cur_groupSize g, subs)
  else (cur_groupSize g, subs).

(** [sub->base = ROUNDUP(resources->step, args->chunkSteps);
     sub->posted = sub->received = sub->transmitted = sub->done = 0;] *)
Definition ready_sub (R : Z -> recvResources) (chunkSteps : Z)
    (x : ncclProxySubArgs) : ncclProxySubArgs :=
  let x1 := set_base x (ROUNDUP (step (R (connection x))) chunkSteps) in
  set_done (set_transmitted (set_received (set_posted x1 0) 0) 0) 0.

(** Then count the sub in, initialise it, and record the size of the
    group in its members. *)
Definition ready_place (R : Z -> recvResources) (chunkSteps : Z) (s : nat)
    (groupSize : Z) (subs1 : list ncclProxySubArgs)
  : option (grouping * list ncclProxySubArgs) :=
  let groupSize := int32 (groupSize + 1) in
  match subs1 !! s with
  | None => None
  | Some x =>
      let r := R (connection x) in
      if wrap64 chunkSteps =? 0 then None
      else
        match set_groupSizes (Z.to_nat groupSize) 0 s groupSize
                (<[s := ready_sub R chunkSteps x]> subs1) with
        | None => None
        | Some subs3 => Some (mkGrouping (netRecvComm r) groupSize (maxRecvs r), subs3)
        end
  end.

Definition ready_iter (R : Z -> recvResources) (chunkSteps : Z) (s : nat)
    (g : grouping) (subs : list ncclProxySubArgs)
  : option (grouping * list ncclProxySubArgs) :=
  let '(groupSize, subs1) := ready_choose R s g subs in
  ready_place R chunkSteps s groupSize subs1.

Fixpoint ready_loop (R : Z -> recvResources) (chunkSteps : Z) (n : nat) (s : nat)
    (g : grouping) (subs : list ncclProxySubArgs) : option (list ncclProxySubArgs) :=
  match n with
  | O => Some subs
  | S n' =>
      match ready_iter R chunkSteps s g subs with
      | None => None
      | Some (g', subs') => ready_loop R chunkSteps n' (S s) g' subs'
      end
  end.

(** The grouping of the subs of an op: [recvComm] is not initialised in
    the source and is not read before sub 0 has set it. *)
Definition group_subs (R : Z -> recvResources) (chunkSteps : Z)
    (subs : list ncclProxySubArgs) : option (list ncclProxySubArgs) :=
  ready_loop R chunkSteps (length subs) 0 (mkGrouping 0 0 1) subs.

(** *** What grouping achieves *)

Definition comm_of (R : Z -> recvResources) (x : ncclProxySubArgs) : Z :=
  netRecvComm (R (connection x)).

Definition max_of (R : Z -> recvResources) (x : ncclProxySubArgs) : Z :=
  maxRecvs (R (connection x)).

(** What the caller put into a sub; grouping moves it around with the
    sub and leaves it alone. *)
Definition static (x : ncclProxySubArgs) : Z * Z * Z * Z :=
  (connection x, Proxy.channelId x, nsteps x, nbytes x).

(** The fabric gives [maxRecvs] per comm, and at least 1. *)
Definition wf_conn (R : Z -> recvResources) (mr : Z -> Z) (x : ncclProxySubArgs) : Prop :=
  max_of R x = mr (comm_of R x) /\ 1 <= max_of R x.

(** The cursors right after entry to Ready. *)
Definition fresh (x : ncclProxySubArgs) : Prop :=
  posted x = 0 /\ received x = 0 /\ transmitted x = 0 /\ done x = 0.

(** A group: consecutive subs on one comm, each recording the size of
    the group, which is within [maxRecvs]. *)
Definition uniform_group (R : Z -> recvResources) (g : list ncclProxySubArgs) : Prop :=
  g <> []
  /\ Forall (fun x => groupSize x = Z.of_nat (length g)
                      /\ comm_of R x = comm_of R (default x (head g))
                      /\ Z.of_nat (length g) <= max_of R x) g.

Definition group_comm (R : Z -> recvResources) (g : list ncclProxySubArgs) : Z :=
  match g with x :: _ => comm_of R x | [] => 0 end.

Definition group_full (R : Z -> recvResources) (g : list ncclProxySubArgs) : Prop :=
  match g with x :: _ => Z.of_nat (length g) = max_of R x | [] => False end.

(** Groups are as large as they can be: a group that is not full is
    followed by no sub on its comm, neither in the later groups nor
    among the comms [following]. *)
Fixpoint greedy (R : Z -> recvResources) (gs : list (list ncclProxySubArgs))
    (following : list Z) : Prop :=
  match gs with
  | [] => True
  | g :: gs' =>
      (group_full R g
       \/ Forall (fun c => c <> group_comm R g)
                 (List.map (comm_of R) (concat gs') ++ following))
      /\ greedy R gs' following
  end.

(** The subs after grouping. *)
Definition grouped (R : Z -> recvResources) (subs : list ncclProxySubArgs) : Prop :=
  exists gs, subs = concat gs /\ Forall (uniform_group R) gs /\ greedy R gs [].

(** The position of the first sub of [todo] on comm [c], or the length
    of [todo]. *)
Fixpoint first_match (R : Z -> recvResources) (c : Z) (todo : list ncclProxySubArgs)
  : nat :=
  match todo with
  | [] => O
  | x :: todo' => if comm_of R x =? c then O else S (first_match R c todo')
  end.

(** The grouping loop after [s >= 1] iterations: closed groups, the
    group being filled, and the subs not yet looked at. *)
Definition ready_inv (R : Z -> recvResources) (subs0 : list ncclProxySubArgs)
    (s : nat) (g : grouping) (subs : list ncclProxySubArgs) : Prop :=
  exists gs cur todo,
    subs = concat gs ++ cur ++ todo
    /\ s = (length (concat gs) + length cur)%nat
    /\ cur <> []
    /\ Forall (uniform_group R) gs
    /\ greedy R gs (List.map (comm_of R) (cur ++ todo))
    /\ Forall (fun x => groupSize x = Z.of_nat (length cur)
                        /\ comm_of R x = recvComm g
                        /\ max_of R x = cur_maxRecvs g) cur
    /\ cur_groupSize g = Z.of_nat (length cur)
    /\ Z.of_nat (length cur) <= cur_maxRecvs g
    /\ Forall fresh (concat gs ++ cur)
    /\ Permutation (List.map static subs) (List.map static subs0).

(** An op of three subs: connections 0 and 2 are on comm 100, which
    takes two receives at a time, connection 1 is on comm 200. *)
Definition example_resources (comm maxr : Z) : recvResources :=
  mkRecvResources BankMap.freshMap 0 comm 1000 2000 0 0 1 0 0 0 0 0 maxr 0 0 0 0 0 0
                  (fun _ => 0) (fun _ => 65536) (fun _ => 0) 0.

Definition example_R (conn : Z) : recvResources :=
  if conn =? 1 then example_resources 200 1 else example_resources 100 2.

Definition example_maxRecvs (comm : Z) : Z := if comm =? 200 then 1 else 2.

Definition example_sub (conn nsteps : Z) : ncclProxySubArgs :=
  mkSub conn conn nsteps 1000000 0 0 0 0 0 0 (fun _ => 0).

(** *** The op in progress *)

Definition emit (c : netCall) : M glocal unit :=
  modify (fun l => set_net l (net l ++ [c])).

Definition upd_group (f : list ncclProxySubArgs -> list ncclProxySubArgs)
  : M glocal unit :=
  modify (fun l => set_group l (f (group l))).

(** [subGroup], the first sub of the group. *)
Definition get_head : M glocal ncclProxySubArgs :=
  let* l := get in
  match group l with
  | x :: _ => ret x
  | [] => undef
  end.

Definition upd_head (f : ncclProxySubArgs -> ncclProxySubArgs) : M glocal unit :=
  upd_group (fun g => match g with x :: g' => f x :: g' | [] => [] end).

(** Stores into staging memory; a store through NULL is undefined. *)
Definition store_offsFifo (r : recvResources) (i v : Z) : M glocal unit :=
  if recvMem r =? 0 then undef
  else modify (fun l => set_mem l (Staging.set_offsFifo (mem l) (recvMem r) i v)).

(** [volatile uint64_t* recvTail = resources->gdcSync ? resources->gdcSync
    : &resources->recvMem->tail; *recvTail = v;] *)
Definition store_recvTail (r : recvResources) (v : Z) : M glocal unit :=
  if negb (gdcSync r =? 0) then
    modify (fun l => set_mem l (Staging.set_word64 (mem l) (gdcSync r) v))
  else if recvMem r =? 0 then undef
  else modify (fun l => set_mem l (Staging.set_tail (mem l) (recvMem r) v)).

(** A loop over the members of the group that rewrites each member. *)
Fixpoint map_members_from (f : Z -> ncclProxySubArgs -> M glocal ncclProxySubArgs)
    (i : Z) (xs : list ncclProxySubArgs) : M glocal (list ncclProxySubArgs) :=
  match xs with
  | [] => ret []
  | x :: xs' =>
      let* x' := f i x in
      let* xs'' := map_members_from f (i + 1) xs' in
      ret (x' :: xs'')
  end.

Definition map_members (f : Z -> ncclProxySubArgs -> M glocal ncclProxySubArgs)
  : M glocal unit :=
  let* l := get in
  let* g := map_members_from f 0 (group l) in
  upd_group (fun _ => g).

(** [(sub->base + cursor) % NCCL_STEPS] and [step % NCCL_STEPS] *)
Definition slot_of (x : ncclProxySubArgs) (cursor : Z) : Z :=
  int32 (Z.rem (wrap64 (base x + cursor)) NCCL_STEPS).

Definition request_slot (step : Z) : Z := Z.rem step NCCL_STEPS.

(** The arrays handed to [irecv] and [iflush]; [subCount] is their
    length. *)
Record posting := mkPosting {
  ptrs : list Z;
  sizes : list Z;
  tags : list Z;
  mhandles_of : list Z
}.

Definition no_posting : posting := mkPosting [] [] [] [].

Definition subCount (c : posting) : Z := Z.of_nat (length (ptrs c)).

(** The first loop over the members of a group: collect what to
    receive.  [None] is the [break] with [subCount = 0] of a member that
    has no credit left. *)
Fixpoint collect (comm : SharedPool.comm_t) (sliceSteps p maxDepth n s : Z)
    (i : Z) (xs : list ncclProxySubArgs) (c : posting) : M glocal (option posting) :=
  match xs with
  | [] => ret (Some c)
  | x :: xs' =>
      if posted x <? wrap64 (nsteps x) then
        if wrap64 (done x + maxDepth) <=? posted x then ret None
        else
          let* l := get in
          let r := res l (connection x) in
          let stepSize := int32 (Z.quot (buffSizes r p) NCCL_STEPS) in
          let localBuff := BankMap.NCCL_NET_MAP_GET_POINTER (map r) BankMap.cpu
                             (BankMap.buffs p) in
          let buffSlot := slot_of x (posted x) in
          let* ptr :=
            (if (p =? NCCL_PROTO_SIMPLE) && negb (shared r =? 0) then
               (if wrap64 maxDepth =? 0 then undef else ret tt) ;;
               let sharedBuffSlot := int32 (Z.rem (posted x) (wrap64 maxDepth)) in
               let offset := SharedPool.sharedBuffersGet comm (Proxy.channelId x)
                               (int32 (int32 (int32 (sharedBuffSlot * n) + s) + i)) in
               store_offsFifo r buffSlot offset ;;
               ret (localBuff + offset)
             else ret (localBuff + int32 (buffSlot * stepSize))) in
          let size0 := int32 (stepSize * sliceSteps) in
          let size := if nbytes x <? size0 then int32 (nbytes x) else size0 in
          collect comm sliceSteps p maxDepth n s (i + 1) xs'
            (mkPosting (ptrs c ++ [ptr]) (sizes c ++ [size])
                       (tags c ++ [remoteRank r]) (mhandles_of c ++ [mhandles r p]))
      else collect comm sliceSteps p maxDepth n s (i + 1) xs' c
  end.

(** Post one fused receive for the group that starts at sub [s]. *)
Definition recv_post (comm : SharedPool.comm_t) (env : recvEnv)
    (sliceSteps p maxDepth n s : Z) : M glocal unit :=
  let* l := get in
  let* c := collect comm sliceSteps p maxDepth n s 0 (group l) no_posting in
  match c with
  | None => ret tt
  | Some c =>
      when (negb (subCount c =? 0))
        (let* h := get_head in
         let* l := get in
         let r := res l (connection h) in
         let slot := request_slot (posted h) in
         emit (NetIrecv (netRecvComm r) (subCount c) (ptrs c) (sizes c) (tags c)
                        (mhandles_of c)) ;;
         NCCLCHECK (fst (irecv env)) ;;
         upd_head (fun h => set_requests h (upd (requests h) slot (snd (irecv env)))) ;;
         when (negb (snd (irecv env) =? 0))
           (upd_group (List.map (fun x => set_posted x (wrap64 (posted x + sliceSteps)))) ;;
            modify (fun l => set_op_idle l 0)))
  end.

(** [needFlush |= resources->needFlush] over the members that still
    receive at [step]. *)
Definition group_needFlush (R : Z -> recvResources) (step : Z)
    (g : list ncclProxySubArgs) : Z :=
  fold_left
    (fun acc x =>
       if (step <? wrap64 (nsteps x)) && negb (useGdr (R (connection x)) =? 0)
       then Z.lor acc (needFlush (R (connection x))) else acc)
    g 0.

(** The buffers to flush: the members that still receive at [step]. *)
Definition flush_posting (l : glocal) (p step : Z) (g : list ncclProxySubArgs)
  : posting :=
  fold_left
    (fun c x =>
       if step <? wrap64 (nsteps x) then
         let r := res l (connection x) in
         let stepSize := int32 (Z.quot (buffSizes r p) NCCL_STEPS) in
         let localBuff := BankMap.NCCL_NET_MAP_GET_POINTER (map r) BankMap.cpu
                            (BankMap.buffs p) in
         let buffSlot := slot_of x (posted x) in
         let ptr :=
           if negb (shared r =? 0)
           then localBuff + Staging.offsFifo (Staging.recvMems (mem l) (recvMem r)) buffSlot
           else localBuff + int32 (buffSlot * stepSize) in
         mkPosting (ptrs c ++ [ptr]) (sizes c) (tags c) (mhandles_of c ++ [mhandles r p])
       else c)
    g no_posting.

(** Detect the completion of a receive and flush what it wrote. *)
Definition recv_test (env : recvEnv) (x86_64 : bool) (sliceSteps p : Z) : M glocal unit :=
  let* h := get_head in
  when (received h <? posted h)
    (let step := received h in
     let slot := request_slot step in
     emit (NetTest (requests h slot)) ;;
     NCCLCHECK (fst (test_recv env)) ;;
     let done := fst (snd (test_recv env)) in
     let sizes := snd (snd (test_recv env)) in
     when (negb (done =? 0))
       (let totalSize := int32 (fold_left Z.add sizes 0) in
        let* l := get in
        let needFlush := group_needFlush (res l) step (group l) in
        upd_group (List.map (fun x => set_received x (wrap64 (received x + sliceSteps)))) ;;
        upd_head (fun h => set_requests h (upd (requests h) slot 0)) ;;
        when ((0 <? totalSize) && (p =? NCCL_PROTO_SIMPLE) && negb (needFlush =? 0))
          (let* l := get in
           let r := res l (connection h) in
           if negb (gdcFlush r =? 0) then
             if x86_64 then ret tt else exit ncclInternalError
           else
             let c := flush_posting l p step (group l) in
             emit (NetIflush (netRecvComm r) (subCount c) (ptrs c) sizes (mhandles_of c)) ;;
             NCCLCHECK (fst (iflush env)) ;;
             upd_head (fun h => set_requests h (upd (requests h) slot (snd (iflush env))))) ;;
        modify (fun l => set_op_idle l 0))).

(** Publish the tail once the receive, or its flush, is complete. *)
Definition recv_commit (env : recvEnv) (sliceSteps : Z) : M glocal unit :=
  let* h := get_head in
  when (transmitted h <? received h)
    (let step := transmitted h in
     let request := requests h (request_slot step) in
     let* done :=
       (if negb (request =? 0) then
          emit (NetTest request) ;;
          NCCLCHECK (fst (test_flush env)) ;;
          ret (snd (test_flush env))
        else ret 1) in
     when (negb (done =? 0))
       (map_members (fun _ x =>
          let x' := set_transmitted x (wrap64 (transmitted x + sliceSteps)) in
          when (step <? wrap64 (nsteps x'))
            (let* l := get in
             store_recvTail (res l (connection x'))
                            (wrap64 (base x' + transmitted x'))) ;;
          ret x') ;;
        modify (fun l => set_op_idle l 0))).

(** [while (done > sub->base + sub->done && sub->transmitted >
    sub->done)], with [done] the head read from [sendMem]: the sub
    after the loop, whether it ran at all, and whether it reached
    [nsteps].  Without fuel left the loop has not ended. *)
Fixpoint release_loop (fuel : nat) (sliceSteps hd : Z) (x : ncclProxySubArgs)
  : option (ncclProxySubArgs * bool * bool) :=
  if (wrap64 (base x + done x) <? hd) && (done x <? transmitted x) then
    match fuel with
    | O => None
    | S fuel' =>
        let x' := set_done x (wrap64 (done x + sliceSteps)) in
        if done x' =? wrap64 (nsteps x') then Some (x', true, true)
        else
          match release_loop fuel' sliceSteps hd x' with
          | Some (x'', _, c) => Some (x'', true, c)
          | None => None
          end
    end
  else Some (x, false, false).

(** Release the credits the compute engine has consumed. *)
Definition recv_release (sliceSteps : Z) : M glocal unit :=
  map_members (fun _ x =>
    if done x =? wrap64 (nsteps x) then ret x
    else if done x <? transmitted x then
      let* l := get in
      let r := res l (connection x) in
      if sendMem r =? 0 then undef
      else
        let hd := Staging.head (Staging.sendMems (mem l) (sendMem r)) in
        match release_loop (S (Z.to_nat (transmitted x))) sliceSteps hd x with
        | None => undef
        | Some (x', ran, complete) =>
            when ran (modify (fun l => set_op_idle l 0)) ;;
            when complete
              (modify (fun l => set_res l
                         (upd (res l) (connection x')
                              (set_step (res l (connection x'))
                                        (wrap64 (base x' + nsteps x'))))) ;;
               modify (fun l => set_op_done l (int32 (op_done l + 1)))) ;;
            ret x'
        end
    else ret x).

(** Run the body on the group [subs[s .. s+gs)], in place. *)
Definition on_group (s gs : nat) (body : M glocal unit) : M recvState unit :=
  fun st =>
    let a := args st in
    let l := mkGlocal (take gs (drop s (subs a))) (resources st) (mem_of st)
                      (idle a) (args_done a) (net_of st) in
    let '(o, l') := body l in
    (o, mkState
          (mkArgs (take s (subs a) ++ group l' ++ drop (s + gs) (subs a)) (op_done l')
                  (sliceSteps a) (chunkSteps a) (protocol a) (state a) (op_idle l'))
          (res l') (mem l') (net l')).

(** [for (int s=0; s<args->nsubs; s+=args->subs[s].groupSize)]: a group
    size below 1 or beyond the subs has no defined behaviour, and
    neither has running out of fuel (the loop has not ended). *)
Fixpoint group_loop (fuel : nat) (s : nat) (body : nat -> M glocal unit)
  : M recvState unit :=
  match fuel with
  | O => undef
  | S fuel' =>
      let* st := get in
      match subs (args st) !! s with
      | None => ret tt
      | Some h =>
          if groupSize h <=? 0 then undef
          else if Z.of_nat (length (subs (args st))) <? Z.of_nat s + groupSize h then undef
          else
            on_group s (Z.to_nat (groupSize h)) (body s) ;;
            group_loop fuel' (s + Z.to_nat (groupSize h)) body
      end
  end.

Definition upd_args (f : ncclProxyArgs -> ncclProxyArgs) : M recvState unit :=
  modify (fun st => set_args st (f (args st))).

(** The block run on entry to Ready. *)
Definition recv_ready : M recvState unit :=
  let* st := get in
  let a := args st in
  match group_subs (resources st) (chunkSteps a) (subs a) with
  | None => undef
  | Some subs' =>
      upd_args (fun a => set_state (set_subs a subs') ncclProxyOpProgress)
  end.

(** [if (args->idle == 0) return ncclSuccess;] *)
Definition return_if_busy : M recvState unit :=
  let* st := get in
  if idle (args st) =? 0 then exit ncclSuccess else ret tt.

(** The block run while the op is in progress. *)
Definition recv_progress (comm : SharedPool.comm_t) (x86_64 : bool)
    (env : nat -> recvEnv) : M recvState unit :=
  let* st := get in
  let a := args st in
  let fuel := S (length (subs a)) in
  (if nsubs a =? 0 then undef else ret tt) ;;
  let maxDepth := SendProxy.maxDepth_of (nsubs a) in
  group_loop fuel 0
    (fun s => recv_post comm (env s) (sliceSteps a) (protocol a) maxDepth (nsubs a)
                        (Z.of_nat s)) ;;
  return_if_busy ;;
  group_loop fuel 0 (fun s => recv_test (env s) x86_64 (sliceSteps a) (protocol a)) ;;
  return_if_busy ;;
  group_loop fuel 0 (fun s => recv_commit (env s) (sliceSteps a)) ;;
  return_if_busy ;;
  group_loop fuel 0 (fun s => recv_release (sliceSteps a)) ;;
  let* st := get in
  when (args_done (args st) =? nsubs (args st))
    (upd_args (fun a => set_state a ncclProxyOpNone)).

Definition recvProxyProgress (comm : SharedPool.comm_t) (x86_64 : bool)
    (env : nat -> recvEnv) : M recvState unit :=
  let* st := get in
  when (is_state (state (args st)) ncclProxyOpReady) recv_ready ;;
  upd_args (fun a => set_idle a 1) ;;
  let* st := get in
  when (is_state (state (args st)) ncclProxyOpProgress) (recv_progress comm x86_64 env) ;;
  exit ncclSuccess.

(** A sequence of progress calls, one environment per call; a call that
    returns an error ends the op. *)
Fixpoint recv_calls (comm : SharedPool.comm_t) (x86_64 : bool)
    (envs : list (nat -> recvEnv)) (st : recvState) : Exec.step unit * recvState :=
  match envs with
  | [] => (Exit ncclSuccess, st)
  | env :: envs' =>
      match recvProxyProgress comm x86_64 env st with
      | (Exit ncclSuccess, st') =>
          match envs' with
          | [] => (Exit ncclSuccess, st')
          | _ => recv_calls comm x86_64 envs' st'
          end
      | other => other
      end
  end.

(** *** Cursors in order *)

(** What a loop over the groups hands to its body for the group [g]. *)
Definition group_view (st : recvState) (g : list ncclProxySubArgs) : glocal :=
  mkGlocal g (resources st) (mem_of st) (idle (args st)) (args_done (args st))
           (net_of st).

(** The cursors of one sub in a state the receive machine can reach:
    ordered, multiples of [sliceSteps], and below the point where a
    64-bit cursor could wrap. *)
Definition recv_sub_ok (sl : Z) (x : ncclProxySubArgs) : Prop :=
  0 <= nsteps x < 2 ^ 31
  /\ 0 <= done x /\ done x <= transmitted x /\ transmitted x <= received x
  /\ received x <= posted x /\ posted x < 2 ^ 32
  /\ (sl | done x) /\ (sl | transmitted x) /\ (sl | received x) /\ (sl | posted x).

(** The members of a group are posted, received and transmitted
    together with the first one. *)
Definition lockstep (h x : ncclProxySubArgs) : Prop :=
  posted x = posted h /\ received x = received h /\ transmitted x = transmitted h.

Definition recv_group_ok (sl : Z) (g : list ncclProxySubArgs) : Prop :=
  match g with
  | [] => False
  | h :: _ =>
      Forall (fun x => recv_sub_ok sl x /\ lockstep h x
                       /\ groupSize x = Z.of_nat (length g)) g
  end.

(** A group of subs without steps, as grouping leaves them. *)
Definition zero_group (g : list ncclProxySubArgs) : Prop :=
  g <> []
  /\ Forall (fun x => groupSize x = Z.of_nat (length g) /\ nsteps x = 0 /\ fresh x) g.

(** Every connection has its staging memory mapped. *)
Definition pointers_ok (R : Z -> recvResources) : Prop :=
  forall c, recvMem (R c) <> 0 /\ sendMem (R c) <> 0.

(** The fields of the op that progress does not write. *)
Definition same_op (st st' : recvState) : Prop :=
  sliceSteps (args st') = sliceSteps (args st)
  /\ chunkSteps (args st') = chunkSteps (args st)
  /\ protocol (args st') = protocol (args st)
  /\ state (args st') = state (args st).

(** What a pass over a group keeps: the group stays in order, no cursor
    moves back, the staging memory stays mapped. *)
Definition body_post (sl : Z) (l l' : glocal) : Prop :=
  recv_group_ok sl (group l') /\ Forall2 cursors_le (group l) (group l')
  /\ pointers_ok (res l').

(** What releasing does to one sub: [done] moves forward, up to
    [transmitted]. *)
Definition released (sl : Z) (x x' : ncclProxySubArgs) : Prop :=
  recv_sub_ok sl x' /\ lockstep x x' /\ groupSize x' = groupSize x
  /\ cursors_le x x'.

(** An op past Ready: its subs are cut into groups in order. *)
Definition recv_inv (st : recvState) : Prop :=
  0 < sliceSteps (args st) < 2 ^ 31
  /\ subs (args st) <> []
  /\ pointers_ok (resources st)
  /\ exists gs, subs (args st) = concat gs
                /\ Forall (recv_group_ok (sliceSteps (args st))) gs.

(** Between two passes of a progress call that started in [st0]. *)
Definition recv_mid (st0 st : recvState) : Prop :=
  recv_inv st /\ Forall2 cursors_le (subs (args st0)) (subs (args st))
  /\ same_op st0 st.

(** What a progress call keeps, relative to the op [a0] it started
    from. *)
Definition recv_keeps (a0 : ncclProxyArgs) (st : recvState) : Prop :=
  recv_inv st /\ advanced a0 (args st) /\ state (args st) <> ncclProxyOpReady.

(** After the block that runs while the op is in progress, entered in
    [st0]: the op is in order, no cursor moved back, and the state is
    what it was unless the op completed. *)
Definition recv_progressed (st0 st : recvState) : Prop :=
  recv_inv st /\ advanced (args st0) (args st)
  /\ (state (args st) = state (args st0) \/ state (args st) = ncclProxyOpNone).

(** An op as the caller hands it over, with the connections as the
    connect phase leaves them. *)
Definition wf_recv (mr : Z -> Z) (st : recvState) : Prop :=
  wf_op (args st)
  /\ subs (args st) <> []
  /\ Z.of_nat (length (subs (args st))) < 2 ^ 31
  /\ wrap64 (chunkSteps (args st)) <> 0
  /\ Forall (wf_conn (resources st) mr) (subs (args st))
  /\ pointers_ok (resources st).

(** The op of three subs above with [nsteps] steps each, in slices of
    two, and a fabric that accepts no receive. *)
Definition example_state (nsteps : Z) : recvState :=
  mkState
    (mkArgs [example_sub 0 nsteps; example_sub 1 nsteps; example_sub 2 nsteps]
            0 2 2 NCCL_PROTO_SIMPLE ncclProxyOpReady 0)
    example_R SendProxy.example_mem [].

Definition quiet_env : nat -> recvEnv :=
  fun _ => mkRecvEnv (ncclSuccess, 0) (ncclSuccess, (0, [])) (ncclSuccess, 0)
                     (ncclSuccess, 0).

End RecvProxy.

(** ** Shared buffer pool: closed forms

    What [sharedBuffersInit] leaves behind when it runs to the end, in
    closed form, for the statements about the life cycle of a pool
    entry. *)

Module PoolLifecycle.
Import SharedPool.

(** The array [localPeers] once [sharedBuffersInit] has made sure it
    exists, and the peer record of [L] once it has made sure of that. *)
Definition peers_of (comm : comm_t) (st : pool) : list (option ncclProxyPeer) :=
  match localPeers st with
  | Some ps => ps
  | None => replicate (Z.to_nat (localRanks comm)) None
  end.

Definition peer_of (comm : comm_t) (st : pool) (L : Z) : ncclProxyPeer :=
  match peers_of comm st !! Z.to_nat L with
  | Some (Some p) => p
  | _ => zeroPeer
  end.

(** Is the peer record of [L] still to be allocated? *)
Definition peer_missing (comm : comm_t) (st : pool) (L : Z) : bool :=
  match peers_of comm st !! Z.to_nat L with
  | Some None => true
  | _ => false
  end.

Definition needs_cuda (cuda : Z) (x : ncclProxySharedP2p) : bool :=
  negb (cuda =? 0) && (cudaBuff x =? 0).

Definition needs_host (cuda : Z) (x : ncclProxySharedP2p) : bool :=
  (cuda =? 0) && (hostBuff x =? 0).

(** The size of an entry after the call: computed once, then kept. *)
Definition size_of (comm : comm_t) (nChannels : Z) (x : ncclProxySharedP2p) : Z :=
  if p_size x =? 0 then int32 (nChannels * NCCL_SHARED_STEPS * p2pChunkSize comm)
  else p_size x.

(** The entry of a direction after the call. *)
Definition inited (comm : comm_t) (env : env_t) (cuda sameProcess nChannels : Z)
    (x : ncclProxySharedP2p) : ncclProxySharedP2p :=
  mkP2p (int32 (refcount x + 1))
        (size_of comm nChannels x)
        (if needs_cuda cuda x then snd (cudaCalloc env) else cudaBuff x)
        (if needs_host cuda x then snd (cudaHostCalloc env) else hostBuff x)
        (if needs_cuda cuda x && (sameProcess =? 0)
         then snd (ipcGetMemHandle env) else p_ipc x).

(** What the call asks of the allocator and of the runtime. *)
Definition init_allocs (comm : comm_t) (env : env_t) (cuda L sameProcess nChannels : Z)
    (st : pool) (x : ncclProxySharedP2p) : list event :=
  (if bool_decide (localPeers st = None) then [EvCallocPeers (localRanks comm)] else [])
  ++ (if peer_missing comm st L then [EvCallocPeer L] else [])
  ++ (if needs_cuda cuda x
      then EvCudaCalloc (snd (cudaCalloc env)) (size_of comm nChannels x)
           :: (if sameProcess =? 0 then [EvIpcGetMemHandle (snd (cudaCalloc env))]
               else [])
      else [])
  ++ (if needs_host cuda x
      then [EvCudaHostCalloc (snd (cudaHostCalloc env)) (size_of comm nChannels x)]
      else []).

(** The buffer the call hands out. *)
Definition init_buffer (cuda : Z) (y : ncclProxySharedP2p) : Z :=
  if negb (cuda =? 0) then cudaBuff y else hostBuff y.

(** The out-parameters after the call. *)
Definition init_outs (cuda sameProcess : Z) (y : ncclProxySharedP2p) (o : outs) : outs :=
  mkOuts (store_opt (out_gpuPtr o)
            (if negb (sameProcess =? 0) then init_buffer cuda y else 0))
         (store_opt (out_cpuPtr o) (init_buffer cuda y))
         (store_opt (out_size o) (p_size y))
         (if negb (sameProcess =? 0) then out_ipc o
          else store_opt (out_ipc o) (p_ipc y)).

(** The pool after the call. *)
Definition after_init (comm : comm_t) (env : env_t)
    (cuda L type sameProcess nChannels : Z) (st : pool) : pool :=
  let peer := peer_of comm st L in
  let x := dir type peer in
  mkPool (Some (<[Z.to_nat L :=
                    Some (set_dir type peer (inited comm env cuda sameProcess nChannels x))]>
                  (peers_of comm st)))
         (log st ++ init_allocs comm env cuda L sameProcess nChannels st x).

(** The runtime answers every request the call makes with success. *)
Definition init_succeeds (comm : comm_t) (env : env_t) (cuda L sameProcess : Z)
    (st : pool) (x : ncclProxySharedP2p) : Prop :=
  (localPeers st = None -> calloc_peers env = ncclSuccess)
  /\ (peer_missing comm st L = true -> calloc_peer env = ncclSuccess)
  /\ (needs_cuda cuda x = true ->
      fst (cudaCalloc env) = ncclSuccess
      /\ (sameProcess = 0 -> fst (ipcGetMemHandle env) = true))
  /\ (needs_host cuda x = true -> fst (cudaHostCalloc env) = ncclSuccess).

End PoolLifecycle.

(** ** Setup of a proxy connection

    [sendProxySetup] and [recvProxySetup] run on the proxy when the
    compute side sends a [struct setupReq]: they allocate the resources
    of the connection and fill them in from the request and from the
    properties of the fabric device. *)

Module Setup.
Local Open Scope exec_scope.

(** [struct setupReq]: nine [int]s. *)
Record setupReq := mkSetupReq {
  rq_rank : Z;
  rq_localRank : Z;
  rq_remoteRank : Z;
  rq_shared : Z;
  rq_netDev : Z;
  rq_useGdr : Z;
  rq_needFlush : Z;
  rq_channelId : Z;
  rq_connIndex : Z
}.

(** [sizeof(int)], with the 32-bit [int] of [int32]. *)
Definition sizeof_int : Z := 4.

Definition sizeof_setupReq : Z := 9 * sizeof_int.

(** Sizes and constants that come from outside this file. *)
Record config := mkConfig {
  sizeof_ncclNetHandle_t : Z;
  NCCL_PTR_DMABUF : Z
}.

(** [ncclNetProperties_t], the fields this file reads. *)
Record props_t := mkProps {
  ptrSupport : Z;
  props_maxRecvs : Z
}.

(** Calls to the allocator and to the fabric plugin. *)
Inductive event :=
| EvCalloc
| EvGetProperties (netDev : Z)
| EvListen (netDev : Z).

(** Their answers: [ncclNetListen] gives the handle it writes into
    [respBuff] and the listen comm. *)
Record env_t := mkEnv {
  calloc : ncclResult_t;
  getProperties : ncclResult_t * props_t;
  listen : ncclResult_t * (Z * Z)
}.

(** What setup reads and writes: [connection->transportResources] (NULL
    or the resources), [connection->shared], the out-parameter [*done],
    the handle in [respBuff], and the log of calls to the outside. *)
Record world (R : Type) := mkWorld {
  transportResources : option R;
  conn_shared : Z;
  done : Z;
  respBuff : Z;
  log : list event
}.
Arguments mkWorld {R}.
Arguments transportResources {R}.
Arguments conn_shared {R}.
Arguments done {R}.
Arguments respBuff {R}.
Arguments log {R}.

Definition emit {R} (e : event) : M (world R) unit :=
  modify (fun w => mkWorld (transportResources w) (conn_shared w) (done w)
                           (respBuff w) (log w ++ [e])).

Definition set_resources {R} (r : R) : M (world R) unit :=
  modify (fun w => mkWorld (Some r) (conn_shared w) (done w) (respBuff w) (log w)).

(** Stores through [resources]; through NULL they are undefined. *)
Definition upd_resources {R} (f : R -> R) : M (world R) unit :=
  let* w := get in
  match transportResources w with
  | Some r => set_resources (f r)
  | None => undef
  end.

Definition set_conn_shared {R} (v : Z) : M (world R) unit :=
  modify (fun w => mkWorld (transportResources w) v (done w) (respBuff w) (log w)).

Definition set_done {R} (v : Z) : M (world R) unit :=
  modify (fun w => mkWorld (transportResources w) (conn_shared w) v (respBuff w) (log w)).

Definition set_respBuff {R} (v : Z) : M (world R) unit :=
  modify (fun w => mkWorld (transportResources w) (conn_shared w) (done w) v (log w)).

(** Zero-filled resources, as [ncclCalloc] returns them. *)
Definition zeroSendResources : Connect.sendResources :=
  Connect.mkSendResources BankMap.freshMap 0 0 0 0 0 0 0 0 0 0 0 0 0 0 0
                          (fun _ => 0) (fun _ => 0) (fun _ => 0) 0.

Definition zeroRecvResources : RecvProxy.recvResources :=
  RecvProxy.mkRecvResources BankMap.freshMap 0 0 0 0 0 0 0 0 0 0 0 0 0 0 0 0 0 0 0
                            (fun _ => 0) (fun _ => 0) (fun _ => 0) 0.

(** [resources->useGdr && comm->dmaBufSupport && (props.ptrSupport &
    NCCL_PTR_DMABUF)], as the [int] it is stored into. *)
Definition dmaBuf_of (cfg : config) (useGdr dmaBufSupport : Z) (props : props_t) : Z :=
  Z.b2z (negb (useGdr =? 0) && negb (dmaBufSupport =? 0)
         && negb (Z.land (ptrSupport props) (NCCL_PTR_DMABUF cfg) =? 0)).

(** The stores of [sendProxySetup] into the resources, from the request. *)
Definition send_fields (req : setupReq) (x : Connect.sendResources)
  : Connect.sendResources :=
  Connect.mkSendResources
    (Connect.map x) (Connect.netSendComm x) (Connect.sendMem x) (Connect.recvMem x)
    (rq_rank req) (rq_localRank req) (rq_remoteRank req) (rq_netDev req)
    (rq_useGdr req) (Connect.useDmaBuf x) (Connect.maxRecvs x)
    (Connect.gdcSync x) (Connect.gdrDesc x) (rq_shared req)
    (rq_channelId req) (rq_connIndex req)
    (Connect.buffers x) (Connect.buffSizes x) (Connect.mhandles x) (Connect.step x).

(** The stores from the properties of the device. *)
Definition send_props (cfg : config) (dmaBufSupport : Z) (props : props_t)
    (x : Connect.sendResources) : Connect.sendResources :=
  Connect.mkSendResources
    (Connect.map x) (Connect.netSendComm x) (Connect.sendMem x) (Connect.recvMem x)
    (Connect.rank x) (Connect.localRank x) (Connect.remoteRank x) (Connect.netDev x)
    (Connect.useGdr x) (dmaBuf_of cfg (Connect.useGdr x) dmaBufSupport props)
    (props_maxRecvs props)
    (Connect.gdcSync x) (Connect.gdrDesc x) (Connect.shared x)
    (Connect.channelId x) (Connect.connIndex x)
    (Connect.buffers x) (Connect.buffSizes x) (Connect.mhandles x) (Connect.step x).

(** [req] is [reqBuff] read as a [struct setupReq]; [dmaBufSupport] is
    [comm->dmaBufSupport]. *)
Definition sendProxySetup (cfg : config) (dmaBufSupport : Z) (env : env_t)
    (req : setupReq) (reqSize respSize : Z) : M (world Connect.sendResources) unit :=
  when (negb (reqSize =? sizeof_setupReq)) (exit ncclInternalError) ;;
  emit EvCalloc ;;
  NCCLCHECK (calloc env) ;;
  set_resources zeroSendResources ;;
  upd_resources (send_fields req) ;;
  set_conn_shared (rq_shared req) ;;
  emit (EvGetProperties (rq_netDev req)) ;;
  NCCLCHECK (fst (getProperties env)) ;;
  upd_resources (send_props cfg dmaBufSupport (snd (getProperties env))) ;;
  (* We don't return any data *)
  when (negb (respSize =? 0)) (exit ncclInternalError) ;;
  set_done 1 ;;
  exit ncclSuccess.

Definition recv_fields (req : setupReq) (x : RecvProxy.recvResources)
  : RecvProxy.recvResources :=
  RecvProxy.mkRecvResources
    (RecvProxy.map x) (RecvProxy.netListenComm x) (RecvProxy.netRecvComm x)
    (RecvProxy.sendMem x) (RecvProxy.recvMem x)
    (rq_rank req) (rq_localRank req) (rq_remoteRank req) (RecvProxy.proxyRank x)
    (rq_netDev req) (rq_useGdr req) (RecvProxy.useDmaBuf x) (rq_needFlush req)
    (RecvProxy.maxRecvs x) (RecvProxy.gdcSync x) (RecvProxy.gdcFlush x)
    (RecvProxy.gdrDesc x) (rq_shared req) (rq_channelId req) (rq_connIndex req)
    (RecvProxy.buffers x) (RecvProxy.buffSizes x) (RecvProxy.mhandles x)
    (RecvProxy.step x).

Definition recv_props (cfg : config) (dmaBufSupport : Z) (props : props_t)
    (x : RecvProxy.recvResources) : RecvProxy.recvResources :=
  RecvProxy.mkRecvResources
    (RecvProxy.map x) (RecvProxy.netListenComm x) (RecvProxy.netRecvComm x)
    (RecvProxy.sendMem x) (RecvProxy.recvMem x)
    (RecvProxy.rank x) (RecvProxy.localRank x) (RecvProxy.remoteRank x)
    (RecvProxy.proxyRank x) (RecvProxy.netDev x) (RecvProxy.useGdr x)
    (dmaBuf_of cfg (RecvProxy.useGdr x) dmaBufSupport props)
    (RecvProxy.needFlush x) (props_maxRecvs props)
    (RecvProxy.gdcSync x) (RecvProxy.gdcFlush x) (RecvProxy.gdrDesc x)
    (RecvProxy.shared x) (RecvProxy.channelId x) (RecvProxy.connIndex x)
    (RecvProxy.buffers x) (RecvProxy.buffSizes x) (RecvProxy.mhandles x)
    (RecvProxy.step x).

Definition set_netListenComm (v : Z) (x : RecvProxy.recvResources)
  : RecvProxy.recvResources :=
  RecvProxy.mkRecvResources
    (RecvProxy.map x) v (RecvProxy.netRecvComm x)
    (RecvProxy.sendMem x) (RecvProxy.recvMem x)
    (RecvProxy.rank x) (RecvProxy.localRank x) (RecvProxy.remoteRank x)
    (RecvProxy.proxyRank x) (RecvProxy.netDev x) (RecvProxy.useGdr x)
    (RecvProxy.useDmaBuf x) (RecvProxy.needFlush x) (RecvProxy.maxRecvs x)
    (RecvProxy.gdcSync x) (RecvProxy.gdcFlush x) (RecvProxy.gdrDesc x)
    (RecvProxy.shared x) (RecvProxy.channelId x) (RecvProxy.connIndex x)
    (RecvProxy.buffers x) (RecvProxy.buffSizes x) (RecvProxy.mhandles x)
    (RecvProxy.step x).

Definition recvProxySetup (cfg : config) (dmaBufSupport : Z) (env : env_t)
    (req : setupReq) (reqSize respSize : Z) : M (world RecvProxy.recvResources) unit :=
  when (negb (reqSize =? sizeof_setupReq)) (exit ncclInternalError) ;;
  emit EvCalloc ;;
  NCCLCHECK (calloc env) ;;
  set_resources zeroRecvResources ;;
  upd_resources (recv_fields req) ;;
  set_conn_shared (rq_shared req) ;;
  emit (EvGetProperties (rq_netDev req)) ;;
  NCCLCHECK (fst (getProperties env)) ;;
  upd_resources (recv_props cfg dmaBufSupport (snd (getProperties env))) ;;
  when (negb (respSize =? sizeof_ncclNetHandle_t cfg)) (exit ncclInternalError) ;;
  emit (EvListen (rq_netDev req)) ;;
  NCCLCHECK (fst (listen env)) ;;
  set_respBuff (fst (snd (listen env))) ;;
  upd_resources (set_netListenComm (snd (snd (listen env)))) ;;
  set_done 1 ;;
  exit ncclSuccess.

(** A connection before setup. *)
Definition fresh_world {R} : world R := mkWorld None 0 0 0 [].

End Setup.

(** ** Receive-side connect

    [recvProxyConnect] accepts the fabric connection of the sender,
    lays out the bank map of the receive side, backs its banks with
    memory and registers the buffers with the fabric.  The store to
    [connection->proxyAppendPtr] is not part of the state: nothing in
    this file reads it. *)

Module RecvConnect.
Import RecvProxy.
Local Open Scope exec_scope.

(** Sizes, build options and parameters that come from outside this
    file: those of the send side, and the flush parameter. *)
Record config := mkConfig {
  base : Connect.config;
  ncclParamGdrCopyFlushEnable : Z
}.

Definition set_map (x : recvResources) (v : BankMap.connectMap) : recvResources :=
  mkRecvResources v (netListenComm x) (netRecvComm x) (sendMem x) (recvMem x) (rank x) (localRank x) (remoteRank x) (proxyRank x) (netDev x) (useGdr x) (useDmaBuf x) (needFlush x) (maxRecvs x) (gdcSync x) (gdcFlush x) (gdrDesc x) (shared x) (channelId x) (connIndex x) (buffers x) (buffSizes x) (mhandles x) (step x).

Definition set_netRecvComm (x : recvResources) (v : Z) : recvResources :=
  mkRecvResources (map x) (netListenComm x) v (sendMem x) (recvMem x) (rank x) (localRank x) (remoteRank x) (proxyRank x) (netDev x) (useGdr x) (useDmaBuf x) (needFlush x) (maxRecvs x) (gdcSync x) (gdcFlush x) (gdrDesc x) (shared x) (channelId x) (connIndex x) (buffers x) (buffSizes x) (mhandles x) (step x).

Definition set_sendMem (x : recvResources) (v : Z) : recvResources :=
  mkRecvResources (map x) (netListenComm x) (netRecvComm x) v (recvMem x) (rank x) (localRank x) (remoteRank x) (proxyRank x) (netDev x) (useGdr x) (useDmaBuf x) (needFlush x) (maxRecvs x) (gdcSync x) (gdcFlush x) (gdrDesc x) (shared x) (channelId x) (connIndex x) (buffers x) (buffSizes x) (mhandles x) (step x).

Definition set_recvMem (x : recvResources) (v : Z) : recvResources :=
  mkRecvResources (map x) (netListenComm x) (netRecvComm x) (sendMem x) v (rank x) (localRank x) (remoteRank x) (proxyRank x) (netDev x) (useGdr x) (useDmaBuf x) (needFlush x) (maxRecvs x) (gdcSync x) (gdcFlush x) (gdrDesc x) (shared x) (channelId x) (connIndex x) (buffers x) (buffSizes x) (mhandles x) (step x).

Definition set_proxyRank (x : recvResources) (v : Z) : recvResources :=
  mkRecvResources (map x) (netListenComm x) (netRecvComm x) (sendMem x) (recvMem x) (rank x) (localRank x) (remoteRank x) v (netDev x) (useGdr x) (useDmaBuf x) (needFlush x) (maxRecvs x) (gdcSync x) (gdcFlush x) (gdrDesc x) (shared x) (channelId x) (connIndex x) (buffers x) (buffSizes x) (mhandles x) (step x).

Definition set_gdcSync (x : recvResources) (v : Z) : recvResources :=
  mkRecvResources (map x) (netListenComm x) (netRecvComm x) (sendMem x) (recvMem x) (rank x) (localRank x) (remoteRank x) (proxyRank x) (netDev x) (useGdr x) (useDmaBuf x) (needFlush x) (maxRecvs x) v (gdcFlush x) (gdrDesc x) (shared x) (channelId x) (connIndex x) (buffers x) (buffSizes x) (mhandles x) (step x).

Definition set_gdcFlush (x : recvResources) (v : Z) : recvResources :=
  mkRecvResources (map x) (netListenComm x) (netRecvComm x) (sendMem x) (recvMem x) (rank x) (localRank x) (remoteRank x) (proxyRank x) (netDev x) (useGdr x) (useDmaBuf x) (needFlush x) (maxRecvs x) (gdcSync x) v (gdrDesc x) (shared x) (channelId x) (connIndex x) (buffers x) (buffSizes x) (mhandles x) (step x).

Definition set_gdrDesc (x : recvResources) (v : Z) : recvResources :=
  mkRecvResources (map x) (netListenComm x) (netRecvComm x) (sendMem x) (recvMem x) (rank x) (localRank x) (remoteRank x) (proxyRank x) (netDev x) (useGdr x) (useDmaBuf x) (needFlush x) (maxRecvs x) (gdcSync x) (gdcFlush x) v (shared x) (channelId x) (connIndex x) (buffers x) (buffSizes x) (mhandles x) (step x).

Definition set_buffers (x : recvResources) (v : Z -> Z) : recvResources :=
  mkRecvResources (map x) (netListenComm x) (netRecvComm x) (sendMem x) (recvMem x) (rank x) (localRank x) (remoteRank x) (proxyRank x) (netDev x) (useGdr x) (useDmaBuf x) (needFlush x) (maxRecvs x) (gdcSync x) (gdcFlush x) (gdrDesc x) (shared x) (channelId x) (connIndex x) v (buffSizes x) (mhandles x) (step x).

Definition set_buffSizes (x : recvResources) (v : Z -> Z) : recvResources :=
  mkRecvResources (map x) (netListenComm x) (netRecvComm x) (sendMem x) (recvMem x) (rank x) (localRank x) (remoteRank x) (proxyRank x) (netDev x) (useGdr x) (useDmaBuf x) (needFlush x) (maxRecvs x) (gdcSync x) (gdcFlush x) (gdrDesc x) (shared x) (channelId x) (connIndex x) (buffers x) v (mhandles x) (step x).

Definition set_mhandles (x : recvResources) (v : Z -> Z) : recvResources :=
  mkRecvResources (map x) (netListenComm x) (netRecvComm x) (sendMem x) (recvMem x) (rank x) (localRank x) (remoteRank x) (proxyRank x) (netDev x) (useGdr x) (useDmaBuf x) (needFlush x) (maxRecvs x) (gdcSync x) (gdcFlush x) (gdrDesc x) (shared x) (channelId x) (connIndex x) (buffers x) (buffSizes x) v (step x).

(** [struct ncclSharedNetComms], the receive half. *)
Record ncclSharedNetComms := mkSharedNetComms {
  recvComm : Z -> Z;
  recvRefCount : Z -> Z
}.

Definition zeroSharedNetComms : ncclSharedNetComms :=
  mkSharedNetComms (fun _ => 0) (fun _ => 0).

(** Calls to the fabric plugin and to the runtime. *)
Inductive event :=
| EvNetAccept (listenComm : Z)
| EvNetCloseListen (listenComm : Z)
| EvCudaCalloc (ptr size : Z)
| EvCudaHostCalloc (ptr size : Z)
| EvGdrCudaCalloc (cpuPtr gpuPtr n : Z)
| EvGetDmaBufFd (ptr size : Z)
| EvRegMrDmaBuf (comm ptr size type fd : Z)
| EvClose (fd : Z)
| EvRegMr (comm ptr size type : Z).

(** The answers of the fabric plugin, the allocator and the runtime. *)
Record env_t := mkEnv {
  netAccept : ncclResult_t * Z;
  calloc_netComms : ncclResult_t;
  netCloseListen : ncclResult_t;
  pool_env : SharedPool.env_t;
  devCalloc : ncclResult_t * Z;
  hostCalloc : ncclResult_t * Z;
  gdrCalloc : ncclResult_t * (Z * Z * Z);
  getDmaBufFd : Z -> bool * Z;
  regMrDmaBuf : Z -> ncclResult_t * Z;
  regMr : Z -> ncclResult_t * Z
}.

(** What [recvProxyConnect] reads and writes: the resources of the
    connection, the progress state of the proxy (shared pool and shared
    fabric comms), staging memory, the out-parameters [*done] and
    [respBuff], and the log of calls to the outside. *)
Record world := mkWorld {
  res : recvResources;
  pool : SharedPool.pool;
  netComms : Z -> option (Z -> ncclSharedNetComms);
  mem : Staging.memory;
  done : Z;
  respBuff : option BankMap.connectMap;
  log : list event
}.

Definition set_res (x : world) (v : recvResources) : world :=
  mkWorld v (pool x) (netComms x) (mem x) (done x) (respBuff x) (log x).

Definition set_pool (x : world) (v : SharedPool.pool) : world :=
  mkWorld (res x) v (netComms x) (mem x) (done x) (respBuff x) (log x).

Definition set_netComms (x : world) (v : Z -> option (Z -> ncclSharedNetComms)) : world :=
  mkWorld (res x) (pool x) v (mem x) (done x) (respBuff x) (log x).

Definition set_mem (x : world) (v : Staging.memory) : world :=
  mkWorld (res x) (pool x) (netComms x) v (done x) (respBuff x) (log x).

Definition set_done (x : world) (v : Z) : world :=
  mkWorld (res x) (pool x) (netComms x) (mem x) v (respBuff x) (log x).

Definition set_respBuff (x : world) (v : option BankMap.connectMap) : world :=
  mkWorld (res x) (pool x) (netComms x) (mem x) (done x) v (log x).

Definition set_log (x : world) (v : list event) : world :=
  mkWorld (res x) (pool x) (netComms x) (mem x) (done x) (respBuff x) v.

Definition emit (e : event) : M world unit :=
  modify (fun w => set_log w (log w ++ [e])).

Definition upd_res (f : recvResources -> recvResources) : M world unit :=
  modify (fun w => set_res w (f (res w))).

Definition upd_map (f : BankMap.connectMap -> BankMap.connectMap) : M world unit :=
  upd_res (fun r => set_map r (f (map r))).

Definition upd_mapMem (bank : Z) (f : BankMap.connectMapMem -> BankMap.connectMapMem)
  : M world unit :=
  upd_map (fun m => BankMap.set_mem m bank (f (BankMap.mem_at m bank))).

(** Run a statement of the shared pool on the pool of this world. *)
Definition on_pool {A} (m : M SharedPool.pool A) : M world A :=
  fun w => let '(a, p) := m (pool w) in (a, set_pool w p).

(** [if (localPeers == NULL) NCCLCHECK(ncclCalloc(&localPeers, ...));
     if (localPeers[localRank] == NULL) NCCLCHECK(ncclCalloc(...));] *)
Definition ensure_peer (comm : Connect.comm_t) (env : env_t) (localRank : Z)
  : M world unit :=
  let penv := pool_env env in
  let* w := get in
  when (bool_decide (SharedPool.localPeers (pool w) = None))
    (NCCLCHECK (SharedPool.calloc_peers penv) ;;
     on_pool (SharedPool.emit (SharedPool.EvCallocPeers
                                 (SharedPool.localRanks (Connect.pool_comm comm)))) ;;
     on_pool (SharedPool.set_localPeers
                (Some (replicate
                         (Z.to_nat (SharedPool.localRanks (Connect.pool_comm comm)))
                         None)))) ;;
  let* p := on_pool (SharedPool.read_peer localRank) in
  when (bool_decide (p = None))
    (NCCLCHECK (SharedPool.calloc_peer penv) ;;
     on_pool (SharedPool.emit (SharedPool.EvCallocPeer localRank)) ;;
     on_pool (SharedPool.write_peer localRank (Some SharedPool.zeroPeer))).

(** [ncclNetAccept(comm, listenComm, &recvComm)]: the comm the plugin
    hands back, NULL while the sender has not connected. *)
Definition ncclNetAccept (env : env_t) (listenComm : Z) : M world Z :=
  emit (EvNetAccept listenComm) ;;
  NCCLCHECK (fst (netAccept env)) ;;
  ret (snd (netAccept env)).

(** The first part of [recvProxyConnect]: check the request, record the
    proxy rank it carries, get the fabric receive comm, and answer
    [done = 0] while it is not ready; then close the listen comm. *)
Definition accept_fabric (cfg : config) (comm : Connect.comm_t) (env : env_t)
    (reqBuff reqSize : Z) : M world unit :=
  when (negb (reqSize =? Setup.sizeof_int)) (exit ncclInternalError) ;;
  upd_res (fun r => set_proxyRank r reqBuff) ;;
  let* w := get in
  let r := res w in
  (if negb (shared r =? 0) then
     ensure_peer comm env (localRank r) ;;
     if (1 <? maxRecvs r) && negb (Connect.ncclParamNetSharedComms (base cfg) =? 0) then
       let* w := get in
       when (bool_decide (netComms w (netDev r) = None))
         (NCCLCHECK (calloc_netComms env) ;;
          modify (fun w => set_netComms w
                    (upd (netComms w) (netDev r) (Some (fun _ => zeroSharedNetComms))))) ;;
       let* w := get in
       match netComms w (netDev r) with
       | None => undef
       | Some arr =>
           let comms := arr (proxyRank r) in
           let* c :=
             (if recvComm comms (channelId r) =? 0
              then ncclNetAccept env (netListenComm r)
              else ret (recvComm comms (channelId r))) in
           let comms := mkSharedNetComms (upd (recvComm comms) (channelId r) c)
                                         (recvRefCount comms) in
           let comms :=
             if negb (c =? 0) then
               mkSharedNetComms (recvComm comms)
                 (upd (recvRefCount comms) (channelId r)
                      (int32 (recvRefCount comms (channelId r) + 1)))
             else comms in
           modify (fun w => set_netComms w
                     (upd (netComms w) (netDev r) (Some (upd arr (proxyRank r) comms)))) ;;
           upd_res (fun r => set_netRecvComm r c)
       end
     else
       let* c := ncclNetAccept env (netListenComm r) in
       upd_res (fun r => set_netRecvComm r c)
   else
     let* c := ncclNetAccept env (netListenComm r) in
     upd_res (fun r => set_netRecvComm r c)) ;;
  let* w := get in
  if netRecvComm (res w) =? 0 then
    modify (fun w => set_done w 0) ;; exit ncclSuccess
  else
    modify (fun w => set_done w 1) ;;
    emit (EvNetCloseListen (netListenComm (res w))) ;;
    NCCLCHECK (netCloseListen env).

(** [NCCLCHECK(sharedBuffersInit(comm, useGdr, localRank, 1, 1,
    comm->p2pnChannels, &mapMem->gpuPtr, &mapMem->cpuPtr, &mapMem->size,
    NULL))] with [mapMem = map->mems + bank]. *)
Definition call_sharedBuffersInit (comm : Connect.comm_t) (env : env_t) (bank : Z)
  : M world unit :=
  fun w =>
    let r := res w in
    let mm := BankMap.mem_at (map r) bank in
    let o := SharedPool.mkOuts (Some (BankMap.gpuPtr mm)) (Some (BankMap.cpuPtr mm))
                               (Some (BankMap.size mm)) None in
    let '(a, (p, o')) :=
      NCCLCHECK_call
        (SharedPool.sharedBuffersInit (Connect.pool_comm comm) (pool_env env) (useGdr r)
           (localRank r) 1 1 (Connect.p2pnChannels comm))
        (pool w, o) in
    let mm' := BankMap.mkMem (default 0 (SharedPool.out_gpuPtr o'))
                             (default 0 (SharedPool.out_cpuPtr o'))
                             (default 0 (SharedPool.out_size o'))
                             (BankMap.ipc mm) in
    (a, set_res (set_pool w p) (set_map r (BankMap.set_mem (map r) bank mm'))).

(** The second part: a receive through a proxy of another process is
    refused; then fill in the bank map. *)
Definition build_map (cfg : config) (comm : Connect.comm_t) (env : env_t) : M world unit :=
  let* w := get in
  let r := res w in
  let sameProcess :=
    Z.b2z (Connect.pidHash comm (rank r) =? Connect.pidHash comm (Connect.comm_rank comm)) in
  upd_map (fun m =>
    BankMap.mkMap sameProcess (BankMap.shared m) (BankMap.cudaDev m)
                  (BankMap.mems m) (BankMap.offsets m)) ;;
  when (sameProcess =? 0) (exit ncclInternalError) ;;
  upd_map (fun m =>
    BankMap.mkMap (BankMap.sameProcess m) (shared r) (BankMap.cudaDev m)
                  (BankMap.mems m) (BankMap.offsets m)) ;;
  (if shared r =? 0 then
     for_loop (Z.to_nat NCCL_NUM_PROTOCOLS) 0 (fun p =>
       upd_map (fun m =>
         BankMap.NCCL_NET_MAP_ADD_POINTER m 0 (useGdr r)
           (Connect.comm_buffSizes comm p) (BankMap.buffs p)) ;;
       upd_res (fun r => set_buffSizes r
                  (upd (buffSizes r) p (Connect.comm_buffSizes comm p))))
   else
     let bank := if negb (useGdr r =? 0) then BankMap.NCCL_NET_MAP_SHARED_DEVMEM
                 else BankMap.NCCL_NET_MAP_SHARED_HOSTMEM in
     call_sharedBuffersInit comm env bank ;;
     let* w := get in
     let mapMem := BankMap.mem_at (map (res w)) bank in
     upd_res (fun r => set_buffSizes r
                (upd (buffSizes r) NCCL_PROTO_SIMPLE (BankMap.size mapMem))) ;;
     upd_map (fun m =>
       BankMap.NCCL_NET_MAP_ADD_POINTER m 1 (useGdr r) (BankMap.size mapMem)
         (BankMap.buffs NCCL_PROTO_SIMPLE))) ;;
  upd_map (fun m =>
    BankMap.NCCL_NET_MAP_ADD_POINTER m 0 0
      (Connect.sizeof_ncclSendMem (base cfg)) BankMap.sendMem) ;;
  upd_map (fun m =>
    BankMap.NCCL_NET_MAP_ADD_POINTER m 0 0
      (Connect.sizeof_ncclRecvMem (base cfg)) BankMap.recvMem) ;;
  when (negb (Connect.allocP2pNetLLBuffers comm =? 0))
    (upd_map (fun m =>
       BankMap.NCCL_NET_MAP_ADD_POINTER m 0 0 (Connect.comm_buffSizes comm NCCL_PROTO_LL)
         (BankMap.buffs NCCL_PROTO_LL)) ;;
     upd_res (fun r => set_buffSizes r
                (upd (buffSizes r) NCCL_PROTO_LL
                     (Connect.comm_buffSizes comm NCCL_PROTO_LL)))).

(** The third part: back the dedicated banks with memory.  The second
    word of the GDR-copy allocation, [cpuPtr + 1] in [uint64_t]s, is 8
    bytes on. *)
Definition allocate_banks (cfg : config) (comm : Connect.comm_t) (env : env_t)
  : M world unit :=
  let* w := get in
  let r := res w in
  let m := map r in
  let DEVMEM := BankMap.NCCL_NET_MAP_DEVMEM in
  let HOSTMEM := BankMap.NCCL_NET_MAP_HOSTMEM in
  when (negb (BankMap.size (BankMap.mem_at m DEVMEM) =? 0))
    (when (shared r =? 0)
       (NCCLCHECK (fst (devCalloc env)) ;;
        emit (EvCudaCalloc (snd (devCalloc env)) (BankMap.size (BankMap.mem_at m DEVMEM))) ;;
        upd_mapMem DEVMEM (fun x =>
          BankMap.mkMem (snd (devCalloc env)) (snd (devCalloc env))
                        (BankMap.size x) (BankMap.ipc x)))) ;;
  NCCLCHECK (fst (hostCalloc env)) ;;
  (let sz := BankMap.size (BankMap.mem_at m HOSTMEM) in
   emit (EvCudaHostCalloc (snd (hostCalloc env)) sz) ;;
   modify (fun w => set_mem w (Staging.calloc_at (snd (hostCalloc env)) sz (mem w))) ;;
   upd_mapMem HOSTMEM (fun x =>
     BankMap.mkMem (snd (hostCalloc env)) (snd (hostCalloc env))
                   (BankMap.size x) (BankMap.ipc x))) ;;
  when (negb (Connect.ncclGdrCopy (base cfg) =? 0) && negb (BankMap.sameProcess m =? 0))
    (NCCLCHECK (fst (gdrCalloc env)) ;;
     let '(cpuPtr, gpuPtr, desc) := snd (gdrCalloc env) in
     emit (EvGdrCudaCalloc cpuPtr gpuPtr 2) ;;
     upd_res (fun r => set_gdrDesc r desc) ;;
     when (negb (Connect.ncclParamGdrCopySyncEnable (base cfg) =? 0))
       (upd_res (fun r => set_gdcSync r cpuPtr) ;;
        upd_mapMem BankMap.NCCL_NET_MAP_GDCMEM (fun x =>
          BankMap.mkMem gpuPtr cpuPtr 8 (BankMap.ipc x))) ;;
     when (negb (ncclParamGdrCopyFlushEnable cfg =? 0))
       (upd_res (fun r => set_gdcFlush r (cpuPtr + 8)))).

(** The fourth part: point the resources at [sendMem] and [recvMem].
    Unlike the send side, nothing is stored into them. *)
Definition point_staging : M world unit :=
  upd_res (fun r => set_sendMem r
             (BankMap.NCCL_NET_MAP_GET_POINTER (map r) BankMap.cpu BankMap.sendMem)) ;;
  upd_res (fun r => set_recvMem r
             (BankMap.NCCL_NET_MAP_GET_POINTER (map r) BankMap.cpu BankMap.recvMem)).

(** The last part: register every buffer with the fabric and copy the
    map into the response. *)
Definition register_buffers (cfg : config) (env : env_t) (respSize : Z) : M world unit :=
  for_loop (Z.to_nat NCCL_NUM_PROTOCOLS) 0 (fun p =>
    upd_res (fun r => set_buffers r
               (upd (buffers r) p
                    (BankMap.NCCL_NET_MAP_GET_POINTER (map r) BankMap.cpu (BankMap.buffs p)))) ;;
    let* w := get in
    let r := res w in
    when (negb (buffers r p =? 0))
      (let type := if BankMap.NCCL_NET_MAP_DEV_MEM (BankMap.get_offset (map r) (BankMap.buffs p))
                   then Connect.NCCL_PTR_CUDA else Connect.NCCL_PTR_HOST in
       if Connect.cuda_11070 (base cfg) && (type =? Connect.NCCL_PTR_CUDA)
          && negb (useDmaBuf r =? 0) then
         CUDACHECK (fst (getDmaBufFd env p)) ;;
         emit (EvGetDmaBufFd (buffers r p) (buffSizes r p)) ;;
         NCCLCHECK (fst (regMrDmaBuf env p)) ;;
         emit (EvRegMrDmaBuf (netRecvComm r) (buffers r p) (buffSizes r p) type
                             (snd (getDmaBufFd env p))) ;;
         upd_res (fun r => set_mhandles r (upd (mhandles r) p (snd (regMrDmaBuf env p)))) ;;
         emit (EvClose (snd (getDmaBufFd env p)))
       else
         NCCLCHECK (fst (regMr env p)) ;;
         emit (EvRegMr (netRecvComm r) (buffers r p) (buffSizes r p) type) ;;
         upd_res (fun r => set_mhandles r (upd (mhandles r) p (snd (regMr env p)))))) ;;
  when (negb (respSize =? Connect.sizeof_connectMap (base cfg))) (exit ncclInternalError) ;;
  modify (fun w => set_respBuff w (Some (map (res w)))) ;;
  exit ncclSuccess.

(** [reqBuff] is the [int] the request carries, the proxy rank. *)
Definition recvProxyConnect (cfg : config) (comm : Connect.comm_t) (env : env_t)
    (reqBuff reqSize respSize : Z) : M world unit :=
  accept_fabric cfg comm env reqBuff reqSize ;;
  build_map cfg comm env ;;
  allocate_banks cfg comm env ;;
  point_staging ;;
  register_buffers cfg env respSize.

(** A shared connection of local rank 0 on a one-rank node that stages
    in host memory, before [recvProxyConnect] runs. *)
Definition example_config : config := mkConfig Connect.example_config 0.

Definition example_comm : Connect.comm_t := Connect.example_comm.

Definition example_env : env_t :=
  mkEnv (ncclSuccess, 55) ncclSuccess ncclSuccess
        (SharedPool.mkEnv ncclSuccess ncclSuccess (ncclSuccess, 300000) (true, 7)
                          (ncclSuccess, 200000) true ncclSuccess)
        (ncclSuccess, 400000) (ncclSuccess, 100000)
        (ncclSuccess, (600000, 700000, 1))
        (fun _ => (true, 3)) (fun _ => (ncclSuccess, 9)) (fun _ => (ncclSuccess, 9)).

Definition example_world : world :=
  mkWorld
    (mkRecvResources BankMap.freshMap 77 0 0 0 0 0 1 0 0 0 0 0 1 0 0 0 1 0 0
                     (fun _ => 0) (fun _ => 0) (fun _ => 0) 0)
    (SharedPool.mkPool None [])
    (fun _ => None)
    (Staging.mkMemory (fun _ => Staging.zeroSendMem) (fun _ => Staging.zeroRecvMem)
                      (fun _ => 0))
    0 None [].

(** What the parts of [recvProxyConnect] establish, for a run that
    started in [w] with the request [reqBuff]: the fabric comm is there,
    [*done = 1] and the proxy rank is the request ([accepted]); the
    rank of the connection lives in the process of the proxy and the
    map says so ([same_process]); the staging memory is the one of [w]
    with the host bank zeroed ([banked]). *)
Definition accepted (reqBuff : Z) (w s : world) : Prop :=
  done s = 1 /\ netRecvComm (res s) <> 0 /\ proxyRank (res s) = reqBuff
  /\ rank (res s) = rank (res w).

Definition same_process (comm : Connect.comm_t) (w s : world) : Prop :=
  BankMap.sameProcess (map (res s)) = 1
  /\ Connect.pidHash comm (rank (res w)) = Connect.pidHash comm (Connect.comm_rank comm).

Definition banked (comm : Connect.comm_t) (env : env_t) (reqBuff : Z) (w s : world) : Prop :=
  accepted reqBuff w s /\ same_process comm w s
  /\ exists sz, mem s = Staging.calloc_at (snd (hostCalloc env)) sz (mem w).

(** The calls to [ncclNetAccept] in a log, and what a run that started
    in [w] has left alone when it has neither touched the fabric comm of
    the connection nor the shared comms, nor [*done], nor called
    [ncclNetAccept]. *)
Definition is_accept (e : event) : bool :=
  match e with EvNetAccept _ => true | _ => false end.

Definition accepts (l : list event) : list event := List.filter is_accept l.

Definition comm_kept (w s : world) : Prop :=
  netRecvComm (res s) = netRecvComm (res w) /\ netComms s = netComms w
  /\ done s = done w /\ accepts (log s) = accepts (log w).

(** The shared comms of the device of the connection (all zero while
    the array is not allocated), the comm a shared connection of [w]
    ends up with for the proxy rank [reqBuff] (the filed one, or else
    what [ncclNetAccept] answers), and the shared comms once the
    connection is counted as a user of it. *)
Definition filed_comms (w : world) : Z -> ncclSharedNetComms :=
  default (fun _ => zeroSharedNetComms) (netComms w (netDev (res w))).

Definition shared_comm (env : env_t) (reqBuff : Z) (w : world) : Z :=
  let filed := recvComm (filed_comms w reqBuff) (channelId (res w)) in
  if filed =? 0 then snd (netAccept env) else filed.

Definition count_user (env : env_t) (reqBuff : Z) (w : world)
  : Z -> option (Z -> ncclSharedNetComms) :=
  let r := res w in
  let comms := filed_comms w reqBuff in
  let c := shared_comm env reqBuff w in
  upd (netComms w) (netDev r)
    (Some (upd (filed_comms w) reqBuff
             (mkSharedNetComms
                (upd (recvComm comms) (channelId r) c)
                (if c =? 0 then recvRefCount comms
                 else upd (recvRefCount comms) (channelId r)
                          (int32 (recvRefCount comms (channelId r) + 1)))))).

(** The connection of [example_world] on a device that takes two
    receives at a time, when the comm 88 of every (rank, channel) is
    filed already and has one user. *)
Definition example_shared_world : world :=
  mkWorld
    (mkRecvResources BankMap.freshMap 77 0 0 0 0 0 1 0 0 0 0 0 2 0 0 0 1 0 0
                     (fun _ => 0) (fun _ => 0) (fun _ => 0) 0)
    (SharedPool.mkPool None [])
    (fun _ => Some (fun _ => mkSharedNetComms (fun _ => 88) (fun _ => 1)))
    (Staging.mkMemory (fun _ => Staging.zeroSendMem) (fun _ => Staging.zeroRecvMem)
                      (fun _ => 0))
    0 None [].

End RecvConnect.

(** ** Shared fabric comms of the send side *)

Module SendShared.
Import Connect.

(** The calls to [ncclNetConnect] in a log, and what a run that started
    in [w] has left alone when it has neither touched the fabric comm of
    the connection nor the shared comms, nor [*done], nor called
    [ncclNetConnect]. *)
Definition is_connect (e : event) : bool :=
  match e with EvNetConnect _ => true | _ => false end.

Definition connects (l : list event) : list event := List.filter is_connect l.

Definition comm_kept (w s : world) : Prop :=
  netSendComm (res s) = netSendComm (res w) /\ netComms s = netComms w
  /\ done s = done w /\ connects (log s) = connects (log w).

(** The shared comms of the device of the connection (all zero while
    the array is not allocated), the comm a shared connection of [w]
    ends up with (the one filed for its remote rank, or else what
    [ncclNetConnect] answers), and the shared comms once the connection
    is counted as a user of it. *)
Definition filed_comms (w : world) : Z -> ncclSharedNetComms :=
  default (fun _ => zeroSharedNetComms) (netComms w (netDev (res w))).

Definition shared_comm (env : env_t) (w : world) : Z :=
  let filed := sendComm (filed_comms w (remoteRank (res w))) (channelId (res w)) in
  if filed =? 0 then snd (netConnect env) else filed.

Definition count_user (env : env_t) (w : world)
  : Z -> option (Z -> ncclSharedNetComms) :=
  let r := res w in
  let comms := filed_comms w (remoteRank r) in
  let c := shared_comm env w in
  upd (netComms w) (netDev r)
    (Some (upd (filed_comms w) (remoteRank r)
             (mkSharedNetComms
                (upd (sendComm comms) (channelId r) c)
                (if c =? 0 then sendRefCount comms
                 else upd (sendRefCount comms) (channelId r)
                          (int32 (sendRefCount comms (channelId r) + 1)))))).

(** The connection of [example_world] on a device that takes two
    receives at a time, when the comm 88 of every (rank, channel) is
    filed already and has one user. *)
Definition example_shared_world : world :=
  mkWorld
    (mkSendResources BankMap.freshMap 0 0 0 0 0 1 0 0 0 2 0 0 1 0 0
                     (fun _ => 0) (fun _ => 0) (fun _ => 0) 0)
    (SharedPool.mkPool None [])
    (fun _ => Some (fun _ => mkSharedNetComms (fun _ => 88) (fun _ => 1)))
    (Staging.mkMemory (fun _ => Staging.zeroSendMem) (fun _ => Staging.zeroRecvMem)
                      (fun _ => 0))
    0 None [].

End SendShared.

(** ** Pre-connect and teardown of a proxy connection

    [proxySharedInit] takes a reference on the shared pool before any
    connection is set up; [sendProxyFree] and [recvProxyFree] undo what
    setup and connect (or [proxySharedInit]) have done, depending on the
    state of the connection. *)

Module Teardown.
Local Open Scope exec_scope.

(** Modelled from the spec: the states of a proxy connection are
    declared in the proxy header, which is not part of this source file;
    the spec names the two states this file tests, [connConnected] and
    the pre-connected [connSharedInitialized].  Every other state is
    [connOther]. *)
Inductive proxyConnectState :=
| connSharedInitialized
| connConnected
| connOther.

Definition is_connState (a b : proxyConnectState) : bool :=
  match a, b with
  | connSharedInitialized, connSharedInitialized => true
  | connConnected, connConnected => true
  | connOther, connOther => true
  | _, _ => false
  end.

(** Calls to the fabric plugin, the runtime and the allocator.
    [EvShmClose] closes the handle under which the host bank was
    created. *)
Inductive event :=
| EvDeregMr (comm mhandle : Z)
| EvCudaHostFree (ptr : Z)
| EvShmClose
| EvCudaFree (ptr : Z)
| EvGdrCudaFree (desc : Z)
| EvNetCloseSend (comm : Z)
| EvNetCloseRecv (comm : Z)
| EvFree.

(** Their answers. *)
Record env_t := mkEnv {
  deregMr : Z -> ncclResult_t;
  hostFree : ncclResult_t;
  shmClose : ncclResult_t;
  devFree : bool;
  gdrFree : ncclResult_t;
  netClose : ncclResult_t;
  pool_env : SharedPool.env_t
}.

(** What teardown reads and writes: the connection ([state],
    [localRank], [transportResources], NULL or the resources), the
    progress state of the proxy (shared pool and shared fabric comms),
    and the log of calls to the outside.  [R] is the type of the
    resources and [C] the type of the shared comms of a rank. *)
Record world (R C : Type) := mkWorld {
  conn_state : proxyConnectState;
  conn_localRank : Z;
  transportResources : option R;
  pool : SharedPool.pool;
  netComms : Z -> option (Z -> C);
  log : list event
}.
Arguments mkWorld {R C}.
Arguments conn_state {R C}.
Arguments conn_localRank {R C}.
Arguments transportResources {R C}.
Arguments pool {R C}.
Arguments netComms {R C}.
Arguments log {R C}.

Definition emit {R C} (e : event) : M (world R C) unit :=
  modify (fun w => mkWorld (conn_state w) (conn_localRank w) (transportResources w)
                           (pool w) (netComms w) (log w ++ [e])).

Definition set_netComms {R C} (v : Z -> option (Z -> C)) : M (world R C) unit :=
  modify (fun w => mkWorld (conn_state w) (conn_localRank w) (transportResources w)
                           (pool w) v (log w)).

(** Run a function of the shared pool on the pool of this world. *)
Definition on_pool {R C} (m : M SharedPool.pool unit) : M (world R C) unit :=
  fun w =>
    let '(a, p) := m (pool w) in
    (a, mkWorld (conn_state w) (conn_localRank w) (transportResources w)
                p (netComms w) (log w)).

Definition sendProxyFree (comm : SharedPool.comm_t) (env : env_t)
    (ncclParamNetSharedComms : Z)
  : M (world Connect.sendResources Connect.ncclSharedNetComms) unit :=
  let* w := get in
  when (is_connState (conn_state w) connSharedInitialized)
    (NCCLCHECK_call
       (on_pool (SharedPool.sharedBuffersDestroy comm (pool_env env) (conn_localRank w) 0)) ;;
     exit ncclSuccess) ;;
  when (is_connState (conn_state w) connConnected)
    (match transportResources w with
     | None => undef
     | Some r =>
         for_loop (Z.to_nat NCCL_NUM_PROTOCOLS) 0 (fun p =>
           when (negb (Connect.buffers r p =? 0))
             (emit (EvDeregMr (Connect.netSendComm r) (Connect.mhandles r p)) ;;
              NCCLCHECK (deregMr env p))) ;;
         let mems := BankMap.mems (Connect.map r) in
         (if negb (BankMap.sameProcess (Connect.map r) =? 0) then
            emit (EvCudaHostFree (BankMap.cpuPtr (mems BankMap.NCCL_NET_MAP_HOSTMEM))) ;;
            NCCLCHECK (hostFree env)
          else
            emit EvShmClose ;;
            NCCLCHECK (shmClose env)) ;;
         emit (EvCudaFree (BankMap.cpuPtr (mems BankMap.NCCL_NET_MAP_DEVMEM))) ;;
         CUDACHECK (devFree env) ;;
         when (negb (BankMap.cpuPtr (mems BankMap.NCCL_NET_MAP_GDCMEM) =? 0))
           (emit (EvGdrCudaFree (Connect.gdrDesc r)) ;;
            NCCLCHECK (gdrFree env)) ;;
         if negb (Connect.shared r =? 0) then
           NCCLCHECK_call
             (on_pool (SharedPool.sharedBuffersDestroy comm (pool_env env)
                         (Connect.localRank r) 0)) ;;
           if (1 <? Connect.maxRecvs r) && negb (ncclParamNetSharedComms =? 0) then
             let* w := get in
             match netComms w (Connect.netDev r) with
             | None => undef
             | Some arr =>
                 let comms := arr (Connect.remoteRank r) in
                 let count := int32 (Connect.sendRefCount comms (Connect.channelId r) - 1) in
                 set_netComms
                   (upd (netComms w) (Connect.netDev r)
                      (Some (upd arr (Connect.remoteRank r)
                               (Connect.mkSharedNetComms (Connect.sendComm comms)
                                  (upd (Connect.sendRefCount comms)
                                       (Connect.channelId r) count))))) ;;
                 when (count =? 0)
                   (emit (EvNetCloseSend (Connect.sendComm comms (Connect.channelId r))) ;;
                    NCCLCHECK (netClose env))
             end
           else
             emit (EvNetCloseSend (Connect.netSendComm r)) ;;
             NCCLCHECK (netClose env)
         else
           emit (EvNetCloseSend (Connect.netSendComm r)) ;;
           NCCLCHECK (netClose env)
     end) ;;
  when (bool_decide (transportResources w <> None)) (emit EvFree) ;;
  exit ncclSuccess.

Definition recvProxyFree (comm : SharedPool.comm_t) (env : env_t)
    (ncclParamNetSharedComms : Z)
  : M (world RecvProxy.recvResources RecvConnect.ncclSharedNetComms) unit :=
  let* w := get in
  when (is_connState (conn_state w) connSharedInitialized)
    (NCCLCHECK_call
       (on_pool (SharedPool.sharedBuffersDestroy comm (pool_env env) (conn_localRank w) 1)) ;;
     exit ncclSuccess) ;;
  when (is_connState (conn_state w) connConnected)
    (match transportResources w with
     | None => undef
     | Some r =>
         for_loop (Z.to_nat NCCL_NUM_PROTOCOLS) 0 (fun p =>
           when (negb (RecvProxy.buffers r p =? 0))
             (emit (EvDeregMr (RecvProxy.netRecvComm r) (RecvProxy.mhandles r p)) ;;
              NCCLCHECK (deregMr env p))) ;;
         let mems := BankMap.mems (RecvProxy.map r) in
         emit (EvCudaHostFree (BankMap.cpuPtr (mems BankMap.NCCL_NET_MAP_HOSTMEM))) ;;
         NCCLCHECK (hostFree env) ;;
         emit (EvCudaFree (BankMap.cpuPtr (mems BankMap.NCCL_NET_MAP_DEVMEM))) ;;
         CUDACHECK (devFree env) ;;
         when (negb (BankMap.cpuPtr (mems BankMap.NCCL_NET_MAP_GDCMEM) =? 0))
           (emit (EvGdrCudaFree (RecvProxy.gdrDesc r)) ;;
            NCCLCHECK (gdrFree env)) ;;
         if negb (RecvProxy.shared r =? 0) then
           NCCLCHECK_call
             (on_pool (SharedPool.sharedBuffersDestroy comm (pool_env env)
                         (RecvProxy.localRank r) 1)) ;;
           if (1 <? RecvProxy.maxRecvs r) && negb (ncclParamNetSharedComms =? 0) then
             let* w := get in
             match netComms w (RecvProxy.netDev r) with
             | None => undef
             | Some arr =>
                 let comms := arr (RecvProxy.proxyRank r) in
                 let count :=
                   int32 (RecvConnect.recvRefCount comms (RecvProxy.channelId r) - 1) in
                 set_netComms
                   (upd (netComms w) (RecvProxy.netDev r)
                      (Some (upd arr (RecvProxy.proxyRank r)
                               (RecvConnect.mkSharedNetComms (RecvConnect.recvComm comms)
                                  (upd (RecvConnect.recvRefCount comms)
                                       (RecvProxy.channelId r) count))))) ;;
                 when (count =? 0)
                   (emit (EvNetCloseRecv
                            (RecvConnect.recvComm comms (RecvProxy.channelId r))) ;;
                    NCCLCHECK (netClose env))
             end
           else
             emit (EvNetCloseRecv (RecvProxy.netRecvComm r)) ;;
             NCCLCHECK (netClose env)
         else
           emit (EvNetCloseRecv (RecvProxy.netRecvComm r)) ;;
           NCCLCHECK (netClose env)
     end) ;;
  when (bool_decide (transportResources w <> None)) (emit EvFree) ;;
  exit ncclSuccess.

(** [proxySharedInit], the pre-connect entry of both directions:
    [sameProcess] is whether the rank behind [connection->localRank]
    runs in the process of this proxy; the four out-parameters of
    [sharedBuffersInit] are NULL. *)
Definition proxySharedInit {R C} (comm : SharedPool.comm_t) (env : SharedPool.env_t)
    (localRankToRank pidHash : Z -> Z) (comm_rank nChannels : Z)
  : M (world R C) unit :=
  let* w := get in
  let rank := localRankToRank (conn_localRank w) in
  let sameProcess := Z.b2z (pidHash rank =? pidHash comm_rank) in
  NCCLCHECK_call
    (on_pool
       (fun p =>
          let '(a, (p', _)) :=
            SharedPool.sharedBuffersInit comm env 1 (conn_localRank w) 0 sameProcess
              nChannels (p, SharedPool.mkOuts None None None None) in
          (a, p'))) ;;
  exit ncclSuccess.






(** An allocator, a runtime and a fabric that succeed. *)
Definition example_pool_env : SharedPool.env_t :=
  SharedPool.mkEnv ncclSuccess ncclSuccess (ncclSuccess, 4096) (true, 7)
                   (ncclSuccess, 8192) true ncclSuccess.

Definition example_env : env_t :=
  mkEnv (fun _ => ncclSuccess) ncclSuccess ncclSuccess true ncclSuccess ncclSuccess
        example_pool_env.

(** A connected shared send connection of local rank 0 with one
    registered buffer, whose fabric comm 55 is filed as a shared comm
    with [count] users; the pool entry of its direction has two users. *)
Definition example_resources : Connect.sendResources :=
  Connect.mkSendResources BankMap.freshMap 55 1000 2000 0 0 1 0 0 0 2 0 0 1 0 0
                          (fun p => if p =? 2 then 9000 else 0) (fun _ => 65536)
                          (fun _ => 77) 0.

Definition example_world (count : Z)
  : world Connect.sendResources Connect.ncclSharedNetComms :=
  mkWorld connConnected 0 (Some example_resources)
    (SharedPool.mkPool
       (Some [Some (SharedPool.mkPeer (SharedPool.mkP2p 2 32768 4096 0 0)
                                      SharedPool.zeroP2p)]) [])
    (fun _ => Some (fun _ => Connect.mkSharedNetComms (fun _ => 55) (fun _ => count)))
    [].

End Teardown.

(** ** The life of an op

    Between two calls of a progress function, and between two steps of
    one call, the compute engine may rewrite the staging memory it
    shares with the proxy, and the fabric answers as it likes.  The
    steps below are the stores to the op and the blocks of the progress
    functions themselves; a life of an op is any chain of them. *)

Module SendLife.
Import Proxy SendProxy.

(** One iteration of the loop over the subs of [sendProxyProgress], on
    sub [k], with the locals as the call computes them from the op; it
    performs at most one of the three actions (post, transmit, reap). *)
Definition send_iteration (comm : SharedPool.comm_t) (env : sendEnv) (k : Z)
  : M sendState unit :=
  fun st =>
    let a := args st in
    on_sub k (send_sub comm env (sliceSteps a) (protocol a)
                       (maxDepth_of (nsubs a)) (nsubs a) k) st.

(** The steps of an op past Ready: [args->idle = 1]; one iteration of
    the loop over the subs; [args->state = ncclProxyOpNone] once every
    sub is done; and a write of the compute engine into staging
    memory. *)
Inductive send_step (comm : SharedPool.comm_t) : sendState -> sendState -> Prop :=
| step_idle st :
    send_step comm st (set_args st (set_idle (args st) 1))
| step_sub env k st o st' :
    state (args st) = ncclProxyOpProgress -> 0 <= k ->
    send_iteration comm env k st = (o, st') -> o <> Undef ->
    send_step comm st st'
| step_complete st :
    state (args st) = ncclProxyOpProgress ->
    args_done (args st) = nsubs (args st) ->
    send_step comm st (set_args st (set_state (args st) ncclProxyOpNone))
| step_engine st m :
    send_step comm st (set_mem_of st m).

(** Any number of steps. *)
Inductive send_steps (comm : SharedPool.comm_t) : sendState -> sendState -> Prop :=
| steps_none st : send_steps comm st st
| steps_more st1 st2 st3 :
    send_step comm st1 st2 -> send_steps comm st2 st3 -> send_steps comm st1 st3.

(** The loop over the subs, between two iterations. *)
Definition in_loop (comm : SharedPool.comm_t) (st0 : sendState) (k : Z) (s : sendState)
  : Prop :=
  send_steps comm st0 s /\ 0 <= k /\ same_op st0 s
  /\ length (subs (args s)) = length (subs (args st0)).

End SendLife.

Module RecvLife.
Import Proxy RecvProxy.

(** The four loops over the groups of [recvProxyProgress]: post a fused
    receive, detect its completion and flush, publish the tail, release
    the credits. *)
Inductive pass :=
| PassPost
| PassTest
| PassCommit
| PassRelease.

(** The body of a loop over the groups, for the group that starts at
    sub [s], with the locals as the call computes them from the op. *)
Definition pass_body (comm : SharedPool.comm_t) (x86_64 : bool) (env : recvEnv)
    (a : ncclProxyArgs) (p : pass) (s : nat) : M glocal unit :=
  match p with
  | PassPost =>
      recv_post comm env (sliceSteps a) (protocol a)
                (SendProxy.maxDepth_of (nsubs a)) (nsubs a) (Z.of_nat s)
  | PassTest => recv_test env x86_64 (sliceSteps a) (protocol a)
  | PassCommit => recv_commit env (sliceSteps a)
  | PassRelease => recv_release (sliceSteps a)
  end.

(** Where a loop over the groups stops: [s = 0], then
    [s += args->subs[s].groupSize]. *)
Inductive group_start (subs : list ncclProxySubArgs) : nat -> Prop :=
| start_first : group_start subs 0
| start_next s h :
    group_start subs s -> subs !! s = Some h ->
    group_start subs (s + Z.to_nat (groupSize h)).

(** The steps of an op past Ready: [args->idle = 1]; one pass over one
    group; [args->state = ncclProxyOpNone] once every sub is done; and a
    write of the compute engine into staging memory. *)
Inductive recv_step (comm : SharedPool.comm_t) (x86_64 : bool)
  : recvState -> recvState -> Prop :=
| step_idle st :
    recv_step comm x86_64 st (set_args st (set_idle (args st) 1))
| step_group env p s h st o st' :
    state (args st) = ncclProxyOpProgress ->
    group_start (subs (args st)) s -> subs (args st) !! s = Some h ->
    0 < groupSize h ->
    Z.of_nat s + groupSize h <= Z.of_nat (length (subs (args st))) ->
    on_group s (Z.to_nat (groupSize h)) (pass_body comm x86_64 env (args st) p s) st
    = (o, st') ->
    o <> Undef ->
    recv_step comm x86_64 st st'
| step_complete st :
    state (args st) = ncclProxyOpProgress ->
    args_done (args st) = nsubs (args st) ->
    recv_step comm x86_64 st (set_args st (set_state (args st) ncclProxyOpNone))
| step_engine st m :
    recv_step comm x86_64 st (set_mem_of st m).

(** Any number of steps. *)
Inductive recv_steps (comm : SharedPool.comm_t) (x86_64 : bool)
  : recvState -> recvState -> Prop :=
| steps_none st : recv_steps comm x86_64 st st
| steps_more st1 st2 st3 :
    recv_step comm x86_64 st1 st2 -> recv_steps comm x86_64 st2 st3 ->
    recv_steps comm x86_64 st1 st3.

(** What progress does not write in a sub: what the caller put into it
    and the size of its group; and in the resources of a connection:
    the fabric comm and its [maxRecvs]. *)
Definition placed (x : ncclProxySubArgs) : (Z * Z * Z * Z) * Z :=
  (static x, groupSize x).

Definition same_comms (R R' : Z -> recvResources) : Prop :=
  forall c, netRecvComm (R' c) = netRecvComm (R c) /\ maxRecvs (R' c) = maxRecvs (R c).

(** The same for what one pass over a group works on. *)
Definition group_kept (l l' : glocal) : Prop :=
  List.map placed (group l') = List.map placed (group l) /\ same_comms (res l) (res l').

(** And for the op. *)
Definition op_kept (st st' : recvState) : Prop :=
  List.map placed (subs (args st')) = List.map placed (subs (args st))
  /\ same_comms (resources st) (resources st').

(** Between two passes of a call whose locals were computed from [a]. *)
Definition in_call (comm : SharedPool.comm_t) (x86 : bool) (st0 : recvState)
    (a : ncclProxyArgs) (s : recvState) : Prop :=
  recv_steps comm x86 st0 s /\ recv_inv s /\ state (args s) = ncclProxyOpProgress
  /\ sliceSteps (args s) = sliceSteps a /\ protocol (args s) = protocol a
  /\ nsubs (args s) = nsubs a.

End RecvLife.

(** * Properties *)

(** ** Machine integers *)

Lemma wrap32_range x : 0 <= wrap32 x < 2 ^ 32.
Proof. unfold wrap32. apply Z.mod_pos_bound. lia. Qed.

Lemma wrap64_range x : 0 <= wrap64 x < 2 ^ 64.
Proof. unfold wrap64. apply Z.mod_pos_bound. lia. Qed.

Lemma wrap32_small x : 0 <= x < 2 ^ 32 -> wrap32 x = x.
Proof. intros H. unfold wrap32. now apply Z.mod_small. Qed.

Lemma wrap64_small x : 0 <= x < 2 ^ 64 -> wrap64 x = x.
Proof. intros H. unfold wrap64. now apply Z.mod_small. Qed.

Lemma int32_small x : - 2 ^ 31 <= x < 2 ^ 31 -> int32 x = x.
Proof. intros H. unfold int32. rewrite Z.mod_small; lia. Qed.

Lemma wrap32_int32 x y : wrap32 (int32 x + y) = wrap32 (x + y).
Proof.
  unfold wrap32, int32.
  replace ((x + 2 ^ 31) mod 2 ^ 32 - 2 ^ 31 + y)
    with ((x + 2 ^ 31) mod 2 ^ 32 + (y - 2 ^ 31)) by lia.
  rewrite Zplus_mod_idemp_l. f_equal. lia.
Qed.

(** ** Reasoning about statements *)

Section Hoare.
Context {S : Type}.
Implicit Types (P I : S -> Prop) (E : ncclResult_t -> S -> Prop).

Lemma hoare_ret {A} P (a : A) (Q : A -> S -> Prop) E :
  (forall s, P s -> Q a s) -> hoare P (ret a) Q E.
Proof. intros H s Hs. now apply H. Qed.

Lemma hoare_bind {A B} P (m : M S A) (f : A -> M S B) R Q E :
  hoare P m R E -> (forall a, hoare (R a) (f a) Q E) -> hoare P (bind m f) Q E.
Proof.
  intros Hm Hf s Hs. unfold bind. specialize (Hm s Hs).
  destruct (m s) as [[a|r|] s']; auto. now apply Hf.
Qed.

Lemma hoare_conseq {A} P P' (m : M S A) (Q Q' : A -> S -> Prop) E E' :
  hoare P' m Q' E' ->
  (forall s, P s -> P' s) -> (forall a s, Q' a s -> Q a s) ->
  (forall r s, E' r s -> E r s) ->
  hoare P m Q E.
Proof.
  intros Hm HP HQ HE s Hs. specialize (Hm s (HP s Hs)).
  destruct (m s) as [[a|r|] s']; auto.
Qed.

Lemma hoare_get_bind {B} P (f : S -> M S B) Q E :
  (forall w, P w -> hoare (fun s => s = w) (f w) Q E) -> hoare P (bind get f) Q E.
Proof. intros H s Hs. unfold bind, get. now apply (H s Hs s). Qed.

Lemma hoare_modify P (f : S -> S) (Q : unit -> S -> Prop) E :
  (forall s, P s -> Q tt (f s)) -> hoare P (modify f) Q E.
Proof. intros H s Hs. now apply H. Qed.

Lemma hoare_exit {A} P r (Q : A -> S -> Prop) E :
  (forall s, P s -> E r s) -> hoare P (exit r) Q E.
Proof. intros H s Hs. now apply H. Qed.

Lemma hoare_undef {A} P (Q : A -> S -> Prop) E : hoare P undef Q E.
Proof. intros s Hs. exact Logic.I. Qed.

Lemma hoare_for_loop (J : Z -> S -> Prop) (body : Z -> M S unit) E :
  (forall k, hoare (J k) (body k) (fun _ => J (k + 1)) E) ->
  forall n i, hoare (J i) (for_loop n i body) (fun _ => J (i + Z.of_nat n)) E.
Proof.
  intros Hb. induction n as [|n IH]; intros i.
  - apply hoare_ret. intros s Hs. now rewrite Z.add_0_r.
  - cbn [for_loop]. eapply hoare_bind; [apply Hb|]. intros [].
    eapply hoare_conseq; [apply IH|auto| |auto].
    intros [] s Hs. now replace (i + Z.of_nat (Datatypes.S n)) with (i + 1 + Z.of_nat n) by lia.
Qed.

Lemma stable_hoare {A} I (m : M S A) (X : S -> Prop) :
  stable I m -> hoare I m (fun _ => I) (fun r s => r = ncclSuccess -> X s).
Proof.
  intros H. eapply hoare_conseq; [exact H|auto|auto|].
  intros r s Hr Hr'. contradiction.
Qed.

Lemma stable_ret {A} I (a : A) : stable I (ret a).
Proof. now apply hoare_ret. Qed.

Lemma stable_bind {A B} I (m : M S A) (f : A -> M S B) :
  stable I m -> (forall a, stable I (f a)) -> stable I (bind m f).
Proof. intros Hm Hf. eapply hoare_bind; [exact Hm|exact Hf]. Qed.

Lemma stable_get_bind {B} I (f : S -> M S B) :
  (forall w, I w -> stable I (f w)) -> stable I (bind get f).
Proof.
  intros H. apply hoare_get_bind. intros w Hw.
  eapply hoare_conseq; [exact (H w Hw)| |auto|auto]. intros s Hs. now rewrite Hs.
Qed.

Lemma stable_modify I (f : S -> S) : (forall s, I s -> I (f s)) -> stable I (modify f).
Proof. intros H. now apply hoare_modify. Qed.

Lemma stable_exit {A} I r : r <> ncclSuccess -> stable I (exit r : M S A).
Proof. intros H. now apply hoare_exit. Qed.

Lemma stable_undef {A} I : stable I (undef : M S A).
Proof. apply hoare_undef. Qed.

Lemma stable_NCCLCHECK I r : stable I (NCCLCHECK r).
Proof. destruct r; (apply stable_ret || now apply stable_exit). Qed.

Lemma stable_CUDACHECK I ok : stable I (CUDACHECK ok).
Proof. destruct ok; (apply stable_ret || now apply stable_exit). Qed.

Lemma stable_when I c (m : M S unit) : stable I m -> stable I (when c m).
Proof. intros H. destruct c; [exact H|apply stable_ret]. Qed.

Lemma stable_if {A} I (c : bool) (a b : M S A) :
  stable I a -> stable I b -> stable I (if c then a else b).
Proof. now destruct c. Qed.

Lemma stable_for_loop I (body : Z -> M S unit) :
  (forall k, stable I (body k)) -> forall n i, stable I (for_loop n i body).
Proof.
  intros Hb n i.
  eapply hoare_conseq; [apply (hoare_for_loop (fun _ => I) body), Hb|auto..].
Qed.

Lemma total_ret {A} P (a : A) (Q : A -> S -> Prop) E :
  (forall s, P s -> Q a s) -> total P (ret a) Q E.
Proof. intros H s Hs. now apply H. Qed.

Lemma total_bind {A B} P (m : M S A) (f : A -> M S B) R Q E :
  total P m R E -> (forall a, total (R a) (f a) Q E) -> total P (bind m f) Q E.
Proof.
  intros Hm Hf s Hs. unfold bind. specialize (Hm s Hs).
  destruct (m s) as [[a|r|] s']; auto. now apply Hf.
Qed.

Lemma total_conseq {A} P P' (m : M S A) (Q Q' : A -> S -> Prop) E E' :
  total P' m Q' E' ->
  (forall s, P s -> P' s) -> (forall a s, Q' a s -> Q a s) ->
  (forall r s, E' r s -> E r s) ->
  total P m Q E.
Proof.
  intros Hm HP HQ HE s Hs. specialize (Hm s (HP s Hs)).
  destruct (m s) as [[a|r|] s']; auto.
Qed.

Lemma total_get_bind {B} P (f : S -> M S B) Q E :
  (forall w, P w -> total (fun s => s = w) (f w) Q E) -> total P (bind get f) Q E.
Proof. intros H s Hs. unfold bind, get. now apply (H s Hs s). Qed.

Lemma total_modify P (f : S -> S) (Q : unit -> S -> Prop) E :
  (forall s, P s -> Q tt (f s)) -> total P (modify f) Q E.
Proof. intros H s Hs. now apply H. Qed.

Lemma total_exit {A} P r (Q : A -> S -> Prop) E :
  (forall s, P s -> E r s) -> total P (exit r) Q E.
Proof. intros H s Hs. now apply H. Qed.

Lemma total_when P c (m : M S unit) (Q : unit -> S -> Prop) E :
  (c = true -> total P m Q E) -> (c = false -> forall s, P s -> Q tt s) ->
  total P (when c m) Q E.
Proof. destruct c; cbn; intros H1 H2; [auto|apply total_ret; auto]. Qed.

Lemma total_for_range (J : Z -> S -> Prop) (body : Z -> M S unit) E :
  forall n i,
    (forall k, i <= k < i + Z.of_nat n -> total (J k) (body k) (fun _ => J (k + 1)) E) ->
    total (J i) (for_loop n i body) (fun _ => J (i + Z.of_nat n)) E.
Proof.
  induction n as [|n IH]; intros i Hb.
  - apply total_ret. intros s Hs. now rewrite Z.add_0_r.
  - cbn [for_loop]. eapply total_bind; [apply Hb; lia|]. intros [].
    eapply total_conseq; [apply IH|auto| |auto].
    + intros k Hk. apply Hb. lia.
    + intros [] s Hs.
      now replace (i + Z.of_nat (Datatypes.S n)) with (i + 1 + Z.of_nat n) by lia.
Qed.

Lemma total_lands {A} P (m : M S A) (X : S -> Prop) s :
  total P m (fun _ => X) (fun _ => X) -> P s -> lands (m s) X.
Proof.
  intros H Hs. specialize (H s Hs). unfold lands.
  destruct (m s) as [[a|r|] s']; auto.
Qed.

Lemma lands_total {A} P (m : M S A) (X : S -> Prop) :
  (forall s, P s -> lands (m s) X) -> total P m (fun _ => X) (fun _ => X).
Proof.
  intros H s Hs. specialize (H s Hs). unfold lands in H.
  destruct (m s) as [[a|r|] s']; auto.
Qed.

Lemma lands_with_any {A} (o : step A * S) (Q : S -> Prop) :
  lands o Q -> lands_with o Q (fun _ => True).
Proof. destruct o as [[a|r|] s]; cbn; auto. Qed.

Lemma lands_with_lands {A} (o : step A * S) (Q : S -> Prop) X :
  lands_with o Q X -> lands o Q.
Proof. destruct o as [[a|r|] s]; cbn; tauto. Qed.

Lemma lands_with_impl {A} (o : step A * S) (Q Q' : S -> Prop) (X X' : ncclResult_t -> Prop) :
  lands_with o Q X -> (forall s, Q s -> Q' s) -> (forall r, X r -> X' r) ->
  lands_with o Q' X'.
Proof. destruct o as [[a|r|] s]; cbn; intuition auto. Qed.

Lemma lands_with_total {A} P (m : M S A) (Q : S -> Prop) X :
  (forall s, P s -> lands_with (m s) Q X) ->
  total P m (fun _ => Q) (fun r s => Q s /\ X r).
Proof.
  intros H s Hs. specialize (H s Hs). unfold lands_with in H.
  destruct (m s) as [[a|r|] s']; auto.
Qed.

Lemma lands_impl {A} (o : step A * S) (Q Q' : S -> Prop) :
  lands o Q -> (forall s, Q s -> Q' s) -> lands o Q'.
Proof. destruct o as [[a|r|] s]; cbn; auto. Qed.

End Hoare.

Lemma upd_eq {A} (a : Z -> A) i x : upd a i x i = x.
Proof. unfold upd. now rewrite Z.eqb_refl. Qed.

Lemma upd_ne {A} (a : Z -> A) i j x : j <> i -> upd a i x j = a j.
Proof. intros H. unfold upd. destruct (Z.eqb_spec j i); congruence. Qed.

(** ** Bank map: the offset word *)

Module BankMapFacts.
Import BankMap.

Lemma mask_values :
  NCCL_NET_MAP_MASK_USED = 2 ^ 29 /\ NCCL_NET_MAP_MASK_DEVMEM = 2 ^ 30 /\
  NCCL_NET_MAP_MASK_SHARED = 2 ^ 31 /\ NCCL_NET_MAP_MASK_OFFSET = 2 ^ 29 - 1.
Proof. repeat split. Qed.

Lemma get_set_offset m n w : get_offset (set_offset m n w) n = w.
Proof. destruct n; simpl; auto. apply upd_eq. Qed.

Lemma get_offset_set_mem m b x n : get_offset (set_mem m b x) n = get_offset m n.
Proof. destruct n; reflexivity. Qed.

Lemma mem_at_set_offset m n w b : mem_at (set_offset m n w) b = mem_at m b.
Proof. reflexivity. Qed.

Lemma addSlot_word m sh dv memSize n :
  get_offset (addSlot m sh dv memSize n) n =
  slot_word sh dv (if sh then 0 else size (mem_at m (own_bank dv))).
Proof.
  unfold addSlot, NCCL_NET_MAP_ADD_POINTER, slot_word.
  destruct sh, dv; cbn [Z.b2z Z.eqb negb own_bank];
    rewrite ?get_offset_set_mem, ?get_set_offset, ?wrap32_int32;
    try reflexivity.
Qed.

Lemma slot_word_bits sh dv off :
  0 <= off < 2 ^ 29 ->
  let w := slot_word sh dv off in
  Z.testbit w 29 = true /\ Z.testbit w 30 = dv /\ Z.testbit w 31 = sh /\
  Z.land w NCCL_NET_MAP_MASK_OFFSET = off.
Proof.
  intros Hoff w. subst w. unfold slot_word.
  rewrite wrap32_small by (destruct sh, dv; cbn [Z.b2z]; lia).
  change NCCL_NET_MAP_MASK_OFFSET with (Z.ones 29).
  rewrite Z.land_ones by lia.
  rewrite !Z.testbit_odd, !Z.shiftr_div_pow2 by lia.
  set (k := 1 + 2 * Z.b2z dv + 4 * Z.b2z sh).
  replace (2 ^ 29 + Z.b2z dv * 2 ^ 30 + Z.b2z sh * 2 ^ 31 + off)
    with (off + k * 2 ^ 29) by (subst k; lia).
  assert (H29 : (off + k * 2 ^ 29) / 2 ^ 29 = k)
    by (rewrite Z.div_add by lia; rewrite Z.div_small; lia).
  assert (H30 : (off + k * 2 ^ 29) / 2 ^ 30 = Z.b2z dv + 2 * Z.b2z sh).
  { change (2 ^ 30) with (2 ^ 29 * 2). rewrite <- Z.div_div by lia.
    rewrite H29. subst k. destruct sh, dv; reflexivity. }
  assert (H31 : (off + k * 2 ^ 29) / 2 ^ 31 = Z.b2z sh).
  { change (2 ^ 31) with (2 ^ 29 * 4). rewrite <- Z.div_div by lia.
    rewrite H29. subst k. destruct sh, dv; reflexivity. }
  rewrite H29, H30, H31, Z.mod_add, Z.mod_small by lia.
  subst k. destruct sh, dv; repeat split.
Qed.

Lemma land_pow2 w n :
  0 <= n -> Z.land w (2 ^ n) = if Z.testbit w n then 2 ^ n else 0.
Proof.
  intros Hn. apply Z.bits_inj'. intros m Hm.
  rewrite Z.land_spec, Z.pow2_bits_eqb by lia.
  destruct (Z.eqb_spec n m) as [->|Hne].
  - rewrite andb_true_r. destruct (Z.testbit w m) eqn:E.
    + now rewrite Z.pow2_bits_true.
    + now rewrite Z.bits_0.
  - rewrite andb_false_r. destruct (Z.testbit w n).
    + now rewrite Z.pow2_bits_false.
    + now rewrite Z.bits_0.
Qed.

Lemma dev_mem_bit w : NCCL_NET_MAP_DEV_MEM w = Z.testbit w 30.
Proof.
  unfold NCCL_NET_MAP_DEV_MEM. change NCCL_NET_MAP_MASK_DEVMEM with (2 ^ 30).
  rewrite land_pow2 by lia. now destruct (Z.testbit w 30).
Qed.

Lemma top_bits w :
  0 <= w < 2 ^ 32 ->
  exists q, 0 <= q < 8 /\ Z.shiftr w 29 = q /\ Z.shiftr w 30 = q / 2 /\
            Z.testbit w 29 = Z.odd q /\ Z.testbit w 30 = Z.odd (q / 2) /\
            Z.testbit w 31 = Z.odd (q / 4).
Proof.
  intros Hw. exists (w / 2 ^ 29).
  rewrite !Z.testbit_odd, !Z.shiftr_div_pow2 by lia.
  change (2 ^ 30) with (2 ^ 29 * 2). change (2 ^ 31) with (2 ^ 29 * 4).
  rewrite <- !Z.div_div by lia.
  repeat split; try reflexivity.
  - apply Z.div_pos; lia.
  - apply Z.div_lt_upper_bound; lia.
Qed.

Lemma null_iff_top_bits_clear w :
  0 <= w < 2 ^ 32 ->
  NCCL_NET_MAP_OFFSET_NULL w = true <->
  Z.testbit w 29 = false /\ Z.testbit w 30 = false /\ Z.testbit w 31 = false.
Proof.
  intros Hw. destruct (top_bits w Hw) as (q & Hq & H29 & _ & B29 & B30 & B31).
  unfold NCCL_NET_MAP_OFFSET_NULL. rewrite H29, B29, B30, B31, Z.eqb_eq.
  assert (Hc : q = 0 \/ q = 1 \/ q = 2 \/ q = 3 \/ q = 4 \/ q = 5 \/ q = 6 \/ q = 7)
    by lia.
  destruct Hc as [->|[->|[->|[->|[->|[->|[->| ->]]]]]]]; cbn;
    split; intros H; try lia; try tauto; destruct H as (?&?&?); discriminate.
Qed.

(** C3 (amended).  The offset word that [addSlot] stores for a slot whose
    byte offset fits in 29 bits carries the present (USED) flag in bit 29,
    the device-memory flag in bit 30 and the shared flag in bit 31; its
    low 29 bits are the byte offset within the bank (the bank's size
    before the call for a dedicated slot, zero for a shared one); the two
    top bits are the bank index; and a 32-bit word denotes the unset
    (NULL) slot exactly when its three top bits are all zero. *)
Theorem offset_word_layout (m : connectMap) (sh dv : bool) (memSize : Z) (n : offsetName) :
  let off := if sh then 0 else size (mem_at m (own_bank dv)) in
  let w := get_offset (addSlot m sh dv memSize n) n in
  0 <= off < 2 ^ 29 ->
  (Z.testbit w 29 = true /\ Z.testbit w 30 = dv /\ Z.testbit w 31 = sh)
  /\ Z.land w NCCL_NET_MAP_MASK_OFFSET = off
  /\ NCCL_NET_MAP_OFFSET_BANK w = Z.b2z dv + 2 * Z.b2z sh
  /\ NCCL_NET_MAP_OFFSET_NULL w = false
  /\ (forall w', 0 <= w' < 2 ^ 32 ->
        NCCL_NET_MAP_OFFSET_NULL w' = true <->
        Z.testbit w' 29 = false /\ Z.testbit w' 30 = false /\ Z.testbit w' 31 = false).
Proof.
  intros off w Hoff. subst w. rewrite addSlot_word. fold off.
  destruct (slot_word_bits sh dv off Hoff) as (B29 & B30 & B31 & Hland).
  assert (Hr : 0 <= slot_word sh dv off < 2 ^ 32) by apply wrap32_range.
  destruct (top_bits _ Hr) as (q & Hq & H29 & H30 & T29 & T30 & T31).
  split; [auto|]. split; [exact Hland|].
  assert (Hc : q = 0 \/ q = 1 \/ q = 2 \/ q = 3 \/ q = 4 \/ q = 5 \/ q = 6 \/ q = 7)
    by lia.
  split; [|split].
  - unfold NCCL_NET_MAP_OFFSET_BANK. rewrite H30.
    rewrite T29 in B29. rewrite T30 in B30. rewrite T31 in B31.
    destruct Hc as [->|[->|[->|[->|[->|[->|[->| ->]]]]]]];
      cbn in B29, B30, B31; subst sh dv; try discriminate; reflexivity.
  - destruct (NCCL_NET_MAP_OFFSET_NULL _) eqn:E; [|reflexivity].
    apply null_iff_top_bits_clear in E; [|exact Hr]. destruct E as (E & _).
    congruence.
  - apply null_iff_top_bits_clear.
Qed.

Lemma offset_word_layout_witness :
  Z.testbit (get_offset (addSlot freshMap false true 4096 (buffs 2)) (buffs 2)) 30 = true.
Proof.
  destruct (offset_word_layout freshMap false true 4096 (buffs 2)) as ((_ & H & _) & _).
  - cbn. lia.
  - exact H.
Defined.

(** The design document's bit assignment does not hold of the code: a
    dedicated host slot added to a fresh map is present, yet its bit 31 is
    clear and its bit 29, the documented device flag, is set. *)
Lemma documented_layout_fails :
  ~ documented_layout (get_offset (addSlot freshMap false false 16 sendMem) sendMem)
      true false false 0.
Proof. intros (H & _). vm_compute in H. discriminate. Qed.

Lemma offsetName_eq_dec (a b : offsetName) : {a = b} + {a <> b}.
Proof. decide equality. apply Z.eq_dec. Qed.

Lemma get_set_offset_ne m n n' w :
  n' <> n -> get_offset (set_offset m n w) n' = get_offset m n'.
Proof.
  intros Hne. destruct n, n'; try reflexivity; try congruence.
  cbn. apply upd_ne. congruence.
Qed.

Lemma addSlot_other m sh dv memSize n n' :
  n' <> n -> get_offset (addSlot m sh dv memSize n) n' = get_offset m n'.
Proof.
  intros Hne. unfold addSlot, NCCL_NET_MAP_ADD_POINTER.
  destruct sh, dv; cbn [Z.b2z Z.eqb negb];
    rewrite ?get_offset_set_mem; now apply get_set_offset_ne.
Qed.

Lemma addSlot_word_range m sh dv memSize n n' :
  0 <= get_offset m n' < 2 ^ 32 ->
  0 <= get_offset (addSlot m sh dv memSize n) n' < 2 ^ 32.
Proof.
  intros H. destruct (offsetName_eq_dec n' n) as [->|Hne].
  - rewrite addSlot_word. apply wrap32_range.
  - now rewrite addSlot_other.
Qed.

Lemma addSlots_word_range cs : forall m,
  (forall n, 0 <= get_offset m n < 2 ^ 32) ->
  forall n, 0 <= get_offset (addSlots m cs) n < 2 ^ 32.
Proof.
  induction cs as [|c cs IH]; intros m Hm n; cbn; [apply Hm|].
  apply IH. intros n'. now apply addSlot_word_range.
Qed.

(** C9.  For every slot of a bank map, [devMem], the device-memory bit of
    the offset word, is true exactly when the bank selected by the word's
    top bits is the device bank or the shared device bank.  This holds of
    every 32-bit word, hence of every slot present in a map built by
    [addSlot] calls. *)
Theorem devMem_iff_device_bank :
  (forall w, 0 <= w < 2 ^ 32 ->
     NCCL_NET_MAP_DEV_MEM w =
     (NCCL_NET_MAP_OFFSET_BANK w =? NCCL_NET_MAP_DEVMEM)
     || (NCCL_NET_MAP_OFFSET_BANK w =? NCCL_NET_MAP_SHARED_DEVMEM))
  /\ (forall (cs : list call) (n : offsetName),
        let m := addSlots freshMap cs in
        devMem m n =
        (NCCL_NET_MAP_OFFSET_BANK (get_offset m n) =? NCCL_NET_MAP_DEVMEM)
        || (NCCL_NET_MAP_OFFSET_BANK (get_offset m n) =? NCCL_NET_MAP_SHARED_DEVMEM)).
Proof.
  assert (Hw : forall w, 0 <= w < 2 ^ 32 ->
     NCCL_NET_MAP_DEV_MEM w =
     (NCCL_NET_MAP_OFFSET_BANK w =? NCCL_NET_MAP_DEVMEM)
     || (NCCL_NET_MAP_OFFSET_BANK w =? NCCL_NET_MAP_SHARED_DEVMEM)).
  { intros w Hr. rewrite dev_mem_bit.
    destruct (top_bits w Hr) as (q & Hq & _ & H30 & _ & T30 & _).
    unfold NCCL_NET_MAP_OFFSET_BANK. rewrite H30, T30.
    assert (Hc : q = 0 \/ q = 1 \/ q = 2 \/ q = 3 \/ q = 4 \/ q = 5 \/ q = 6 \/ q = 7)
      by lia.
    destruct Hc as [->|[->|[->|[->|[->|[->|[->| ->]]]]]]]; reflexivity. }
  split; [exact Hw|].
  intros cs n. unfold devMem. apply Hw, addSlots_word_range.
  intros n'. destruct n'; cbn; lia.
Qed.

(** ** Bank map: appending slots *)
















End BankMapFacts.

(** ** Shared buffer pool *)

Module SharedPoolFacts.
Import SharedPool.
Local Open Scope exec_scope.

(** C8.  [sharedBuffersInit] returns [ncclInternalError] whenever
    [cuda] and [sameProcess] are both false, and leaves the pool and the
    out-parameters as they were: no reference count, size or buffer
    changes and nothing is asked of the allocator. *)
Theorem sharedBuffersInit_rejects_remote_host
    (comm : comm_t) (env : env_t) (localRank type nChannels : Z) (s : pool * outs) :
  sharedBuffersInit comm env 0 localRank type 0 nChannels s = (Exit ncclInternalError, s).
Proof. reflexivity. Qed.

Lemma read_peer_at st ps L p :
  localPeers st = Some ps -> 0 <= L -> ps !! Z.to_nat L = Some p ->
  read_peer L st = (Next p, st).
Proof.
  intros Hps HL Hp. unfold read_peer, bind, get. rewrite Hps.
  apply lookup_lt_Some in Hp as Hlt.
  replace ((0 <=? L) && (L <? Z.of_nat (length ps))) with true
    by (symmetry; apply andb_true_intro; split; [apply Z.leb_le|apply Z.ltb_lt]; lia).
  now rewrite Hp.
Qed.

Lemma write_peer_at st ps L p :
  localPeers st = Some ps -> 0 <= L < Z.of_nat (length ps) ->
  write_peer L p st = (Next tt, mkPool (Some (<[Z.to_nat L := p]> ps)) (log st)).
Proof.
  intros Hps HL. unfold write_peer, bind, get. rewrite Hps.
  replace ((0 <=? L) && (L <? Z.of_nat (length ps))) with true
    by (symmetry; apply andb_true_intro; split; [apply Z.leb_le|apply Z.ltb_lt]; lia).
  reflexivity.
Qed.

Lemma any_peer_left_scan (ps : list (option ncclProxyPeer)) (st : pool) :
  localPeers st = Some ps ->
  forall n i, (i + n)%nat = length ps ->
  for_loop n (Z.of_nat i)
    (fun r => let* p := read_peer r in
              match p with
              | Some _ => exit ncclSuccess
              | None => ret tt
              end) st
  = if forallb is_null (drop i ps) then (Next tt, st) else (Exit ncclSuccess, st).
Proof.
  intros Hps. induction n as [|n IH]; intros i Hlen.
  - rewrite drop_ge by lia. reflexivity.
  - assert (Hi : (i < length ps)%nat) by lia.
    destruct (lookup_lt_is_Some_2 ps i Hi) as [p Hp].
    rewrite (drop_S _ _ _ Hp). cbn [for_loop forallb].
    unfold bind at 1. unfold bind at 1.
    rewrite (read_peer_at st ps (Z.of_nat i) p Hps) by (rewrite ?Nat2Z.id; auto; lia).
    destruct p as [peer|]; cbn [is_null andb]; [reflexivity|].
    cbn [ret]. unfold ret at 1.
    replace (Z.of_nat i + 1) with (Z.of_nat (S i)) by lia.
    apply IH. lia.
Qed.

Lemma any_peer_left_spec comm st ps :
  localPeers st = Some ps -> Z.of_nat (length ps) = localRanks comm ->
  any_peer_left comm st
  = if forallb is_null ps then (Next tt, st) else (Exit ncclSuccess, st).
Proof.
  intros Hps Hlen. unfold any_peer_left.
  rewrite (any_peer_left_scan ps st Hps _ 0%nat); [reflexivity|lia].
Qed.

Lemma read_state_at st ps L type peer :
  localPeers st = Some ps -> 0 <= L -> ps !! Z.to_nat L = Some (Some peer) ->
  read_state L type st = (Next (dir type peer), st).
Proof.
  intros Hps HL Hp. unfold read_state, bind.
  now rewrite (read_peer_at st ps L (Some peer)).
Qed.

Lemma write_state_at st ps L type peer x :
  localPeers st = Some ps -> 0 <= L -> ps !! Z.to_nat L = Some (Some peer) ->
  write_state L type x st
  = (Next tt, mkPool (Some (<[Z.to_nat L := Some (set_dir type peer x)]> ps)) (log st)).
Proof.
  intros Hps HL Hp. unfold write_state, bind.
  rewrite (read_peer_at st ps L (Some peer)) by auto.
  apply write_peer_at; auto. apply lookup_lt_Some in Hp. lia.
Qed.

Lemma sharedBuffersDestroy_spec comm env st ps L type peer :
  localPeers st = Some ps ->
  Z.of_nat (length ps) = localRanks comm ->
  0 <= L ->
  ps !! Z.to_nat L = Some (Some peer) ->
  p_size (dir type peer) <> 0 ->
  (int32 (refcount (dir type peer) - 1) = 0 ->
   cudaFree env = true /\ cudaHostFree env = ncclSuccess) ->
  sharedBuffersDestroy comm env L type st
  = (Exit ncclSuccess, destroyed st ps L type peer).
Proof.
  intros Hps Hlen HL Hp Hsz Henv.
  assert (HLlt : (Z.to_nat L < length ps)%nat) by (apply lookup_lt_Some in Hp; lia).
  unfold sharedBuffersDestroy, destroyed.
  set (x := dir type peer).
  set (r := int32 (refcount x - 1)).
  set (peer' := set_dir type peer (with_refcount x r)).
  unfold bind at 1. cbn [get]. rewrite Hps. cbn [bool_decide decide_rel].
  rewrite bool_decide_eq_false_2 by discriminate. cbn [when].
  unfold bind at 1. cbn [ret]. unfold bind at 1.
  rewrite (read_peer_at st ps L (Some peer)) by auto.
  rewrite bool_decide_eq_false_2 by discriminate. cbn [when].
  unfold bind at 1. cbn [ret]. unfold bind at 1.
  rewrite (read_state_at st ps L type peer) by auto. fold x.
  destruct (Z.eqb_spec (p_size x) 0) as [E|_]; [contradiction|]. cbn [when].
  unfold bind at 1. cbn [ret]. unfold bind at 1.
  rewrite (write_state_at st ps L type peer) by auto.
  cbn [refcount cudaBuff hostBuff]. fold r.
  change (mkP2p r (p_size x) (cudaBuff x) (hostBuff x) (p_ipc x))
    with (with_refcount x r). fold peer'.
  set (st1 := mkPool (Some (<[Z.to_nat L:=Some peer']> ps)) (log st)).
  assert (Hps1 : localPeers st1 = Some (<[Z.to_nat L:=Some peer']> ps)) by reflexivity.
  assert (Hp1 : <[Z.to_nat L:=Some peer']> ps !! Z.to_nat L = Some (Some peer'))
    by now apply list_lookup_insert_eq.
  (* the buffers go when the count reaches zero *)
  assert (Hfree : forall st', localPeers st' = localPeers st1 ->
    when (r =? 0)
      (when (negb (cudaBuff x =? 0))
         (CUDACHECK (cudaFree env) ;; emit (EvCudaFree (cudaBuff x))) ;;
       when (negb (hostBuff x =? 0))
         (NCCLCHECK (cudaHostFree env) ;; emit (EvCudaHostFree (hostBuff x)))) st'
    = (Next tt, mkPool (localPeers st')
                  (log st' ++ (if r =? 0 then buffer_frees x else [])))).
  { intros st' _. unfold buffer_frees.
    destruct (Z.eqb_spec r 0) as [Hr|_]; cbn [when];
      [|destruct st'; cbn; now rewrite app_nil_r].
    destruct (Henv Hr) as [Hcf Hhf]. rewrite Hcf, Hhf.
    destruct (cudaBuff x =? 0), (hostBuff x =? 0); destruct st';
      unfold when, bind, CUDACHECK, NCCLCHECK, emit, modify, ret; cbn;
      rewrite ?app_nil_r, <- ?app_assoc; reflexivity. }
  unfold bind at 1. rewrite (Hfree st1 eq_refl). cbn [localPeers log st1].
  set (lg := log st ++ (if r =? 0 then buffer_frees x else [])).
  set (st2 := mkPool (Some (<[Z.to_nat L:=Some peer']> ps)) lg).
  unfold bind at 1.
  erewrite read_peer_at; [|reflexivity|exact HL|exact Hp1].
  cbv beta iota.
  destruct (negb (refcount (send peer') =? 0) || negb (refcount (recv peer') =? 0));
    [reflexivity|].
  unfold bind at 1. unfold emit at 1, modify at 1. unfold bind at 1.
  erewrite write_peer_at; [|reflexivity|cbn [log localPeers]; rewrite length_insert; lia].
  rewrite list_insert_insert_eq. cbn [log localPeers].
  unfold bind at 1.
  erewrite any_peer_left_spec; [|reflexivity|rewrite length_insert; lia].
  destruct (forallb is_null (<[Z.to_nat L:=None]> ps)); [|reflexivity].
  cbn. rewrite <- app_assoc. reflexivity.
Qed.

Lemma set_dir_set_dir type peer x y :
  set_dir type (set_dir type peer x) y = set_dir type peer y.
Proof. unfold set_dir. now destruct (type =? 0). Qed.

Lemma dir_set_dir type peer x : dir type (set_dir type peer x) = x.
Proof. unfold dir, set_dir. now destruct (type =? 0). Qed.

Lemma other_dir_set_dir type peer x :
  other_dir type (set_dir type peer x) = other_dir type peer.
Proof. unfold other_dir, set_dir. now destruct (type =? 0). Qed.

Lemma refcounts_set_dir type peer x :
  negb (refcount (send (set_dir type peer x)) =? 0)
  || negb (refcount (recv (set_dir type peer x)) =? 0)
  = negb (refcount x =? 0) || negb (refcount (other_dir type peer) =? 0).
Proof.
  unfold set_dir, other_dir. destruct (type =? 0); cbn [send recv]; [reflexivity|].
  apply orb_comm.
Qed.

(** C7 (amended).  For a pool entry of a (localRank, direction) whose
    reference count is 2 and whose size is not 0: the first
    [sharedBuffersDestroy] brings the count to 1, frees nothing and
    changes nothing else; the second one, when the runtime's frees
    succeed, brings the count to 0 and frees that direction's buffers;
    if the other direction's count is 0 as well it frees the peer record
    and clears its [localPeers] entry, and when no peer record remains
    it frees the [localPeers] array itself. *)
Theorem sharedBuffersDestroy_refcount
    (comm : comm_t) (env1 env2 : env_t) (st : pool)
    (ps : list (option ncclProxyPeer)) (L type : Z) (peer : ncclProxyPeer) :
  localPeers st = Some ps ->
  Z.of_nat (length ps) = localRanks comm ->
  0 <= L ->
  ps !! Z.to_nat L = Some (Some peer) ->
  refcount (dir type peer) = 2 ->
  p_size (dir type peer) <> 0 ->
  cudaFree env2 = true -> cudaHostFree env2 = ncclSuccess ->
  let x := dir type peer in
  let peer1 := set_dir type peer (with_refcount x 1) in
  let peer2 := set_dir type peer (with_refcount x 0) in
  let st1 := mkPool (Some (<[Z.to_nat L := Some peer1]> ps)) (log st) in
  let lg := log st ++ buffer_frees x in
  let ps' := <[Z.to_nat L := None]> ps in
  sharedBuffersDestroy comm env1 L type st = (Exit ncclSuccess, st1)
  /\ sharedBuffersDestroy comm env2 L type st1
     = (Exit ncclSuccess,
        if negb (refcount (other_dir type peer) =? 0)
        then mkPool (Some (<[Z.to_nat L := Some peer2]> ps)) lg
        else if forallb is_null ps'
             then mkPool None (lg ++ [EvFreePeer L; EvFreePeers])
             else mkPool (Some ps') (lg ++ [EvFreePeer L])).
Proof.
  intros Hps Hlen HL Hp Hrc Hsz Hcf Hhf. cbv zeta.
  assert (HLlt : (Z.to_nat L < length ps)%nat) by (apply lookup_lt_Some in Hp; lia).
  set (peer1 := set_dir type peer (with_refcount (dir type peer) 1)).
  split.
  - rewrite (sharedBuffersDestroy_spec comm env1 st ps L type peer); auto.
    + unfold destroyed. rewrite Hrc. change (int32 (2 - 1)) with 1.
      rewrite refcounts_set_dir. cbn [refcount with_refcount Z.eqb negb orb].
      now rewrite app_nil_r.
    + rewrite Hrc. discriminate.
  - rewrite (sharedBuffersDestroy_spec comm env2 _
               (<[Z.to_nat L := Some peer1]> ps) L type peer1); auto.
    + unfold destroyed. subst peer1. rewrite dir_set_dir, set_dir_set_dir.
      cbn [refcount with_refcount]. change (int32 (1 - 1)) with 0.
      rewrite refcounts_set_dir, ?other_dir_set_dir, !list_insert_insert_eq.
      cbn [refcount with_refcount Z.eqb negb orb log p_size cudaBuff hostBuff p_ipc].
      reflexivity.
    + now rewrite length_insert.
    + now apply list_lookup_insert_eq.
    + subst peer1. now rewrite dir_set_dir.
Qed.

(** Two sends of local rank 1 initialise the pool of a two-rank node one
    after the other: one peer record, one device buffer, count 2. *)
Example two_inits_share_entry :
  let comm := mkComm 2 1024 in
  let env := mkEnv ncclSuccess ncclSuccess (ncclSuccess, 4096) (true, 7)
                   (ncclSuccess, 8192) true ncclSuccess in
  let o := mkOuts None None None None in
  (NCCLCHECK_call (sharedBuffersInit comm env 1 1 0 1 2) ;;
   sharedBuffersInit comm env 1 1 0 1 2) (mkPool None [], o)
  = (Exit ncclSuccess,
     (mkPool (Some [None; Some (mkPeer (mkP2p 2 32768 4096 0 0) zeroP2p)])
             [EvCallocPeers 2; EvCallocPeer 1; EvCudaCalloc 4096 32768], o)).
Proof. reflexivity. Qed.

(** The entry those two sends share is torn down by two destroys; rank 0
    has no peer record, so the second destroy also frees the array. *)
Lemma sharedBuffersDestroy_refcount_witness :
  let comm := mkComm 2 1024 in
  let env := mkEnv ncclSuccess ncclSuccess (ncclSuccess, 4096) (true, 7)
                   (ncclSuccess, 8192) true ncclSuccess in
  let peer := mkPeer (mkP2p 2 32768 4096 0 0) zeroP2p in
  let lg := [EvCallocPeers 2; EvCallocPeer 1; EvCudaCalloc 4096 32768] in
  let st := mkPool (Some [None; Some peer]) lg in
  exists st1,
    sharedBuffersDestroy comm env 1 0 st = (Exit ncclSuccess, st1)
    /\ sharedBuffersDestroy comm env 1 0 st1
       = (Exit ncclSuccess,
          mkPool None (lg ++ [EvCudaFree 4096; EvFreePeer 1; EvFreePeers])).
Proof.
  intros comm env peer lg st.
  destruct (sharedBuffersDestroy_refcount comm env env st [None; Some peer] 1 0 peer)
    as [H1 H2]; try reflexivity; try lia; try discriminate.
  eexists. split; [exact H1|exact H2].
Defined.

(** Two sends of local rank 1 with no channels share an entry of size
    0, count 2; [sharedBuffersDestroy] refuses it and leaves the count
    at 2. *)
Lemma zero_size_entry_keeps_count :
  let comm := mkComm 2 1024 in
  let env := mkEnv ncclSuccess ncclSuccess (ncclSuccess, 4096) (true, 7)
                   (ncclSuccess, 8192) true ncclSuccess in
  let o := mkOuts None None None None in
  exists st peer,
    (NCCLCHECK_call (sharedBuffersInit comm env 1 1 0 1 0) ;;
     sharedBuffersInit comm env 1 1 0 1 0) (mkPool None [], o)
    = (Exit ncclSuccess, (st, o))
    /\ localPeers st = Some [None; Some peer]
    /\ refcount (send peer) = 2
    /\ sharedBuffersDestroy comm env 1 0 st = (Exit ncclInternalError, st).
Proof.
  intros comm env o. eexists _, _. split; [vm_compute; reflexivity|].
  split; [reflexivity|]. split; reflexivity.
Qed.

End SharedPoolFacts.

(** ** Send-side connect *)

Module ConnectFacts.
Import Connect.
Local Open Scope exec_scope.

Lemma shared_ADD_POINTER m a b c n :
  BankMap.shared (BankMap.NCCL_NET_MAP_ADD_POINTER m a b c n) = BankMap.shared m.
Proof.
  unfold BankMap.NCCL_NET_MAP_ADD_POINTER.
  destruct (a =? 0), (negb (b =? 0)); destruct n; reflexivity.
Qed.

#[local] Arguments BankMap.NCCL_NET_MAP_ADD_POINTER : simpl never.

Ltac inv_tac :=
  intros;
  unfold connecting, connected, mapped, staging_upto in *;
  cbn in *; rewrite ?shared_ADD_POINTER in *; intuition (auto; congruence).

Ltac as_stable :=
  match goal with |- hoare ?P ?m _ _ => change (stable P m) end.

Ltac stable_step :=
  lazymatch goal with
  | |- stable _ (bind get _) => apply stable_get_bind; intros ? ?
  | |- stable _ (bind _ _) => apply stable_bind; [|intros ?]
  | |- stable _ (ret _) => apply stable_ret
  | |- stable _ (when _ _) => apply stable_when
  | |- stable _ (NCCLCHECK _) => apply stable_NCCLCHECK
  | |- stable _ (CUDACHECK _) => apply stable_CUDACHECK
  | |- stable _ (modify _) => apply stable_modify; inv_tac
  | |- stable _ (exit _) => apply stable_exit; discriminate
  | |- stable _ undef => apply stable_undef
  | |- stable _ (for_loop _ _ _) => apply stable_for_loop; intros ?
  | |- stable _ (if _ then _ else _) => apply stable_if
  | |- stable _ (match ?x with _ => _ end) => destruct x
  | |- stable _ (emit _) => unfold emit
  | |- stable _ (upd_res _) => unfold upd_res
  | |- stable _ (upd_map _) => unfold upd_map
  | |- stable _ (upd_mapMem _ _) => unfold upd_mapMem
  | |- stable _ (ncclNetConnect _ _) => unfold ncclNetConnect
  end.

(** Statements of the pool never leave the function on their own. *)
Lemma stable_on_pool {A} (I : world -> Prop) (m : M SharedPool.pool A) :
  (forall p, match m p with (Exit r, _) => r <> ncclSuccess | _ => True end) ->
  (forall w p, I w -> I (set_pool w p)) ->
  stable I (on_pool m).
Proof.
  intros Hm HI w Hw. unfold on_pool. specialize (Hm (pool w)).
  destruct (m (pool w)) as [[a|r|] p]; auto.
Qed.

Lemma read_peer_no_exit L p :
  match SharedPool.read_peer L p with (Exit r, _) => r <> ncclSuccess | _ => True end.
Proof.
  unfold SharedPool.read_peer, bind, get.
  destruct (SharedPool.localPeers p) as [ps|]; cbn; auto.
  destruct (_ && _); cbn; auto. destruct (ps !! _); cbn; auto.
Qed.

Lemma write_peer_no_exit L x p :
  match SharedPool.write_peer L x p with (Exit r, _) => r <> ncclSuccess | _ => True end.
Proof.
  unfold SharedPool.write_peer, bind, get.
  destruct (SharedPool.localPeers p) as [ps|]; cbn; auto.
  destruct (_ && _); cbn; auto.
Qed.

Ltac pool_step HI :=
  first
    [ apply stable_NCCLCHECK
    | apply stable_on_pool;
      [ first [ apply read_peer_no_exit | apply write_peer_no_exit
              | intros ?; exact Logic.I ]
      | exact HI ] ].

Lemma stable_ensure_peer I comm env L :
  (forall w p, I w -> I (set_pool w p)) -> stable I (ensure_peer comm env L).
Proof.
  intros HI. unfold ensure_peer.
  apply stable_get_bind; intros w Hw.
  apply stable_bind; [|intros ?].
  { apply stable_when. repeat (apply stable_bind; [|intros ?]); pool_step HI. }
  apply stable_bind; [|intros ?].
  { pool_step HI. }
  apply stable_when. repeat (apply stable_bind; [|intros ?]); pool_step HI.
Qed.

Lemma connect_fabric_spec cfg comm env reqSize sh (X : world -> Prop) :
  hoare (connecting sh) (connect_fabric cfg comm env reqSize)
        (fun _ => connected sh)
        (fun r w => r = ncclSuccess -> done w = 1 -> X w).
Proof.
  unfold connect_fabric.
  eapply hoare_bind.
  { apply stable_hoare. repeat stable_step. }
  intros []. apply hoare_get_bind. intros w Hw.
  eapply hoare_bind with (R := fun _ => connecting sh).
  { eapply hoare_conseq; [apply (stable_hoare (connecting sh) _ X)| |auto|auto].
    - destruct (negb (shared (res w) =? 0)).
      + apply stable_bind; [apply stable_ensure_peer; inv_tac|intros ?].
        repeat stable_step.
      + repeat stable_step.
    - now intros s ->. }
  intros []. apply hoare_get_bind. intros w1 Hw1.
  destruct (netSendComm (res w1) =? 0).
  - eapply hoare_bind with (R := fun _ s => done s = 0).
    + apply hoare_modify. reflexivity.
    + intros []. apply hoare_exit. intros s Hs _ Hd. congruence.
  - apply hoare_modify. intros s ->. inv_tac.
Qed.

Lemma stable_call_sharedBuffersInit sh comm env bank :
  stable (mapped sh) (call_sharedBuffersInit comm env bank).
Proof.
  intros w Hw. unfold call_sharedBuffersInit, NCCLCHECK_call.
  destruct (SharedPool.sharedBuffersInit _ _ _ _ _ _ _ _) as [[a|r|] [p o']].
  - inv_tac.
  - destruct r; first [inv_tac | discriminate].
  - exact Logic.I.
Qed.

Lemma build_map_spec cfg comm env sh :
  hoare (connected sh) (build_map cfg comm env)
        (fun _ => mapped sh) (fun r _ => r <> ncclSuccess).
Proof.
  unfold build_map. apply hoare_get_bind. intros w Hw.
  eapply hoare_bind with (R := fun _ => mapped sh).
  { unfold upd_map, upd_res. apply hoare_modify. intros s ->. inv_tac. }
  intros [].
  as_stable. repeat stable_step; apply stable_call_sharedBuffersInit.
Qed.

Lemma allocate_banks_spec cfg comm env sh :
  stable (mapped sh) (allocate_banks cfg comm env).
Proof. unfold allocate_banks. repeat stable_step. Qed.

Lemma init_staging_spec sh :
  hoare (mapped sh) init_staging
        (fun _ => staging_upto sh NCCL_STEPS) (fun r _ => r <> ncclSuccess).
Proof.
  unfold init_staging.
  eapply hoare_bind with (R := fun _ => mapped sh);
    [as_stable; repeat stable_step|intros []].
  eapply hoare_bind with (R := fun _ => mapped sh);
    [as_stable; repeat stable_step|intros []].
  apply hoare_get_bind. intros w Hw.
  eapply hoare_bind with (R := fun _ => staging_upto sh 0).
  { unfold store_head. apply hoare_get_bind. intros w1 Hw1.
    destruct (sendMem (res w1) =? 0); [apply hoare_undef|].
    apply hoare_modify. intros s ->. subst w1.
    destruct Hw as (Hsh & Hd & Hm). unfold staging_upto. cbn.
    rewrite upd_eq, Hm. cbn.
    repeat split; auto; [now destruct (sh =? 0)|intros i Hi; lia]. }
  intros [].
  eapply hoare_conseq;
    [apply (hoare_for_loop (staging_upto sh) (fun i => store_sizesFifo i (-1))
                           (fun r _ => r <> ncclSuccess))
    |auto|intros [] s Hs; exact Hs|auto].
  intros k. unfold store_sizesFifo. apply hoare_get_bind. intros w1 Hw1.
  destruct (recvMem (res w1) =? 0); [apply hoare_undef|].
  apply hoare_modify. intros s ->.
  destruct Hw1 as (Hsh & Hd & Hh & Hf). unfold staging_upto. cbn.
  rewrite upd_eq. cbn. repeat split; auto.
  intros i Hi. destruct (Z.eq_dec i k) as [->|Hne].
  - apply upd_eq.
  - rewrite upd_ne by auto. apply Hf. lia.
Qed.

Lemma register_buffers_spec cfg env respSize sh :
  hoare (staging_upto sh NCCL_STEPS) (register_buffers cfg env respSize)
        (fun _ _ => True)
        (fun r w => r = ncclSuccess -> done w = 1 -> staging_initialised sh w).
Proof.
  unfold register_buffers.
  eapply hoare_bind; [apply stable_hoare; repeat stable_step|intros []].
  eapply hoare_bind; [apply stable_hoare; repeat stable_step|intros []].
  eapply hoare_bind with (R := fun _ => staging_upto sh NCCL_STEPS).
  { apply hoare_modify. inv_tac. }
  intros []. apply hoare_exit. intros s (_ & _ & Hh & Hf) _ _. now split.
Qed.

Lemma sendProxyConnect_spec cfg comm env reqSize respSize sh :
  hoare (connecting sh) (sendProxyConnect cfg comm env reqSize respSize)
        (fun _ _ => True)
        (fun r w => r = ncclSuccess -> done w = 1 -> staging_initialised sh w).
Proof.
  unfold sendProxyConnect.
  eapply hoare_bind; [apply connect_fabric_spec|intros []].
  eapply hoare_bind with (R := fun _ => mapped sh).
  { eapply hoare_conseq; [apply (build_map_spec cfg comm env sh)|auto|auto|].
    intros r s Hr. cbv beta. intros Hr'. contradiction. }
  intros [].
  eapply hoare_bind; [apply stable_hoare, allocate_banks_spec|intros []].
  eapply hoare_bind with (R := fun _ => staging_upto sh NCCL_STEPS).
  { eapply hoare_conseq; [apply (init_staging_spec sh)|auto|auto|].
    intros r s Hr. cbv beta. intros Hr'. contradiction. }
  intros []. apply register_buffers_spec.
Qed.

(** C5.  When [sendProxyConnect] returns [ncclSuccess] with [*done = 1],
    [sendMem->head] is [-NCCL_STEPS] (as a 64-bit unsigned value) if the
    connection is shared and 0 otherwise, and [recvMem->sizesFifo[i]] is
    -1 for every [i] in [0, NCCL_STEPS). *)
Theorem sendProxyConnect_initialises
    (cfg : config) (comm : comm_t) (env : env_t) (reqSize respSize : Z) (w w' : world) :
  sendProxyConnect cfg comm env reqSize respSize w = (Exit ncclSuccess, w') ->
  done w' = 1 ->
  Staging.head (Staging.sendMems (mem w') (sendMem (res w')))
    = (if shared (res w) =? 0 then 0 else wrap64 (- NCCL_STEPS))
  /\ forall i, 0 <= i < NCCL_STEPS ->
       Staging.sizesFifo (Staging.recvMems (mem w') (recvMem (res w'))) i = -1.
Proof.
  intros Hrun Hdone.
  pose proof (sendProxyConnect_spec cfg comm env reqSize respSize (shared (res w)) w eq_refl)
    as H.
  rewrite Hrun in H. exact (H eq_refl Hdone).
Qed.

Lemma sendProxyConnect_initialises_witness :
  let run := sendProxyConnect example_config example_comm example_env 64 2048
               example_world in
  fst run = Exit ncclSuccess /\ done (snd run) = 1
  /\ Staging.head (Staging.sendMems (mem (snd run)) (sendMem (res (snd run))))
     = 18446744073709551608.
Proof.
  intros run.
  assert (Hr : fst run = Exit ncclSuccess) by (vm_compute; reflexivity).
  assert (Hd : done (snd run) = 1) by (vm_compute; reflexivity).
  split; [exact Hr|split; [exact Hd|]].
  assert (Hrun : sendProxyConnect example_config example_comm example_env 64 2048
                   example_world = (Exit ncclSuccess, snd run)).
  { rewrite <- Hr. subst run. now destruct (sendProxyConnect _ _ _ _ _ _). }
  exact (proj1 (sendProxyConnect_initialises _ _ _ _ _ _ _ Hrun Hd)).
Defined.

End ConnectFacts.

(** ** Cursor arithmetic *)

Lemma advance_le sl a b : 0 < sl -> (sl | a) -> (sl | b) -> a < b -> a + sl <= b.
Proof.
  intros Hsl [k ->] [j ->] Hlt.
  assert (Hkj : k < j) by (apply (Z.mul_lt_mono_pos_r sl); auto).
  assert (0 <= (j - k - 1) * sl) by (apply Z.mul_nonneg_nonneg; lia).
  lia.
Qed.

Lemma divide_advance sl a : (sl | a) -> (sl | a + sl).
Proof. intros H. apply Z.divide_add_r; [exact H|apply Z.divide_refl]. Qed.

Lemma maxDepth_range n : 0 <= n -> 0 <= SendProxy.maxDepth_of n <= 8.
Proof.
  intros Hn. unfold SendProxy.maxDepth_of, NCCL_STEPS, SharedPool.NCCL_SHARED_STEPS.
  destruct (Z.eq_dec n 0) as [->|Hne]; [change (16 ÷ 0) with 0; lia|].
  assert (0 <= 16 ÷ n) by (apply Z.quot_pos; lia). lia.
Qed.

Ltac bool_props :=
  repeat match goal with
  | H : _ && _ = true |- _ => apply andb_true_iff in H; destruct H
  | H : (_ <? _) = true |- _ => apply Z.ltb_lt in H
  | H : (_ <? _) = false |- _ => apply Z.ltb_ge in H
  | H : (_ =? _) = true |- _ => apply Z.eqb_eq in H
  | H : (_ =? _) = false |- _ => apply Z.eqb_neq in H
  | H : negb _ = true |- _ => apply negb_true_iff in H
  | H : negb _ = false |- _ => apply negb_false_iff in H
  end.

(** ** Send progress *)

Module SendFacts.
Import Proxy SendProxy.
Local Open Scope exec_scope.

#[local] Arguments wrap64 : simpl never.
#[local] Arguments wrap32 : simpl never.
#[local] Arguments int32 : simpl never.

Ltac split_ifs :=
  repeat match goal with
  | |- context [if ?c then _ else _] => destruct c eqn:?
  | |- context [match ?r with ncclSuccess => _ | _ => _ end] => destruct r eqn:?
  end.

Ltac local_simpl :=
  cbv beta iota delta [after];
  cbn [sub res mem op_idle op_done net
       set_sub set_res set_mem set_op_idle set_op_done set_net] in *.

Ltac cursor_simpl :=
  cbn [connection channelId nsteps nbytes groupSize base posted received transmitted
       done requests set_groupSize set_base set_posted set_received set_transmitted
       set_done set_requests] in *.

Ltac use_advance Hsl :=
  repeat match goal with
  | Hd : (?sl | ?a), Hd' : (?sl | ?b), Hlt : ?a < ?b |- _ =>
      lazymatch goal with
      | _ : a + sl <= b |- _ => fail
      | _ => pose proof (advance_le sl a b (proj1 Hsl) Hd Hd' Hlt)
      end
  end.

Lemma cursors_le_refl x : cursors_le x x.
Proof. unfold cursors_le. lia. Qed.

Lemma cursors_le_trans x y z : cursors_le x y -> cursors_le y z -> cursors_le x z.
Proof. unfold cursors_le. lia. Qed.

Lemma advanced_refl a : advanced a a.
Proof.
  split; [reflexivity|].
  apply Forall2_same_length_lookup. split; [reflexivity|].
  intros i x y Hx Hy. rewrite Hx in Hy. injection Hy as <-. apply cursors_le_refl.
Qed.

Lemma send_sub_lands comm env sl p md n s l :
  0 < sl < 2 ^ 31 -> 0 <= md <= 8 ->
  send_sub_ok sl md (sub l) ->
  Connect.recvMem (res l) <> 0 -> Connect.sendMem (res l) <> 0 ->
  lands (send_sub comm env sl p md n s l) (sub_post sl md l).
Proof.
  intros Hsl Hmd Hok Hr Hs.
  assert (Hrefl : cursors_le (sub l) (sub l)) by (unfold cursors_le; lia).
  cbv beta iota zeta delta
    [send_sub post_credit try_send reap bind get ret modify upd_sub emit
     store_offsFifo store_sizesFifo store_sendHead when NCCLCHECK undef exit].
  split_ifs; cbv beta iota delta [lands sub_post];
    local_simpl; cbn [Connect.recvMem Connect.sendMem Connect.set_step];
    unfold send_sub_ok, cursors_le, may_post in *; cursor_simpl;
    destruct Hok as (Hn & H0 & H1 & H2 & H3 & D1 & D2 & D3 & Hw);
    bool_props; rewrite ?wrap64_small in * by lia; use_advance Hsl;
    try lia;
    repeat split; auto using divide_advance; lia.
Qed.

Lemma send_same_op_refl st : same_op st st.
Proof. repeat split. Qed.

Lemma cursors_all_refl (g : list ncclProxySubArgs) : Forall2 cursors_le g g.
Proof. induction g; constructor; auto using cursors_le_refl. Qed.

Lemma pointers_upd R c r :
  pointers_ok R ->
  Connect.recvMem r = Connect.recvMem (R c) -> Connect.sendMem r = Connect.sendMem (R c) ->
  pointers_ok (upd R c r).
Proof.
  intros H E1 E2 c'. unfold upd. destruct (c' =? c); [rewrite E1, E2|]; apply H.
Qed.

(** *** A loop over the subs *)

Section SubLoop.
Variable G T : ncclProxySubArgs -> Prop.
Variable Rg : ncclProxySubArgs -> ncclProxySubArgs -> Prop.
Variable KS : (Z -> Connect.sendResources) -> Staging.memory -> Z -> Z -> list netCall
              -> Prop.
Variable X : ncclResult_t -> Prop.
Hypothesis Rg_trans : forall x y z, Rg x y -> Rg y z -> Rg x z.
Variable body : Z -> M local unit.
Hypothesis body_lands : forall k x R m i d n,
  G x -> KS R m i d n ->
  lands_with (body k (mkLocal x (R (connection x)) m i d n))
    (fun l' => G (sub l') /\ T (sub l') /\ Rg x (sub l')
               /\ KS (upd R (connection x) (res l')) (mem l') (op_idle l') (op_done l')
                     (net l'))
    X.

Lemma related_insert (l0 l : list ncclProxySubArgs) i x x' :
  Forall2 Rg l0 l -> l !! i = Some x -> Rg x x' -> Forall2 Rg l0 (<[i := x']> l).
Proof.
  intros H Hx Hle. apply Forall2_same_length_lookup in H as [Hlen H].
  apply Forall2_same_length_lookup. split; [now rewrite length_insert|].
  intros j y0 y Hy0 Hy. destruct (decide (i = j)) as [->|Hne].
  - rewrite list_lookup_insert_eq in Hy by (now apply lookup_lt_Some in Hx).
    injection Hy as <-. eapply Rg_trans; [|exact Hle]. eauto.
  - rewrite list_lookup_insert_ne in Hy by auto. eauto.
Qed.

(** The iteration on sub [k]: the subs below [k] have been through
    the body. *)
Lemma on_sub_lands st0 k st :
  0 <= k < Z.of_nat (length (subs (args st))) ->
  loop_inv G Rg KS st0 st /\ Forall T (take (Z.to_nat k) (subs (args st))) ->
  lands_with (on_sub k (body k) st)
    (fun st' => loop_inv G Rg KS st0 st'
                /\ Forall T (take (Z.to_nat (k + 1)) (subs (args st'))))
    X.
Proof.
  intros Hk ((Hall & Hrel & Hks & Hsame) & Ht).
  unfold on_sub.
  destruct (lookup_lt_is_Some_2 (subs (args st)) (Z.to_nat k)) as [x Hx]; [lia|].
  rewrite Hx.
  pose proof (body_lands k x (resources st) (mem_of st) (idle (args st))
                (args_done (args st)) (net_of st)
                (proj1 (Forall_lookup _ _) Hall _ _ Hx) Hks) as Hb.
  destruct (body k _) as [o l'].
  assert (Hpost :
            G (sub l') /\ T (sub l') /\ Rg x (sub l')
            /\ KS (upd (resources st) (connection x) (res l')) (mem l') (op_idle l')
                  (op_done l') (net l') ->
            let st' :=
              mkState
                (mkArgs (<[Z.to_nat k:=sub l']> (subs (args st))) (op_done l')
                   (sliceSteps (args st)) (chunkSteps (args st)) (protocol (args st))
                   (state (args st)) (op_idle l'))
                (upd (resources st) (connection x) (res l')) (mem l') (net l') in
            loop_inv G Rg KS st0 st'
            /\ Forall T (take (Z.to_nat (k + 1)) (subs (args st')))).
  { intros (Hg & Ht' & Hr & Hk'). cbv zeta. split; [split; [|split; [|split]]|].
    - cbn. now apply Forall_insert.
    - cbn. eapply related_insert; eauto.
    - exact Hk'.
    - exact Hsame.
    - cbn. replace (Z.to_nat (k + 1)) with (S (Z.to_nat k)) by lia.
      rewrite (take_S_r _ _ (sub l')).
      + rewrite take_insert_ge by lia. apply Forall_app. split; [exact Ht|]. now constructor.
      + apply list_lookup_insert_eq. now apply lookup_lt_Some in Hx. }
  destruct o as [[]|r|]; cbn [lands_with] in Hb |- *; [auto| |auto].
  destruct Hb as [Hb Hr]. split; [now apply Hpost|exact Hr].
Qed.

Lemma sub_loop_total st0 :
  total (loop_inv G Rg KS st0)
    (for_loop (length (subs (args st0))) 0 (fun k => on_sub k (body k)))
    (fun _ st => loop_inv G Rg KS st0 st /\ Forall T (subs (args st)))
    (fun r st => loop_inv G Rg KS st0 st /\ X r).
Proof.
  eapply total_conseq;
    [apply (total_for_range
              (fun k st => loop_inv G Rg KS st0 st
                           /\ Forall T (take (Z.to_nat k) (subs (args st))))
              (fun k => on_sub k (body k))
              (fun r st => loop_inv G Rg KS st0 st /\ X r))| | |].
  - intros k Hk. eapply total_conseq;
      [apply lands_with_total; intros s Hs; apply (on_sub_lands st0 k s); [|exact Hs]
      | |intros a s Hs; exact Hs|intros r s Hs; exact (conj (proj1 (proj1 Hs)) (proj2 Hs))].
    + destruct Hs as ((_ & Hrel & _) & _). apply Forall2_length in Hrel. lia.
    + auto.
  - intros s Hs. split; [exact Hs|]. constructor.
  - intros a s (Hinv & Ht). split; [exact Hinv|].
    pose proof Hinv as (_ & Hrel & _). apply Forall2_length in Hrel.
    rewrite Z.add_0_l, Nat2Z.id, Hrel, firstn_all in Ht. exact Ht.
  - intros r s Hinv. exact Hinv.
Qed.

End SubLoop.

(** *** A progress call *)

Lemma send_ok_range st :
  send_ok st ->
  0 < sliceSteps (args st) < 2 ^ 31 /\ 0 <= maxDepth_of (nsubs (args st)) <= 8
  /\ nsubs (args st) <> 0.
Proof.
  intros ((Hsl & _) & Hne & _). split; [exact Hsl|]. split.
  - apply maxDepth_range. unfold nsubs. lia.
  - unfold nsubs. destruct (subs (args st)); [congruence|cbn; lia].
Qed.

Lemma loop_inv_progressed st0 st :
  send_ok st0 ->
  loop_inv (send_sub_ok (sliceSteps (args st0)) (maxDepth_of (nsubs (args st0))))
           cursors_le (fun R _ _ _ _ => pointers_ok R) st0 st ->
  send_ok st /\ advanced (args st0) (args st) /\ state (args st) = state (args st0).
Proof.
  intros ((Hsl & _) & Hne & _) (Hall & Hrel & Hp & Hsame).
  pose proof (Forall2_length _ _ _ Hrel) as Hlen.
  assert (Esl : sliceSteps (args st) = sliceSteps (args st0)) by apply Hsame.
  split; [split; [split|split]|split].
  - now rewrite Esl.
  - unfold nsubs. now rewrite Esl, <- Hlen.
  - intros E. rewrite E in Hlen. destruct (subs (args st0)); [congruence|discriminate].
  - exact Hp.
  - split; [exact Esl|exact Hrel].
  - apply Hsame.
Qed.

Lemma send_progress_total comm env st0 :
  send_ok st0 ->
  total (fun st => st = st0) (send_progress comm env)
        (fun _ => send_progressed st0) (fun _ => send_progressed st0).
Proof.
  intros Hok. pose proof (send_ok_range _ Hok) as (Hsl & Hmd & Hn).
  set (sl := sliceSteps (args st0)). set (md := maxDepth_of (nsubs (args st0))).
  set (J := loop_inv (send_sub_ok sl md) cursors_le (fun R _ _ _ _ => pointers_ok R) st0).
  assert (Hdone : forall s, J s -> send_progressed st0 s).
  { intros s Hs. destruct (loop_inv_progressed st0 s Hok Hs) as (H1 & H2 & H3). 
    split; [exact H1|]. split; [exact H2|now left]. }
  unfold send_progress. apply total_get_bind. intros w ->. cbv zeta.
  apply total_bind with (R := fun _ => J).
  { destruct (Z.eqb_spec (nsubs (args st0)) 0) as [E|_]; [contradiction|].
    apply total_ret. intros s ->. destruct Hok as ((_ & Hall) & _ & Hp).
    split; [exact Hall|]. split; [apply cursors_all_refl|]. split; [exact Hp|apply send_same_op_refl]. }
  intros []. apply total_bind with (R := fun _ => J).
  { eapply total_conseq;
      [apply (sub_loop_total (send_sub_ok sl md) (fun _ => True) cursors_le
                (fun R _ _ _ _ => pointers_ok R) (fun _ => True)
                cursors_le_trans
                (fun k => send_sub comm (env k) sl (protocol (args st0)) md
                                   (nsubs (args st0)) k))
      |auto|intros a s Hs; exact (proj1 Hs)|intros r s Hs; exact (Hdone s (proj1 Hs))].
    intros k x R m i d n Hx Hp. apply lands_with_any.
    eapply lands_impl;
      [apply (send_sub_lands comm (env k) sl (protocol (args st0)) md (nsubs (args st0)) k);
       cbn [sub res]; auto; apply Hp|].
    intros l' (H1 & H2 & H3 & H4). cbn [sub res] in *.
    split; [exact H1|]. split; [exact Logic.I|]. split; [exact H2|].
    now apply pointers_upd. }
  intros []. apply total_get_bind. intros w Hw. apply total_when.
  - intros _. apply total_modify. intros s ->.
    destruct (loop_inv_progressed st0 w Hok Hw) as (H1 & H2 & H3).
    split; [exact H1|]. split; [exact H2|now right].
  - intros _ s ->. now apply Hdone.
Qed.

(** Entry to Ready puts every sub in order, whatever its cursors held. *)
Lemma send_ready_sub_lands chunk sl md l :
  wrap64 chunk <> 0 -> 0 < sl -> 0 <= md -> 0 <= nsteps (sub l) < 2 ^ 31 ->
  lands_with (send_ready_sub chunk l)
    (fun l' => 0 <= nsteps (sub l') < 2 ^ 31 /\ send_sub_ok sl md (sub l')
               /\ res l' = res l)
    (fun _ => False).
Proof.
  intros Hch Hsl Hmd Hn.
  cbv beta iota zeta delta [send_ready_sub bind get ret modify upd_sub undef].
  destruct (Z.eqb_spec (wrap64 chunk) 0) as [E|_]; [contradiction|].
  cbv beta iota delta [lands_with]. local_simpl.
  unfold send_sub_ok. cursor_simpl.
  repeat split; auto using Z.divide_0_r; lia.
Qed.

Lemma upd_same_pointers R c : pointers_ok R -> pointers_ok (upd R c (R c)).
Proof. intros H. now apply pointers_upd. Qed.

Lemma send_ready_total st0 :
  wf_send st0 ->
  total (fun st => st = st0) send_ready
        (fun _ st => send_ok st /\ state (args st) = ncclProxyOpProgress
                     /\ sliceSteps (args st) = sliceSteps (args st0)
                     /\ length (subs (args st)) = length (subs (args st0)))
        (fun _ _ => False).
Proof.
  intros ((Hsl & Hn) & Hne & Hch & Hp).
  set (sl := sliceSteps (args st0)). set (md := maxDepth_of (nsubs (args st0))).
  assert (Hmd : 0 <= md <= 8) by (apply maxDepth_range; unfold nsubs; lia).
  set (J := loop_inv (fun x => 0 <= nsteps x < 2 ^ 31) (fun _ _ => True)
              (fun R _ _ _ _ => pointers_ok R) st0).
  unfold send_ready. apply total_get_bind. intros w ->. cbv zeta.
  apply total_bind
    with (R := fun _ st => J st /\ Forall (send_sub_ok sl md) (subs (args st))).
  { eapply total_conseq;
      [apply (sub_loop_total (fun x => 0 <= nsteps x < 2 ^ 31) (send_sub_ok sl md)
                (fun _ _ => True) (fun R _ _ _ _ => pointers_ok R) (fun _ => False)
                (fun _ _ _ _ _ => Logic.I)
                (fun _ => send_ready_sub (chunkSteps (args st0))) )
      | |intros a s Hs; exact Hs|intros r s Hs; exact (proj2 Hs)].
    - intros k x R m i d n Hx HR.
      eapply lands_with_impl;
        [apply (send_ready_sub_lands (chunkSteps (args st0)) sl md); cbn [sub];
         auto; lia| |intros r Hr; exact Hr].
      intros l' (H1 & H2 & H3). cbn [res] in H3. rewrite H3.
      split; [exact H1|]. split; [exact H2|]. split; [exact Logic.I|].
      now apply upd_same_pointers.
    - intros s ->. split; [exact Hn|]. split; [|split; [exact Hp|apply send_same_op_refl]].
      clear. induction (subs (args st0)); constructor; auto. }
  intros []. apply total_modify. intros s ((Hall & Hrel & Hp' & Hsame) & Hok).
  pose proof (Forall2_length _ _ _ Hrel) as Hlen.
  split; [|split; [reflexivity|split; [apply Hsame|now symmetry]]].
  split; [split|split].
  - cbn. destruct Hsame as (-> & _). exact Hsl.
  - destruct Hsame as (E & _). unfold nsubs. cbn. rewrite E, <- Hlen. exact Hok.
  - cbn. intros E. rewrite E in Hlen. destruct (subs (args st0)); [congruence|discriminate].
  - exact Hp'.
Qed.

Lemma send_ok_idle st v : send_ok st -> send_ok (set_args st (set_idle (args st) v)).
Proof. auto. Qed.

(** The part of a call after the Ready block. *)
Lemma send_tail_total comm env st0 :
  send_ok st0 -> state (args st0) <> ncclProxyOpReady ->
  total (fun st => st = st0)
    (upd_args (fun a => set_idle a 1) ;;
     let* st := get in
     when (is_state (state (args st)) ncclProxyOpProgress) (send_progress comm env) ;;
     (exit ncclSuccess : M sendState unit))
    (fun _ _ => False)
    (fun _ => send_kept (args st0)).
Proof.
  intros Hinv Hst.
  set (st1 := set_args st0 (set_idle (args st0) 1)).
  assert (Hkeep : forall s, send_progressed st1 s -> send_kept (args st0) s).
  { intros s (Hi & Hadv & Hs). split; [exact Hi|]. split; [exact Hadv|].
    destruct Hs as [Hs|Hs]; rewrite Hs; [exact Hst|discriminate]. }
  assert (Hsame : send_progressed st1 st1).
  { split; [now apply send_ok_idle|]. split; [|now left].
    split; [reflexivity|apply cursors_all_refl]. }
  apply total_bind with (R := fun _ s => s = st1).
  { apply total_modify. now intros s ->. }
  intros []. apply total_get_bind. intros w ->.
  apply total_bind with (R := fun _ => send_kept (args st0)).
  - apply total_when.
    + intros _. eapply total_conseq;
        [apply (send_progress_total comm env st1), send_ok_idle, Hinv
        |auto|intros a s; apply Hkeep|intros r s; apply Hkeep].
    + intros _ s ->. now apply Hkeep.
  - intros []. apply total_exit. auto.
Qed.

(** A call of [sendProxyProgress] on an op past Ready whose cursors are
    in order returns, keeps them in order and only moves them
    forward. *)
Lemma sendProxyProgress_kept comm env st :
  state (args st) <> ncclProxyOpReady -> send_ok st ->
  lands (sendProxyProgress comm env st) (send_kept (args st)).
Proof.
  intros Hst Hinv.
  apply (total_lands (fun s => s = st)); [|reflexivity].
  unfold sendProxyProgress. apply total_get_bind. intros w ->.
  replace (is_state (state (args st)) ncclProxyOpReady) with false
    by (now destruct (state (args st))).
  cbn [when]. apply total_bind with (R := fun _ s => s = st).
  { apply total_ret. auto. }
  intros []. eapply total_conseq; [apply (send_tail_total comm env st Hinv Hst)|auto| |auto].
  intros a s [].
Qed.

(** A call of [sendProxyProgress] on a well-formed op in Ready returns
    and leaves its cursors in order. *)
Lemma sendProxyProgress_entry comm env st :
  state (args st) = ncclProxyOpReady -> wf_send st ->
  lands (sendProxyProgress comm env st)
        (fun st' => send_ok st' /\ state (args st') <> ncclProxyOpReady
                    /\ sliceSteps (args st') = sliceSteps (args st)
                    /\ length (subs (args st')) = length (subs (args st))).
Proof.
  intros Hst Hwf.
  apply (total_lands (fun s => s = st)); [|reflexivity].
  unfold sendProxyProgress. apply total_get_bind. intros w ->.
  rewrite Hst. cbn [is_state when].
  apply total_bind
    with (R := fun _ s => send_ok s /\ state (args s) = ncclProxyOpProgress
                          /\ sliceSteps (args s) = sliceSteps (args st)
                          /\ length (subs (args s)) = length (subs (args st))).
  { eapply total_conseq; [apply (send_ready_total st Hwf)|auto|auto|].
    intros r s []. }
  intros []. intros s (Hok & Hs & Esl & Elen).
  assert (Hne : state (args s) <> ncclProxyOpReady) by (rewrite Hs; discriminate).
  pose proof (send_tail_total comm env s Hok Hne s eq_refl) as H.
  destruct ((upd_args (fun a => set_idle a 1);; _) s) as [[a|r|] s'];
    [destruct H| |exact H].
  destruct H as (H1 & (E1 & E2) & H3). apply Forall2_length in E2.
  split; [exact H1|]. split; [exact H3|]. split; congruence.
Qed.

Lemma advanced_trans a b c : advanced a b -> advanced b c -> advanced a c.
Proof.
  intros [E1 H1] [E2 H2]. split; [congruence|].
  clear E1 E2. revert H2. generalize (subs c). induction H1; intros l3 H2;
    inversion H2; subst; constructor; eauto using cursors_le_trans.
Qed.

(** Any number of calls. *)
Lemma send_calls_kept comm : forall envs st,
  send_ok st -> state (args st) <> ncclProxyOpReady ->
  lands (send_calls comm envs st) (send_kept (args st)).
Proof.
  induction envs as [|env envs IH]; intros st Hok Hst; cbn [send_calls].
  - split; [exact Hok|]. split; [apply advanced_refl|exact Hst].
  - pose proof (sendProxyProgress_kept comm env st Hst Hok) as H.
    destruct (sendProxyProgress comm env st) as [[a|r|] st']; cbn [lands] in H |- *;
      [exact H| |exact H].
    destruct r; try exact H.
    destruct envs as [|env' envs']; [exact H|].
    destruct H as (Hok' & Hadv & Hst').
    eapply lands_impl; [apply (IH st' Hok' Hst')|].
    intros s (H1 & H2 & H3). split; [exact H1|]. split; [|exact H3].
    eapply advanced_trans; eauto.
Qed.

End SendFacts.

(** ** Receive progress: grouping on entry to Ready *)

Module GroupFacts.
Import Proxy RecvProxy.

#[local] Arguments wrap64 : simpl never.
#[local] Arguments int32 : simpl never.
#[local] Arguments ROUNDUP : simpl never.

Section Grouping.
Variable R : Z -> recvResources.

(** The search for the next sub on the comm, on the subs not yet
    looked at. *)
Lemma find_next_first_match c todo : forall pre,
  find_next R c (pre ++ todo) (length todo) (length pre)
  = (length pre + first_match R c todo)%nat.
Proof.
  induction todo as [|x todo IH]; intros pre; cbn [find_next first_match length].
  - lia.
  - rewrite list_lookup_middle by reflexivity. fold (comm_of R x).
    destruct (comm_of R x =? c); [lia|].
    replace (pre ++ x :: todo) with ((pre ++ [x]) ++ todo) by (now rewrite <- app_assoc).
    replace (S (length pre)) with (length (pre ++ [x])) by (rewrite length_app; cbn; lia).
    rewrite IH, length_app. cbn. lia.
Qed.

Lemma first_match_none c todo :
  first_match R c todo = length todo ->
  Forall (fun y => comm_of R y <> c) todo.
Proof.
  induction todo as [|x todo IH]; cbn; intros H; [constructor|].
  destruct (Z.eqb_spec (comm_of R x) c); [discriminate|].
  constructor; auto.
Qed.

Lemma first_match_le c todo : (first_match R c todo <= length todo)%nat.
Proof.
  induction todo as [|x todo IH]; cbn; [lia|].
  destruct (comm_of R x =? c); lia.
Qed.

Lemma first_match_split c todo :
  first_match R c todo <> length todo ->
  exists a y b, todo = a ++ y :: b /\ length a = first_match R c todo
                /\ comm_of R y = c.
Proof.
  induction todo as [|x todo IH]; cbn; intros H; [congruence|].
  destruct (Z.eqb_spec (comm_of R x) c) as [E|E].
  - exists [], x, todo. auto.
  - destruct IH as (a & y & b & -> & Hl & Hy); [congruence|].
    exists (x :: a), y, b. cbn. auto.
Qed.

(** The stores of the loop, on the subs split at [s]. *)
Lemma swap_subs_split (pre a b : list ncclProxySubArgs) x y :
  swap_subs (length pre) (length pre + S (length a)) (pre ++ x :: a ++ y :: b)
  = pre ++ y :: a ++ x :: b.
Proof.
  unfold swap_subs.
  rewrite list_lookup_middle by reflexivity.
  replace (pre ++ x :: a ++ y :: b) with ((pre ++ x :: a) ++ y :: b)
    by (now rewrite <- app_assoc).
  rewrite list_lookup_middle by (rewrite length_app; cbn; lia).
  rewrite <- app_assoc. cbn [app].
  rewrite (insert_app_r_alt pre) by lia.
  replace (length pre - length pre)%nat with O by lia. cbn [insert list_insert].
  replace (pre ++ y :: a ++ y :: b) with ((pre ++ y :: a) ++ y :: b)
    by (now rewrite <- app_assoc).
  rewrite insert_app_r_alt by (rewrite length_app; cbn; lia).
  replace (length pre + S (length a) - length (pre ++ y :: a))%nat with O
    by (rewrite length_app; cbn; lia).
  cbn. now rewrite <- app_assoc.
Qed.

Lemma insert_split (pre rest : list ncclProxySubArgs) x y :
  <[length pre := y]> (pre ++ x :: rest) = pre ++ y :: rest.
Proof.
  rewrite insert_app_r_alt by lia.
  now replace (length pre - length pre)%nat with O by lia.
Qed.

Lemma alter_split (f : ncclProxySubArgs -> ncclProxySubArgs) pre rest x :
  alter f (length pre) (pre ++ x :: rest) = pre ++ f x :: rest.
Proof.
  rewrite alter_app_r_alt by lia.
  now replace (length pre - length pre)%nat with O by lia.
Qed.

Lemma set_groupSizes_split gs : forall n pre c1 c2 post,
  length c1 = n ->
  forall s, (s + 1 = length pre + n + length c2)%nat ->
  set_groupSizes n (length c2) s gs (pre ++ c1 ++ c2 ++ post)
  = Some (pre ++ List.map (fun x => set_groupSize x gs) c1 ++ c2 ++ post).
Proof.
  induction n as [|n IH]; intros pre c1 c2 post Hlen s Hs.
  - destruct c1; [reflexivity|discriminate].
  - destruct (exists_last (l := c1)) as (c1' & x & ->); [now destruct c1|].
    rewrite length_app in Hlen. cbn in Hlen.
    cbn [set_groupSizes].
    replace (s <? length c2)%nat with false by (symmetry; apply Nat.ltb_ge; lia).
    replace (s - length c2)%nat with (length (pre ++ c1')) by (rewrite length_app; lia).
    replace (pre ++ (c1' ++ [x]) ++ c2 ++ post)
      with ((pre ++ c1') ++ x :: c2 ++ post)
      by (now rewrite <- !app_assoc).
    rewrite alter_split, <- app_assoc.
    change (set_groupSize x gs :: c2 ++ post) with ((set_groupSize x gs :: c2) ++ post).
    rewrite (IH pre c1' (set_groupSize x gs :: c2) post) by (cbn; lia).
    rewrite map_app. cbn. now rewrite <- !app_assoc.
Qed.

End Grouping.

Section GroupingLoop.
Variable R : Z -> recvResources.
Variable chunkSteps : Z.
Variable mr : Z -> Z.
Variable subs0 : list ncclProxySubArgs.
Hypothesis chunk_ok : wrap64 chunkSteps <> 0.
Hypothesis conns_ok : Forall (wf_conn R mr) subs0.
Hypothesis few_subs : Z.of_nat (length subs0) < 2 ^ 31.

Lemma comm_of_ready_sub x : comm_of R (ready_sub R chunkSteps x) = comm_of R x.
Proof. reflexivity. Qed.

Lemma fresh_ready_sub x : fresh (ready_sub R chunkSteps x).
Proof. repeat split. Qed.

Lemma map_comm_set_groupSize gs (l : list ncclProxySubArgs) :
  List.map (comm_of R) (List.map (fun x => set_groupSize x gs) l) = List.map (comm_of R) l.
Proof. rewrite List.map_map. apply List.map_ext. reflexivity. Qed.

Lemma map_static_set_groupSize gs (l : list ncclProxySubArgs) :
  List.map static (List.map (fun x => set_groupSize x gs) l) = List.map static l.
Proof. rewrite List.map_map. apply List.map_ext. reflexivity. Qed.

Lemma fresh_set_groupSize gs (l : list ncclProxySubArgs) :
  Forall fresh l -> Forall fresh (List.map (fun x => set_groupSize x gs) l).
Proof. intros H. apply Forall_map. eapply Forall_impl; [exact H|]. auto. Qed.

Lemma wf_of_perm (subs : list ncclProxySubArgs) :
  Permutation (List.map static subs) (List.map static subs0) ->
  Forall (wf_conn R mr) subs.
Proof.
  intros Hp. apply Forall_forall. intros x Hx.
  assert (Hin : In (static x) (List.map static subs0)).
  { eapply Permutation_in; [exact Hp|]. apply in_map. now apply list_elem_of_In. }
  apply in_map_iff in Hin as (x0 & Hst & Hx0).
  apply list_elem_of_In in Hx0.
  pose proof (proj1 (Forall_forall _ _) conns_ok x0 Hx0) as Hw.
  assert (Hc : connection x0 = connection x) by (unfold static in Hst; congruence).
  unfold wf_conn, max_of, comm_of in *. now rewrite <- Hc.
Qed.

Lemma length_of_perm (subs : list ncclProxySubArgs) :
  Permutation (List.map static subs) (List.map static subs0) ->
  length subs = length subs0.
Proof. intros Hp. apply Permutation_length in Hp. now rewrite !length_map in Hp. Qed.

Lemma greedy_perm gs f f' :
  Permutation f f' -> greedy R gs f -> greedy R gs f'.
Proof.
  intros Hp. induction gs as [|g gs IH]; cbn; [auto|].
  intros [[Hf|Hn] Hg]; (split; [|auto]); [now left|right].
  now rewrite <- Hp.
Qed.

Lemma greedy_snoc gs cur fc :
  greedy R gs (List.map (comm_of R) cur ++ fc) ->
  group_full R cur \/ Forall (fun c => c <> group_comm R cur) fc ->
  greedy R (gs ++ [cur]) fc.
Proof.
  intros Hg Hc. induction gs as [|g gs IH]; cbn in *.
  - split; [|exact Logic.I]. destruct Hc as [Hc|Hc]; [now left|now right].
  - destruct Hg as [[Hf|Hn] Hg]; (split; [|auto]); [now left|right].
    rewrite concat_app. cbn. rewrite app_nil_r, map_app, <- app_assoc. exact Hn.
Qed.

(** Counting a sub in: the [gsz0] subs before position [s] and the sub
    at [s] become a group of [gsz0 + 1]. *)
Lemma ready_place_spec pre0 curp y todo1 gsz0 s :
  s = length (pre0 ++ curp) -> Z.of_nat (length curp) = gsz0 -> gsz0 + 1 < 2 ^ 31 ->
  ready_place R chunkSteps s gsz0 (pre0 ++ curp ++ y :: todo1)
  = Some (mkGrouping (comm_of R y) (gsz0 + 1) (max_of R y),
          pre0 ++ List.map (fun x => set_groupSize x (gsz0 + 1))
                           (curp ++ [ready_sub R chunkSteps y]) ++ todo1).
Proof.
  clear conns_ok few_subs.
  intros Hs Hg Hlt. unfold ready_place.
  rewrite int32_small by lia.
  rewrite app_assoc, Hs, list_lookup_middle by reflexivity.
  destruct (Z.eqb_spec (wrap64 chunkSteps) 0) as [E|_]; [contradiction|].
  rewrite insert_split, <- app_assoc.
  replace (curp ++ ready_sub R chunkSteps y :: todo1)
    with ((curp ++ [ready_sub R chunkSteps y]) ++ [] ++ todo1)
    by (now rewrite <- app_assoc).
  rewrite (set_groupSizes_split (gsz0 + 1) (Z.to_nat (gsz0 + 1)) pre0
             (curp ++ [ready_sub R chunkSteps y]) [] todo1).
  - reflexivity.
  - rewrite length_app. cbn. lia.
  - rewrite !length_app. cbn. lia.
Qed.

Lemma Forall_map_comm (P : Z -> Prop) (l : list ncclProxySubArgs) :
  Forall (fun y => P (comm_of R y)) l -> Forall P (List.map (comm_of R) l).
Proof. induction 1; cbn; constructor; auto. Qed.

Lemma uniform_of_cur g (cur : list ncclProxySubArgs) :
  cur <> [] ->
  Forall (fun x => groupSize x = Z.of_nat (length cur)
                   /\ comm_of R x = recvComm g
                   /\ max_of R x = cur_maxRecvs g) cur ->
  Z.of_nat (length cur) <= cur_maxRecvs g ->
  uniform_group R cur /\ group_comm R cur = recvComm g
  /\ (Z.of_nat (length cur) = cur_maxRecvs g -> group_full R cur).
Proof.
  intros Hne Hcur Hle.
  assert (Hhd : exists c0 cur', cur = c0 :: cur')
    by (destruct cur as [|c0 cur']; [congruence|eauto]).
  destruct Hhd as (c0 & cur' & E).
  assert (H0 : comm_of R c0 = recvComm g /\ max_of R c0 = cur_maxRecvs g).
  { rewrite E in Hcur. pose proof (Forall_inv Hcur) as (_ & Hc0 & Hm0). auto. }
  destruct H0 as [Hc0 Hm0].
  split; [|split].
  - split; [exact Hne|].
    eapply Forall_impl; [exact Hcur|]. intros y (Hy1 & Hy2 & Hy3).
    split; [exact Hy1|]. split; [|lia].
    rewrite Hy2, E. cbn. now rewrite Hc0.
  - rewrite E. cbn [group_comm]. exact Hc0.
  - intros Hf. rewrite E. cbn [group_full]. rewrite <- E. lia.
Qed.

(** The sub at [s] starts a new group: the current one is full, or no
    later sub is on its comm. *)
Lemma close_case gs cur x todo g :
  cur <> [] ->
  Forall (uniform_group R) gs ->
  greedy R gs (List.map (comm_of R) (cur ++ x :: todo)) ->
  Forall (fun x => groupSize x = Z.of_nat (length cur)
                   /\ comm_of R x = recvComm g
                   /\ max_of R x = cur_maxRecvs g) cur ->
  Z.of_nat (length cur) <= cur_maxRecvs g ->
  Forall fresh (concat gs ++ cur) ->
  Permutation (List.map static (concat gs ++ cur ++ x :: todo)) (List.map static subs0) ->
  Z.of_nat (length cur) = cur_maxRecvs g
  \/ Forall (fun y => comm_of R y <> recvComm g) (x :: todo) ->
  ready_inv R subs0 (S (length (concat gs) + length cur))
    (mkGrouping (comm_of R x) (0 + 1) (max_of R x))
    ((concat gs ++ cur)
     ++ List.map (fun x => set_groupSize x (0 + 1)) ([] ++ [ready_sub R chunkSteps x])
     ++ todo).
Proof.
  intros Hne Hu Hgr Hcur Hle Hfresh Hperm Hclose.
  pose proof (wf_of_perm _ Hperm) as Hwf.
  destruct (uniform_of_cur g cur Hne Hcur Hle) as (Hucur & Hgc & Hfull).
  set (x' := set_groupSize (ready_sub R chunkSteps x) (0 + 1)).
  exists (gs ++ [cur]), [x'], todo. cbn [List.map app].
  rewrite concat_app. cbn [concat]. rewrite app_nil_r.
  assert (Hwx : wf_conn R mr x).
  { apply (proj1 (Forall_forall _ _) Hwf).
    rewrite !elem_of_app. right. right. apply elem_of_cons. now left. }
  repeat split.
  - rewrite length_app. cbn. lia.
  - discriminate.
  - apply Forall_app. split; [exact Hu|]. now constructor.
  - apply greedy_snoc.
    + rewrite map_app in Hgr. exact Hgr.
    + destruct Hclose as [Hc|Hc]; [left; auto|right].
      rewrite Hgc.
      constructor; [exact (Forall_inv Hc)|].
      apply Forall_map_comm. exact (Forall_inv_tail Hc).
  - constructor; [|constructor]. repeat split.
  - apply Hwx.
  - apply Forall_app. split; [exact Hfresh|].
    constructor; [|constructor]. apply fresh_ready_sub.
  - rewrite <- app_assoc. rewrite !map_app in *. exact Hperm.
Qed.

(** The sub at [s] extends the current group. *)
Lemma extend_case gs cur x todo y todo1 g :
  cur <> [] ->
  Forall (uniform_group R) gs ->
  greedy R gs (List.map (comm_of R) (cur ++ x :: todo)) ->
  Forall (fun x => groupSize x = Z.of_nat (length cur)
                   /\ comm_of R x = recvComm g
                   /\ max_of R x = cur_maxRecvs g) cur ->
  Z.of_nat (length cur) < cur_maxRecvs g ->
  Forall fresh (concat gs ++ cur) ->
  Permutation (List.map static (concat gs ++ cur ++ x :: todo)) (List.map static subs0) ->
  Permutation (y :: todo1) (x :: todo) ->
  comm_of R y = recvComm g ->
  ready_inv R subs0 (S (length (concat gs) + length cur))
    (mkGrouping (comm_of R y) (Z.of_nat (length cur) + 1) (max_of R y))
    (concat gs
     ++ List.map (fun x => set_groupSize x (Z.of_nat (length cur) + 1))
                 (cur ++ [ready_sub R chunkSteps y])
     ++ todo1).
Proof.
  intros Hne Hu Hgr Hcur Hlt Hfresh Hperm Hyx Hy.
  pose proof (wf_of_perm _ Hperm) as Hwf.
  assert (Hwy : wf_conn R mr y).
  { apply (proj1 (Forall_forall _ _) Hwf).
    rewrite !elem_of_app. right. right. rewrite <- Hyx. apply elem_of_cons. now left. }
  assert (Hmax : max_of R y = cur_maxRecvs g).
  { destruct cur as [|c0 cur']; [congruence|].
    pose proof (Forall_inv Hcur) as (_ & Hc0 & Hm0).
    assert (Hw0 : wf_conn R mr c0).
    { apply (proj1 (Forall_forall _ _) Hwf).
      rewrite !elem_of_app. right. left. apply elem_of_cons. now left. }
    destruct Hwy as [-> _]. destruct Hw0 as [Hw0 _]. congruence. }
  set (n1 := Z.of_nat (length cur) + 1).
  exists gs, (List.map (fun x => set_groupSize x n1) (cur ++ [ready_sub R chunkSteps y])),
    todo1.
  assert (Hl : length (List.map (fun x => set_groupSize x n1)
                         (cur ++ [ready_sub R chunkSteps y])) = S (length cur))
    by (rewrite length_map, length_app; cbn; lia).
  repeat split.
  - rewrite Hl. lia.
  - intros E. rewrite E in Hl. discriminate.
  - exact Hu.
  - eapply greedy_perm; [|exact Hgr].
    rewrite !map_app, !map_comm_set_groupSize. cbn [List.map].
    rewrite comm_of_ready_sub, <- app_assoc. cbn [app].
    apply Permutation_app_head.
    change (Permutation (List.map (comm_of R) (x :: todo)) (List.map (comm_of R) (y :: todo1))).
    apply Permutation_map. now symmetry.
  - apply Forall_map. apply Forall_app. split.
    + eapply Forall_impl; [exact Hcur|]. intros z (Hz1 & Hz2 & Hz3).
      cbv beta. rewrite Hl.
      change (n1 = Z.of_nat (S (length cur))
              /\ comm_of R z = comm_of R y /\ max_of R z = max_of R y).
      repeat split; [subst n1; lia|congruence|congruence].
    + constructor; [|constructor]. cbv beta. rewrite Hl.
      change (n1 = Z.of_nat (S (length cur))
              /\ comm_of R y = comm_of R y /\ max_of R y = max_of R y).
      repeat split; subst n1; lia.
  - cbn. rewrite Hl. subst n1. lia.
  - cbn. rewrite Hl. lia.
  - apply Forall_app in Hfresh as [Hf1 Hf2].
    apply Forall_app. split; [exact Hf1|].
    apply fresh_set_groupSize. apply Forall_app. split; [exact Hf2|].
    constructor; [apply fresh_ready_sub|constructor].
  - rewrite <- Hperm. rewrite !map_app, !map_static_set_groupSize, <- !app_assoc.
    do 2 apply Permutation_app_head.
    change (Permutation (List.map static (y :: todo1)) (List.map static (x :: todo))).
    now apply Permutation_map.
Qed.

(** One iteration keeps the invariant, and always succeeds. *)
Lemma ready_iter_inv s g subs :
  ready_inv R subs0 s g subs -> (s < length subs)%nat ->
  exists g' subs',
    ready_iter R chunkSteps s g subs = Some (g', subs')
    /\ ready_inv R subs0 (S s) g' subs'.
Proof.
  intros (gs & cur & todo & -> & Hs & Hne & Hu & Hgr & Hcur & Hgsz & Hle & Hfresh & Hperm) Hlt.
  pose proof (length_of_perm _ Hperm) as Hlen.
  rewrite !length_app in Hlt, Hlen.
  destruct todo as [|x todo]; [cbn in Hlt; lia|].
  cbn [length] in Hlen.
  assert (Hpos : (0 < length cur)%nat) by (destruct cur; [congruence|cbn; lia]).
  assert (Es : s = length (concat gs ++ cur)) by (rewrite length_app; lia).
  clear Hs. subst s.
  assert (Hn1 : Z.of_nat (length cur) + 1 < 2 ^ 31) by lia.
  assert (Hclose :
    Z.of_nat (length cur) = cur_maxRecvs g
    \/ Forall (fun y => comm_of R y <> recvComm g) (x :: todo) ->
    exists g' subs',
      ready_place R chunkSteps (length (concat gs ++ cur)) 0
        ((concat gs ++ cur) ++ x :: todo) = Some (g', subs')
      /\ ready_inv R subs0 (S (length (concat gs ++ cur))) g' subs').
  { intros Hc.
    change ((concat gs ++ cur) ++ x :: todo) with ((concat gs ++ cur) ++ [] ++ x :: todo).
    rewrite (ready_place_spec (concat gs ++ cur) [] x todo 0 (length (concat gs ++ cur)))
      by (rewrite ?app_nil_r; cbn; lia).
    eexists _, _. split; [reflexivity|]. rewrite (length_app (concat gs) cur).
    apply (close_case gs cur x todo g); auto. }
  assert (Hextend : forall y todo1,
    Permutation (y :: todo1) (x :: todo) -> comm_of R y = recvComm g ->
    Z.of_nat (length cur) < cur_maxRecvs g ->
    exists g' subs',
      ready_place R chunkSteps (length (concat gs ++ cur)) (cur_groupSize g)
        ((concat gs ++ cur) ++ y :: todo1) = Some (g', subs')
      /\ ready_inv R subs0 (S (length (concat gs ++ cur))) g' subs').
  { intros y todo1 Hp Hy Hlt1.
    rewrite <- app_assoc, Hgsz.
    rewrite (ready_place_spec (concat gs) cur y todo1 (Z.of_nat (length cur))
               (length (concat gs ++ cur))) by (reflexivity || lia).
    eexists _, _. split; [reflexivity|]. rewrite (length_app (concat gs) cur).
    apply (extend_case gs cur x todo y todo1 g); auto. }
  unfold ready_iter, ready_choose.
  rewrite (app_assoc (concat gs) cur (x :: todo)).
  destruct (Z.eqb_spec (cur_groupSize g) (cur_maxRecvs g)) as [Efull|Efull].
  { apply Hclose. left. lia. }
  replace (0 <? length (concat gs ++ cur))%nat with true
    by (symmetry; apply Nat.ltb_lt; rewrite length_app; lia).
  replace (length ((concat gs ++ cur) ++ x :: todo) - length (concat gs ++ cur))%nat
    with (length (x :: todo)) by (rewrite !length_app; cbn [length]; lia).
  rewrite find_next_first_match.
  pose proof (first_match_le R (recvComm g) (x :: todo)) as Hfm.
  destruct (Nat.eqb_spec (length (concat gs ++ cur) + first_match R (recvComm g) (x :: todo))
              (length ((concat gs ++ cur) ++ x :: todo))) as [Enone|Esome].
  { apply Hclose. right.
    apply first_match_none. rewrite !length_app in Enone. lia. }
  destruct (first_match_split R (recvComm g) (x :: todo)) as (a & y & b & Esplit & Ha & Hy).
  { rewrite !length_app in Esome. lia. }
  destruct (Nat.eqb_spec (length (concat gs ++ cur))
              (length (concat gs ++ cur) + first_match R (recvComm g) (x :: todo)))
    as [Ehere|Elater]; cbn [negb].
  - (* the sub at [s] is on the comm *)
    assert (a = []) by (destruct a; [reflexivity|cbn [length] in Ha; lia]). subst a.
    cbn [app] in Esplit. injection Esplit as -> ->.
    apply Hextend; auto. lia.
  - (* a later sub is, and is brought to [s] *)
    destruct a as [|x1 a]; [cbn [length] in Ha; lia|].
    cbn [app] in Esplit. injection Esplit as <- ->.
    rewrite <- Ha. cbn [length].
    rewrite swap_subs_split.
    apply Hextend; auto; [|lia].
    rewrite <- (Permutation_middle a b x). rewrite perm_swap.
    apply perm_skip. now rewrite <- (Permutation_middle a b y).
Qed.


(** The first iteration: sub 0 opens the first group. *)
Lemma ready_iter_first x todo :
  subs0 = x :: todo ->
  exists g' subs',
    ready_iter R chunkSteps 0 (mkGrouping 0 0 1) subs0 = Some (g', subs')
    /\ ready_inv R subs0 1 g' subs'.
Proof.
  intros E.
  assert (Hwx : wf_conn R mr x).
  { apply (proj1 (Forall_forall _ _) conns_ok). rewrite E. apply elem_of_cons. now left. }
  assert (Hrun : ready_iter R chunkSteps 0 (mkGrouping 0 0 1) subs0
                 = ready_place R chunkSteps 0 0 ([] ++ [] ++ x :: todo))
    by (now rewrite E).
  rewrite Hrun, (ready_place_spec [] [] x todo 0 0) by (reflexivity || lia).
  eexists _, _. split; [reflexivity|].
  exists [], [set_groupSize (ready_sub R chunkSteps x) (0 + 1)], todo.
  repeat split; try discriminate; try (constructor; fail).
  - constructor; [|constructor]. repeat split.
  - apply Hwx.
  - constructor; [apply fresh_ready_sub|constructor].
  - now rewrite E.
Qed.

Lemma ready_inv_length s g subs :
  ready_inv R subs0 s g subs -> length subs = length subs0.
Proof.
  intros (gs & cur & todo & _ & _ & _ & _ & _ & _ & _ & _ & _ & Hperm).
  now apply length_of_perm.
Qed.

(** The remaining iterations. *)
Lemma ready_loop_inv n : forall s g subs,
  ready_inv R subs0 s g subs -> (s + n = length subs)%nat ->
  exists g' subs',
    ready_loop R chunkSteps n s g subs = Some subs'
    /\ ready_inv R subs0 (length subs') g' subs'.
Proof.
  induction n as [|n IH]; intros s g subs Hinv Hn; cbn [ready_loop].
  - exists g, subs. split; [reflexivity|].
    now replace (length subs) with s by lia.
  - destruct (ready_iter_inv s g subs Hinv) as (g1 & subs1 & -> & Hinv1); [lia|].
    apply IH; [exact Hinv1|].
    rewrite (ready_inv_length _ _ _ Hinv1), <- (ready_inv_length _ _ _ Hinv). lia.
Qed.

(** When the loop is over, the group being filled is the last group. *)
Lemma ready_inv_done g subs :
  ready_inv R subs0 (length subs) g subs ->
  grouped R subs /\ Forall fresh subs
  /\ Permutation (List.map static subs) (List.map static subs0).
Proof.
  intros (gs & cur & todo & -> & Hs & Hne & Hu & Hgr & Hcur & Hgsz & Hle & Hfresh & Hperm).
  assert (todo = []) as ->.
  { rewrite !length_app in Hs. destruct todo; [reflexivity|cbn [length] in Hs; lia]. }
  rewrite app_nil_r in *.
  destruct (uniform_of_cur g cur Hne Hcur Hle) as (Hucur & _ & _).
  split; [|split; [exact Hfresh|exact Hperm]].
  exists (gs ++ [cur]). split; [|split].
  - rewrite concat_app. cbn. now rewrite app_nil_r.
  - apply Forall_app. split; [exact Hu|]. now constructor.
  - apply greedy_snoc; [now rewrite app_nil_r|]. right. constructor.
Qed.

Lemma group_subs_spec :
  exists subs',
    group_subs R chunkSteps subs0 = Some subs'
    /\ grouped R subs' /\ Forall fresh subs'
    /\ Permutation (List.map static subs') (List.map static subs0).
Proof.
  assert (Hcase : subs0 = [] \/ exists x todo, subs0 = x :: todo)
    by (destruct subs0; eauto).
  destruct Hcase as [E|(x & todo & E)].
  - exists []. rewrite E. split; [reflexivity|].
    split; [exists []; repeat split; constructor|]. split; constructor.
  - destruct (ready_iter_first x todo E) as (g1 & subs1 & Hrun & Hinv).
    destruct (ready_loop_inv (length subs0 - 1) 1 g1 subs1 Hinv) as (g' & subs' & Hloop & Hdone).
    { rewrite (ready_inv_length _ _ _ Hinv), E. cbn [length]. lia. }
    exists subs'. split; [|now apply (ready_inv_done g')].
    unfold group_subs.
    replace (length subs0) with (S (length subs0 - 1)) at 1 by (rewrite E; cbn [length]; lia).
    cbn [ready_loop]. now rewrite Hrun.
Qed.

End GroupingLoop.


End GroupFacts.

(** ** Receive progress: cursors *)

Module RecvFacts.
Import Proxy RecvProxy.
Local Open Scope exec_scope.

#[local] Arguments wrap64 : simpl never.
#[local] Arguments wrap32 : simpl never.
#[local] Arguments int32 : simpl never.

Ltac glocal_simpl :=
  cbn [group res mem op_idle op_done net
       set_group set_res set_mem set_op_idle set_op_done set_net] in *.

Ltac cursor_simpl :=
  cbn [connection Proxy.channelId nsteps nbytes groupSize base posted received transmitted
       done requests set_groupSize set_base set_posted set_received set_transmitted
       set_done set_requests] in *.

Lemma set_mem_eta l : set_mem l (mem l) = l.
Proof. now destruct l. Qed.

Lemma set_group_eta l : set_group l (group l) = l.
Proof. now destruct l. Qed.

(** *** The first loop over a group: what to receive *)

Lemma collect_lands comm sl p md n s : forall xs i c l,
  0 <= md <= 8 -> pointers_ok (res l) ->
  Forall (fun x => 0 <= nsteps x < 2 ^ 31 /\ 0 <= done x /\ done x <= posted x
                   /\ posted x < 2 ^ 32) xs ->
  exists oc m',
    collect comm sl p md n s i xs c l = (Next oc, set_mem l m')
    /\ forall c', oc = Some c' ->
         ptrs c' = ptrs c \/ exists x, x ∈ xs /\ posted x < nsteps x.
Proof.
  induction xs as [|x xs IH]; intros i c l Hmd Hp Hall; cbn [collect].
  - exists (Some c), (mem l). rewrite set_mem_eta. split; [reflexivity|].
    intros c' [= <-]. now left.
  - pose proof (Forall_inv Hall) as (Hn & Hd0 & Hdp & Hp32).
    pose proof (Forall_inv_tail Hall) as Hall'.
    assert (Hlater : forall oc c1,
              (forall c', oc = Some c' ->
                 ptrs c' = ptrs c1 \/ exists x, x ∈ xs /\ posted x < nsteps x) ->
              posted x < nsteps x \/ ptrs c1 = ptrs c ->
              forall c', oc = Some c' ->
                ptrs c' = ptrs c \/ exists y, y ∈ x :: xs /\ posted y < nsteps y).
    { intros oc c1 Hoc Hx c' E. destruct (Hoc c' E) as [Hs|(y & Hy & Hlt)].
      - destruct Hx as [Hx|Hx]; [right; exists x; split; [left|exact Hx]|left; congruence].
      - right. exists y. split; [now right|exact Hlt]. }
    rewrite (wrap64_small (nsteps x)) by lia.
    destruct (Z.ltb_spec (posted x) (nsteps x)) as [Hlt|Hge].
    + rewrite (wrap64_small (done x + md)) by lia.
      destruct (Z.leb_spec (done x + md) (posted x)) as [Hfull|Hcredit].
      * exists None, (mem l). rewrite set_mem_eta. split; [reflexivity|]. discriminate.
      * cbv beta iota zeta delta [bind get ret modify store_offsFifo undef].
        destruct ((p =? NCCL_PROTO_SIMPLE) && negb (shared (res l (connection x)) =? 0)).
        -- assert (Hmd0 : wrap64 md <> 0) by (rewrite wrap64_small by lia; lia).
           destruct (Z.eqb_spec (wrap64 md) 0) as [E|_]; [contradiction|].
           destruct (Z.eqb_spec (recvMem (res l (connection x))) 0) as [E|_];
             [now apply (proj1 (Hp _)) in E|].
           match goal with
           | |- context [collect _ _ _ _ _ _ _ xs ?c1 ?l1] =>
               destruct (IH (i + 1) c1 l1 Hmd Hp Hall') as (oc & m' & Hrun & Hoc);
               rewrite Hrun
           end.
           exists oc, m'. split; [reflexivity|].
           eapply Hlater; [exact Hoc|left; exact Hlt].
        -- match goal with
           | |- context [collect _ _ _ _ _ _ _ xs ?c1 ?l1] =>
               destruct (IH (i + 1) c1 l1 Hmd Hp Hall') as (oc & m' & Hrun & Hoc);
               rewrite Hrun
           end.
           exists oc, m'. split; [reflexivity|].
           eapply Hlater; [exact Hoc|left; exact Hlt].
    + destruct (IH (i + 1) c l Hmd Hp Hall') as (oc & m' & Hrun & Hoc).
      rewrite Hrun. exists oc, m'. split; [reflexivity|].
      eapply Hlater; [exact Hoc|right; reflexivity].
Qed.

(** *** Groups move together *)

Lemma cursors_all_trans (g1 g2 g3 : list ncclProxySubArgs) :
  Forall2 cursors_le g1 g2 -> Forall2 cursors_le g2 g3 -> Forall2 cursors_le g1 g3.
Proof.
  intros H. revert g3. induction H; intros g3 H3; inversion H3; subst; constructor;
    eauto using SendFacts.cursors_le_trans.
Qed.

Lemma group_map_ok sl (f : ncclProxySubArgs -> ncclProxySubArgs) h t :
  recv_group_ok sl (h :: t) ->
  (forall x, recv_sub_ok sl x -> lockstep h x ->
     recv_sub_ok sl (f x) /\ lockstep (f h) (f x)
     /\ groupSize (f x) = groupSize x /\ cursors_le x (f x)) ->
  recv_group_ok sl (List.map f (h :: t))
  /\ Forall2 cursors_le (h :: t) (List.map f (h :: t)).
Proof.
  intros Hg Hf. unfold recv_group_ok in *. cbn [List.map].
  change (f h :: List.map f t) with (List.map f (h :: t)).
  split.
  - apply Forall_map. rewrite length_map.
    eapply Forall_impl; [exact Hg|]. intros x (Hx & Hl & Hs).
    destruct (Hf x Hx Hl) as (H1 & H2 & H3 & _). cbn. rewrite H3. auto.
  - apply Forall2_fmap_r, Forall_Forall2_diag.
    eapply Forall_impl; [exact Hg|]. intros x (Hx & Hl & Hs).
    now destruct (Hf x Hx Hl) as (_ & _ & _ & H4).
Qed.

Lemma group_head_requests sl h rq t :
  recv_group_ok sl (h :: t) ->
  recv_group_ok sl (set_requests h rq :: t)
  /\ Forall2 cursors_le (h :: t) (set_requests h rq :: t).
Proof.
  intros Hg. unfold recv_group_ok in *. split.
  - constructor.
    + destruct (Forall_inv Hg) as (Hx & Hl & Hs).
      split; [exact Hx|split; [exact Hl|exact Hs]].
    + eapply Forall_impl; [exact (Forall_inv_tail Hg)|]. intros x (Hx & Hl & Hs).
      split; [exact Hx|split; [exact Hl|exact Hs]].
  - constructor; [unfold cursors_le; cursor_simpl; lia|apply SendFacts.cursors_all_refl].
Qed.

Lemma group_ok_head sl h t : recv_group_ok sl (h :: t) -> recv_sub_ok sl h.
Proof. intros Hg. exact (proj1 (Forall_inv Hg)). Qed.

(** Posting moves [posted] of every member; some member has steps
    left, so the cursor stays far from wrapping. *)
Lemma group_posted sl h t :
  0 < sl < 2 ^ 31 -> recv_group_ok sl (h :: t) -> posted h < 2 ^ 31 ->
  recv_group_ok sl (List.map (fun x => set_posted x (wrap64 (posted x + sl))) (h :: t))
  /\ Forall2 cursors_le (h :: t)
       (List.map (fun x => set_posted x (wrap64 (posted x + sl))) (h :: t)).
Proof.
  intros Hsl Hg Hp. apply group_map_ok; [exact Hg|].
  intros x (Hn & H0 & H1 & H2 & H3 & H4 & D1 & D2 & D3 & D4) (L1 & L2 & L3).
  pose proof (group_ok_head _ _ _ Hg) as (_ & _ & _ & _ & _ & Hh & _).
  unfold recv_sub_ok, lockstep, cursors_le. cursor_simpl.
  rewrite !wrap64_small by lia.
  repeat split; auto using divide_advance; lia.
Qed.

Lemma group_received sl h t :
  0 < sl < 2 ^ 31 -> recv_group_ok sl (h :: t) -> received h < posted h ->
  recv_group_ok sl (List.map (fun x => set_received x (wrap64 (received x + sl))) (h :: t))
  /\ Forall2 cursors_le (h :: t)
       (List.map (fun x => set_received x (wrap64 (received x + sl))) (h :: t)).
Proof.
  intros Hsl Hg Hp. apply group_map_ok; [exact Hg|].
  intros x (Hn & H0 & H1 & H2 & H3 & H4 & D1 & D2 & D3 & D4) (L1 & L2 & L3).
  assert (Hlt : received x < posted x) by lia.
  pose proof (advance_le sl _ _ (proj1 Hsl) D3 D4 Hlt).
  unfold recv_sub_ok, lockstep, cursors_le. cursor_simpl.
  rewrite !wrap64_small by lia.
  repeat split; auto using divide_advance; lia.
Qed.

Lemma group_ok_bounds sl (g : list ncclProxySubArgs) :
  recv_group_ok sl g ->
  Forall (fun x => 0 <= nsteps x < 2 ^ 31 /\ 0 <= done x /\ done x <= posted x
                   /\ posted x < 2 ^ 32) g.
Proof.
  destruct g as [|h t]; [contradiction|]. intros Hg.
  eapply Forall_impl; [exact Hg|].
  intros x ((Hn & H0 & H1 & H2 & H3 & H4 & _) & _). repeat split; lia.
Qed.

(** *** The four passes over a group *)

Lemma recv_post_lands comm env sl p md n s l :
  0 < sl < 2 ^ 31 -> 0 <= md <= 8 ->
  recv_group_ok sl (group l) -> pointers_ok (res l) ->
  lands (recv_post comm env sl p md n s l) (body_post sl l).
Proof.
  intros Hsl Hmd Hg Hp.
  destruct (collect_lands comm sl p md n s (group l) 0 no_posting l Hmd Hp
              (group_ok_bounds _ _ Hg)) as (oc & m' & Hrun & Hoc).
  assert (Hsame : forall l', group l' = group l -> res l' = res l -> body_post sl l l').
  { intros l' E1 E2. unfold body_post. rewrite E1, E2.
    auto using SendFacts.cursors_all_refl. }
  unfold recv_post. cbv beta iota zeta delta [bind get]. rewrite Hrun. cbv beta iota.
  destruct oc as [c|]; [|now apply Hsame].
  destruct (Z.eqb_spec (subCount c) 0) as [E0|Hne]; cbn [negb when]; [now apply Hsame|].
  destruct (group l) as [|h t] eqn:Eg; [contradiction|].
  assert (Hph : posted h < 2 ^ 31).
  { destruct (Hoc c eq_refl) as [E|(x & Hx & Hlt)].
    - unfold subCount in Hne. rewrite E in Hne. now cbn in Hne.
    - pose proof (proj1 (Forall_forall _ _) Hg x Hx) as ((Hn & _) & (L1 & _) & _). lia. }
  cbv beta iota zeta delta [get_head bind get ret emit modify NCCLCHECK upd_head upd_group
                            when exit].
  glocal_simpl. rewrite Eg.
  destruct (group_head_requests sl h
              (upd (requests h) (request_slot (posted h)) (snd (irecv env))) t Hg)
    as [Hg1 Hle1].
  destruct (fst (irecv env)); cbv beta iota; glocal_simpl;
    try (apply Hsame; glocal_simpl; auto; fail).
  rewrite Eg. cbv beta iota.
  destruct (snd (irecv env) =? 0); cbn [negb]; cbv beta iota; glocal_simpl.
  - cbv beta iota delta [lands body_post ret]. glocal_simpl. rewrite ?Eg. auto.
  - cbv beta iota delta [lands body_post ret]. glocal_simpl. rewrite ?Eg.
    destruct (group_posted sl _ t Hsl Hg1 Hph) as [Hg2 Hle2].
    split; [exact Hg2|]. split; [|exact Hp].
    eapply cursors_all_trans; [exact Hle1|exact Hle2].
Qed.

Ltac group_same Eg Hg Hp :=
  cbv beta iota delta [lands body_post ret]; glocal_simpl; rewrite ?Eg;
  (split; [exact Hg|split; [apply SendFacts.cursors_all_refl|exact Hp]]).

Lemma recv_test_lands env x86 sl p l :
  0 < sl < 2 ^ 31 ->
  recv_group_ok sl (group l) -> pointers_ok (res l) ->
  lands (recv_test env x86 sl p l) (body_post sl l).
Proof.
  intros Hsl Hg Hp.
  destruct (group l) as [|h t] eqn:Eg; [contradiction|].
  unfold recv_test.
  cbv beta iota zeta delta [get_head bind get ret]. rewrite Eg. cbv beta iota.
  destruct (Z.ltb_spec (received h) (posted h)) as [Hlt|Hge]; cbn [when];
    [|group_same Eg Hg Hp].
  destruct (group_received sl h t Hsl Hg Hlt) as [Hg1 Hle1]. cbn [List.map] in Hg1, Hle1.
  set (f := fun x => set_received x (wrap64 (received x + sl))) in *.
  assert (Hrq : forall rq, recv_group_ok sl (set_requests (f h) rq :: List.map f t)
                           /\ Forall2 cursors_le (h :: t)
                                (set_requests (f h) rq :: List.map f t)).
  { intros rq. destruct (group_head_requests sl (f h) rq _ Hg1) as [Hg2 Hle2].
    split; [exact Hg2|]. eapply cursors_all_trans; [exact Hle1|exact Hle2]. }
  assert (Hrq2 : forall rq rq', recv_group_ok sl
                   (set_requests (set_requests (f h) rq) rq' :: List.map f t)
                 /\ Forall2 cursors_le (h :: t)
                      (set_requests (set_requests (f h) rq) rq' :: List.map f t)).
  { intros rq rq'. destruct (Hrq rq) as [Hg2 Hle2].
    destruct (group_head_requests sl _ rq' _ Hg2) as [Hg3 Hle3].
    split; [exact Hg3|]. eapply cursors_all_trans; [exact Hle2|exact Hle3]. }
  cbv beta iota zeta delta [bind get ret emit modify NCCLCHECK upd_head upd_group
                            when exit].
  destruct (fst (test_recv env)); cbv beta iota; glocal_simpl; try (group_same Eg Hg Hp; fail).
  destruct (fst (snd (test_recv env)) =? 0); cbn [negb]; cbv beta iota; glocal_simpl;
    [group_same Eg Hg Hp|].
  rewrite Eg. cbn [List.map]. fold f.
  match goal with
  | |- context [if ?c then _ else _] => destruct c
  end; cbv beta iota; glocal_simpl.
  - destruct (negb (gdcFlush (res l (connection h)) =? 0)).
    + destruct x86; cbv beta iota; glocal_simpl;
        cbv beta iota delta [lands body_post ret]; glocal_simpl; rewrite ?Eg;
        (split; [apply Hrq|split; [apply Hrq|exact Hp]]).
    + cbv beta iota. glocal_simpl.
      destruct (fst (iflush env)); cbv beta iota; glocal_simpl;
        cbv beta iota delta [lands body_post ret]; glocal_simpl; rewrite ?Eg;
        first [ split; [apply Hrq2|split; [apply Hrq2|exact Hp]]
              | split; [apply Hrq|split; [apply Hrq|exact Hp]] ].
  - cbv beta iota delta [lands body_post ret]; glocal_simpl; rewrite ?Eg.
    split; [apply Hrq|split; [apply Hrq|exact Hp]].
Qed.

Lemma group_transmitted sl h t :
  0 < sl < 2 ^ 31 -> recv_group_ok sl (h :: t) -> transmitted h < received h ->
  recv_group_ok sl
    (List.map (fun x => set_transmitted x (wrap64 (transmitted x + sl))) (h :: t))
  /\ Forall2 cursors_le (h :: t)
       (List.map (fun x => set_transmitted x (wrap64 (transmitted x + sl))) (h :: t)).
Proof.
  intros Hsl Hg Hp. apply group_map_ok; [exact Hg|].
  intros x (Hn & H0 & H1 & H2 & H3 & H4 & D1 & D2 & D3 & D4) (L1 & L2 & L3).
  assert (Hlt : transmitted x < received x) by lia.
  pose proof (advance_le sl _ _ (proj1 Hsl) D2 D3 Hlt).
  unfold recv_sub_ok, lockstep, cursors_le. cursor_simpl.
  rewrite !wrap64_small by lia.
  repeat split; auto using divide_advance; lia.
Qed.

(** The loop of the third pass over the members of a group. *)
Lemma commit_members sl step : forall xs i l,
  pointers_ok (res l) ->
  exists m',
    map_members_from
      (fun _ x =>
         let x' := set_transmitted x (wrap64 (transmitted x + sl)) in
         when (step <? wrap64 (nsteps x'))
           (let* l := get in
            store_recvTail (res l (connection x')) (wrap64 (base x' + transmitted x'))) ;;
         ret x') i xs l
    = (Next (List.map (fun x => set_transmitted x (wrap64 (transmitted x + sl))) xs),
       set_mem l m').
Proof.
  cbv zeta. set (f := fun (_ : Z) (x : ncclProxySubArgs) => _).
  induction xs as [|x xs IH]; intros i l Hp; cbn [map_members_from List.map].
  - exists (mem l). now rewrite set_mem_eta.
  - assert (Hfx : exists m1,
              f i x l = (Next (set_transmitted x (wrap64 (transmitted x + sl))),
                         set_mem l m1)).
    { unfold f. cbv beta iota zeta delta [bind get ret when store_recvTail modify undef].
      destruct (step <? wrap64 _); cbv beta iota.
      - destruct (negb (gdcSync _ =? 0)); cbv beta iota; [eexists; reflexivity|].
        cursor_simpl.
        destruct (Z.eqb_spec (recvMem (res l (connection x))) 0) as [E|_];
          [now apply (proj1 (Hp _)) in E|].
        eexists; reflexivity.
      - exists (mem l). now rewrite set_mem_eta. }
    destruct Hfx as (m1 & Hfx). unfold bind at 1. rewrite Hfx.
    unfold bind. destruct (IH (i + 1) (set_mem l m1) Hp) as (m' & ->).
    now exists m'.
Qed.

Lemma commit_group sl step l :
  pointers_ok (res l) ->
  exists m',
    map_members
      (fun _ x =>
         let x' := set_transmitted x (wrap64 (transmitted x + sl)) in
         when (step <? wrap64 (nsteps x'))
           (let* l := get in
            store_recvTail (res l (connection x')) (wrap64 (base x' + transmitted x'))) ;;
         ret x') l
    = (Next tt,
       set_group (set_mem l m')
         (List.map (fun x => set_transmitted x (wrap64 (transmitted x + sl))) (group l))).
Proof.
  intros Hp. destruct (commit_members sl step (group l) 0 l Hp) as (m' & Hrun).
  exists m'. unfold map_members. cbv zeta in *.
  set (f := fun (_ : Z) (x : ncclProxySubArgs) => _) in *.
  unfold bind, get. rewrite Hrun. reflexivity.
Qed.

Lemma recv_commit_lands env sl l :
  0 < sl < 2 ^ 31 ->
  recv_group_ok sl (group l) -> pointers_ok (res l) ->
  lands (recv_commit env sl l) (body_post sl l).
Proof.
  intros Hsl Hg Hp.
  destruct (group l) as [|h t] eqn:Eg; [contradiction|].
  unfold recv_commit.
  cbv beta iota zeta delta [get_head bind get ret]. rewrite Eg. cbv beta iota.
  destruct (Z.ltb_spec (transmitted h) (received h)) as [Hlt|Hge]; cbn [when];
    [|group_same Eg Hg Hp].
  destruct (group_transmitted sl h t Hsl Hg Hlt) as [Hg1 Hle1].
  assert (Hmove : forall f l1,
            group l1 = h :: t -> res l1 = res l ->
            (forall m', (Next tt,
                         set_group (set_mem l1 m')
                           (List.map (fun x => set_transmitted x
                                                 (wrap64 (transmitted x + sl)))
                                     (group l1)))
                        = map_members f l1 ->
               lands ((map_members f ;; modify (fun l => set_op_idle l 0)) l1)
                     (body_post sl l))).
  { intros f l1 E1 E2 m' Hrun. unfold bind. rewrite <- Hrun.
    cbv beta iota zeta delta [lands body_post modify]. glocal_simpl.
    rewrite E1, E2, ?Eg. auto. }
  cbv beta iota zeta delta [bind get ret emit modify NCCLCHECK when exit].
  destruct (negb (requests h (request_slot (transmitted h)) =? 0)); cbv beta iota.
  - destruct (fst (test_flush env)); cbv beta iota; glocal_simpl;
      try (group_same Eg Hg Hp).
    destruct (snd (test_flush env) =? 0); cbn [negb]; cbv beta iota;
      [group_same Eg Hg Hp|].
    match goal with
    | |- context [map_members ?f ?l1] =>
        destruct (commit_group sl (transmitted h) l1 Hp) as (m' & Hrun);
        apply (Hmove f l1 Eg eq_refl m'); symmetry; exact Hrun
    end.
  - change (negb (1 =? 0)) with true. cbv beta iota.
    match goal with
    | |- context [map_members ?f ?l1] =>
        destruct (commit_group sl (transmitted h) l1 Hp) as (m' & Hrun);
        apply (Hmove f l1 Eg eq_refl m'); symmetry; exact Hrun
    end.
Qed.

(** *** The fourth pass: credits the compute engine has consumed *)

Lemma released_refl sl x : recv_sub_ok sl x -> released sl x x.
Proof.
  intros H. split; [exact H|]. unfold lockstep, cursors_le. repeat split; lia.
Qed.

(** The while loop ends within the fuel it is given. *)
Lemma release_loop_some sl hd : forall fuel x,
  0 < sl < 2 ^ 31 -> recv_sub_ok sl x ->
  transmitted x - done x < Z.of_nat fuel ->
  exists x' ran c,
    release_loop fuel sl hd x = Some (x', ran, c) /\ released sl x x'.
Proof.
  induction fuel as [|fuel IH]; intros x Hsl Hx Hfuel.
  - destruct Hx as (Hn & H0 & H1 & _). lia.
  - cbn [release_loop].
    destruct ((wrap64 (base x + done x) <? hd) && (done x <? transmitted x)) eqn:Hc.
    + apply andb_true_iff in Hc as [_ Hlt]. apply Z.ltb_lt in Hlt.
      pose proof Hx as (Hn & H0 & H1 & H2 & H3 & H4 & D1 & D2 & D3 & D4).
      pose proof (advance_le sl _ _ (proj1 Hsl) D1 D2 Hlt) as Hadv.
      set (x1 := set_done x (wrap64 (done x + sl))).
      assert (Hx1 : released sl x x1).
      { unfold released, recv_sub_ok, lockstep, cursors_le, x1. cursor_simpl.
        rewrite !wrap64_small by lia.
        repeat split; auto using divide_advance; lia. }
      destruct (done x1 =? wrap64 (nsteps x1)); [now exists x1, true, true|].
      destruct (IH x1 Hsl (proj1 Hx1)) as (x' & ran & c & -> & Hx').
      { unfold x1. cursor_simpl. rewrite wrap64_small by lia. lia. }
      exists x', true, c. split; [reflexivity|].
      destruct Hx1 as (_ & (L1 & L2 & L3) & G1 & C1).
      destruct Hx' as (Hok & (L1' & L2' & L3') & G2 & C2).
      split; [exact Hok|]. split; [|split].
      * unfold lockstep. repeat split; congruence.
      * congruence.
      * eapply SendFacts.cursors_le_trans; eauto.
    + exists x, false, false. split; [reflexivity|]. now apply released_refl.
Qed.

Lemma pointers_set_step R c v :
  pointers_ok R -> pointers_ok (upd R c (set_step (R c) v)).
Proof.
  intros H c'. unfold upd. destruct (c' =? c); [apply (H c)|apply (H c')].
Qed.

Lemma release_members sl : forall xs i l,
  0 < sl < 2 ^ 31 -> pointers_ok (res l) -> Forall (recv_sub_ok sl) xs ->
  exists xs' l',
    map_members_from
      (fun _ x =>
         if done x =? wrap64 (nsteps x) then ret x
         else if done x <? transmitted x then
           let* l := get in
           let r := res l (connection x) in
           if sendMem r =? 0 then undef
           else
             let hd := Staging.head (Staging.sendMems (mem l) (sendMem r)) in
             match release_loop (S (Z.to_nat (transmitted x))) sl hd x with
             | None => undef
             | Some (x', ran, complete) =>
                 when ran (modify (fun l => set_op_idle l 0)) ;;
                 when complete
                   (modify (fun l => set_res l
                              (upd (res l) (connection x')
                                   (set_step (res l (connection x'))
                                             (wrap64 (base x' + nsteps x'))))) ;;
                    modify (fun l => set_op_done l (int32 (op_done l + 1)))) ;;
                 ret x'
             end
         else ret x) i xs l = (Next xs', l')
    /\ Forall2 (released sl) xs xs' /\ group l' = group l /\ pointers_ok (res l').
Proof.
  set (f := fun (_ : Z) (x : ncclProxySubArgs) => _).
  induction xs as [|x xs IH]; intros i l Hsl Hp Hall; cbn [map_members_from].
  - exists [], l. split; [reflexivity|]. split; [constructor|]. split; [reflexivity|exact Hp].
  - pose proof (Forall_inv Hall) as Hx. pose proof (Forall_inv_tail Hall) as Hall'.
    assert (Hfx : exists x' l1,
              f i x l = (Next x', l1) /\ released sl x x'
              /\ group l1 = group l /\ pointers_ok (res l1)).
    { unfold f.
      destruct (done x =? wrap64 (nsteps x));
        [exists x, l; auto using released_refl|].
      destruct (done x <? transmitted x);
        [|exists x, l; auto using released_refl].
      cbv beta iota zeta delta [bind get].
      destruct (Z.eqb_spec (sendMem (res l (connection x))) 0) as [E|_];
        [now apply (proj2 (Hp _)) in E|].
      destruct (release_loop_some sl
                  (Staging.head (Staging.sendMems (mem l) (sendMem (res l (connection x)))))
                  (S (Z.to_nat (transmitted x))) x Hsl Hx)
        as (x' & ran & c & -> & Hx').
      { destruct Hx as (_ & H0 & _). lia. }
      cbv beta iota zeta delta [bind ret when modify].
      destruct ran, c; cbv beta iota; glocal_simpl;
        eexists _, _; (split; [reflexivity|]); glocal_simpl;
        auto using pointers_set_step. }
    destruct Hfx as (x' & l1 & Hfx & Hrel & Hg1 & Hp1).
    unfold bind at 1. rewrite Hfx.
    destruct (IH (i + 1) l1 Hsl Hp1 Hall') as (xs' & l' & Hrun & Hrel' & Hg' & Hp').
    unfold bind. rewrite Hrun. exists (x' :: xs'), l'.
    split; [reflexivity|]. split; [now constructor|]. split; [congruence|exact Hp'].
Qed.

(** Releasing keeps a group together: only [done] moved. *)
Lemma group_released sl (g g' : list ncclProxySubArgs) :
  recv_group_ok sl g -> Forall2 (released sl) g g' ->
  recv_group_ok sl g' /\ Forall2 cursors_le g g'.
Proof.
  intros Hg Hrel. split.
  - destruct Hrel as [|h h' t t' Hh Ht]; [contradiction|].
    unfold recv_group_ok in *.
    assert (Hlen : length (h' :: t') = length (h :: t))
      by (cbn; f_equal; symmetry; eapply Forall2_length; eauto).
    rewrite Hlen. clear Hlen.
    assert (Hall : Forall2 (released sl) (h :: t) (h' :: t')) by now constructor.
    destruct Hh as (_ & (P1 & P2 & P3) & _ & _).
    clear Ht. revert Hg. generalize (Z.of_nat (length (h :: t))). intros n Hg.
    induction Hall as [|x x' xs xs' Hx Hxs IH]; [constructor|].
    pose proof (Forall_inv Hg) as (_ & (L1 & L2 & L3) & Hs).
    destruct Hx as (Hok & (Q1 & Q2 & Q3) & Hgs & _).
    constructor; [|apply IH; exact (Forall_inv_tail Hg)].
    split; [exact Hok|]. split; [unfold lockstep; repeat split; congruence|congruence].
  - eapply Forall2_impl; [exact Hrel|]. now intros x x' (_ & _ & _ & H).
Qed.

Lemma recv_release_lands sl l :
  0 < sl < 2 ^ 31 ->
  recv_group_ok sl (group l) -> pointers_ok (res l) ->
  lands (recv_release sl l) (body_post sl l).
Proof.
  intros Hsl Hg Hp.
  assert (Hall : Forall (recv_sub_ok sl) (group l)).
  { destruct (group l) as [|h t]; [contradiction|].
    eapply Forall_impl; [exact Hg|]. now intros x (H & _). }
  destruct (release_members sl (group l) 0 l Hsl Hp Hall)
    as (xs' & l' & Hrun & Hrel & Hg' & Hp').
  unfold recv_release, map_members.
  set (f := fun (_ : Z) (x : ncclProxySubArgs) => _) in *.
  unfold bind, get. rewrite Hrun.
  cbv beta iota zeta delta [lands body_post upd_group modify]. glocal_simpl.
  destruct (group_released sl _ _ Hg Hrel) as [Hok Hle]. auto.
Qed.

(** *** A loop over the groups *)

Lemma same_op_refl st : same_op st st.
Proof. repeat split. Qed.

Lemma same_op_trans st1 st2 st3 : same_op st1 st2 -> same_op st2 st3 -> same_op st1 st3.
Proof. unfold same_op. intuition congruence. Qed.

Section GroupLoop.
Variable G : list ncclProxySubArgs -> Prop.
Variable Rg : list ncclProxySubArgs -> list ncclProxySubArgs -> Prop.
Variable K : glocal -> Prop.
Variable X : ncclResult_t -> Prop.
Hypothesis G_head : forall g,
  G g -> exists h t, g = h :: t /\ groupSize h = Z.of_nat (length g).
Hypothesis Rg_refl : forall g, Rg g g.
Hypothesis Rg_length : forall g g', Rg g g' -> length g = length g'.
Hypothesis K_group : forall l g, K l -> K (set_group l g).
Variable body : nat -> M glocal unit.
Hypothesis body_lands : forall s l,
  G (group l) -> K l ->
  lands_with (body s l) (fun l' => G (group l') /\ Rg (group l) (group l') /\ K l') X.

Lemma on_group_lands pre g post st :
  subs (args st) = pre ++ g ++ post -> G g -> K (group_view st []) ->
  lands_with (on_group (length pre) (length g) (body (length pre)) st)
    (fun st' => exists g',
       subs (args st') = pre ++ g' ++ post /\ G g' /\ Rg g g'
       /\ K (group_view st' []) /\ same_op st st')
    X.
Proof.
  intros Hsubs Hg Hk. unfold on_group. rewrite Hsubs.
  rewrite drop_app_length, take_app_length.
  replace (take (length pre) (pre ++ g ++ post)) with pre by (now rewrite take_app_length).
  replace (drop (length pre + length g) (pre ++ g ++ post)) with post
    by (rewrite app_assoc, <- length_app; now rewrite drop_app_length).
  assert (Hl : K (group_view st g)) by (apply (K_group _ g) in Hk; exact Hk).
  pose proof (body_lands (length pre) (group_view st g) Hg Hl) as Hb.
  unfold group_view in Hb.
  destruct (body (length pre)
              (mkGlocal g (resources st) (mem_of st) (idle (args st))
                        (args_done (args st)) (net_of st))) as [o l'].
  assert (Hpost : G (group l') /\ Rg g (group l') /\ K l' ->
            exists g',
              pre ++ group l' ++ post = pre ++ g' ++ post /\ G g' /\ Rg g g'
              /\ K (set_group l' []) /\ same_op st st).
  { intros (H1 & H2 & H3). exists (group l').
    split; [reflexivity|]. split; [exact H1|]. split; [exact H2|].
    split; [now apply K_group|apply same_op_refl]. }
  destruct o as [[]|r|]; cbn in Hb |- *; [now apply Hpost| |exact Hb].
  destruct Hb as [Hb Hr]. split; [now apply Hpost|exact Hr].
Qed.

Lemma group_loop_lands : forall todo fuel pre st,
  subs (args st) = pre ++ concat todo -> Forall G todo -> K (group_view st []) ->
  (length todo < fuel)%nat ->
  lands_with (group_loop fuel (length pre) body st)
    (fun st' => exists todo',
       subs (args st') = pre ++ concat todo' /\ Forall2 Rg todo todo'
       /\ Forall G todo' /\ K (group_view st' []) /\ same_op st st')
    X.
Proof.
  induction todo as [|g todo IH]; intros fuel pre st Hsubs HG HK Hfuel;
    (destruct fuel as [|fuel]; [cbn in Hfuel; lia|]); cbn [group_loop];
    unfold bind at 1, get at 1.
  - cbn [concat] in Hsubs. rewrite app_nil_r in Hsubs.
    rewrite lookup_ge_None_2 by (rewrite Hsubs; lia).
    exists []. cbn [concat]. rewrite app_nil_r.
    split; [exact Hsubs|]. split; [constructor|]. split; [constructor|].
    split; [exact HK|apply same_op_refl].
  - pose proof (Forall_inv HG) as Hg. pose proof (Forall_inv_tail HG) as HG'.
    destruct (G_head g Hg) as (h & t & Eg & Hsize).
    cbn [concat] in Hsubs.
    assert (Hlook : subs (args st) !! length pre = Some h).
    { rewrite Hsubs, Eg. cbn [app]. now rewrite list_lookup_middle. }
    rewrite Hlook.
    assert (Hpos : 0 < groupSize h) by (rewrite Hsize, Eg; cbn [length]; lia).
    destruct (Z.leb_spec (groupSize h) 0) as [Hle|_]; [lia|].
    destruct (Z.ltb_spec (Z.of_nat (length (subs (args st))))
                (Z.of_nat (length pre) + groupSize h)) as [Hlt|_].
    { rewrite Hsubs, !length_app, Hsize in Hlt. lia. }
    rewrite Hsize, Nat2Z.id.
    pose proof (on_group_lands pre g (concat todo) st Hsubs Hg HK) as Hon.
    unfold bind.
    destruct (on_group (length pre) (length g) (body (length pre)) st) as [o st1].
    assert (Hrefl : Forall2 Rg todo todo) by (clear -Rg_refl; induction todo; constructor; auto).
    destruct o as [[]|r|]; cbn [lands_with] in Hon; [| |exact Hon].
    + destruct Hon as (g' & Hsubs1 & Hg' & Hrel & HK1 & Hsame1).
      rewrite (Rg_length _ _ Hrel), <- length_app.
      rewrite app_assoc in Hsubs1.
      pose proof (IH fuel (pre ++ g') st1 Hsubs1 HG' HK1 ltac:(cbn in Hfuel; lia)) as Hrest.
      eapply lands_with_impl; [exact Hrest| |auto].
      intros st' (todo' & Hs' & Hrel' & HG2 & HK2 & Hsame2).
      exists (g' :: todo'). cbn [concat]. rewrite app_assoc.
      split; [exact Hs'|]. split; [now constructor|]. split; [now constructor|].
      split; [exact HK2|exact (same_op_trans _ _ _ Hsame1 Hsame2)].
    + destruct Hon as ((g' & Hsubs1 & Hg' & Hrel & HK1 & Hsame1) & Hr).
      split; [|exact Hr].
      exists (g' :: todo). cbn [concat].
      split; [exact Hsubs1|]. split; [now constructor|].
      split; [now constructor|]. split; [exact HK1|exact Hsame1].
Qed.

End GroupLoop.

(** *** A progress call *)

Lemma concat_length_le {A} (gs : list (list A)) :
  Forall (fun g => g <> []) gs -> (length gs <= length (concat gs))%nat.
Proof.
  induction 1 as [|g gs Hg _ IH]; cbn [concat length]; [lia|].
  rewrite length_app. destruct g; [congruence|cbn [length]; lia].
Qed.

Lemma group_ok_nonempty sl (g : list ncclProxySubArgs) : recv_group_ok sl g -> g <> [].
Proof. destruct g; [contradiction|discriminate]. Qed.

Lemma group_ok_size sl (g : list ncclProxySubArgs) :
  recv_group_ok sl g ->
  exists h t, g = h :: t /\ groupSize h = Z.of_nat (length g).
Proof.
  destruct g as [|h t]; [contradiction|]. intros Hg. exists h, t.
  split; [reflexivity|]. exact (proj2 (proj2 (Forall_inv Hg))).
Qed.

Lemma Forall2_concat_groups {A} (P : A -> A -> Prop) (gs gs' : list (list A)) :
  Forall2 (Forall2 P) gs gs' -> Forall2 P (concat gs) (concat gs').
Proof. induction 1; cbn [concat]; [constructor|now apply Forall2_app]. Qed.

(** A pass over the groups keeps the op in order. *)
Lemma pass_lands (body : nat -> M glocal unit) st0 st :
  (forall s l,
     recv_group_ok (sliceSteps (args st0)) (group l) -> pointers_ok (res l) ->
     lands (body s l) (body_post (sliceSteps (args st0)) l)) ->
  recv_mid st0 st ->
  lands (group_loop (S (length (subs (args st0)))) 0 body st) (recv_mid st0).
Proof.
  intros Hbody ((Hsl & Hne & Hp & gs & Hsubs & Hgs) & Hle & Hsame).
  assert (Esl : sliceSteps (args st) = sliceSteps (args st0)) by apply Hsame.
  rewrite Esl in Hgs, Hsl.
  pose proof (group_loop_lands
                (recv_group_ok (sliceSteps (args st0))) (Forall2 cursors_le)
                (fun l => pointers_ok (res l)) (fun _ => True)
                (group_ok_size _) SendFacts.cursors_all_refl
                (fun g g' H => Forall2_length _ g g' H)
                (fun l g H => H) body
                (fun s l Hg Hl => lands_with_any _ _ (Hbody s l Hg Hl))
                gs (S (length (subs (args st0)))) [] st Hsubs Hgs Hp) as Hloop.
  assert (Hfuel : (length gs < S (length (subs (args st0))))%nat).
  { pose proof (Forall2_length _ _ _ Hle) as Hlen. rewrite Hlen, Hsubs.
    assert (Hne' : Forall (fun g : list ncclProxySubArgs => g <> []) gs)
      by (eapply Forall_impl; [exact Hgs|apply group_ok_nonempty]).
    pose proof (concat_length_le gs Hne'). lia. }
  specialize (Hloop Hfuel). cbn [length] in Hloop.
  apply lands_with_lands in Hloop.
  eapply lands_impl; [exact Hloop|].
  - intros st' (gs' & Hsubs' & Hrel & Hgs' & Hp' & Hsame').
    cbn [app] in Hsubs'.
    assert (Hle' : Forall2 cursors_le (subs (args st)) (subs (args st'))).
    { rewrite Hsubs, Hsubs'. now apply Forall2_concat_groups. }
    assert (Esl' : sliceSteps (args st') = sliceSteps (args st0))
      by (rewrite <- Esl; apply Hsame').
    split; [|split].
    + split; [now rewrite Esl'|]. split; [|split; [exact Hp'|]].
      * apply Forall2_length in Hle'. intros E. rewrite E in Hle'.
        destruct (subs (args st)); [congruence|discriminate].
      * exists gs'. rewrite Esl'. auto.
    + eapply cursors_all_trans; eauto.
    + eapply same_op_trans; eauto.
Qed.

Lemma recv_mid_refl st : recv_inv st -> recv_mid st st.
Proof. intros H. split; [exact H|]. split; [apply SendFacts.cursors_all_refl|apply same_op_refl]. Qed.

Lemma recv_mid_progressed st0 st : recv_mid st0 st -> recv_progressed st0 st.
Proof.
  intros (Hinv & Hle & Hsame). split; [exact Hinv|]. split.
  - split; [apply Hsame|exact Hle].
  - left. apply Hsame.
Qed.

Lemma mid_total st0 (m : M recvState unit) :
  (forall s, recv_mid st0 s -> lands (m s) (recv_mid st0)) ->
  total (recv_mid st0) m (fun _ => recv_mid st0) (fun _ => recv_progressed st0).
Proof.
  intros H. eapply total_conseq; [apply (lands_total _ _ _ H)|auto|auto|].
  intros r s. apply recv_mid_progressed.
Qed.

Lemma return_if_busy_total st0 :
  total (recv_mid st0) return_if_busy (fun _ => recv_mid st0)
        (fun _ => recv_progressed st0).
Proof.
  apply mid_total. intros s Hs. unfold return_if_busy, bind, get.
  destruct (idle (args s) =? 0); exact Hs.
Qed.

Lemma recv_progress_total comm x86 env st0 :
  recv_inv st0 ->
  total (fun st => st = st0) (recv_progress comm x86 env)
        (fun _ => recv_progressed st0) (fun _ => recv_progressed st0).
Proof.
  intros Hinv. pose proof Hinv as (Hsl & Hne & Hp & _).
  unfold recv_progress. apply total_get_bind. intros w ->. cbv zeta.
  assert (Hn : nsubs (args st0) <> 0).
  { unfold nsubs. destruct (subs (args st0)); [congruence|cbn; lia]. }
  assert (Hmd : 0 <= SendProxy.maxDepth_of (nsubs (args st0)) <= 8)
    by (apply maxDepth_range; unfold nsubs; lia).
  apply total_bind with (R := fun _ => recv_mid st0).
  { destruct (Z.eqb_spec (nsubs (args st0)) 0) as [E|_]; [contradiction|].
    apply total_ret. intros s ->. now apply recv_mid_refl. }
  intros []. apply total_bind with (R := fun _ => recv_mid st0).
  { apply mid_total. intros s Hs. apply pass_lands; [|exact Hs].
    intros k l Hg Hpl. now apply recv_post_lands. }
  intros []. apply total_bind with (R := fun _ => recv_mid st0);
    [apply return_if_busy_total|].
  intros []. apply total_bind with (R := fun _ => recv_mid st0).
  { apply mid_total. intros s Hs. apply pass_lands; [|exact Hs].
    intros k l Hg Hpl. now apply recv_test_lands. }
  intros []. apply total_bind with (R := fun _ => recv_mid st0);
    [apply return_if_busy_total|].
  intros []. apply total_bind with (R := fun _ => recv_mid st0).
  { apply mid_total. intros s Hs. apply pass_lands; [|exact Hs].
    intros k l Hg Hpl. now apply recv_commit_lands. }
  intros []. apply total_bind with (R := fun _ => recv_mid st0);
    [apply return_if_busy_total|].
  intros []. apply total_bind with (R := fun _ => recv_mid st0).
  { apply mid_total. intros s Hs. apply pass_lands; [|exact Hs].
    intros k l Hg Hpl. now apply recv_release_lands. }
  intros []. apply total_get_bind. intros w Hw.
  apply total_when.
  - intros _. apply total_modify. intros s ->.
    destruct Hw as (Hinv' & Hle & Hsame).
    split; [exact Hinv'|]. split; [split; [apply Hsame|exact Hle]|now right].
  - intros _ s ->. now apply recv_mid_progressed.
Qed.

Lemma recv_inv_idle st v : recv_inv st -> recv_inv (set_args st (set_idle (args st) v)).
Proof. auto. Qed.

(** The part of a call after the Ready block. *)
Lemma recv_tail_total comm x86 env st0 :
  recv_inv st0 -> state (args st0) <> ncclProxyOpReady ->
  total (fun st => st = st0)
    (upd_args (fun a => set_idle a 1) ;;
     let* st := get in
     when (is_state (state (args st)) ncclProxyOpProgress) (recv_progress comm x86 env) ;;
     (exit ncclSuccess : M recvState unit))
    (fun _ _ => False)
    (fun _ => recv_keeps (args st0)).
Proof.
  intros Hinv Hst.
  set (st1 := set_args st0 (set_idle (args st0) 1)).
  assert (Hkeep : forall s, recv_progressed st1 s -> recv_keeps (args st0) s).
  { intros s (Hi & Hadv & Hs). split; [exact Hi|]. split; [exact Hadv|].
    destruct Hs as [Hs|Hs]; rewrite Hs; [exact Hst|discriminate]. }
  apply total_bind with (R := fun _ s => s = st1).
  { apply total_modify. now intros s ->. }
  intros []. apply total_get_bind. intros w ->.
  apply total_bind with (R := fun _ => recv_keeps (args st0)).
  - apply total_when.
    + intros _. eapply total_conseq;
        [apply (recv_progress_total comm x86 env st1), recv_inv_idle, Hinv
        |auto|intros a s; apply Hkeep|intros r s; apply Hkeep].
    + intros _ s ->. apply Hkeep, recv_mid_progressed, recv_mid_refl, recv_inv_idle, Hinv.
  - intros []. apply total_exit. auto.
Qed.

(** A call of [recvProxyProgress] on an op past Ready whose cursors are
    in order returns, keeps them in order and only moves them
    forward. *)
Lemma recvProxyProgress_keeps comm x86 env st :
  state (args st) <> ncclProxyOpReady -> recv_inv st ->
  lands (recvProxyProgress comm x86 env st) (recv_keeps (args st)).
Proof.
  intros Hst Hinv.
  apply (total_lands (fun s => s = st)); [|reflexivity].
  unfold recvProxyProgress. apply total_get_bind. intros w ->.
  replace (is_state (state (args st)) ncclProxyOpReady) with false
    by (now destruct (state (args st))).
  cbn [when]. apply total_bind with (R := fun _ s => s = st).
  { apply total_ret. auto. }
  intros []. eapply total_conseq; [apply (recv_tail_total comm x86 env st Hinv Hst)|auto| |auto].
  intros a s [].
Qed.

(** What grouping hands to the progress block is an op in order. *)
Lemma static_nsteps (subs subs' : list ncclProxySubArgs) :
  Permutation (List.map static subs') (List.map static subs) ->
  Forall (fun x => 0 <= nsteps x < 2 ^ 31) subs ->
  Forall (fun x => 0 <= nsteps x < 2 ^ 31) subs'.
Proof.
  intros Hp Hall. apply Forall_forall. intros x Hx.
  assert (Hin : In (static x) (List.map static subs)).
  { eapply Permutation_in; [exact Hp|]. apply in_map. now apply list_elem_of_In. }
  apply in_map_iff in Hin as (x0 & Hst & Hx0). apply list_elem_of_In in Hx0.
  pose proof (proj1 (Forall_forall _ _) Hall x0 Hx0) as H0.
  assert (nsteps x0 = nsteps x) by (unfold static in Hst; congruence).
  cbv beta in *. lia.
Qed.

Lemma fresh_group_ok R sl (g : list ncclProxySubArgs) :
  uniform_group R g -> Forall fresh g ->
  Forall (fun x => 0 <= nsteps x < 2 ^ 31) g ->
  recv_group_ok sl g.
Proof.
  intros [Hne Hu] Hf Hn. destruct g as [|h t]; [congruence|].
  unfold recv_group_ok.
  pose proof (Forall_inv Hf) as (Fh1 & Fh2 & Fh3 & Fh4).
  apply Forall_forall. intros x Hx.
  pose proof (proj1 (Forall_forall _ _) Hu x Hx) as (Hs & _).
  pose proof (proj1 (Forall_forall _ _) Hf x Hx) as (F1 & F2 & F3 & F4).
  pose proof (proj1 (Forall_forall _ _) Hn x Hx) as Hnx.
  cbv beta in *. unfold recv_sub_ok, lockstep. rewrite F1, F2, F3, F4, Fh1, Fh2, Fh3.
  repeat split; auto using Z.divide_0_r; try lia.
Qed.

Lemma grouped_groups_ok R sl (subs : list ncclProxySubArgs) :
  grouped R subs -> Forall fresh subs ->
  Forall (fun x => 0 <= nsteps x < 2 ^ 31) subs ->
  exists gs, subs = concat gs /\ Forall (recv_group_ok sl) gs.
Proof.
  intros (gs & -> & Hu & _) Hf Hn. exists gs. split; [reflexivity|].
  induction Hu as [|g gs Hg Hgs IH]; [constructor|].
  cbn [concat] in Hf, Hn. apply Forall_app in Hf as [Hf1 Hf2].
  apply Forall_app in Hn as [Hn1 Hn2].
  constructor; [now apply (fresh_group_ok R)|now apply IH].
Qed.

(** A call of [recvProxyProgress] on a well-formed op in Ready returns
    and leaves its cursors in order. *)
Lemma recvProxyProgress_ready comm x86 env mr st :
  state (args st) = ncclProxyOpReady -> wf_recv mr st ->
  lands (recvProxyProgress comm x86 env st)
        (fun st' => recv_inv st' /\ state (args st') <> ncclProxyOpReady
                    /\ sliceSteps (args st') = sliceSteps (args st)
                    /\ length (subs (args st')) = length (subs (args st))).
Proof.
  intros Hst ((Hsl & Hn) & Hne & Hlen & Hch & Hwf & Hp).
  destruct (GroupFacts.group_subs_spec (resources st) (chunkSteps (args st)) mr
              (subs (args st)) Hch Hwf Hlen) as (subs' & Hrun & Hgr & Hfresh & Hperm).
  set (st1 := set_args st (set_state (set_subs (args st) subs') ncclProxyOpProgress)).
  assert (Hinv1 : recv_inv st1).
  { split; [exact Hsl|]. split; [|split; [exact Hp|]].
    - cbn. intros E. rewrite E in Hperm. apply Permutation_length in Hperm.
      rewrite length_map in Hperm. destruct (subs (args st)); [congruence|discriminate].
    - cbn. apply (grouped_groups_ok (resources st)); auto.
      now apply (static_nsteps (subs (args st))). }
  apply (total_lands (fun s => s = st)); [|reflexivity].
  unfold recvProxyProgress. apply total_get_bind. intros w ->.
  rewrite Hst. cbn [is_state when].
  apply total_bind with (R := fun _ s => s = st1).
  { unfold recv_ready. apply total_get_bind. intros w ->. cbv zeta. rewrite Hrun.
    apply total_modify. now intros s ->. }
  intros []. eapply total_conseq;
    [apply (recv_tail_total comm x86 env st1 Hinv1); discriminate|auto| |].
  - intros a s [].
  - intros r s (Hi & (E1 & E2) & Hs). apply Forall2_length in E2.
    apply Permutation_length in Hperm. rewrite !length_map in Hperm.
    split; [exact Hi|]. split; [exact Hs|]. split; [exact E1|].
    rewrite <- E2. exact Hperm.
Qed.

(** Any number of calls. *)
Lemma recv_calls_kept comm x86 : forall envs st,
  recv_inv st -> state (args st) <> ncclProxyOpReady ->
  lands (recv_calls comm x86 envs st) (recv_keeps (args st)).
Proof.
  induction envs as [|env envs IH]; intros st Hok Hst; cbn [recv_calls].
  - split; [exact Hok|]. split; [apply SendFacts.advanced_refl|exact Hst].
  - pose proof (recvProxyProgress_keeps comm x86 env st Hst Hok) as H.
    destruct (recvProxyProgress comm x86 env st) as [[a|r|] st']; cbn [lands] in H |- *;
      [exact H| |exact H].
    destruct r; try exact H.
    destruct envs as [|env' envs']; [exact H|].
    destruct H as (Hok' & Hadv & Hst').
    eapply lands_impl; [apply (IH st' Hok' Hst')|].
    intros s (H1 & H2 & H3). split; [exact H1|]. split; [|exact H3].
    eapply SendFacts.advanced_trans; eauto.
Qed.

End RecvFacts.

(** ** The gate of the send side *)

Module GateFacts.
Import Proxy SendProxy.

#[local] Arguments wrap64 : simpl never.
#[local] Arguments wrap32 : simpl never.
#[local] Arguments int32 : simpl never.

(** Whether a sub posts is decided by the gate alone, whatever the
    connection. *)
Lemma gate_decides comm env sl p md n s l :
  0 < sl < 2 ^ 31 -> 0 <= md <= 8 -> send_sub_ok sl md (sub l) ->
  after (send_sub comm env sl p md n s l)
    (fun l' =>
       if may_post (sub l) md && negb (done (sub l) =? wrap64 (nsteps (sub l)))
       then posted (sub l') = posted (sub l) + sl
       else posted (sub l') = posted (sub l)).
Proof.
  intros Hsl Hmd Hok.
  cbv beta iota zeta delta
    [send_sub post_credit try_send reap bind get ret modify upd_sub emit
     store_offsFifo store_sizesFifo store_sendHead when NCCLCHECK undef exit].
  destruct Hok as (Hn & H0 & H1 & H2 & H3 & D1 & D2 & D3 & Hw).
  destruct (done (sub l) =? wrap64 (nsteps (sub l))) eqn:Hdone;
    [rewrite andb_false_r; reflexivity|].
  destruct (may_post (sub l) md) eqn:Hgate; cbn [andb negb];
    SendFacts.split_ifs; SendFacts.local_simpl; SendFacts.cursor_simpl;
    rewrite ?wrap64_small by lia; auto.
Qed.

End GateFacts.

(** ** Statements that keep a property on every way out *)

Section Keeps.
Context {S : Type}.
Implicit Types (I : S -> Prop).

Lemma keeps_ret {A} I (a : A) : hoare I (ret a) (fun _ => I) (fun _ => I).
Proof. now apply hoare_ret. Qed.

Lemma keeps_bind {A B} I (m : M S A) (f : A -> M S B) :
  hoare I m (fun _ => I) (fun _ => I) ->
  (forall a, hoare I (f a) (fun _ => I) (fun _ => I)) ->
  hoare I (bind m f) (fun _ => I) (fun _ => I).
Proof. intros Hm Hf. eapply hoare_bind; [exact Hm|exact Hf]. Qed.

Lemma keeps_get_bind {B} I (f : S -> M S B) :
  (forall w, I w -> hoare I (f w) (fun _ => I) (fun _ => I)) ->
  hoare I (bind get f) (fun _ => I) (fun _ => I).
Proof.
  intros H. apply hoare_get_bind. intros w Hw.
  eapply hoare_conseq; [exact (H w Hw)| |auto|auto]. intros s Hs. now rewrite Hs.
Qed.

Lemma keeps_modify I (f : S -> S) :
  (forall s, I s -> I (f s)) -> hoare I (modify f) (fun _ => I) (fun _ => I).
Proof. intros H. now apply hoare_modify. Qed.

Lemma keeps_exit {A} I r : hoare I (exit r : M S A) (fun _ => I) (fun _ => I).
Proof. now apply hoare_exit. Qed.

Lemma keeps_NCCLCHECK I r : hoare I (NCCLCHECK r) (fun _ => I) (fun _ => I).
Proof. destruct r; (apply keeps_ret || apply keeps_exit). Qed.

Lemma keeps_when I c (m : M S unit) :
  hoare I m (fun _ => I) (fun _ => I) -> hoare I (when c m) (fun _ => I) (fun _ => I).
Proof. intros H. destruct c; [exact H|apply keeps_ret]. Qed.

Lemma keeps_if {A} I (c : bool) (a b : M S A) :
  hoare I a (fun _ => I) (fun _ => I) -> hoare I b (fun _ => I) (fun _ => I) ->
  hoare I (if c then a else b) (fun _ => I) (fun _ => I).
Proof. now destruct c. Qed.

End Keeps.

(** ** The life of a send op *)

Module SendLifeFacts.
Import Proxy SendProxy SendLife.
Local Open Scope exec_scope.

Lemma send_steps_one comm st st' : send_step comm st st' -> send_steps comm st st'.
Proof. intros H. eapply steps_more; [exact H|apply steps_none]. Qed.

Lemma send_steps_trans comm st1 st2 st3 :
  send_steps comm st1 st2 -> send_steps comm st2 st3 -> send_steps comm st1 st3.
Proof.
  induction 1 as [|s1 s2 s3 H12 _ IH]; intros H3; [exact H3|].
  eapply steps_more; [exact H12|now apply IH].
Qed.

Lemma send_steps_snoc comm st1 st2 st3 :
  send_steps comm st1 st2 -> send_step comm st2 st3 -> send_steps comm st1 st3.
Proof. intros H12 H23. eapply send_steps_trans; [exact H12|now apply send_steps_one]. Qed.

(** An iteration on a sub the op does not have is undefined. *)
Lemma send_iteration_range comm env k st o st' :
  0 <= k -> send_iteration comm env k st = (o, st') -> o <> Undef ->
  0 <= k < Z.of_nat (length (subs (args st))).
Proof.
  intros Hk Hrun Ho. split; [exact Hk|].
  unfold send_iteration, on_sub in Hrun.
  destruct (subs (args st) !! Z.to_nat k) as [x|] eqn:E.
  - apply lookup_lt_Some in E. lia.
  - injection Hrun as <- _. now elim Ho.
Qed.

(** What an iteration on an op whose cursors are in order leaves. *)
Lemma send_iteration_kept comm env k st :
  send_ok st -> 0 <= k < Z.of_nat (length (subs (args st))) ->
  lands (send_iteration comm env k st)
    (fun st' => send_ok st' /\ advanced (args st) (args st')
                /\ state (args st') = state (args st)).
Proof.
  intros Hok Hk.
  pose proof (SendFacts.send_ok_range _ Hok) as (Hsl & Hmd & Hn).
  set (sl := sliceSteps (args st)) in *. set (md := maxDepth_of (nsubs (args st))) in *.
  pose proof (SendFacts.on_sub_lands (send_sub_ok sl md) (fun _ => True) cursors_le
                (fun R _ _ _ _ => pointers_ok R) (fun _ => True)
                SendFacts.cursors_le_trans
                (fun k => send_sub comm env sl (protocol (args st)) md (nsubs (args st)) k))
    as Hon.
  unfold send_iteration. cbv zeta. fold sl md.
  eapply lands_impl; [apply lands_with_lands with (X := fun _ => True); apply (Hon)|].
  - intros k' x R m i d n Hx Hp. apply lands_with_any.
    eapply lands_impl;
      [apply (SendFacts.send_sub_lands comm env sl (protocol (args st)) md (nsubs (args st)) k');
       cbn [sub res]; auto; apply Hp|].
    intros l' (H1 & H2 & H3 & H4). cbn [sub res] in *.
    split; [exact H1|]. split; [exact Logic.I|]. split; [exact H2|].
    now apply SendFacts.pointers_upd.
  - exact Hk.
  - split; [|apply Forall_forall; auto].
    destruct Hok as ((_ & Hall) & _ & Hp).
    split; [exact Hall|]. split; [apply SendFacts.cursors_all_refl|].
    split; [exact Hp|apply SendFacts.send_same_op_refl].
  - intros st' (Hinv & _). now apply SendFacts.loop_inv_progressed.
Qed.

(** Every step keeps the cursors of an op past Ready in order and moves
    none back. *)
Lemma send_step_kept comm st st' :
  send_ok st -> state (args st) <> ncclProxyOpReady -> send_step comm st st' ->
  send_kept (args st) st'.
Proof.
  intros Hok Hst Hstep.
  assert (Hsame : advanced (args st) (args st)) by apply SendFacts.advanced_refl.
  destruct Hstep as [st|env k st o st' Hp Hk Hrun Ho|st Hp Hd|st m].
  - split; [now apply SendFacts.send_ok_idle|]. split; [exact Hsame|exact Hst].
  - pose proof (send_iteration_range comm env k st o st' Hk Hrun Ho) as Hr.
    pose proof (send_iteration_kept comm env k st Hok Hr) as H.
    rewrite Hrun in H. destruct o as [[]|r|]; [| |now elim Ho];
      cbn [lands] in H; destruct H as (H1 & H2 & H3);
      (split; [exact H1|split; [exact H2|now rewrite H3]]).
  - split; [exact Hok|]. split; [exact Hsame|]. cbn. discriminate.
  - split; [exact Hok|]. split; [exact Hsame|exact Hst].
Qed.

Lemma send_steps_kept comm st st' :
  send_steps comm st st' ->
  send_ok st -> state (args st) <> ncclProxyOpReady -> send_kept (args st) st'.
Proof.
  induction 1 as [st|st1 st2 st3 H12 _ IH]; intros Hok Hst.
  - split; [exact Hok|]. split; [apply SendFacts.advanced_refl|exact Hst].
  - destruct (send_step_kept comm st1 st2 Hok Hst H12) as (Hok2 & Hadv2 & Hst2).
    destruct (IH Hok2 Hst2) as (Hok3 & Hadv3 & Hst3).
    split; [exact Hok3|]. split; [|exact Hst3].
    eapply SendFacts.advanced_trans; eauto.
Qed.

(** *** A call is a chain of steps *)

Lemma on_sub_same_op k (body : M local unit) st o st' :
  on_sub k body st = (o, st') -> o <> Undef ->
  same_op st st' /\ length (subs (args st')) = length (subs (args st)).
Proof.
  unfold on_sub. destruct (subs (args st) !! Z.to_nat k) as [x|].
  - destruct (body _) as [r l']. intros [= <- <-] _. cbn.
    split; [repeat split|apply length_insert].
  - intros [= <- _] Ho. now elim Ho.
Qed.

Lemma send_progress_steps comm env st0 :
  state (args st0) = ncclProxyOpProgress ->
  hoare (fun s => s = st0) (send_progress comm env)
        (fun _ => send_steps comm st0) (fun _ => send_steps comm st0).
Proof.
  intros Hst. unfold send_progress. apply hoare_get_bind. intros w ->. cbv zeta.
  eapply hoare_bind with (R := fun _ s => s = st0).
  { destruct (nsubs (args st0) =? 0); [apply hoare_undef|now apply hoare_ret]. }
  intros [].
  eapply hoare_bind with (R := fun _ s => send_steps comm st0 s /\ same_op st0 s).
  { eapply hoare_conseq;
      [apply (hoare_for_loop (in_loop comm st0) _ (fun _ => send_steps comm st0))| | |auto].
    - intros k s (Hsteps & Hk & Hsame & Hlen).
      assert (Hrun : on_sub k (send_sub comm (env k) (sliceSteps (args st0))
                                 (protocol (args st0)) (maxDepth_of (nsubs (args st0)))
                                 (nsubs (args st0)) k) s
                     = send_iteration comm (env k) k s).
      { unfold send_iteration, nsubs. cbv zeta.
        destruct Hsame as (-> & _ & -> & _). now rewrite Hlen. }
      rewrite Hrun. destruct (send_iteration comm (env k) k s) as [o s'] eqn:E.
      assert (Hnext : o <> Undef -> in_loop comm st0 (k + 1) s').
      { intros Ho.
        assert (Hp : state (args s) = ncclProxyOpProgress)
          by (destruct Hsame as (_ & _ & _ & ->); exact Hst).
        destruct (on_sub_same_op _ _ _ _ _ E Ho) as (Hsame' & Hlen').
        split; [|split; [lia|split; [|congruence]]].
        - eapply send_steps_snoc; [exact Hsteps|]. eapply step_sub; eauto.
        - unfold same_op in *. intuition congruence. }
      destruct o as [[]|r|]; [apply Hnext; discriminate| |exact Logic.I].
      apply Hnext. discriminate.
    - intros s ->. split; [apply steps_none|]. split; [lia|].
      split; [apply SendFacts.send_same_op_refl|reflexivity].
    - intros [] s (H1 & _ & H2 & _). auto. }
  intros []. apply hoare_get_bind. intros w (Hsteps & Hsame).
  destruct (Z.eqb_spec (args_done (args w)) (nsubs (args w))) as [E|_]; cbn [when].
  - unfold upd_args. apply hoare_modify. intros s ->.
    eapply send_steps_snoc; [exact Hsteps|]. apply step_complete; [|exact E].
    destruct Hsame as (_ & _ & _ & ->). exact Hst.
  - apply hoare_ret. now intros s ->.
Qed.

(** The part of a call after the Ready block. *)
Lemma send_tail_steps comm env st1 :
  hoare (fun s => s = st1)
    (upd_args (fun a => set_idle a 1) ;;
     let* st := get in
     when (is_state (state (args st)) ncclProxyOpProgress) (send_progress comm env) ;;
     (exit ncclSuccess : M sendState unit))
    (fun _ => send_steps comm st1) (fun _ => send_steps comm st1).
Proof.
  set (st2 := set_args st1 (set_idle (args st1) 1)).
  assert (H12 : send_steps comm st1 st2) by apply send_steps_one, step_idle.
  eapply hoare_bind with (R := fun _ s => s = st2).
  { unfold upd_args. apply hoare_modify. now intros s ->. }
  intros []. apply hoare_get_bind. intros w ->.
  eapply hoare_bind with (R := fun _ => send_steps comm st1).
  - destruct (state (args st2)) eqn:E; cbn [is_state when];
      try (apply hoare_ret; now intros s ->).
    eapply hoare_conseq; [apply (send_progress_steps comm env st2 E)|auto| |];
      intros a s Hs; eapply send_steps_trans; eauto.
  - intros []. apply hoare_exit. auto.
Qed.

(** A call on an op past Ready is a chain of steps. *)
Lemma send_call_steps comm env st :
  state (args st) <> ncclProxyOpReady ->
  after (sendProxyProgress comm env st) (send_steps comm st).
Proof.
  intros Hst.
  assert (H : hoare (fun s => s = st) (sendProxyProgress comm env)
                (fun _ => send_steps comm st) (fun _ => send_steps comm st)).
  { unfold sendProxyProgress. apply hoare_get_bind. intros w ->.
    replace (is_state (state (args st)) ncclProxyOpReady) with false
      by (now destruct (state (args st))).
    cbn [when]. eapply hoare_bind with (R := fun _ s => s = st);
      [now apply hoare_ret|]. intros []. apply send_tail_steps. }
  specialize (H st eq_refl). unfold after.
  destruct (sendProxyProgress comm env st) as [[a|r|] s']; auto.
Qed.

(** The first call: the Ready block, then a chain of steps. *)
Lemma send_first_call_steps comm env st st1 :
  state (args st) = ncclProxyOpReady -> send_ready st = (Next tt, st1) ->
  after (sendProxyProgress comm env st) (send_steps comm st1).
Proof.
  intros Hst Hready.
  assert (H : hoare (fun s => s = st) (sendProxyProgress comm env)
                (fun _ => send_steps comm st1) (fun _ => send_steps comm st1)).
  { unfold sendProxyProgress. apply hoare_get_bind. intros w ->.
    rewrite Hst. cbn [is_state when].
    eapply hoare_bind with (R := fun _ s => s = st1).
    { intros s ->. now rewrite Hready. }
    intros []. apply send_tail_steps. }
  specialize (H st eq_refl). unfold after.
  destruct (sendProxyProgress comm env st) as [[a|r|] s']; auto.
Qed.

(** The Ready block on an op as the caller hands it over. *)
Lemma send_ready_runs st :
  wf_send st ->
  exists st1,
    send_ready st = (Next tt, st1)
    /\ send_ok st1 /\ state (args st1) = ncclProxyOpProgress
    /\ sliceSteps (args st1) = sliceSteps (args st)
    /\ length (subs (args st1)) = length (subs (args st)).
Proof.
  intros Hwf. pose proof (SendFacts.send_ready_total st Hwf st eq_refl) as H.
  destruct (send_ready st) as [[[]|r|] st1]; [|contradiction|contradiction].
  now exists st1.
Qed.

(** *** The life of an op from Ready on *)

Lemma lands_after {S A} (o : Exec.step A * S) (P Q : S -> Prop) :
  lands o P -> after o Q -> lands o Q.
Proof. destruct o as [[a|r|] s]; cbn; auto. Qed.

(** Every state of the op after the Ready block is in order. *)
Lemma send_life_ok comm st s1 s2 :
  wf_send st -> send_ready st = (Next tt, s1) -> send_steps comm s1 s2 ->
  send_ok s2 /\ state (args s2) <> ncclProxyOpReady
  /\ sliceSteps (args s2) = sliceSteps (args st)
  /\ length (subs (args s2)) = length (subs (args st)).
Proof.
  intros Hwf Hready Hsteps.
  destruct (send_ready_runs st Hwf) as (s1' & Hrun & Hok & Hst & Esl & Elen).
  assert (s1' = s1) as -> by congruence.
  assert (Hne : state (args s1) <> ncclProxyOpReady) by (rewrite Hst; discriminate).
  destruct (send_steps_kept comm s1 s2 Hsteps Hok Hne) as (Hok2 & (E1 & E2) & Hst2).
  apply Forall2_length in E2.
  split; [exact Hok2|]. split; [exact Hst2|]. split; congruence.
Qed.

Lemma send_life_subs comm st s1 s2 :
  wf_send st -> send_ready st = (Next tt, s1) -> send_steps comm s1 s2 ->
  Forall (send_sub_ok (sliceSteps (args st)) (maxDepth_of (nsubs (args st))))
         (subs (args s2)).
Proof.
  intros Hwf Hready Hsteps.
  destruct (send_life_ok comm st s1 s2 Hwf Hready Hsteps)
    as (((_ & Hall) & _) & _ & Esl & Elen).
  unfold nsubs in *. now rewrite <- Esl, <- Elen.
Qed.

(** A call on an op past Ready returns, having made a chain of steps. *)
Lemma send_call_lands comm env st :
  send_ok st -> state (args st) <> ncclProxyOpReady ->
  lands (sendProxyProgress comm env st) (send_steps comm st).
Proof.
  intros Hok Hst.
  eapply lands_after; [apply (SendFacts.sendProxyProgress_kept comm env st Hst Hok)|].
  now apply send_call_steps.
Qed.

(** The first call returns too: the Ready block, then a chain of
    steps. *)
Lemma send_first_call_lands comm env st s1 :
  wf_send st -> state (args st) = ncclProxyOpReady ->
  send_ready st = (Next tt, s1) ->
  lands (sendProxyProgress comm env st) (send_steps comm s1).
Proof.
  intros Hwf Hst Hready.
  eapply lands_after; [apply (SendFacts.sendProxyProgress_entry comm env st Hst Hwf)|].
  now apply send_first_call_steps.
Qed.

(** Whether an iteration posts is decided by the gate alone. *)
Lemma send_iteration_gate comm env k st x :
  send_ok st -> 0 <= k -> subs (args st) !! Z.to_nat k = Some x ->
  exists o st' x',
    send_iteration comm env k st = (o, st') /\ o <> Undef
    /\ subs (args st') !! Z.to_nat k = Some x'
    /\ posted x'
       = if may_post x (maxDepth_of (nsubs (args st)))
            && negb (done x =? wrap64 (nsteps x))
         then posted x + sliceSteps (args st) else posted x.
Proof.
  intros Hok Hk Hx.
  pose proof (SendFacts.send_ok_range _ Hok) as (Hsl & Hmd & Hn).
  destruct Hok as ((_ & Hall) & _ & Hp).
  pose proof (proj1 (Forall_lookup _ _) Hall _ _ Hx) as Hxok.
  set (l := mkLocal x (resources st (connection x)) (mem_of st)
                    (idle (args st)) (args_done (args st)) (net_of st)).
  pose proof (SendFacts.send_sub_lands comm env (sliceSteps (args st))
                (protocol (args st)) (maxDepth_of (nsubs (args st)))
                (nsubs (args st)) k l Hsl Hmd Hxok
                (proj1 (Hp _)) (proj2 (Hp _))) as Hl.
  pose proof (GateFacts.gate_decides comm env (sliceSteps (args st))
                (protocol (args st)) (maxDepth_of (nsubs (args st)))
                (nsubs (args st)) k l Hsl Hmd Hxok) as Hg.
  unfold send_iteration, on_sub. cbv zeta. rewrite Hx. fold l.
  destruct (send_sub comm env _ _ _ _ k l) as [o l'].
  assert (Ho : o <> Undef) by (destruct o; [discriminate|discriminate|contradiction]).
  eexists o, _, (sub l'). split; [reflexivity|]. split; [exact Ho|].
  cbn [args subs]. split.
  - apply list_lookup_insert_eq. now apply lookup_lt_Some in Hx.
  - unfold after in Hg. subst l. cbn [sub] in Hg.
    destruct o as [[]|r|]; [| |now elim Ho];
      destruct (may_post x _ && negb (done x =? wrap64 (nsteps x))); exact Hg.
Qed.

End SendLifeFacts.

(** ** The life of a receive op *)

Module RecvLifeFacts.
Import Proxy RecvProxy RecvLife.
Local Open Scope exec_scope.

#[local] Arguments wrap64 : simpl never.
#[local] Arguments int32 : simpl never.

(** *** What progress does not write *)

Lemma placed_map (f : ncclProxySubArgs -> ncclProxySubArgs) g :
  (forall x, placed (f x) = placed x) ->
  List.map placed (List.map f g) = List.map placed g.
Proof. intros H. rewrite List.map_map. apply List.map_ext. exact H. Qed.

Lemma placed_head (f : ncclProxySubArgs -> ncclProxySubArgs) g :
  (forall x, placed (f x) = placed x) ->
  List.map placed (match g with x :: g' => f x :: g' | [] => [] end) = List.map placed g.
Proof. intros H. destruct g as [|x g']; [reflexivity|]. cbn. now rewrite H. Qed.

Lemma same_comms_refl R : same_comms R R.
Proof. intros c. auto. Qed.

Lemma same_comms_trans R1 R2 R3 : same_comms R1 R2 -> same_comms R2 R3 -> same_comms R1 R3.
Proof.
  intros H1 H2 c. destruct (H1 c) as [A1 B1]. destruct (H2 c) as [A2 B2].
  split; congruence.
Qed.

Lemma same_comms_step R R' c v :
  same_comms R R' -> same_comms R (upd R' c (set_step (R' c) v)).
Proof.
  intros H c'. unfold upd. destruct (Z.eqb_spec c' c) as [->|_]; [apply (H c)|apply (H c')].
Qed.

Lemma group_kept_refl l : group_kept l l.
Proof. split; [reflexivity|apply same_comms_refl]. Qed.

Ltac kept_tac :=
  intros; unfold group_kept in *; cbn in *;
  rewrite ?placed_map, ?placed_head by reflexivity;
  intuition (auto using same_comms_step; congruence).

Ltac kept_step :=
  lazymatch goal with
  | |- hoare _ (bind get _) _ _ => apply keeps_get_bind; intros ? ?
  | |- hoare _ (bind _ _) _ _ => apply keeps_bind; [|intros ?]
  | |- hoare _ (ret _) _ _ => apply keeps_ret
  | |- hoare _ (when _ _) _ _ => apply keeps_when
  | |- hoare _ (NCCLCHECK _) _ _ => apply keeps_NCCLCHECK
  | |- hoare _ (modify _) _ _ => apply keeps_modify; kept_tac
  | |- hoare _ (exit _) _ _ => apply keeps_exit
  | |- hoare _ undef _ _ => apply hoare_undef
  | |- hoare _ (if _ then _ else _) _ _ => apply keeps_if
  | |- hoare _ (match ?x with _ => _ end) _ _ => destruct x
  | |- hoare _ (emit _) _ _ => unfold emit
  | |- hoare _ (upd_group _) _ _ => unfold upd_group
  | |- hoare _ (upd_head _) _ _ => unfold upd_head, upd_group
  | |- hoare _ get_head _ _ => unfold get_head
  | |- hoare _ (store_offsFifo _ _ _) _ _ => unfold store_offsFifo
  | |- hoare _ (store_recvTail _ _) _ _ => unfold store_recvTail
  end.

Lemma collect_kept comm sl p md n s l0 : forall xs i c,
  hoare (group_kept l0) (collect comm sl p md n s i xs c)
        (fun _ => group_kept l0) (fun _ => group_kept l0).
Proof.
  induction xs as [|x xs IH]; intros i c; cbn [collect]; [apply keeps_ret|].
  repeat first [apply IH | kept_step].
Qed.

Lemma recv_post_kept comm env sl p md n s l0 :
  hoare (group_kept l0) (recv_post comm env sl p md n s)
        (fun _ => group_kept l0) (fun _ => group_kept l0).
Proof.
  unfold recv_post. repeat first [apply collect_kept | kept_step].
Qed.

Lemma recv_test_kept env x86 sl p l0 :
  hoare (group_kept l0) (recv_test env x86 sl p)
        (fun _ => group_kept l0) (fun _ => group_kept l0).
Proof. unfold recv_test. repeat kept_step. Qed.

Lemma members_kept l0 (f : Z -> ncclProxySubArgs -> M glocal ncclProxySubArgs) :
  (forall i x, hoare (group_kept l0) (f i x)
                 (fun x' s => group_kept l0 s /\ placed x' = placed x)
                 (fun _ => group_kept l0)) ->
  forall xs i,
    hoare (group_kept l0) (map_members_from f i xs)
      (fun xs' s => group_kept l0 s /\ List.map placed xs' = List.map placed xs)
      (fun _ => group_kept l0).
Proof.
  intros Hf. induction xs as [|x xs IH]; intros i; cbn [map_members_from].
  - apply hoare_ret. auto.
  - eapply hoare_bind; [apply Hf|]. intros x'. cbv beta.
    eapply hoare_bind with
      (R := fun xs' s => (group_kept l0 s /\ placed x' = placed x)
                         /\ List.map placed xs' = List.map placed xs).
    + intros s (Hs & Hx). specialize (IH (i + 1) s Hs).
      destruct (map_members_from f (i + 1) xs s) as [[xs'|r|] s']; auto.
      destruct IH as [H1 H2]. auto.
    + intros xs'. apply hoare_ret. intros s ((Hs & Hx) & Hxs).
      split; [exact Hs|]. cbn. now rewrite Hx, Hxs.
Qed.

Lemma map_members_kept l0 (f : Z -> ncclProxySubArgs -> M glocal ncclProxySubArgs) :
  (forall i x, hoare (group_kept l0) (f i x)
                 (fun x' s => group_kept l0 s /\ placed x' = placed x)
                 (fun _ => group_kept l0)) ->
  hoare (group_kept l0) (map_members f) (fun _ => group_kept l0) (fun _ => group_kept l0).
Proof.
  intros Hf. unfold map_members. apply hoare_get_bind. intros w Hw.
  eapply hoare_bind with
    (R := fun g s => group_kept l0 s /\ List.map placed g = List.map placed (group w)).
  - eapply hoare_conseq; [apply (members_kept l0 f Hf)| |auto|auto].
    now intros s ->.
  - intros g. unfold upd_group. apply hoare_modify. intros s ((H1 & H2) & Hg).
    destruct Hw as (Hw1 & Hw2). split; [cbn; congruence|exact H2].
Qed.

Lemma recv_commit_kept env sl l0 :
  hoare (group_kept l0) (recv_commit env sl)
        (fun _ => group_kept l0) (fun _ => group_kept l0).
Proof.
  unfold recv_commit. repeat first [apply map_members_kept; intros i x | kept_step].
  eapply hoare_bind with (R := fun _ => group_kept l0); [repeat kept_step|].
  intros []. apply hoare_ret. auto.
Qed.

Lemma release_loop_placed sl hd : forall fuel x x' ran c,
  release_loop fuel sl hd x = Some (x', ran, c) -> placed x' = placed x.
Proof.
  induction fuel as [|fuel IH]; intros x x' ran c; cbn [release_loop];
    destruct ((wrap64 (base x + done x) <? hd) && (done x <? transmitted x));
    try discriminate; try (now intros [= <- _ _]).
  set (x1 := set_done x (wrap64 (done x + sl))).
  destruct (done x1 =? wrap64 (nsteps x1)); [now intros [= <- _ _]|].
  destruct (release_loop fuel sl hd x1) as [[[x2 r2] c2]|] eqn:E; [|discriminate].
  intros [= <- _ _]. now rewrite (IH _ _ _ _ E).
Qed.

Lemma recv_release_kept sl l0 :
  hoare (group_kept l0) (recv_release sl)
        (fun _ => group_kept l0) (fun _ => group_kept l0).
Proof.
  unfold recv_release. apply map_members_kept. intros i x.
  destruct (done x =? wrap64 (nsteps x)); [apply hoare_ret; auto|].
  destruct (done x <? transmitted x); [|apply hoare_ret; auto].
  apply hoare_get_bind. intros w Hw. cbv zeta.
  destruct (sendMem (res w (connection x)) =? 0); [apply hoare_undef|].
  destruct (release_loop _ sl _ x) as [[[x' ran] c]|] eqn:E; [|apply hoare_undef].
  pose proof (release_loop_placed _ _ _ _ _ _ _ E) as Hx.
  eapply hoare_conseq with
    (P' := group_kept l0)
    (Q' := fun x'' s => group_kept l0 s /\ placed x'' = placed x)
    (E' := fun _ => group_kept l0);
    [|now intros s ->|auto|auto].
  eapply hoare_bind with (R := fun _ => group_kept l0); [repeat kept_step|].
  intros []. eapply hoare_bind with (R := fun _ => group_kept l0); [repeat kept_step|].
  intros []. apply hoare_ret. auto.
Qed.

(** A pass over a group, whichever it is. *)
Lemma pass_body_kept comm x86 env a p s l :
  after (pass_body comm x86 env a p s l) (group_kept l).
Proof.
  assert (H : hoare (group_kept l) (pass_body comm x86 env a p s)
                (fun _ => group_kept l) (fun _ => group_kept l)).
  { destruct p; cbn [pass_body];
      [apply recv_post_kept|apply recv_test_kept|apply recv_commit_kept
      |apply recv_release_kept]. }
  specialize (H l (group_kept_refl l)). unfold after.
  destruct (pass_body comm x86 env a p s l) as [[b|r|] l']; auto.
Qed.

Lemma op_kept_refl st : op_kept st st.
Proof. split; [reflexivity|apply same_comms_refl]. Qed.

Lemma op_kept_trans st1 st2 st3 : op_kept st1 st2 -> op_kept st2 st3 -> op_kept st1 st3.
Proof.
  intros [H1 R1] [H2 R2]. split; [congruence|eapply same_comms_trans; eauto].
Qed.

Lemma take_drop_middle_eq {A} (l : list A) s gs :
  take s l ++ take gs (drop s l) ++ drop (s + gs) l = l.
Proof.
  rewrite <- (drop_drop l gs s), take_drop. apply take_drop.
Qed.

(** A pass over the group [subs[s .. s+gs)] writes the op in place. *)
Lemma on_group_kept comm x86 env a p s gs st :
  after (on_group s gs (pass_body comm x86 env a p s) st) (op_kept st).
Proof.
  unfold on_group.
  pose proof (pass_body_kept comm x86 env a p s
                (mkGlocal (take gs (drop s (subs (args st)))) (resources st) (mem_of st)
                          (idle (args st)) (args_done (args st)) (net_of st))) as H.
  destruct (pass_body comm x86 env a p s _) as [o l'].
  assert (Hk : group_kept
                 (mkGlocal (take gs (drop s (subs (args st)))) (resources st) (mem_of st)
                           (idle (args st)) (args_done (args st)) (net_of st)) l' ->
               op_kept st
                 (mkState
                    (mkArgs (take s (subs (args st)) ++ group l'
                             ++ drop (s + gs) (subs (args st)))
                            (op_done l') (sliceSteps (args st)) (chunkSteps (args st))
                            (protocol (args st)) (state (args st)) (op_idle l'))
                    (res l') (mem l') (net l'))).
  { intros (Hg & Hr). cbn in Hg, Hr. split; [|exact Hr]. cbn.
    rewrite !List.map_app, Hg, <- !List.map_app. now rewrite take_drop_middle_eq. }
  destruct o as [[]|r|]; cbn [after] in H |- *; auto.
Qed.

Lemma recv_step_op_kept comm x86 st st' : recv_step comm x86 st st' -> op_kept st st'.
Proof.
  intros [st0|env p s h st0 o st1 _ _ _ _ _ Hrun Ho|st0 _ _|st0 m];
    try (split; [reflexivity|apply same_comms_refl]).
  pose proof (on_group_kept comm x86 env (args st0) p s (Z.to_nat (groupSize h)) st0) as H.
  rewrite Hrun in H. destruct o as [[]|r|]; [exact H|exact H|now elim Ho].
Qed.

Lemma recv_steps_op_kept comm x86 st st' : recv_steps comm x86 st st' -> op_kept st st'.
Proof.
  induction 1 as [st|st1 st2 st3 H12 _ IH]; [apply op_kept_refl|].
  eapply op_kept_trans; [exact (recv_step_op_kept _ _ _ _ H12)|exact IH].
Qed.

Lemma recv_steps_one comm x86 st st' : recv_step comm x86 st st' -> recv_steps comm x86 st st'.
Proof. intros H. eapply steps_more; [exact H|apply steps_none]. Qed.

Lemma recv_steps_trans comm x86 st1 st2 st3 :
  recv_steps comm x86 st1 st2 -> recv_steps comm x86 st2 st3 -> recv_steps comm x86 st1 st3.
Proof.
  induction 1 as [|s1 s2 s3 H12 _ IH]; intros H3; [exact H3|].
  eapply steps_more; [exact H12|now apply IH].
Qed.

Lemma recv_steps_snoc comm x86 st1 st2 st3 :
  recv_steps comm x86 st1 st2 -> recv_step comm x86 st2 st3 -> recv_steps comm x86 st1 st3.
Proof. intros H12 H23. eapply recv_steps_trans; [exact H12|now apply recv_steps_one]. Qed.

(** *** Where the groups start *)

Lemma group_start_ext (subs subs' : list ncclProxySubArgs) s :
  List.map groupSize subs' = List.map groupSize subs ->
  group_start subs s -> group_start subs' s.
Proof.
  intros Hm. induction 1 as [|s h _ IH Hs]; [constructor|].
  assert (Hh : List.map groupSize subs !! s = Some (groupSize h))
    by (now rewrite list_lookup_fmap, Hs).
  rewrite <- Hm, list_lookup_fmap in Hh.
  destruct (subs' !! s) as [h'|] eqn:E; [|discriminate].
  injection Hh as Hh. rewrite <- Hh. now apply (start_next subs' s h').
Qed.

Lemma placed_groupSize (subs subs' : list ncclProxySubArgs) :
  List.map placed subs' = List.map placed subs ->
  List.map groupSize subs' = List.map groupSize subs.
Proof.
  intros H. apply (f_equal (List.map snd)) in H.
  now rewrite !List.map_map in H.
Qed.

(** In an op that is cut into groups, the loops stop at the first subs
    of the groups. *)
Lemma group_start_split sl (gs : list (list ncclProxySubArgs)) s :
  Forall (recv_group_ok sl) gs ->
  group_start (concat gs) s -> (s < length (concat gs))%nat ->
  exists gs1 g gs2, gs = gs1 ++ g :: gs2 /\ s = length (concat gs1).
Proof.
  intros Hgs Hstart. induction Hstart as [|s h Hs IH Hlook]; intros Hlt.
  - destruct gs as [|g gs2]; [cbn in Hlt; lia|]. now exists [], g, gs2.
  - destruct IH as (gs1 & g & gs2 & Egs & Es); [now apply lookup_lt_Some in Hlook|].
    assert (Hg : recv_group_ok sl g).
    { rewrite Egs in Hgs. apply Forall_app in Hgs as [_ Hgs]. now apply Forall_inv in Hgs. }
    destruct (RecvFacts.group_ok_size sl g Hg) as (h0 & t & Eg & Hsize).
    assert (Eh : h = h0).
    { rewrite Egs, concat_app in Hlook. cbn [concat] in Hlook. rewrite Eg in Hlook.
      rewrite Es in Hlook. cbn [app] in Hlook.
      rewrite list_lookup_middle in Hlook by reflexivity. congruence. }
    subst h0. rewrite Hsize, Nat2Z.id in *.
    assert (Elen : (s + length g)%nat = length (concat (gs1 ++ [g]))).
    { rewrite concat_app, length_app. cbn [concat]. rewrite app_nil_r. lia. }
    destruct gs2 as [|g' gs2].
    + exfalso. rewrite Egs, concat_app, length_app in Hlt. cbn [concat] in Hlt.
      rewrite app_nil_r in Hlt. lia.
    + exists (gs1 ++ [g]), g', gs2. split; [|exact Elen].
      rewrite Egs. now rewrite <- app_assoc.
Qed.

(** *** Steps keep the cursors in order *)

Lemma pass_body_lands comm x86 env a p s l :
  0 < sliceSteps a < 2 ^ 31 ->
  recv_group_ok (sliceSteps a) (group l) -> pointers_ok (res l) ->
  lands (pass_body comm x86 env a p s l) (body_post (sliceSteps a) l).
Proof.
  intros Hsl Hg Hp. destruct p; cbn [pass_body].
  - apply RecvFacts.recv_post_lands; auto.
    apply maxDepth_range. unfold nsubs. lia.
  - now apply RecvFacts.recv_test_lands.
  - now apply RecvFacts.recv_commit_lands.
  - now apply RecvFacts.recv_release_lands.
Qed.

(** A pass over a group of an op whose cursors are in order. *)
Lemma group_pass_kept comm x86 env p s h st :
  recv_inv st ->
  group_start (subs (args st)) s -> subs (args st) !! s = Some h ->
  lands (on_group s (Z.to_nat (groupSize h)) (pass_body comm x86 env (args st) p s) st)
    (fun st' => recv_inv st' /\ advanced (args st) (args st') /\ same_op st st').
Proof.
  intros (Hsl & Hne & Hp & gs & Hsubs & Hgs) Hstart Hlook.
  set (sl := sliceSteps (args st)) in *.
  rewrite Hsubs in Hstart.
  destruct (group_start_split sl gs s Hgs Hstart) as (gs1 & g & gs2 & Egs & Es).
  { rewrite <- Hsubs. now apply lookup_lt_Some in Hlook. }
  assert (Hgs' := Hgs). rewrite Egs in Hgs'.
  apply Forall_app in Hgs' as [Hgs1 Hgs2].
  pose proof (Forall_inv Hgs2) as Hg. pose proof (Forall_inv_tail Hgs2) as Hgs2'.
  destruct (RecvFacts.group_ok_size sl g Hg) as (h0 & t & Eg & Hsize).
  assert (Hsubs' : subs (args st) = concat gs1 ++ g ++ concat gs2).
  { rewrite Hsubs, Egs, concat_app. reflexivity. }
  assert (Eh : h = h0).
  { rewrite Hsubs', Eg, Es in Hlook. cbn [app] in Hlook.
    rewrite list_lookup_middle in Hlook by reflexivity. congruence. }
  subst h0. rewrite Hsize, Nat2Z.id, Es.
  pose proof (RecvFacts.on_group_lands
                (recv_group_ok sl) (Forall2 cursors_le) (fun l => pointers_ok (res l))
                (fun _ => True) (fun l g0 H => H)
                (fun s0 => pass_body comm x86 env (args st) p s0)
                (fun s0 l Hgl Hl =>
                   lands_with_any _ _ (pass_body_lands comm x86 env (args st) p s0 l
                                         Hsl Hgl Hl))
                (concat gs1) g (concat gs2) st Hsubs' Hg Hp) as Hon.
  apply lands_with_lands in Hon. eapply lands_impl; [exact Hon|].
  intros st' (g' & Hs' & Hg' & Hrel & Hp' & Hsame).
  assert (Esl : sliceSteps (args st') = sl) by apply Hsame.
  assert (Hle : Forall2 cursors_le (subs (args st)) (subs (args st'))).
  { rewrite Hsubs', Hs'. apply Forall2_app; [apply SendFacts.cursors_all_refl|].
    apply Forall2_app; [exact Hrel|apply SendFacts.cursors_all_refl]. }
  split; [|split; [split; [exact Esl|exact Hle]|exact Hsame]].
  split; [now rewrite Esl|]. split; [|split; [exact Hp'|]].
  - apply Forall2_length in Hle. intros E. rewrite E in Hle.
    destruct (subs (args st)); [congruence|discriminate].
  - exists (gs1 ++ g' :: gs2). rewrite Esl. split.
    + rewrite Hs', concat_app. reflexivity.
    + apply Forall_app. split; [exact Hgs1|]. now constructor.
Qed.

Lemma recv_step_kept comm x86 st st' :
  recv_inv st -> state (args st) <> ncclProxyOpReady -> recv_step comm x86 st st' ->
  recv_keeps (args st) st'.
Proof.
  intros Hok Hst Hstep.
  assert (Hsame : advanced (args st) (args st)) by apply SendFacts.advanced_refl.
  destruct Hstep as [st|env p s h st o st' Hp Hs Hh Hpos Hfit Hrun Ho|st Hp Hd|st m].
  - split; [now apply RecvFacts.recv_inv_idle|]. split; [exact Hsame|exact Hst].
  - pose proof (group_pass_kept comm x86 env p s h st Hok Hs Hh) as H.
    rewrite Hrun in H. destruct o as [[]|r|]; [| |now elim Ho];
      cbn [lands] in H; destruct H as (H1 & H2 & H3);
      (split; [exact H1|split; [exact H2|]]);
      destruct H3 as (_ & _ & _ & ->); exact Hst.
  - split; [exact Hok|]. split; [exact Hsame|]. cbn. discriminate.
  - split; [exact Hok|]. split; [exact Hsame|exact Hst].
Qed.

Lemma recv_steps_kept comm x86 st st' :
  recv_steps comm x86 st st' ->
  recv_inv st -> state (args st) <> ncclProxyOpReady -> recv_keeps (args st) st'.
Proof.
  induction 1 as [st|st1 st2 st3 H12 _ IH]; intros Hok Hst.
  - split; [exact Hok|]. split; [apply SendFacts.advanced_refl|exact Hst].
  - destruct (recv_step_kept comm x86 st1 st2 Hok Hst H12) as (Hok2 & Hadv2 & Hst2).
    destruct (IH Hok2 Hst2) as (Hok3 & Hadv3 & Hst3).
    split; [exact Hok3|]. split; [|exact Hst3].
    eapply SendFacts.advanced_trans; eauto.
Qed.

(** *** A call is a chain of steps *)

Lemma pass_body_ext comm x86 env a a' p s :
  sliceSteps a' = sliceSteps a -> protocol a' = protocol a -> nsubs a' = nsubs a ->
  pass_body comm x86 env a' p s = pass_body comm x86 env a p s.
Proof. intros E1 E2 E3. destruct p; cbn [pass_body]; now rewrite ?E1, ?E2, ?E3. Qed.

Lemma group_loop_steps comm x86 env a p st0 : forall fuel pos s,
  in_call comm x86 st0 a s -> group_start (subs (args s)) pos ->
  after (group_loop fuel pos (fun k => pass_body comm x86 (env k) a p k) s)
        (in_call comm x86 st0 a).
Proof.
  induction fuel as [|fuel IH]; intros pos s HJ Hstart; cbn [group_loop];
    [exact Logic.I|].
  unfold bind at 1, get at 1.
  destruct (subs (args s) !! pos) as [h|] eqn:Hlook; [|exact HJ].
  destruct (Z.leb_spec (groupSize h) 0) as [_|Hpos]; [exact Logic.I|].
  destruct (Z.ltb_spec (Z.of_nat (length (subs (args s)))) (Z.of_nat pos + groupSize h))
    as [_|Hfit]; [exact Logic.I|].
  destruct HJ as (Hsteps & Hinv & Hst & E1 & E2 & E3).
  unfold bind.
  rewrite <- (pass_body_ext comm x86 (env pos) a (args s) p pos E1 E2 E3).
  pose proof (group_pass_kept comm x86 (env pos) p pos h s Hinv Hstart Hlook) as Hk.
  destruct (on_group pos (Z.to_nat (groupSize h))
              (pass_body comm x86 (env pos) (args s) p pos) s) as [o s1] eqn:Hrun.
  assert (Hnext : o <> Undef ->
            in_call comm x86 st0 a s1
            /\ group_start (subs (args s1)) (pos + Z.to_nat (groupSize h))).
  { intros Ho.
    assert (Hstep : recv_step comm x86 s s1) by (eapply step_group; eauto).
    assert (Hk' : recv_inv s1 /\ advanced (args s) (args s1) /\ same_op s s1)
      by (destruct o as [[]|r|]; [exact Hk|exact Hk|now elim Ho]).
    destruct Hk' as (Hinv1 & (Esl & Hle) & Hsame).
    split.
    - split; [eapply recv_steps_snoc; eauto|]. split; [exact Hinv1|].
      destruct Hsame as (_ & _ & Ep & Es).
      split; [congruence|]. split; [congruence|]. split; [congruence|].
      unfold nsubs in *. apply Forall2_length in Hle. congruence.
    - eapply group_start_ext;
        [apply placed_groupSize, (recv_step_op_kept _ _ _ _ Hstep)|].
      now apply (start_next _ pos h). }
  destruct o as [[]|r|]; [|apply Hnext; discriminate|exact Logic.I].
  destruct Hnext as [HJ1 Hstart1]; [discriminate|].
  now apply IH.
Qed.

Lemma pass_steps comm x86 env a p st0 fuel :
  hoare (in_call comm x86 st0 a)
        (group_loop fuel 0 (fun k => pass_body comm x86 (env k) a p k))
        (fun _ => in_call comm x86 st0 a) (fun _ => in_call comm x86 st0 a).
Proof.
  intros s Hs.
  pose proof (group_loop_steps comm x86 env a p st0 fuel 0%nat s Hs (start_first _)) as H.
  unfold after in H.
  destruct (group_loop fuel 0 _ s) as [[b|r|] s']; auto.
Qed.

Lemma call_bind comm x86 st0 a {A B} (m : M recvState A) (f : A -> M recvState B) :
  hoare (in_call comm x86 st0 a) m
        (fun _ => in_call comm x86 st0 a) (fun _ => in_call comm x86 st0 a) ->
  (forall x, hoare (in_call comm x86 st0 a) (f x)
               (fun _ => recv_steps comm x86 st0) (fun _ => recv_steps comm x86 st0)) ->
  hoare (in_call comm x86 st0 a) (bind m f)
        (fun _ => recv_steps comm x86 st0) (fun _ => recv_steps comm x86 st0).
Proof.
  intros Hm Hf.
  eapply hoare_bind with (R := fun _ => in_call comm x86 st0 a); [|exact Hf].
  eapply hoare_conseq with (P' := in_call comm x86 st0 a)
    (Q' := fun _ => in_call comm x86 st0 a) (E' := fun _ => in_call comm x86 st0 a);
    [exact Hm|auto|auto|].
  now intros r s (H & _).
Qed.

Lemma return_if_busy_call comm x86 st0 a :
  hoare (in_call comm x86 st0 a) return_if_busy
        (fun _ => in_call comm x86 st0 a) (fun _ => in_call comm x86 st0 a).
Proof.
  unfold return_if_busy. apply keeps_get_bind. intros w _.
  destruct (idle (args w) =? 0); [apply keeps_exit|apply keeps_ret].
Qed.

Lemma recv_progress_steps comm x86 env st0 :
  recv_inv st0 -> state (args st0) = ncclProxyOpProgress ->
  hoare (fun s => s = st0) (recv_progress comm x86 env)
        (fun _ => recv_steps comm x86 st0) (fun _ => recv_steps comm x86 st0).
Proof.
  intros Hinv Hst. unfold recv_progress. apply hoare_get_bind. intros w ->. cbv zeta.
  set (a := args st0).
  eapply hoare_conseq with (P' := in_call comm x86 st0 a)
    (Q' := fun _ => recv_steps comm x86 st0) (E' := fun _ => recv_steps comm x86 st0);
    [|intros s ->; split; [apply steps_none|tauto]|auto|auto].
  apply call_bind.
  { destruct (nsubs a =? 0); [apply hoare_undef|apply keeps_ret]. }
  intros []. apply call_bind; [apply (pass_steps comm x86 env a PassPost)|].
  intros []. apply call_bind; [apply return_if_busy_call|].
  intros []. apply call_bind; [apply (pass_steps comm x86 env a PassTest)|].
  intros []. apply call_bind; [apply return_if_busy_call|].
  intros []. apply call_bind; [apply (pass_steps comm x86 env a PassCommit)|].
  intros []. apply call_bind; [apply return_if_busy_call|].
  intros []. apply call_bind; [apply (pass_steps comm x86 env a PassRelease)|].
  intros []. apply hoare_get_bind. intros w Hw.
  destruct (Z.eqb_spec (args_done (args w)) (nsubs (args w))) as [E|_]; cbn [when].
  - unfold upd_args. apply hoare_modify. intros s ->.
    destruct Hw as (Hsteps & Hinv' & Hst' & _).
    eapply recv_steps_snoc; [exact Hsteps|now apply step_complete].
  - apply hoare_ret. intros s ->. now destruct Hw as (H & _).
Qed.

(** The part of a call after the Ready block. *)
Lemma recv_tail_steps comm x86 env st1 :
  recv_inv st1 ->
  hoare (fun s => s = st1)
    (upd_args (fun a => set_idle a 1) ;;
     let* st := get in
     when (is_state (state (args st)) ncclProxyOpProgress) (recv_progress comm x86 env) ;;
     (exit ncclSuccess : M recvState unit))
    (fun _ => recv_steps comm x86 st1) (fun _ => recv_steps comm x86 st1).
Proof.
  intros Hinv.
  set (st2 := set_args st1 (set_idle (args st1) 1)).
  assert (H12 : recv_steps comm x86 st1 st2) by apply recv_steps_one, step_idle.
  eapply hoare_bind with (R := fun _ s => s = st2).
  { unfold upd_args. apply hoare_modify. now intros s ->. }
  intros []. apply hoare_get_bind. intros w ->.
  eapply hoare_bind with (R := fun _ => recv_steps comm x86 st1).
  - destruct (state (args st2)) eqn:E; cbn [is_state when];
      try (apply hoare_ret; now intros s ->).
    eapply hoare_conseq;
      [apply (recv_progress_steps comm x86 env st2
                (RecvFacts.recv_inv_idle st1 1 Hinv) E)|auto| |];
      intros a s Hs; eapply recv_steps_trans; eauto.
  - intros []. apply hoare_exit. auto.
Qed.

(** A call on an op past Ready is a chain of steps. *)
Lemma recv_call_steps comm x86 env st :
  recv_inv st -> state (args st) <> ncclProxyOpReady ->
  after (recvProxyProgress comm x86 env st) (recv_steps comm x86 st).
Proof.
  intros Hinv Hst.
  assert (H : hoare (fun s => s = st) (recvProxyProgress comm x86 env)
                (fun _ => recv_steps comm x86 st) (fun _ => recv_steps comm x86 st)).
  { unfold recvProxyProgress. apply hoare_get_bind. intros w ->.
    replace (is_state (state (args st)) ncclProxyOpReady) with false
      by (now destruct (state (args st))).
    cbn [when]. eapply hoare_bind with (R := fun _ s => s = st);
      [now apply hoare_ret|]. intros []. now apply recv_tail_steps. }
  specialize (H st eq_refl). unfold after.
  destruct (recvProxyProgress comm x86 env st) as [[a|r|] s']; auto.
Qed.

(** The first call: the Ready block, then a chain of steps. *)
Lemma recv_first_call_steps comm x86 env st st1 :
  state (args st) = ncclProxyOpReady -> recv_ready st = (Next tt, st1) ->
  recv_inv st1 ->
  after (recvProxyProgress comm x86 env st) (recv_steps comm x86 st1).
Proof.
  intros Hst Hready Hinv.
  assert (H : hoare (fun s => s = st) (recvProxyProgress comm x86 env)
                (fun _ => recv_steps comm x86 st1) (fun _ => recv_steps comm x86 st1)).
  { unfold recvProxyProgress. apply hoare_get_bind. intros w ->.
    rewrite Hst. cbn [is_state when].
    eapply hoare_bind with (R := fun _ s => s = st1).
    { intros s ->. now rewrite Hready. }
    intros []. now apply recv_tail_steps. }
  specialize (H st eq_refl). unfold after.
  destruct (recvProxyProgress comm x86 env st) as [[a|r|] s']; auto.
Qed.

(** The Ready block on an op as the caller hands it over: it stores
    the order computed by [group_subs] and moves the op to Progress. *)
Lemma recv_ready_runs mr st :
  wf_recv mr st ->
  exists subs1,
    recv_ready st
    = (Next tt, set_args st (set_state (set_subs (args st) subs1) ncclProxyOpProgress))
    /\ recv_inv (set_args st (set_state (set_subs (args st) subs1) ncclProxyOpProgress))
    /\ grouped (resources st) subs1 /\ Forall fresh subs1
    /\ Permutation (List.map static subs1) (List.map static (subs (args st))).
Proof.
  intros ((Hsl & Hn) & Hne & Hlen & Hch & Hwf & Hp).
  destruct (GroupFacts.group_subs_spec (resources st) (chunkSteps (args st)) mr
              (subs (args st)) Hch Hwf Hlen) as (subs' & Hrun & Hgr & Hfresh & Hperm).
  exists subs'. split; [|split; [|auto]].
  - unfold recv_ready, bind, get. cbv zeta. now rewrite Hrun.
  - split; [exact Hsl|]. split; [|split; [exact Hp|]].
    + cbn. intros E. rewrite E in Hperm. apply Permutation_length in Hperm.
      rewrite length_map in Hperm. destruct (subs (args st)); [congruence|discriminate].
    + cbn. apply (RecvFacts.grouped_groups_ok (resources st)); auto.
      now apply (RecvFacts.static_nsteps (subs (args st))).
Qed.

(** *** The life of an op from Ready on *)

Lemma recv_inv_subs st :
  RecvProxy.recv_inv st ->
  Forall (RecvProxy.recv_sub_ok (sliceSteps (RecvProxy.args st)))
         (subs (RecvProxy.args st)).
Proof.
  intros (_ & _ & _ & gs & -> & Hgs).
  induction Hgs as [|g gs Hg _ IH]; cbn [concat]; [constructor|].
  apply Forall_app. split; [|exact IH].
  destruct g as [|h t]; [contradiction|].
  eapply Forall_impl; [exact Hg|]. now intros x (H & _).
Qed.

(** Every state of the op after the Ready block is in order. *)
Lemma recv_life_ok comm x86 mr st s1 s2 :
  wf_recv mr st -> recv_ready st = (Next tt, s1) -> recv_steps comm x86 s1 s2 ->
  recv_inv s2 /\ state (args s2) <> ncclProxyOpReady
  /\ sliceSteps (args s2) = sliceSteps (args st)
  /\ op_kept s1 s2.
Proof.
  intros Hwf Hready Hsteps.
  destruct (recv_ready_runs mr st Hwf) as (subs1 & Hrun & Hinv & _).
  assert (Hs1 : s1 = set_args st (set_state (set_subs (args st) subs1) ncclProxyOpProgress))
    by congruence.
  rewrite <- Hs1 in Hinv.
  assert (Hne : state (args s1) <> ncclProxyOpReady) by (rewrite Hs1; discriminate).
  destruct (recv_steps_kept comm x86 s1 s2 Hsteps Hinv Hne) as (Hinv2 & (E1 & _) & Hst2).
  split; [exact Hinv2|]. split; [exact Hst2|]. split.
  - rewrite E1, Hs1. reflexivity.
  - now apply (recv_steps_op_kept comm x86).
Qed.

Lemma recv_life_subs comm x86 mr st s1 s2 :
  wf_recv mr st -> recv_ready st = (Next tt, s1) -> recv_steps comm x86 s1 s2 ->
  Forall (recv_sub_ok (sliceSteps (args st))) (subs (args s2)).
Proof.
  intros Hwf Hready Hsteps.
  destruct (recv_life_ok comm x86 mr st s1 s2 Hwf Hready Hsteps) as (Hinv & _ & Esl & _).
  rewrite <- Esl. now apply recv_inv_subs.
Qed.

(** A call on an op past Ready returns, having made a chain of steps. *)
Lemma recv_call_lands comm x86 env st :
  recv_inv st -> state (args st) <> ncclProxyOpReady ->
  lands (recvProxyProgress comm x86 env st) (recv_steps comm x86 st).
Proof.
  intros Hinv Hst.
  eapply SendLifeFacts.lands_after;
    [apply (RecvFacts.recvProxyProgress_keeps comm x86 env st Hst Hinv)|].
  now apply recv_call_steps.
Qed.

(** The first call returns too: the Ready block, then a chain of
    steps. *)
Lemma recv_first_call_lands comm x86 mr env st s1 :
  wf_recv mr st -> state (args st) = ncclProxyOpReady ->
  recv_ready st = (Next tt, s1) ->
  lands (recvProxyProgress comm x86 env st) (recv_steps comm x86 s1).
Proof.
  intros Hwf Hst Hready.
  destruct (recv_ready_runs mr st Hwf) as (subs1 & Hrun & Hinv & _).
  assert (Hs1 : s1 = set_args st (set_state (set_subs (args st) subs1) ncclProxyOpProgress))
    by congruence.
  rewrite <- Hs1 in Hinv.
  eapply SendLifeFacts.lands_after;
    [apply (RecvFacts.recvProxyProgress_ready comm x86 env mr st Hst Hwf)|].
  now apply recv_first_call_steps.
Qed.

End RecvLifeFacts.

(** ** The cursors of an op, through its life *)

Module CursorFacts.
Import Proxy.

(** C1. An op handed over in Ready, on the send side and on the receive
    side.  The first call of the progress function runs the Ready
    block, which resets the cursors, and from there on the op moves by
    steps: an iteration of [sendProxyProgress] on one sub (at most one
    of its three actions), a pass of [recvProxyProgress] over one group
    (one of its four actions on that group), the stores to [args->idle]
    and [args->state], and, at any time, a write of the compute engine
    into staging memory; the fabric answers as it likes at every step.
    Every call returns and is a chain of such steps, so what a call or
    a write of the compute engine leaves is again a state the op
    reaches.  In every state the op reaches, so between any two calls
    and after every action within a call, the cursors of every sub are
    in order ([done <= transmitted <= posted], with [received] between
    [transmitted] and [posted] on the receive side) and are multiples
    of [sliceSteps]; and from any state it reaches to any later one no
    cursor has moved back. *)
Theorem cursors_in_order comm x86 mr
    (sst : SendProxy.sendState) (rst : RecvProxy.recvState) :
  SendProxy.wf_send sst -> state (SendProxy.args sst) = ncclProxyOpReady ->
  RecvProxy.wf_recv mr rst -> state (RecvProxy.args rst) = ncclProxyOpReady ->
  let ssl := sliceSteps (SendProxy.args sst) in
  let smd := SendProxy.maxDepth_of (nsubs (SendProxy.args sst)) in
  let rsl := sliceSteps (RecvProxy.args rst) in
  (exists s1,
     SendProxy.send_ready sst = (Next tt, s1)
     /\ (forall env, lands (SendProxy.sendProxyProgress comm env sst)
                           (SendLife.send_steps comm s1))
     /\ forall s2, SendLife.send_steps comm s1 s2 ->
          Forall (SendProxy.send_sub_ok ssl smd) (subs (SendProxy.args s2))
          /\ (forall env, lands (SendProxy.sendProxyProgress comm env s2)
                                (fun s3 => SendLife.send_steps comm s2 s3
                                           /\ SendLife.send_steps comm s1 s3))
          /\ (forall m, SendLife.send_steps comm s1 (SendProxy.set_mem_of s2 m))
          /\ forall s3, SendLife.send_steps comm s2 s3 ->
               Forall2 cursors_le (subs (SendProxy.args s2)) (subs (SendProxy.args s3)))
  /\ (exists r1,
        RecvProxy.recv_ready rst = (Next tt, r1)
        /\ (forall env, lands (RecvProxy.recvProxyProgress comm x86 env rst)
                              (RecvLife.recv_steps comm x86 r1))
        /\ forall r2, RecvLife.recv_steps comm x86 r1 r2 ->
             Forall (RecvProxy.recv_sub_ok rsl) (subs (RecvProxy.args r2))
             /\ (forall env, lands (RecvProxy.recvProxyProgress comm x86 env r2)
                                   (fun r3 => RecvLife.recv_steps comm x86 r2 r3
                                              /\ RecvLife.recv_steps comm x86 r1 r3))
             /\ (forall m, RecvLife.recv_steps comm x86 r1 (RecvProxy.set_mem_of r2 m))
             /\ forall r3, RecvLife.recv_steps comm x86 r2 r3 ->
                  Forall2 cursors_le (subs (RecvProxy.args r2))
                                     (subs (RecvProxy.args r3))).
Proof.
  intros Hsw Hss Hrw Hrs ssl smd rsl. split.
  - destruct (SendLifeFacts.send_ready_runs sst Hsw) as (s1 & Hrun & _).
    exists s1. split; [exact Hrun|]. split.
    { intros env. now apply SendLifeFacts.send_first_call_lands. }
    intros s2 H12.
    destruct (SendLifeFacts.send_life_ok comm sst s1 s2 Hsw Hrun H12)
      as (Hok & Hne & _).
    split; [now apply (SendLifeFacts.send_life_subs comm sst s1)|].
    split.
    { intros env. eapply lands_impl; [now apply SendLifeFacts.send_call_lands|].
      intros s3 H23. split; [exact H23|].
      now apply (SendLifeFacts.send_steps_trans comm s1 s2). }
    split.
    { intros m. eapply SendLifeFacts.send_steps_snoc; [exact H12|].
      apply SendLife.step_engine. }
    intros s3 H23.
    now destruct (SendLifeFacts.send_steps_kept comm s2 s3 H23 Hok Hne)
      as (_ & (_ & H) & _).
  - destruct (RecvLifeFacts.recv_ready_runs mr rst Hrw) as (subs1 & Hrun & _).
    eexists. split; [exact Hrun|]. split.
    { intros env. now apply (RecvLifeFacts.recv_first_call_lands comm x86 mr). }
    intros r2 H12.
    destruct (RecvLifeFacts.recv_life_ok comm x86 mr rst _ r2 Hrw Hrun H12)
      as (Hinv & Hne & _).
    split; [now apply (RecvLifeFacts.recv_life_subs comm x86 mr rst _ r2 Hrw Hrun)|].
    split.
    { intros env. eapply lands_impl; [now apply RecvLifeFacts.recv_call_lands|].
      intros r3 H23. split; [exact H23|].
      now apply (RecvLifeFacts.recv_steps_trans comm x86 _ r2). }
    split.
    { intros m. eapply RecvLifeFacts.recv_steps_snoc; [exact H12|].
      apply RecvLife.step_engine. }
    intros r3 H23.
    now destruct (RecvLifeFacts.recv_steps_kept comm x86 r2 r3 H23 Hinv Hne)
      as (_ & (_ & H) & _).
Qed.

Lemma cursors_in_order_witness :
  let sst := SendProxy.example_state 8 in
  let rst := RecvProxy.example_state 8 in
  SendProxy.wf_send sst /\ state (SendProxy.args sst) = ncclProxyOpReady
  /\ RecvProxy.wf_recv RecvProxy.example_maxRecvs rst
  /\ state (RecvProxy.args rst) = ncclProxyOpReady
  /\ (exists s1,
        SendProxy.send_ready sst = (Next tt, s1)
        /\ (forall env, lands (SendProxy.sendProxyProgress SendProxy.example_comm env sst)
                              (SendLife.send_steps SendProxy.example_comm s1))
        /\ forall s2, SendLife.send_steps SendProxy.example_comm s1 s2 ->
             Forall (SendProxy.send_sub_ok 2 (SendProxy.maxDepth_of 3))
                    (subs (SendProxy.args s2))
             /\ (forall env, lands (SendProxy.sendProxyProgress SendProxy.example_comm env s2)
                                   (fun s3 => SendLife.send_steps SendProxy.example_comm s2 s3
                                              /\ SendLife.send_steps SendProxy.example_comm s1 s3))
             /\ (forall m, SendLife.send_steps SendProxy.example_comm s1
                                               (SendProxy.set_mem_of s2 m))
             /\ forall s3, SendLife.send_steps SendProxy.example_comm s2 s3 ->
                  Forall2 cursors_le (subs (SendProxy.args s2))
                                     (subs (SendProxy.args s3)))
  /\ (exists r1,
        RecvProxy.recv_ready rst = (Next tt, r1)
        /\ (forall env,
              lands (RecvProxy.recvProxyProgress SendProxy.example_comm true env rst)
                    (RecvLife.recv_steps SendProxy.example_comm true r1))
        /\ forall r2, RecvLife.recv_steps SendProxy.example_comm true r1 r2 ->
             Forall (RecvProxy.recv_sub_ok 2) (subs (RecvProxy.args r2))
             /\ (forall env,
                   lands (RecvProxy.recvProxyProgress SendProxy.example_comm true env r2)
                         (fun r3 => RecvLife.recv_steps SendProxy.example_comm true r2 r3
                                    /\ RecvLife.recv_steps SendProxy.example_comm true r1 r3))
             /\ (forall m, RecvLife.recv_steps SendProxy.example_comm true r1
                                               (RecvProxy.set_mem_of r2 m))
             /\ forall r3, RecvLife.recv_steps SendProxy.example_comm true r2 r3 ->
                  Forall2 cursors_le (subs (RecvProxy.args r2))
                                     (subs (RecvProxy.args r3))).
Proof.
  intros sst rst.
  assert (Hsw : SendProxy.wf_send sst).
  { split; [split; [vm_compute; split; reflexivity|repeat constructor; discriminate]|].
    split; [discriminate|]. split; [vm_compute; discriminate|].
    intros c. split; vm_compute; discriminate. }
  assert (Hss : state (SendProxy.args sst) = ncclProxyOpReady) by reflexivity.
  assert (Hrw : RecvProxy.wf_recv RecvProxy.example_maxRecvs rst).
  { split; [split; [vm_compute; split; reflexivity|repeat constructor; discriminate]|].
    split; [discriminate|]. split; [vm_compute; reflexivity|].
    split; [vm_compute; discriminate|].
    split; [repeat constructor; vm_compute; congruence|].
    intros c. unfold rst, RecvProxy.example_state, RecvProxy.example_R.
    cbn [RecvProxy.resources]. destruct (c =? 1); split; vm_compute; discriminate. }
  assert (Hrs : state (RecvProxy.args rst) = ncclProxyOpReady) by reflexivity.
  split; [exact Hsw|]. split; [exact Hss|]. split; [exact Hrw|]. split; [exact Hrs|].
  exact (cursors_in_order SendProxy.example_comm true RecvProxy.example_maxRecvs
           sst rst Hsw Hss Hrw Hrs).
Defined.

End CursorFacts.

(** ** The credit gate of the send side *)

Module CreditFacts.
Import Proxy SendProxy.

Lemma bound_of_divisor sl md p d :
  0 < sl -> (sl | p) -> (sl | d) -> (sl | md) -> p < d + md + sl -> p <= d + md.
Proof.
  intros Hsl [a ->] [b ->] [c ->] Hlt.
  assert (a < b + c + 1) by nia. nia.
Qed.

(** C10. The gate [posted < done + maxDepth], with [maxDepth =
    min(NCCL_STEPS, NCCL_SHARED_STEPS / nsubs)], decides alone whether
    a sub posts, whether the connection is shared or not: in every
    state the op reaches after the Ready block (by calls of
    [sendProxyProgress], that is by its iterations on a sub, with the
    fabric answering as it likes, and by writes of the compute engine
    into staging memory in between), an iteration on a sub advances
    [posted] by [sliceSteps] when the gate holds and the sub is not
    done, and leaves it alone otherwise.  With more than [NCCL_SHARED_STEPS /
    NCCL_STEPS] subs, [maxDepth] is [NCCL_SHARED_STEPS / nsubs]; in
    every such state every sub has fewer than [maxDepth + sliceSteps]
    steps posted beyond [done], and at most [maxDepth] when
    [sliceSteps] divides [maxDepth]. *)
Theorem credit_gate comm (st : sendState) :
  wf_send st -> state (args st) = ncclProxyOpReady ->
  let sl := sliceSteps (args st) in
  let md := maxDepth_of (nsubs (args st)) in
  (SharedPool.NCCL_SHARED_STEPS ÷ NCCL_STEPS < nsubs (args st) ->
   md = SharedPool.NCCL_SHARED_STEPS ÷ nsubs (args st))
  /\ exists s1,
       send_ready st = (Next tt, s1)
       /\ (forall env, lands (sendProxyProgress comm env st) (SendLife.send_steps comm s1))
       /\ forall s2, SendLife.send_steps comm s1 s2 ->
            Forall (fun x => posted x < done x + md + sl
                             /\ ((sl | md) -> posted x <= done x + md))
                   (subs (args s2))
            /\ (forall env, lands (sendProxyProgress comm env s2)
                                  (fun s3 => SendLife.send_steps comm s1 s3))
            /\ (forall m, SendLife.send_steps comm s1 (set_mem_of s2 m))
            /\ forall env k x,
                 0 <= k -> subs (args s2) !! Z.to_nat k = Some x ->
                 exists o s3 x',
                   SendLife.send_iteration comm env k s2 = (o, s3) /\ o <> Undef
                   /\ subs (args s3) !! Z.to_nat k = Some x'
                   /\ posted x'
                      = if may_post x md && negb (done x =? wrap64 (nsteps x))
                        then posted x + sl else posted x.
Proof.
  intros Hwf Hst sl md.
  assert (Hsl : 0 < sl < 2 ^ 31) by apply Hwf.
  split.
  - intros Hn. unfold md, maxDepth_of.
    unfold SharedPool.NCCL_SHARED_STEPS, NCCL_STEPS in *.
    change (16 ÷ 8) with 2 in Hn.
    assert (16 ÷ nsubs (args st) <= 16 ÷ 3) by (apply Z.quot_le_compat_l; lia).
    change (16 ÷ 3) with 5 in *. lia.
  - destruct (SendLifeFacts.send_ready_runs st Hwf) as (s1 & Hrun & _).
    exists s1. split; [exact Hrun|]. split.
    { intros env. now apply SendLifeFacts.send_first_call_lands. }
    intros s2 H12.
    destruct (SendLifeFacts.send_life_ok comm st s1 s2 Hwf Hrun H12)
      as (Hok & Hne & Esl & Elen).
    split; [|split; [|split]].
    + eapply Forall_impl; [apply (SendLifeFacts.send_life_subs comm st s1 s2 Hwf Hrun H12)|].
      intros x (Hn & H0 & H1 & H2 & H3 & D1 & D2 & D3 & Hw).
      split; [exact Hw|]. intros Hd.
      apply (bound_of_divisor sl md); auto; lia.
    + intros env. eapply lands_impl; [now apply SendLifeFacts.send_call_lands|].
      intros s3 H23. now apply (SendLifeFacts.send_steps_trans comm s1 s2).
    + intros m. eapply SendLifeFacts.send_steps_snoc; [exact H12|].
      apply SendLife.step_engine.
    + intros env k x Hk Hx.
      destruct (SendLifeFacts.send_iteration_gate comm env k s2 x Hok Hk Hx)
        as (o & s3 & x' & H1 & H2 & H3 & H4).
      exists o, s3, x'. split; [exact H1|]. split; [exact H2|]. split; [exact H3|].
      rewrite H4. unfold md, sl, nsubs. now rewrite Esl, Elen.
Qed.

Lemma credit_gate_witness :
  let st := example_state 8 in
  wf_send st /\ state (args st) = ncclProxyOpReady
  /\ exists s1,
       send_ready st = (Next tt, s1)
       /\ (forall env, lands (sendProxyProgress example_comm env st)
                             (SendLife.send_steps example_comm s1))
       /\ forall s2, SendLife.send_steps example_comm s1 s2 ->
            Forall (fun x => posted x < done x + 5 + 2
                             /\ ((2 | 5) -> posted x <= done x + 5))
                   (subs (args s2))
            /\ (forall env, lands (sendProxyProgress example_comm env s2)
                                  (fun s3 => SendLife.send_steps example_comm s1 s3))
            /\ (forall m, SendLife.send_steps example_comm s1 (set_mem_of s2 m))
            /\ forall env k x,
                 0 <= k -> subs (args s2) !! Z.to_nat k = Some x ->
                 exists o s3 x',
                   SendLife.send_iteration example_comm env k s2 = (o, s3) /\ o <> Undef
                   /\ subs (args s3) !! Z.to_nat k = Some x'
                   /\ posted x'
                      = if may_post x 5 && negb (done x =? wrap64 (nsteps x))
                        then posted x + 2 else posted x.
Proof.
  intros st.
  assert (Hwf : wf_send st).
  { split; [split; [vm_compute; split; reflexivity|repeat constructor; discriminate]|].
    split; [discriminate|]. split; [vm_compute; discriminate|].
    intros c. split; vm_compute; discriminate. }
  assert (Hst : state (args st) = ncclProxyOpReady) by reflexivity.
  split; [exact Hwf|]. split; [exact Hst|].
  exact (proj2 (credit_gate example_comm st Hwf Hst)).
Defined.

(** Three subs that are not shared, in slices of two steps: after
    three calls each has six steps posted and none done, more than
    [NCCL_SHARED_STEPS / nsubs = 5]. *)
Lemma shared_steps_bound_fails :
  let st := example_state 8 in
  SharedPool.NCCL_SHARED_STEPS ÷ NCCL_STEPS < nsubs (args st)
  /\ (forall c, Connect.shared (resources st c) = 0)
  /\ exists st' x,
       send_calls example_comm [quiet_env; quiet_env; quiet_env] st
       = (Exit ncclSuccess, st')
       /\ subs (args st') !! 0%nat = Some x
       /\ ~ posted x <= done x + SharedPool.NCCL_SHARED_STEPS ÷ nsubs (args st).
Proof.
  intros st. split; [vm_compute; reflexivity|]. split; [reflexivity|].
  eexists _, _. split; [vm_compute; reflexivity|]. split; [reflexivity|].
  vm_compute. intros H. now apply H.
Qed.

End CreditFacts.

(** ** Grouping, as the first call leaves it *)

Module GroupingFacts.
Import Proxy RecvProxy RecvLife.











End GroupingFacts.

(** ** Ops without steps *)

Module ZeroStepFacts.
Import Proxy.
Local Open Scope exec_scope.

#[local] Arguments wrap64 : simpl never.
#[local] Arguments int32 : simpl never.

Section Send.
Import SendProxy.

Lemma send_sub_skips comm env sl p md n s l :
  no_steps (sub l) -> send_sub comm env sl p md n s l = (Next tt, l).
Proof.
  intros [Hn Hd]. unfold send_sub, bind, get. rewrite Hn, Hd.
  change (0 =? wrap64 0) with true. reflexivity.
Qed.

Lemma zero_progress_total comm env st0 :
  subs (args st0) <> [] -> Forall no_steps (subs (args st0)) ->
  args_done (args st0) = 0 ->
  total (fun st => st = st0) (send_progress comm env)
    (fun _ st => Forall no_steps (subs (args st)) /\ subs (args st) <> []
                 /\ args_done (args st) = 0 /\ net_of st = net_of st0
                 /\ idle (args st) = idle (args st0)
                 /\ state (args st) = state (args st0)
                 /\ chunkSteps (args st) = chunkSteps (args st0))
    (fun _ _ => False).
Proof.
  intros Hne Hall Hd.
  set (KS := fun (_ : Z -> Connect.sendResources) (_ : Staging.memory) (i d : Z)
                 (n : list netCall) =>
               i = idle (args st0) /\ d = 0 /\ n = net_of st0).
  set (J := loop_inv no_steps (fun _ _ => True) KS st0).
  assert (Hn : nsubs (args st0) <> 0).
  { unfold nsubs. destruct (subs (args st0)); [congruence|cbn; lia]. }
  unfold send_progress. apply total_get_bind. intros w ->. cbv zeta.
  apply total_bind with (R := fun _ => J).
  { destruct (Z.eqb_spec (nsubs (args st0)) 0) as [E|_]; [contradiction|].
    apply total_ret. intros s ->.
    split; [exact Hall|]. split; [|split; [now repeat split|apply SendFacts.send_same_op_refl]].
    clear. induction (subs (args st0)); constructor; auto. }
  intros []. apply total_bind with (R := fun _ => J).
  { eapply total_conseq;
      [apply (SendFacts.sub_loop_total no_steps (fun _ => True) (fun _ _ => True) KS
                (fun _ => False) (fun _ _ _ _ _ => Logic.I)
                (fun k => send_sub comm (env k) (sliceSteps (args st0))
                            (protocol (args st0)) (maxDepth_of (nsubs (args st0)))
                            (nsubs (args st0)) k))
      |auto|intros a s Hs; exact (proj1 Hs)|intros r s Hs; exact (proj2 Hs)].
    intros k x R m i d n Hx Hk. rewrite send_sub_skips by exact Hx.
    cbn. auto. }
  intros []. apply total_get_bind. intros w (Hall' & Hrel & (Hi & Hd' & Hnet) & Hsame).
  pose proof (Forall2_length _ _ _ Hrel) as Hlen.
  assert (Hne' : subs (args w) <> []).
  { intros E. rewrite E in Hlen. destruct (subs (args st0)); [congruence|discriminate]. }
  assert (Hn' : nsubs (args w) <> 0).
  { unfold nsubs. destruct (subs (args w)); [congruence|cbn; lia]. }
  rewrite Hd'. destruct (Z.eqb_spec 0 (nsubs (args w))) as [E|_]; [congruence|].
  apply total_ret. intros s ->. repeat split; auto; apply Hsame.
Qed.

Lemma send_ready_sub_zero chunk l :
  wrap64 chunk <> 0 -> nsteps (sub l) = 0 ->
  exists x', send_ready_sub chunk l = (Next tt, set_sub l x') /\ no_steps x'.
Proof.
  intros Hch Hn.
  cbv beta iota zeta delta [send_ready_sub bind get ret modify upd_sub undef].
  destruct (Z.eqb_spec (wrap64 chunk) 0) as [E|_]; [contradiction|].
  eexists. split; [reflexivity|]. split; [exact Hn|reflexivity].
Qed.

Lemma zero_ready_total st0 :
  wrap64 (chunkSteps (args st0)) <> 0 ->
  Forall (fun x => nsteps x = 0) (subs (args st0)) ->
  total (fun st => st = st0) send_ready
    (fun _ st => Forall no_steps (subs (args st))
                 /\ length (subs (args st)) = length (subs (args st0))
                 /\ args_done (args st) = args_done (args st0)
                 /\ net_of st = net_of st0
                 /\ chunkSteps (args st) = chunkSteps (args st0)
                 /\ state (args st) = ncclProxyOpProgress)
    (fun _ _ => False).
Proof.
  intros Hch Hall.
  set (KS := fun (_ : Z -> Connect.sendResources) (_ : Staging.memory) (i d : Z)
                 (n : list netCall) =>
               d = args_done (args st0) /\ n = net_of st0).
  set (J := loop_inv (fun x => nsteps x = 0) (fun _ _ => True) KS st0).
  unfold send_ready. apply total_get_bind. intros w ->. cbv zeta.
  apply total_bind with (R := fun _ st => J st /\ Forall no_steps (subs (args st))).
  { eapply total_conseq;
      [apply (SendFacts.sub_loop_total (fun x => nsteps x = 0) no_steps (fun _ _ => True)
                KS (fun _ => False) (fun _ _ _ _ _ => Logic.I)
                (fun _ => send_ready_sub (chunkSteps (args st0))))
      | |intros a s Hs; exact Hs|intros r s Hs; exact (proj2 Hs)].
    - intros k x R m i d n Hx Hk.
      destruct (send_ready_sub_zero (chunkSteps (args st0))
                  (mkLocal x (R (connection x)) m i d n) Hch Hx) as (x' & -> & Hx').
      cbn. split; [apply Hx'|]. split; [exact Hx'|]. split; [exact Logic.I|exact Hk].
    - intros s ->. split; [exact Hall|].
      split; [|split; [now split|apply SendFacts.send_same_op_refl]].
      clear. induction (subs (args st0)); constructor; auto. }
  intros []. apply total_modify. intros s ((_ & Hrel & (Hd & Hnet) & Hsame) & Hz).
  apply Forall2_length in Hrel. cbn.
  split; [exact Hz|]. split; [now symmetry|]. split; [exact Hd|]. split; [exact Hnet|].
  split; [apply Hsame|reflexivity].
Qed.

(** What an op without steps looks like after a call. *)
Lemma zero_call comm env st :
  state (args st) <> ncclProxyOpNone ->
  subs (args st) <> [] -> wrap64 (chunkSteps (args st)) <> 0 ->
  args_done (args st) = 0 ->
  Forall (fun x => nsteps x = 0) (subs (args st)) ->
  (state (args st) = ncclProxyOpProgress -> Forall no_steps (subs (args st))) ->
  exists st',
    sendProxyProgress comm env st = (Exit ncclSuccess, st')
    /\ state (args st') = ncclProxyOpProgress
    /\ Forall no_steps (subs (args st'))
    /\ subs (args st') <> [] /\ chunkSteps (args st') = chunkSteps (args st)
    /\ args_done (args st') = 0 /\ net_of st' = net_of st /\ idle (args st') = 1.
Proof.
  intros Hst Hne Hch Hd Hn Hz.
  set (P := fun st' : sendState =>
              state (args st') = ncclProxyOpProgress
              /\ Forall no_steps (subs (args st'))
              /\ subs (args st') <> [] /\ chunkSteps (args st') = chunkSteps (args st)
              /\ args_done (args st') = 0 /\ net_of st' = net_of st
              /\ idle (args st') = 1).
  assert (Hrun : total (fun s => s = st) (sendProxyProgress comm env)
                   (fun _ _ => False) (fun r st' => r = ncclSuccess /\ P st')).
  { unfold sendProxyProgress. apply total_get_bind. intros w ->.
    apply total_bind
      with (R := fun _ s =>
                   state (args s) = ncclProxyOpProgress
                   /\ Forall no_steps (subs (args s))
                   /\ subs (args s) <> [] /\ chunkSteps (args s) = chunkSteps (args st)
                   /\ args_done (args s) = 0 /\ net_of s = net_of st).
    { destruct (state (args st)) eqn:Est; cbn [is_state when].
      - congruence.
      - eapply total_conseq; [apply (zero_ready_total st Hch Hn)|auto| |intros r s []].
        intros a s (H1 & H2 & H3 & H4 & H5 & H6).
        split; [exact H6|]. split; [exact H1|].
        split; [|split; [exact H5|split; [congruence|exact H4]]].
        intros E. rewrite E in H2. destruct (subs (args st)); [congruence|discriminate].
      - apply total_ret. intros s ->. rewrite Est. auto 10. }
    intros []. apply total_bind
      with (R := fun _ s =>
                   (state (args s) = ncclProxyOpProgress
                    /\ Forall no_steps (subs (args s))
                    /\ subs (args s) <> [] /\ chunkSteps (args s) = chunkSteps (args st)
                    /\ args_done (args s) = 0 /\ net_of s = net_of st)
                   /\ idle (args s) = 1).
    { apply total_modify. intros s Hs. split; [exact Hs|reflexivity]. }
    intros []. apply total_get_bind. intros w ((Hs & Hz' & Hne' & Hc & Hd' & Hnet) & Hi).
    apply total_bind with (R := fun _ s => P s);
      [|intros []; apply total_exit; intros s Hps; auto].
    rewrite Hs. cbn [is_state when].
    eapply total_conseq;
      [apply (zero_progress_total comm env w Hne' Hz' Hd')|auto| |intros r s []].
    intros a s (H1 & H2 & H3 & H4 & H5 & H6 & H7). unfold P.
    split; [congruence|]. split; [exact H1|]. split; [exact H2|].
    split; [congruence|]. split; [exact H3|]. split; [congruence|congruence]. }
  specialize (Hrun st eq_refl).
  destruct (sendProxyProgress comm env st) as [[a|r|] st']; try contradiction.
  destruct Hrun as (-> & Hp). exists st'. split; [reflexivity|exact Hp].
Qed.

(** Any number of calls leaves the op in progress, without a call to
    the fabric. *)
Lemma zero_calls comm : forall envs env st,
  state (args st) <> ncclProxyOpNone ->
  subs (args st) <> [] -> wrap64 (chunkSteps (args st)) <> 0 ->
  args_done (args st) = 0 ->
  Forall (fun x => nsteps x = 0) (subs (args st)) ->
  (state (args st) = ncclProxyOpProgress -> Forall no_steps (subs (args st))) ->
  exists st',
    send_calls comm (env :: envs) st = (Exit ncclSuccess, st')
    /\ state (args st') = ncclProxyOpProgress
    /\ args_done (args st') = 0 /\ net_of st' = net_of st /\ idle (args st') = 1.
Proof.
  induction envs as [|env' envs IH]; intros env st Hst Hne Hch Hd Hn Hz;
    destruct (zero_call comm env st Hst Hne Hch Hd Hn Hz)
      as (st1 & Hrun & H1 & H2 & H3 & H4 & H5 & H6 & H7);
    cbn [send_calls]; rewrite Hrun.
  - exists st1. auto.
  - destruct (IH env' st1) as (st' & Hrun' & G1 & G2 & G3 & G4).
    + rewrite H1. discriminate.
    + exact H3.
    + now rewrite H4.
    + exact H5.
    + eapply Forall_impl; [exact H2|]. now intros x [Hx _].
    + intros _. exact H2.
    + exists st'. split; [exact Hrun'|]. split; [exact G1|]. split; [exact G2|].
      split; [congruence|exact G4].
Qed.

End Send.

Section Recv.
Import RecvProxy.

Lemma collect_zero comm sl p md n s : forall xs i c l,
  Forall (fun x => nsteps x = 0 /\ fresh x) xs ->
  collect comm sl p md n s i xs c l = (Next (Some c), l).
Proof.
  induction xs as [|x xs IH]; intros i c l Hall; cbn [collect]; [reflexivity|].
  pose proof (Forall_inv Hall) as (Hn & Hp & _).
  rewrite Hn, Hp. change (0 <? wrap64 0) with false. cbv iota.
  apply IH. exact (Forall_inv_tail Hall).
Qed.

Lemma zero_group_members (g : list ncclProxySubArgs) :
  zero_group g -> Forall (fun x => nsteps x = 0 /\ fresh x) g.
Proof.
  intros [_ H]. eapply Forall_impl; [exact H|]. now intros x (_ & H1 & H2).
Qed.

Lemma zero_group_head (g : list ncclProxySubArgs) :
  zero_group g ->
  exists h t, g = h :: t /\ groupSize h = Z.of_nat (length g).
Proof.
  intros [Hne H]. destruct g as [|h t]; [congruence|]. exists h, t.
  split; [reflexivity|]. exact (proj1 (Forall_inv H)).
Qed.

Lemma recv_post_zero comm env sl p md n s l :
  zero_group (group l) -> recv_post comm env sl p md n s l = (Next tt, l).
Proof.
  intros Hg. unfold recv_post, bind, get.
  rewrite collect_zero by (now apply zero_group_members). reflexivity.
Qed.

Lemma recv_test_zero env x86 sl p l :
  zero_group (group l) -> recv_test env x86 sl p l = (Next tt, l).
Proof.
  intros Hg. destruct (zero_group_head _ Hg) as (h & t & Eg & _).
  pose proof (zero_group_members _ Hg) as Hall. rewrite Eg in Hall.
  pose proof (Forall_inv Hall) as (_ & Hp & Hr & _).
  unfold recv_test, get_head, bind, get. rewrite Eg. cbv beta iota delta [ret].
  rewrite Hp, Hr. reflexivity.
Qed.

Lemma recv_commit_zero env sl l :
  zero_group (group l) -> recv_commit env sl l = (Next tt, l).
Proof.
  intros Hg. destruct (zero_group_head _ Hg) as (h & t & Eg & _).
  pose proof (zero_group_members _ Hg) as Hall. rewrite Eg in Hall.
  pose proof (Forall_inv Hall) as (_ & _ & Hr & Ht & _).
  unfold recv_commit, get_head, bind, get. rewrite Eg. cbv beta iota delta [ret].
  rewrite Hr, Ht. reflexivity.
Qed.

Lemma recv_release_zero sl l :
  zero_group (group l) -> recv_release sl l = (Next tt, l).
Proof.
  intros Hg. pose proof (zero_group_members _ Hg) as Hall.
  unfold recv_release, map_members.
  set (f := fun (_ : Z) (x : ncclProxySubArgs) => _).
  assert (Hrun : forall xs i,
            Forall (fun x => nsteps x = 0 /\ fresh x) xs ->
            map_members_from f i xs l = (Next xs, l)).
  { induction xs as [|x xs IH]; intros i Hxs; cbn [map_members_from]; [reflexivity|].
    pose proof (Forall_inv Hxs) as (Hn & _ & _ & _ & Hd).
    unfold bind at 1. unfold f at 1. rewrite Hn, Hd.
    change (0 =? wrap64 0) with true. cbv beta iota delta [ret].
    unfold bind. now rewrite (IH (i + 1) (Forall_inv_tail Hxs)). }
  unfold bind, get. rewrite (Hrun _ 0 Hall).
  unfold upd_group, modify. now rewrite RecvFacts.set_group_eta.
Qed.

(** A pass over groups without steps changes nothing. *)
Lemma zero_pass (body : nat -> M glocal unit) st0 st gs :
  (forall s l, zero_group (group l) -> body s l = (Next tt, l)) ->
  subs (args st0) = concat gs -> Forall zero_group gs ->
  subs (args st) = subs (args st0) /\ idle (args st) = 1 /\ args_done (args st) = 0
  /\ net_of st = net_of st0 /\ same_op st0 st ->
  lands_with (group_loop (S (length (subs (args st0)))) 0 body st)
    (fun st' =>
       subs (args st') = subs (args st0) /\ idle (args st') = 1
       /\ args_done (args st') = 0 /\ net_of st' = net_of st0 /\ same_op st0 st')
    (fun _ => False).
Proof.
  intros Hbody Hsubs Hgs (Hs & Hi & Hd & Hnet & Hsame).
  set (K := fun l : glocal => op_idle l = 1 /\ op_done l = 0 /\ net l = net_of st0).
  assert (Hsubs' : subs (args st) = [] ++ concat gs) by (now rewrite Hs, Hsubs).
  assert (Hfuel : (length gs < S (length (subs (args st0))))%nat).
  { rewrite Hsubs.
    assert (Hne' : Forall (fun g : list ncclProxySubArgs => g <> []) gs)
      by (eapply Forall_impl; [exact Hgs|]; now intros g [H _]).
    pose proof (RecvFacts.concat_length_le gs Hne'). lia. }
  pose proof (RecvFacts.group_loop_lands zero_group eq K (fun _ => False)
                zero_group_head (fun g => eq_refl) (fun g g' E => f_equal length E)
                (fun l g H => H) body) as Hloop.
  eapply lands_with_impl;
    [apply (Hloop ltac:(intros s l Hg Hk; rewrite (Hbody s l Hg); cbn; auto)
                  gs (S (length (subs (args st0)))) [] st Hsubs' Hgs
                  ltac:(repeat split; assumption) Hfuel)
    | |auto].
  intros st' (gs' & Hs' & Hrel & _ & (K1 & K2 & K3) & Hsame').
  assert (gs' = gs) as -> by (clear -Hrel; induction Hrel; congruence).
  cbn [app] in Hs'. split; [congruence|].
  split; [exact K1|]. split; [exact K2|]. split; [exact K3|].
  eapply RecvFacts.same_op_trans; eauto.
Qed.

Lemma zero_recv_progress comm x86 env st0 gs :
  subs (args st0) = concat gs -> Forall zero_group gs -> subs (args st0) <> [] ->
  idle (args st0) = 1 -> args_done (args st0) = 0 ->
  total (fun st => st = st0) (recv_progress comm x86 env)
    (fun _ st =>
       subs (args st) = subs (args st0) /\ idle (args st) = 1
       /\ args_done (args st) = 0 /\ net_of st = net_of st0 /\ same_op st0 st)
    (fun _ _ => False).
Proof.
  intros Hsubs Hgs Hne Hi Hd.
  set (Mid := fun st : recvState =>
                subs (args st) = subs (args st0) /\ idle (args st) = 1
                /\ args_done (args st) = 0 /\ net_of st = net_of st0 /\ same_op st0 st).
  assert (Hpass : forall body : nat -> M glocal unit,
            (forall s l, zero_group (group l) -> body s l = (Next tt, l)) ->
            total Mid (group_loop (S (length (subs (args st0)))) 0 body)
                  (fun _ => Mid) (fun _ _ => False)).
  { intros body Hbody. eapply total_conseq;
      [apply lands_with_total; intros s Hs; apply (zero_pass body st0 s gs Hbody Hsubs Hgs Hs)
      |auto|auto|intros r s [_ []]]. }
  assert (Hbusy : total Mid return_if_busy (fun _ => Mid) (fun _ _ => False)).
  { unfold return_if_busy. apply total_get_bind. intros w Hw.
    pose proof Hw as (_ & Hwi & _). rewrite Hwi. change (1 =? 0) with false.
    apply total_ret. now intros s ->. }
  assert (Hn : nsubs (args st0) <> 0).
  { unfold nsubs. destruct (subs (args st0)); [congruence|cbn; lia]. }
  unfold recv_progress. apply total_get_bind. intros w ->. cbv zeta.
  apply total_bind with (R := fun _ => Mid).
  { destruct (Z.eqb_spec (nsubs (args st0)) 0) as [E|_]; [contradiction|].
    apply total_ret. intros s ->. unfold Mid. auto using RecvFacts.same_op_refl. }
  intros []. apply total_bind with (R := fun _ => Mid).
  { apply Hpass. intros s l Hg. now apply recv_post_zero. }
  intros []. apply total_bind with (R := fun _ => Mid); [exact Hbusy|].
  intros []. apply total_bind with (R := fun _ => Mid).
  { apply Hpass. intros s l Hg. now apply recv_test_zero. }
  intros []. apply total_bind with (R := fun _ => Mid); [exact Hbusy|].
  intros []. apply total_bind with (R := fun _ => Mid).
  { apply Hpass. intros s l Hg. now apply recv_commit_zero. }
  intros []. apply total_bind with (R := fun _ => Mid); [exact Hbusy|].
  intros []. apply total_bind with (R := fun _ => Mid).
  { apply Hpass. intros s l Hg. now apply recv_release_zero. }
  intros []. apply total_get_bind. intros w Hw.
  pose proof Hw as (Hws & _ & Hwd & _).
  assert (Hn' : nsubs (args w) <> 0) by (unfold nsubs in *; now rewrite Hws).
  rewrite Hwd. destruct (Z.eqb_spec 0 (nsubs (args w))) as [E|_]; [congruence|].
  apply total_ret. now intros s ->.
Qed.

(** Grouping subs without steps gives groups without steps. *)
Lemma zero_groups R (subs0 subs' : list ncclProxySubArgs) :
  grouped R subs' -> Forall fresh subs' ->
  Permutation (List.map static subs') (List.map static subs0) ->
  Forall (fun x => nsteps x = 0) subs0 ->
  exists gs, subs' = concat gs /\ Forall zero_group gs.
Proof.
  intros (gs & -> & Hu & _) Hf Hperm Hn0. exists gs. split; [reflexivity|].
  assert (Hn : Forall (fun x => nsteps x = 0) (concat gs)).
  { apply Forall_forall. intros x Hx.
    assert (Hin : In (static x) (List.map static subs0)).
    { eapply Permutation_in; [exact Hperm|]. apply in_map. now apply list_elem_of_In. }
    apply in_map_iff in Hin as (x0 & Hst & Hx0). apply list_elem_of_In in Hx0.
    pose proof (proj1 (Forall_forall _ _) Hn0 x0 Hx0) as H0. cbv beta in H0.
    unfold static in Hst. congruence. }
  clear Hperm Hn0.
  induction Hu as [|g gs [Hne Hg] _ IH]; [constructor|].
  cbn [concat] in Hf, Hn. apply Forall_app in Hf as [Hf1 Hf2].
  apply Forall_app in Hn as [Hn1 Hn2].
  constructor; [|now apply IH].
  split; [exact Hne|]. apply Forall_forall. intros x Hx.
  split; [exact (proj1 (proj1 (Forall_forall _ _) Hg x Hx))|].
  split; [exact (proj1 (Forall_forall _ _) Hn1 x Hx)
         |exact (proj1 (Forall_forall _ _) Hf1 x Hx)].
Qed.

(** The part of a call after the Ready block, on an op without
    steps. *)
Lemma zero_recv_tail comm x86 env st0 gs :
  state (args st0) = ncclProxyOpProgress ->
  subs (args st0) = concat gs -> Forall zero_group gs -> subs (args st0) <> [] ->
  args_done (args st0) = 0 ->
  total (fun st => st = st0)
    (upd_args (fun a => set_idle a 1) ;;
     let* st := get in
     when (is_state (state (args st)) ncclProxyOpProgress) (recv_progress comm x86 env) ;;
     (exit ncclSuccess : M recvState unit))
    (fun _ _ => False)
    (fun r st =>
       r = ncclSuccess
       /\ state (args st) = ncclProxyOpProgress /\ subs (args st) = subs (args st0)
       /\ args_done (args st) = 0 /\ net_of st = net_of st0 /\ idle (args st) = 1).
Proof.
  intros Hst Hsubs Hgs Hne Hd.
  set (st1 := set_args st0 (set_idle (args st0) 1)).
  apply total_bind with (R := fun _ s => s = st1).
  { apply total_modify. now intros s ->. }
  intros []. apply total_get_bind. intros w ->.
  apply total_bind
    with (R := fun _ st =>
                 state (args st) = ncclProxyOpProgress
                 /\ subs (args st) = subs (args st0)
                 /\ args_done (args st) = 0 /\ net_of st = net_of st0
                 /\ idle (args st) = 1).
  - cbn [st1 args set_args state set_idle]. rewrite Hst. cbn [is_state when].
    eapply total_conseq;
      [apply (zero_recv_progress comm x86 env st1 gs); cbn; auto| | |intros r s []].
    + auto.
    + intros a s (H1 & H2 & H3 & H4 & H5).
      split; [destruct H5 as (_ & _ & _ & ->); exact Hst|]. auto.
  - intros []. apply total_exit. auto.
Qed.

Lemma total_exits {S} (m : M S unit) (P : S -> Prop) st :
  total (fun s => s = st) m (fun _ _ => False) (fun r s => r = ncclSuccess /\ P s) ->
  exists st', m st = (Exit ncclSuccess, st') /\ P st'.
Proof.
  intros H. specialize (H st eq_refl).
  destruct (m st) as [[a|r|] st']; try contradiction.
  destruct H as (-> & Hp). now exists st'.
Qed.

(** What an op without steps looks like after a call. *)
Lemma zero_recv_call comm x86 env mr st :
  subs (args st) <> [] -> args_done (args st) = 0 ->
  (state (args st) = ncclProxyOpReady
   /\ Z.of_nat (length (subs (args st))) < 2 ^ 31
   /\ wrap64 (chunkSteps (args st)) <> 0
   /\ Forall (wf_conn (resources st) mr) (subs (args st))
   /\ Forall (fun x => nsteps x = 0) (subs (args st)))
  \/ (state (args st) = ncclProxyOpProgress
      /\ exists gs, subs (args st) = concat gs /\ Forall zero_group gs) ->
  exists st',
    recvProxyProgress comm x86 env st = (Exit ncclSuccess, st')
    /\ state (args st') = ncclProxyOpProgress
    /\ (exists gs, subs (args st') = concat gs /\ Forall zero_group gs)
    /\ subs (args st') <> []
    /\ args_done (args st') = 0 /\ net_of st' = net_of st /\ idle (args st') = 1.
Proof.
  intros Hne Hd Hcase. apply total_exits.
  unfold recvProxyProgress. apply total_get_bind. intros w ->.
  destruct Hcase as [(Hst & Hlen & Hch & Hwf & Hn)|(Hst & gs & Hsubs & Hgs)];
    rewrite Hst; cbn [is_state when].
  - destruct (GroupFacts.group_subs_spec (resources st) (chunkSteps (args st)) mr
                (subs (args st)) Hch Hwf Hlen) as (subs' & Hrun & Hgr & Hfresh & Hperm).
    destruct (zero_groups (resources st) (subs (args st)) subs' Hgr Hfresh Hperm Hn)
      as (gs & Hsubs' & Hgs).
    set (st1 := set_args st (set_state (set_subs (args st) subs') ncclProxyOpProgress)).
    assert (Hne1 : subs' <> []).
    { intros E. rewrite E in Hperm. apply Permutation_length in Hperm.
      rewrite length_map in Hperm. destruct (subs (args st)); [congruence|discriminate]. }
    apply total_bind with (R := fun _ s => s = st1).
    { unfold recv_ready. apply total_get_bind. intros w ->. cbv zeta. rewrite Hrun.
      apply total_modify. now intros s ->. }
    intros []. eapply total_conseq;
      [apply (zero_recv_tail comm x86 env st1 gs eq_refl Hsubs' Hgs Hne1 Hd)
      |auto|auto|].
    intros r s (Hr & H1 & H2 & H3 & H4 & H5). cbn in H2.
    split; [exact Hr|]. split; [exact H1|].
    split; [exists gs; split; [congruence|exact Hgs]|].
    split; [congruence|]. auto.
  - apply total_bind with (R := fun _ s => s = st).
    { apply total_ret. auto. }
    intros []. eapply total_conseq;
      [apply (zero_recv_tail comm x86 env st gs Hst Hsubs Hgs Hne Hd)|auto|auto|].
    intros r s (Hr & H1 & H2 & H3 & H4 & H5).
    split; [exact Hr|]. split; [exact H1|].
    split; [exists gs; split; [congruence|exact Hgs]|].
    split; [congruence|]. auto.
Qed.

Lemma zero_recv_calls comm x86 mr : forall envs env st,
  subs (args st) <> [] -> args_done (args st) = 0 ->
  (state (args st) = ncclProxyOpReady
   /\ Z.of_nat (length (subs (args st))) < 2 ^ 31
   /\ wrap64 (chunkSteps (args st)) <> 0
   /\ Forall (wf_conn (resources st) mr) (subs (args st))
   /\ Forall (fun x => nsteps x = 0) (subs (args st)))
  \/ (state (args st) = ncclProxyOpProgress
      /\ exists gs, subs (args st) = concat gs /\ Forall zero_group gs) ->
  exists st',
    recv_calls comm x86 (env :: envs) st = (Exit ncclSuccess, st')
    /\ state (args st') = ncclProxyOpProgress
    /\ args_done (args st') = 0 /\ net_of st' = net_of st /\ idle (args st') = 1.
Proof.
  induction envs as [|env' envs IH]; intros env st Hne Hd Hcase;
    destruct (zero_recv_call comm x86 env mr st Hne Hd Hcase)
      as (st1 & Hrun & H1 & H2 & H3 & H4 & H5 & H6);
    cbn [recv_calls]; rewrite Hrun.
  - exists st1. auto.
  - destruct (IH env' st1 H3 H4 (or_intror (conj H1 H2)))
      as (st' & Hrun' & G1 & G2 & G3 & G4).
    exists st'. split; [exact Hrun'|]. split; [exact G1|]. split; [exact G2|].
    split; [congruence|exact G4].
Qed.

End Recv.

(** An op of three subs without steps is still in progress after one
    call, and after four, on both sides. *)
Lemma zero_steps_not_completed :
  Forall (fun x => nsteps x = 0) (subs (SendProxy.args (SendProxy.example_state 0)))
  /\ Forall (fun x => nsteps x = 0) (subs (RecvProxy.args (RecvProxy.example_state 0)))
  /\ (forall n, In n [1; 4]%nat ->
        exists st',
          SendProxy.send_calls SendProxy.example_comm
            (repeat SendProxy.quiet_env n) (SendProxy.example_state 0)
          = (Exit ncclSuccess, st')
          /\ state (SendProxy.args st') <> ncclProxyOpNone)
  /\ (forall n, In n [1; 4]%nat ->
        exists st',
          RecvProxy.recv_calls SendProxy.example_comm true
            (repeat RecvProxy.quiet_env n) (RecvProxy.example_state 0)
          = (Exit ncclSuccess, st')
          /\ state (RecvProxy.args st') <> ncclProxyOpNone).
Proof.
  split; [repeat constructor|]. split; [repeat constructor|].
  split; intros n [<-|[<-|[]]]; eexists; (split; [vm_compute; reflexivity|discriminate]).
Qed.

(** C2. An op in which every sub has [nsteps == 0] (at least one sub,
    nothing counted as done) makes no call to the fabric, but it does
    not complete: the first call of [sendProxyProgress] or of
    [recvProxyProgress] takes it from Ready to Progress, and there it
    stays, whatever the number of calls; every call returns
    [ncclSuccess] with [idle] set. *)
Theorem zero_steps_stay_in_progress comm x86 mr
    (senv : Z -> SendProxy.sendEnv) (senvs : list (Z -> SendProxy.sendEnv))
    (renv : nat -> RecvProxy.recvEnv) (renvs : list (nat -> RecvProxy.recvEnv))
    (sst : SendProxy.sendState) (rst : RecvProxy.recvState) :
  state (SendProxy.args sst) = ncclProxyOpReady ->
  subs (SendProxy.args sst) <> [] ->
  wrap64 (chunkSteps (SendProxy.args sst)) <> 0 ->
  args_done (SendProxy.args sst) = 0 ->
  Forall (fun x => nsteps x = 0) (subs (SendProxy.args sst)) ->
  state (RecvProxy.args rst) = ncclProxyOpReady ->
  subs (RecvProxy.args rst) <> [] ->
  Z.of_nat (length (subs (RecvProxy.args rst))) < 2 ^ 31 ->
  wrap64 (chunkSteps (RecvProxy.args rst)) <> 0 ->
  Forall (RecvProxy.wf_conn (RecvProxy.resources rst) mr) (subs (RecvProxy.args rst)) ->
  args_done (RecvProxy.args rst) = 0 ->
  Forall (fun x => nsteps x = 0) (subs (RecvProxy.args rst)) ->
  (exists st',
     SendProxy.send_calls comm (senv :: senvs) sst = (Exit ncclSuccess, st')
     /\ state (SendProxy.args st') = ncclProxyOpProgress
     /\ SendProxy.net_of st' = SendProxy.net_of sst
     /\ idle (SendProxy.args st') = 1)
  /\ (exists st',
        RecvProxy.recv_calls comm x86 (renv :: renvs) rst = (Exit ncclSuccess, st')
        /\ state (RecvProxy.args st') = ncclProxyOpProgress
        /\ RecvProxy.net_of st' = RecvProxy.net_of rst
        /\ idle (RecvProxy.args st') = 1).
Proof.
  intros Hs1 Hs2 Hs3 Hs4 Hs5 Hr1 Hr2 Hr3 Hr4 Hr5 Hr6 Hr7. split.
  - destruct (zero_calls comm senvs senv sst) as (st' & Hrun & H1 & H2 & H3 & H4); auto.
    + rewrite Hs1. discriminate.
    + rewrite Hs1. discriminate.
    + exists st'. auto.
  - destruct (zero_recv_calls comm x86 mr renvs renv rst Hr2 Hr6)
      as (st' & Hrun & H1 & H2 & H3 & H4); [left; auto|].
    exists st'. auto.
Qed.

Lemma zero_steps_stay_in_progress_witness :
  let sst := SendProxy.example_state 0 in
  let rst := RecvProxy.example_state 0 in
  (state (SendProxy.args sst) = ncclProxyOpReady
   /\ subs (SendProxy.args sst) <> []
   /\ wrap64 (chunkSteps (SendProxy.args sst)) <> 0
   /\ args_done (SendProxy.args sst) = 0
   /\ Forall (fun x => nsteps x = 0) (subs (SendProxy.args sst)))
  /\ (state (RecvProxy.args rst) = ncclProxyOpReady
      /\ subs (RecvProxy.args rst) <> []
      /\ Z.of_nat (length (subs (RecvProxy.args rst))) < 2 ^ 31
      /\ wrap64 (chunkSteps (RecvProxy.args rst)) <> 0
      /\ Forall (RecvProxy.wf_conn (RecvProxy.resources rst) RecvProxy.example_maxRecvs)
                (subs (RecvProxy.args rst))
      /\ args_done (RecvProxy.args rst) = 0
      /\ Forall (fun x => nsteps x = 0) (subs (RecvProxy.args rst)))
  /\ (exists st',
        SendProxy.send_calls SendProxy.example_comm
          [SendProxy.quiet_env; SendProxy.quiet_env] sst = (Exit ncclSuccess, st')
        /\ state (SendProxy.args st') = ncclProxyOpProgress
        /\ SendProxy.net_of st' = SendProxy.net_of sst
        /\ idle (SendProxy.args st') = 1)
  /\ (exists st',
        RecvProxy.recv_calls SendProxy.example_comm true
          [RecvProxy.quiet_env; RecvProxy.quiet_env] rst = (Exit ncclSuccess, st')
        /\ state (RecvProxy.args st') = ncclProxyOpProgress
        /\ RecvProxy.net_of st' = RecvProxy.net_of rst
        /\ idle (RecvProxy.args st') = 1).
Proof.
  intros sst rst.
  assert (Hs1 : state (SendProxy.args sst) = ncclProxyOpReady) by reflexivity.
  assert (Hs2 : subs (SendProxy.args sst) <> []) by discriminate.
  assert (Hs3 : wrap64 (chunkSteps (SendProxy.args sst)) <> 0)
    by (vm_compute; discriminate).
  assert (Hs4 : args_done (SendProxy.args sst) = 0) by reflexivity.
  assert (Hs5 : Forall (fun x => nsteps x = 0) (subs (SendProxy.args sst)))
    by (repeat constructor).
  assert (Hr1 : state (RecvProxy.args rst) = ncclProxyOpReady) by reflexivity.
  assert (Hr2 : subs (RecvProxy.args rst) <> []) by discriminate.
  assert (Hr3 : Z.of_nat (length (subs (RecvProxy.args rst))) < 2 ^ 31)
    by (vm_compute; reflexivity).
  assert (Hr4 : wrap64 (chunkSteps (RecvProxy.args rst)) <> 0)
    by (vm_compute; discriminate).
  assert (Hr5 : Forall (RecvProxy.wf_conn (RecvProxy.resources rst)
                          RecvProxy.example_maxRecvs) (subs (RecvProxy.args rst)))
    by (repeat constructor; vm_compute; congruence).
  assert (Hr6 : args_done (RecvProxy.args rst) = 0) by reflexivity.
  assert (Hr7 : Forall (fun x => nsteps x = 0) (subs (RecvProxy.args rst)))
    by (repeat constructor).
  split; [auto 10|]. split; [auto 10|].
  exact (zero_steps_stay_in_progress SendProxy.example_comm true
           RecvProxy.example_maxRecvs SendProxy.quiet_env [SendProxy.quiet_env]
           RecvProxy.quiet_env [RecvProxy.quiet_env] sst rst
           Hs1 Hs2 Hs3 Hs4 Hs5 Hr1 Hr2 Hr3 Hr4 Hr5 Hr6 Hr7).
Defined.

End ZeroStepFacts.

(** ** Bank map: reading a slot back *)

Module PointerFacts.
Import BankMap BankMapFacts.

Lemma view_ptr_addSlot m sh dv memSize n v b :
  view_ptr v (mem_at (addSlot m sh dv memSize n) b) = view_ptr v (mem_at m b).
Proof.
  unfold addSlot, NCCL_NET_MAP_ADD_POINTER, mem_at, set_mem, upd.
  destruct sh, dv; cbn [Z.b2z Z.eqb negb mems set_offset]; try reflexivity;
    match goal with |- context [b =? ?k] => destruct (Z.eqb_spec b k) as [->|] end;
    destruct v; reflexivity.
Qed.

(** X1.  Reading back a slot that [NCCL_NET_MAP_ADD_POINTER] has just
    added, through [NCCL_NET_MAP_GET_POINTER] in either view: the result
    is the pointer of the bank the flags select (index [dev + 2 *
    shared]) plus the bank's size before the call for a dedicated slot,
    and the bank's pointer itself for a shared slot.  The pointers of
    the other slots do not move, and every slot of a zero-filled map
    reads NULL. *)
Theorem added_slot_pointer (m : connectMap) (sh dv : bool) (memSize : Z)
    (n : offsetName) (v : view) :
  0 <= size (mem_at m (own_bank dv)) < 2 ^ 29 ->
  let m' := addSlot m sh dv memSize n in
  NCCL_NET_MAP_GET_POINTER m' v n
  = view_ptr v (mem_at m (Z.b2z dv + 2 * Z.b2z sh))
    + (if sh then 0 else size (mem_at m (own_bank dv)))
  /\ (forall n', n' <> n ->
        NCCL_NET_MAP_GET_POINTER m' v n' = NCCL_NET_MAP_GET_POINTER m v n')
  /\ (forall n', NCCL_NET_MAP_GET_POINTER freshMap v n' = 0).
Proof.
  intros Hsz m'. subst m'.
  set (off := if sh then 0 else size (mem_at m (own_bank dv))).
  assert (Hoff : 0 <= off < 2 ^ 29) by (subst off; destruct sh; lia).
  split; [|split].
  - unfold NCCL_NET_MAP_GET_POINTER. rewrite addSlot_word. fold off.
    destruct (slot_word_bits sh dv off Hoff) as (B29 & B30 & B31 & Hland).
    assert (Hr : 0 <= slot_word sh dv off < 2 ^ 32) by apply wrap32_range.
    destruct (top_bits _ Hr) as (q & Hq & H29 & H30 & T29 & T30 & T31).
    unfold NCCL_NET_MAP_OFFSET_NULL, NCCL_NET_MAP_OFFSET_BANK.
    rewrite H29, H30, Hland, view_ptr_addSlot.
    rewrite T29 in B29. rewrite T30 in B30. rewrite T31 in B31.
    assert (Hc : q = 0 \/ q = 1 \/ q = 2 \/ q = 3 \/ q = 4 \/ q = 5 \/ q = 6 \/ q = 7)
      by lia.
    destruct Hc as [->|[->|[->|[->|[->|[->|[->| ->]]]]]]];
      cbn in B29, B30, B31; subst sh dv; try discriminate; reflexivity.
  - intros n' Hne. unfold NCCL_NET_MAP_GET_POINTER.
    rewrite addSlot_other by exact Hne. now rewrite view_ptr_addSlot.
  - intros n'. destruct n'; reflexivity.
Qed.

Lemma added_slot_pointer_witness :
  let m := set_mem (addSlot freshMap false false 4096 (buffs 0)) NCCL_NET_MAP_HOSTMEM
             (mkMem 7000 7000 4096 0) in
  NCCL_NET_MAP_GET_POINTER (addSlot m false false 64 sendMem) cpu sendMem = 7000 + 4096.
Proof.
  intros m.
  destruct (added_slot_pointer m false false 64 sendMem cpu) as (H & _).
  - cbn. lia.
  - exact H.
Defined.

(** X2.  The offset field holds 29 bits and [NCCL_NET_MAP_ADD_POINTER]
    does not check the bank's size against it: a dedicated host slot
    appended when the host bank already holds [2^29 <= size < 2^30]
    bytes gets a word whose USED bit is clear and whose DEVMEM bit is
    set, so the slot is not NULL, [NCCL_NET_MAP_DEV_MEM] takes it for
    device memory, and [NCCL_NET_MAP_GET_POINTER] resolves it in the
    device bank, [size - 2^29] bytes in. *)
Theorem host_slot_beyond_offset_field (m : connectMap) (memSize : Z)
    (n : offsetName) (v : view) :
  let s := size (mem_at m NCCL_NET_MAP_HOSTMEM) in
  2 ^ 29 <= s < 2 ^ 30 ->
  let m' := addSlot m false false memSize n in
  Z.land (get_offset m' n) NCCL_NET_MAP_MASK_USED = 0
  /\ NCCL_NET_MAP_OFFSET_NULL (get_offset m' n) = false
  /\ devMem m' n = true
  /\ NCCL_NET_MAP_GET_POINTER m' v n
     = view_ptr v (mem_at m NCCL_NET_MAP_DEVMEM) + (s - 2 ^ 29).
Proof.
  intros s Hs m'. subst m'.
  assert (Hw : get_offset (addSlot m false false memSize n) n = 2 ^ 30 + (s - 2 ^ 29)).
  { rewrite addSlot_word. unfold slot_word. cbn [Z.b2z own_bank]. fold s.
    rewrite wrap32_small by lia. lia. }
  set (o := s - 2 ^ 29) in *.
  assert (Ho : 0 <= o < 2 ^ 29) by (subst o; lia).
  assert (H29 : Z.shiftr (2 ^ 30 + o) 29 = 2).
  { rewrite Z.shiftr_div_pow2 by lia.
    replace (2 ^ 30 + o) with (o + 2 * 2 ^ 29) by lia.
    rewrite Z.div_add by lia. rewrite Z.div_small; lia. }
  assert (H30 : Z.shiftr (2 ^ 30 + o) 30 = 1).
  { rewrite Z.shiftr_div_pow2 by lia.
    replace (2 ^ 30 + o) with (o + 1 * 2 ^ 30) by lia.
    rewrite Z.div_add by lia. rewrite Z.div_small; lia. }
  assert (B29 : Z.testbit (2 ^ 30 + o) 29 = false).
  { rewrite Z.testbit_odd, H29. reflexivity. }
  assert (B30 : Z.testbit (2 ^ 30 + o) 30 = true).
  { rewrite Z.testbit_odd, H30. reflexivity. }
  assert (Hland : Z.land (2 ^ 30 + o) NCCL_NET_MAP_MASK_OFFSET = o).
  { change NCCL_NET_MAP_MASK_OFFSET with (Z.ones 29).
    rewrite Z.land_ones by lia.
    replace (2 ^ 30 + o) with (o + 2 * 2 ^ 29) by lia.
    rewrite Z.mod_add by lia. apply Z.mod_small. lia. }
  split; [|split; [|split]].
  - rewrite Hw. change NCCL_NET_MAP_MASK_USED with (2 ^ 29).
    rewrite land_pow2 by lia. now rewrite B29.
  - rewrite Hw. unfold NCCL_NET_MAP_OFFSET_NULL. now rewrite H29.
  - unfold devMem. rewrite Hw, dev_mem_bit. exact B30.
  - unfold NCCL_NET_MAP_GET_POINTER. rewrite Hw.
    unfold NCCL_NET_MAP_OFFSET_NULL, NCCL_NET_MAP_OFFSET_BANK.
    rewrite H29, H30, Hland, view_ptr_addSlot. reflexivity.
Qed.

Lemma host_slot_beyond_offset_field_witness :
  let m := set_mem freshMap NCCL_NET_MAP_HOSTMEM (mkMem 0 0 (2 ^ 29 + 4096) 0) in
  devMem (addSlot m false false 64 recvMem) recvMem = true.
Proof.
  intros m.
  destruct (host_slot_beyond_offset_field m 64 recvMem cpu) as (_ & _ & H & _).
  - cbn. lia.
  - exact H.
Defined.

End PointerFacts.

(** ** Shared buffer pool: the life cycle of an entry *)

Module PoolFacts.
Import SharedPool SharedPoolFacts PoolLifecycle.
Local Open Scope exec_scope.

Lemma lift_run {A} (m : M pool A) st (o : outs) a st' :
  m st = (a, st') -> lift m (st, o) = (a, (st', o)).
Proof. intros H. unfold lift. cbn [fst snd]. now rewrite H. Qed.

Lemma set_outs_run (f : outs -> outs) (st : pool) (o : outs) :
  set_outs f (st, o) = (Next tt, (st, f o)).
Proof. reflexivity. Qed.

Lemma set_dir_dir type peer : set_dir type peer (dir type peer) = peer.
Proof. unfold set_dir, dir. destruct (type =? 0), peer; reflexivity. Qed.

Section Entry.
Variables (ps : list (option ncclProxyPeer)) (L type : Z) (peer : ncclProxyPeer).
Hypothesis HL : 0 <= L < Z.of_nat (length ps).

Lemma entry_lookup z :
  <[Z.to_nat L := Some (set_dir type peer z)]> ps !! Z.to_nat L
  = Some (Some (set_dir type peer z)).
Proof. apply list_lookup_insert_eq. lia. Qed.

Lemma lift_read_state z lg (o : outs) :
  lift (read_state L type)
    (mkPool (Some (<[Z.to_nat L := Some (set_dir type peer z)]> ps)) lg, o)
  = (Next z, (mkPool (Some (<[Z.to_nat L := Some (set_dir type peer z)]> ps)) lg, o)).
Proof.
  apply lift_run. erewrite read_state_at; [|reflexivity|lia|apply entry_lookup].
  now rewrite dir_set_dir.
Qed.

Lemma lift_write_state z y lg (o : outs) :
  lift (write_state L type y)
    (mkPool (Some (<[Z.to_nat L := Some (set_dir type peer z)]> ps)) lg, o)
  = (Next tt, (mkPool (Some (<[Z.to_nat L := Some (set_dir type peer y)]> ps)) lg, o)).
Proof.
  apply lift_run. erewrite write_state_at; [|reflexivity|lia|apply entry_lookup].
  cbn [log]. now rewrite list_insert_insert_eq, set_dir_set_dir.
Qed.

Lemma lift_emit e a lg (o : outs) :
  lift (emit e) (mkPool a lg, o) = (Next tt, (mkPool a (lg ++ [e]), o)).
Proof. reflexivity. Qed.

End Entry.

Ltac pool_rewrite HL :=
  first [ rewrite lift_write_state by exact HL
        | rewrite lift_read_state by exact HL
        | rewrite lift_emit
        | rewrite set_outs_run
        | progress cbn [ret exit] ].

Ltac pool_step HL :=
  first [ unfold bind at 1; pool_rewrite HL
        | unfold bind at 1; unfold bind at 1; pool_rewrite HL
        | unfold bind at 1; unfold bind at 1; unfold bind at 1; pool_rewrite HL ];
  cbv beta iota;
  cbn [fst snd out_gpuPtr out_cpuPtr out_size out_ipc
       refcount p_size cudaBuff hostBuff p_ipc].

Lemma sharedBuffersInit_spec comm env cuda L type sameProcess nChannels st o :
  (cuda =? 0) && (sameProcess =? 0) = false ->
  0 <= L < Z.of_nat (length (peers_of comm st)) ->
  let x := dir type (peer_of comm st L) in
  init_succeeds comm env cuda L sameProcess st x ->
  (sameProcess <> 0 -> out_gpuPtr o <> None -> out_cpuPtr o <> None) ->
  sharedBuffersInit comm env cuda L type sameProcess nChannels (st, o)
  = (Exit ncclSuccess,
     (after_init comm env cuda L type sameProcess nChannels st,
      init_outs cuda sameProcess (inited comm env cuda sameProcess nChannels x) o)).
Proof.
  intros Hguard HL x (Hcp & Hcpeer & Hcuda & Hhost) Hout.
  unfold sharedBuffersInit. rewrite Hguard.
  unfold bind at 1. unfold lift at 1. cbn [get fst snd].
  set (ps0 := peers_of comm st) in *.
  set (peer0 := peer_of comm st L) in *.
  set (lg0 := log st ++ (if bool_decide (localPeers st = None)
                         then [EvCallocPeers (localRanks comm)] else [])).
  unfold bind at 1.
  match goal with
  | |- context [when (bool_decide (localPeers st = None)) ?m (st, o)] =>
      assert (H1 : when (bool_decide (localPeers st = None)) m (st, o)
                   = (Next tt, (mkPool (Some ps0) lg0, o)))
  end.
  { subst ps0 lg0. unfold peers_of. destruct st as [[ps|] lg]; cbn [localPeers log].
    - rewrite bool_decide_eq_false_2 by discriminate. cbn [when]. now rewrite app_nil_r.
    - rewrite bool_decide_eq_true_2 by reflexivity. cbn [when].
      rewrite (Hcp eq_refl). reflexivity. }
  rewrite H1. clear H1.
  assert (Hlk : exists p, ps0 !! Z.to_nat L = Some p).
  { apply lookup_lt_is_Some_2. lia. }
  destruct Hlk as [p Hp].
  unfold bind at 1.
  erewrite lift_run; [|apply (read_peer_at _ ps0 L p); [reflexivity|lia|exact Hp]].
  set (lg1 := lg0 ++ (if peer_missing comm st L then [EvCallocPeer L] else [])).
  unfold bind at 1.
  match goal with
  | |- context [when (bool_decide (p = None)) ?m ?s] =>
      assert (H2 : when (bool_decide (p = None)) m s
                   = (Next tt, (mkPool (Some (<[Z.to_nat L := Some (set_dir type peer0 x)]> ps0))
                                       lg1, o)))
  end.
  { subst lg1 x. rewrite set_dir_dir. unfold peer_missing in *. subst peer0.
    unfold peer_of. fold ps0. fold ps0 in Hcpeer. rewrite Hp in *.
    destruct p as [peer|].
    - rewrite bool_decide_eq_false_2 by discriminate. cbn [when].
      rewrite app_nil_r, list_insert_id by exact Hp. reflexivity.
    - rewrite bool_decide_eq_true_2 by reflexivity. cbn [when].
      rewrite (Hcpeer eq_refl). unfold bind at 1. cbn [NCCLCHECK ret].
      unfold bind at 1. rewrite lift_emit.
      erewrite lift_run; [reflexivity|].
      erewrite write_peer_at; [reflexivity|reflexivity|lia]. }
  rewrite H2. clear H2.
  clear Hp p Hcp Hcpeer.
  unfold bind at 1. rewrite lift_read_state by exact HL.
  cbn [refcount p_size cudaBuff hostBuff p_ipc].
  unfold after_init, init_allocs, init_outs, init_buffer, inited, size_of,
    needs_cuda, needs_host in *.
  fold ps0 peer0 x.
  match goal with
  | |- _ = (_, (mkPool _ (log st ++ ?a ++ ?b ++ ?rest), _)) =>
      replace (log st ++ a ++ b ++ rest) with (lg1 ++ rest)
        by (subst lg1 lg0; now rewrite <- !app_assoc)
  end.
  clearbody lg1. clear lg0.
  set (sz := if p_size x =? 0
             then int32 (nChannels * NCCL_SHARED_STEPS * p2pChunkSize comm)
             else p_size x).
  match goal with
  | |- context [if p_size x =? 0 then ?a else ?b] =>
      match type of a with
      | ncclProxySharedP2p =>
          replace (if p_size x =? 0 then a else b)
            with (mkP2p (int32 (refcount x + 1)) sz (cudaBuff x) (hostBuff x) (p_ipc x))
            by (subst sz; now destruct (p_size x =? 0))
      end
  end.
  cbn [refcount p_size cudaBuff hostBuff p_ipc].
  clearbody sz.
  destruct (Z.eqb_spec cuda 0) as [Hc|Hc], (Z.eqb_spec sameProcess 0) as [Hs|Hs];
    try discriminate Hguard; clear Hguard;
    destruct (cudaBuff x =? 0) eqn:Ecb; destruct (hostBuff x =? 0) eqn:Ehb;
    cbn [negb andb when] in *.
  all: try (destruct Hcuda as [Hcc Hipc]; [reflexivity|]; try rewrite Hcc;
            try rewrite (Hipc ltac:(assumption))).
  all: try rewrite (Hhost eq_refl).
  all: cbn [NCCLCHECK CUDACHECK].
  all: destruct o as [[og|] [oc|] os oi]; cbn [out_gpuPtr out_cpuPtr out_size out_ipc] in *;
    try (exfalso; now apply Hout).
  all: repeat pool_step HL.
  all: cbn [store_opt app]; rewrite <- ?app_assoc, ?app_nil_r; reflexivity.
Qed.

Lemma peers_of_some comm st ps : localPeers st = Some ps -> peers_of comm st = ps.
Proof. unfold peers_of. now intros ->. Qed.

Lemma peer_of_some comm st ps L peer :
  localPeers st = Some ps -> ps !! Z.to_nat L = Some (Some peer) ->
  peer_of comm st L = peer.
Proof. intros Hps Hp. unfold peer_of. now rewrite (peers_of_some _ _ _ Hps), Hp. Qed.

Lemma peer_missing_some comm st ps L peer :
  localPeers st = Some ps -> ps !! Z.to_nat L = Some (Some peer) ->
  peer_missing comm st L = false.
Proof. intros Hps Hp. unfold peer_missing. now rewrite (peers_of_some _ _ _ Hps), Hp. Qed.

Lemma sharedBuffersInit_shares_entry_gen
    (comm : comm_t) (env : env_t) (cuda L type sameProcess nChannels : Z)
    (st : pool) (ps : list (option ncclProxyPeer)) (peer : ncclProxyPeer) (o : outs) :
  localPeers st = Some ps -> 0 <= L -> ps !! Z.to_nat L = Some (Some peer) ->
  let x := dir type peer in
  p_size x <> 0 ->
  init_buffer cuda x <> 0 ->
  (cuda =? 0) && (sameProcess =? 0) = false ->
  (sameProcess <> 0 -> out_gpuPtr o <> None -> out_cpuPtr o <> None) ->
  sharedBuffersInit comm env cuda L type sameProcess nChannels (st, o)
  = (Exit ncclSuccess,
     (mkPool (Some (<[Z.to_nat L :=
                       Some (set_dir type peer
                               (with_refcount x (int32 (refcount x + 1))))]> ps))
             (log st),
      mkOuts (store_opt (out_gpuPtr o)
                (if negb (sameProcess =? 0) then init_buffer cuda x else 0))
             (store_opt (out_cpuPtr o) (init_buffer cuda x))
             (store_opt (out_size o) (p_size x))
             (if negb (sameProcess =? 0) then out_ipc o
              else store_opt (out_ipc o) (p_ipc x)))).
Proof.
  intros Hps HL Hp x Hsz Hbuf Hguard Hout.
  assert (Hlt : (Z.to_nat L < length ps)%nat) by (now apply lookup_lt_Some in Hp).
  assert (Hnc : needs_cuda cuda x = false).
  { unfold needs_cuda, init_buffer in *. destruct (cuda =? 0); [reflexivity|].
    cbn [negb andb] in *. now apply Z.eqb_neq. }
  assert (Hnh : needs_host cuda x = false).
  { unfold needs_host, init_buffer in *. destruct (cuda =? 0); [|reflexivity].
    cbn [negb andb] in *. now apply Z.eqb_neq. }
  rewrite sharedBuffersInit_spec; auto.
  - unfold after_init, init_allocs, init_outs, inited, size_of.
    rewrite (peers_of_some _ _ _ Hps), (peer_of_some _ _ _ _ _ Hps Hp),
      (peer_missing_some _ _ _ _ _ Hps Hp). fold x.
    rewrite Hps, Hnc, Hnh, bool_decide_eq_false_2 by discriminate.
    apply Z.eqb_neq in Hsz. rewrite Hsz. cbn [app andb].
    rewrite app_nil_r. unfold init_buffer. cbn [cudaBuff hostBuff p_size p_ipc].
    reflexivity.
  - rewrite (peers_of_some _ _ _ Hps). lia.
  - rewrite (peer_of_some _ _ _ _ _ Hps Hp). fold x.
    unfold init_succeeds. rewrite Hps, Hnc, Hnh, (peer_missing_some _ _ _ _ _ Hps Hp).
    repeat split; discriminate.
Qed.

(** X3.  A pool entry whose size is set and whose buffer of the
    requested kind exists is shared by every later [sharedBuffersInit]
    of its direction.  A request for host memory of another process
    ([cuda] and [sameProcess] both 0) is refused with
    [ncclInternalError] and changes nothing.  Any other request returns
    [ncclSuccess], adds one to the reference count and changes nothing
    else in the pool; it asks nothing of the allocator or of the
    runtime, whatever they would answer; and it hands out the existing
    buffer and the size recorded by the first call, whatever [nChannels]
    it is given.  (A caller that passes [gpuPtr] passes [cpuPtr].) *)
Theorem sharedBuffersInit_shares_entry
    (comm : comm_t) (env : env_t) (cuda L type sameProcess nChannels : Z)
    (st : pool) (ps : list (option ncclProxyPeer)) (peer : ncclProxyPeer) (o : outs) :
  localPeers st = Some ps -> 0 <= L -> ps !! Z.to_nat L = Some (Some peer) ->
  let x := dir type peer in
  p_size x <> 0 ->
  init_buffer cuda x <> 0 ->
  (sameProcess <> 0 -> out_gpuPtr o <> None -> out_cpuPtr o <> None) ->
  sharedBuffersInit comm env cuda L type sameProcess nChannels (st, o)
  = if (cuda =? 0) && (sameProcess =? 0)
    then (Exit ncclInternalError, (st, o))
    else
      (Exit ncclSuccess,
       (mkPool (Some (<[Z.to_nat L :=
                         Some (set_dir type peer
                                 (with_refcount x (int32 (refcount x + 1))))]> ps))
               (log st),
        mkOuts (store_opt (out_gpuPtr o)
                  (if negb (sameProcess =? 0) then init_buffer cuda x else 0))
               (store_opt (out_cpuPtr o) (init_buffer cuda x))
               (store_opt (out_size o) (p_size x))
               (if negb (sameProcess =? 0) then out_ipc o
                else store_opt (out_ipc o) (p_ipc x)))).
Proof.
  intros Hps HL Hp x Hsz Hbuf Hout.
  destruct ((cuda =? 0) && (sameProcess =? 0)) eqn:Hguard.
  - unfold sharedBuffersInit. now rewrite Hguard.
  - now apply sharedBuffersInit_shares_entry_gen.
Qed.

Lemma sharedBuffersInit_shares_entry_witness :
  let comm := mkComm 2 1024 in
  let env := mkEnv ncclInternalError ncclInternalError (ncclInternalError, 0) (false, 0)
                   (ncclInternalError, 0) false ncclInternalError in
  let peer := mkPeer (mkP2p 1 32768 4096 0 0) zeroP2p in
  sharedBuffersInit comm env 1 1 0 1 64
    (mkPool (Some [None; Some peer]) [], mkOuts None (Some 0) (Some 0) None)
  = (Exit ncclSuccess,
     (mkPool (Some [None; Some (mkPeer (mkP2p 2 32768 4096 0 0) zeroP2p)]) [],
      mkOuts None (Some 4096) (Some 32768) None)).
Proof.
  intros comm env peer.
  apply (sharedBuffersInit_shares_entry comm env 1 1 0 1 64
           (mkPool (Some [None; Some peer]) []) [None; Some peer] peer);
    try reflexivity; try lia; try discriminate.
Defined.

Lemma sharedBuffersDestroy_frees comm env st ps L type peer :
  localPeers st = Some ps ->
  Z.of_nat (length ps) = localRanks comm ->
  0 <= L ->
  ps !! Z.to_nat L = Some (Some peer) ->
  p_size (dir type peer) <> 0 ->
  (int32 (refcount (dir type peer) - 1) = 0 ->
   (cudaBuff (dir type peer) <> 0 -> cudaFree env = true)
   /\ (hostBuff (dir type peer) <> 0 -> cudaHostFree env = ncclSuccess)) ->
  sharedBuffersDestroy comm env L type st
  = (Exit ncclSuccess, destroyed st ps L type peer).
Proof.
  intros Hps Hlen HL Hp Hsz Henv.
  assert (HLlt : (Z.to_nat L < length ps)%nat) by (apply lookup_lt_Some in Hp; lia).
  unfold sharedBuffersDestroy, destroyed.
  set (x := dir type peer) in *.
  set (r := int32 (refcount x - 1)) in *.
  set (peer' := set_dir type peer (with_refcount x r)).
  unfold bind at 1. cbn [get]. unfold bind at 1.
  match goal with
  | |- context [when ?c ?m st] => assert (H1 : when c m st = (Next tt, st))
  end.
  { destruct st as [lp lg]; cbn [localPeers] in *. subst lp.
    now rewrite bool_decide_eq_false_2 by discriminate. }
  rewrite H1. clear H1. unfold bind at 1.
  rewrite (read_peer_at st ps L (Some peer)) by auto.
  unfold bind at 1.
  match goal with
  | |- context [when ?c ?m st] =>
      assert (H2 : when c m st = (Next tt, st))
        by (now rewrite bool_decide_eq_false_2 by discriminate)
  end.
  rewrite H2. clear H2. unfold bind at 1.
  rewrite (read_state_at st ps L type peer) by auto. fold x.
  destruct (Z.eqb_spec (p_size x) 0) as [E|_]; [contradiction|]. cbn [when].
  unfold bind at 1. cbn [ret]. unfold bind at 1.
  rewrite (write_state_at st ps L type peer) by auto.
  cbn [refcount cudaBuff hostBuff]. fold r.
  change (mkP2p r (p_size x) (cudaBuff x) (hostBuff x) (p_ipc x))
    with (with_refcount x r). fold peer'.
  set (st1 := mkPool (Some (<[Z.to_nat L:=Some peer']> ps)) (log st)).
  assert (Hp1 : <[Z.to_nat L:=Some peer']> ps !! Z.to_nat L = Some (Some peer'))
    by now apply list_lookup_insert_eq.
  assert (Hfree :
    when (r =? 0)
      (when (negb (cudaBuff x =? 0))
         (CUDACHECK (cudaFree env) ;; emit (EvCudaFree (cudaBuff x))) ;;
       when (negb (hostBuff x =? 0))
         (NCCLCHECK (cudaHostFree env) ;; emit (EvCudaHostFree (hostBuff x)))) st1
    = (Next tt, mkPool (localPeers st1)
                  (log st1 ++ (if r =? 0 then buffer_frees x else [])))).
  { unfold buffer_frees.
    destruct (Z.eqb_spec r 0) as [Hr|_]; cbn [when];
      [|subst st1; cbn; now rewrite app_nil_r].
    destruct (Henv Hr) as [Hcf Hhf].
    destruct (Z.eqb_spec (cudaBuff x) 0) as [Ec|Ec];
      destruct (Z.eqb_spec (hostBuff x) 0) as [Eh|Eh];
      try rewrite (Hcf Ec); try rewrite (Hhf Eh); subst st1;
      unfold when, bind, CUDACHECK, NCCLCHECK, emit, modify, ret; cbn;
      rewrite ?app_nil_r, <- ?app_assoc; reflexivity. }
  unfold bind at 1. rewrite Hfree. cbn [localPeers log st1].
  set (lg := log st ++ (if r =? 0 then buffer_frees x else [])).
  unfold bind at 1.
  erewrite read_peer_at; [|reflexivity|exact HL|exact Hp1].
  cbv beta iota.
  destruct (negb (refcount (send peer') =? 0) || negb (refcount (recv peer') =? 0));
    [reflexivity|].
  unfold bind at 1. unfold emit at 1, modify at 1. unfold bind at 1.
  erewrite write_peer_at; [|reflexivity|cbn [log localPeers]; rewrite length_insert; lia].
  rewrite list_insert_insert_eq. cbn [log localPeers].
  unfold bind at 1.
  erewrite any_peer_left_spec; [|reflexivity|rewrite length_insert; lia].
  destruct (forallb is_null (<[Z.to_nat L:=None]> ps)); [|reflexivity].
  cbn. rewrite <- app_assoc. reflexivity.
Qed.

Lemma forallb_null_replicate n : forallb is_null (replicate n (None : option ncclProxyPeer)) = true.
Proof. induction n; cbn; auto. Qed.

Lemma insert_none_replicate n i :
  <[i := None]> (replicate n (None : option ncclProxyPeer)) = replicate n None.
Proof.
  destruct (decide (i < n)%nat) as [Hlt|Hge].
  - apply list_insert_id. now apply lookup_replicate_2.
  - apply list_insert_ge. rewrite length_replicate. lia.
Qed.

Lemma init_destroy_round_trip
    (comm : comm_t) (env : env_t) (cuda L type sameProcess nChannels : Z)
    (lg : list event) (o : outs) :
  (cuda =? 0) && (sameProcess =? 0) = false ->
  0 <= L < localRanks comm ->
  calloc_peers env = ncclSuccess -> calloc_peer env = ncclSuccess ->
  (cuda <> 0 ->
   fst (cudaCalloc env) = ncclSuccess /\ cudaFree env = true
   /\ (sameProcess = 0 -> fst (ipcGetMemHandle env) = true)) ->
  (cuda = 0 -> fst (cudaHostCalloc env) = ncclSuccess /\ cudaHostFree env = ncclSuccess) ->
  (sameProcess <> 0 -> out_gpuPtr o <> None -> out_cpuPtr o <> None) ->
  let sz := int32 (nChannels * NCCL_SHARED_STEPS * p2pChunkSize comm) in
  let buf := if cuda =? 0 then snd (cudaHostCalloc env) else snd (cudaCalloc env) in
  sz <> 0 -> buf <> 0 ->
  exists st1 o1,
    sharedBuffersInit comm env cuda L type sameProcess nChannels (mkPool None lg, o)
    = (Exit ncclSuccess, (st1, o1))
    /\ out_cpuPtr o1 = store_opt (out_cpuPtr o) buf
    /\ out_size o1 = store_opt (out_size o) sz
    /\ sharedBuffersDestroy comm env L type st1
       = (Exit ncclSuccess,
          mkPool None
            (lg ++ [EvCallocPeers (localRanks comm); EvCallocPeer L]
                ++ (if cuda =? 0 then [EvCudaHostCalloc buf sz]
                    else EvCudaCalloc buf sz
                         :: (if sameProcess =? 0 then [EvIpcGetMemHandle buf] else []))
                ++ [if cuda =? 0 then EvCudaHostFree buf else EvCudaFree buf;
                    EvFreePeer L; EvFreePeers])).
Proof.
  intros Hguard HL Hcp Hcpeer Hcuda Hhost Hout sz buf Hsz Hbuf.
  set (st := mkPool None lg).
  set (n := Z.to_nat (localRanks comm)).
  assert (Hps : peers_of comm st = replicate n None) by reflexivity.
  assert (Hlk : replicate n (None : option ncclProxyPeer) !! Z.to_nat L = Some None)
    by (apply lookup_replicate_2; subst n; lia).
  assert (Hpeer : peer_of comm st L = zeroPeer) by (unfold peer_of; now rewrite Hps, Hlk).
  assert (Hmiss : peer_missing comm st L = true)
    by (unfold peer_missing; now rewrite Hps, Hlk).
  assert (Hx : dir type zeroPeer = zeroP2p) by (unfold dir; now destruct (type =? 0)).
  eexists _, _. split.
  { apply sharedBuffersInit_spec; auto.
    - rewrite Hps, length_replicate. subst n. lia.
    - rewrite Hpeer, Hx. unfold init_succeeds, needs_cuda, needs_host.
      cbn [zeroP2p cudaBuff hostBuff Z.eqb andb].
      split; [auto|]. split; [auto|]. split.
      + destruct (Z.eqb_spec cuda 0) as [E|E]; [discriminate|]. intros _.
        destruct (Hcuda E) as (? & _ & ?). auto.
      + destruct (Z.eqb_spec cuda 0) as [E|E]; [|discriminate]. intros _.
        now apply Hhost. }
  rewrite Hpeer, Hx.
  set (y := inited comm env cuda sameProcess nChannels zeroP2p).
  assert (Hy : y = mkP2p 1 sz (if cuda =? 0 then 0 else buf) (if cuda =? 0 then buf else 0)
                         (if negb (cuda =? 0) && (sameProcess =? 0)
                          then snd (ipcGetMemHandle env) else 0)).
  { subst y buf. unfold inited, size_of, needs_cuda, needs_host. cbn [zeroP2p refcount p_size cudaBuff hostBuff p_ipc].
    destruct (cuda =? 0); reflexivity. }
  split; [|split].
  - unfold init_outs, init_buffer. rewrite Hy. cbn [out_cpuPtr cudaBuff hostBuff].
    subst buf. now destruct (cuda =? 0).
  - unfold init_outs. rewrite Hy. reflexivity.
  - unfold after_init. rewrite Hps, Hpeer, Hx. fold y.
    set (peer1 := set_dir type zeroPeer y).
    set (ps1 := <[Z.to_nat L := Some peer1]> (replicate n None)).
    assert (Hlen : Z.of_nat (length ps1) = localRanks comm).
    { subst ps1. rewrite length_insert, length_replicate. subst n. lia. }
    assert (Hp1 : ps1 !! Z.to_nat L = Some (Some peer1)).
    { subst ps1. apply list_lookup_insert_eq. rewrite length_replicate. subst n. lia. }
    rewrite (sharedBuffersDestroy_frees comm env _ ps1 L type peer1);
      [|reflexivity|exact Hlen|lia|exact Hp1| | ].
    2:{ subst peer1. rewrite dir_set_dir, Hy. exact Hsz. }
    2:{ subst peer1. rewrite dir_set_dir, Hy. cbn [cudaBuff hostBuff]. intros _.
        destruct (Z.eqb_spec cuda 0) as [Hc|Hc]; split; intros Hb; try congruence.
        - now apply Hhost.
        - now apply Hcuda. }
    unfold destroyed. subst peer1. rewrite dir_set_dir, set_dir_set_dir.
    rewrite refcounts_set_dir. unfold other_dir.
    replace (refcount (if type =? 0 then recv zeroPeer else send zeroPeer)) with 0
      by (now destruct (type =? 0)).
    rewrite Hy. cbn [refcount with_refcount p_size cudaBuff hostBuff p_ipc log].
    change (int32 (1 - 1)) with 0. cbn [Z.eqb negb orb].
    subst ps1. rewrite list_insert_insert_eq, insert_none_replicate, forallb_null_replicate.
    f_equal. f_equal.
    unfold init_allocs, buffer_frees, size_of, needs_cuda, needs_host.
    rewrite Hmiss. cbn [localPeers st zeroP2p p_size cudaBuff hostBuff Z.eqb].
    rewrite bool_decide_eq_true_2 by reflexivity.
    fold sz. subst buf.
    destruct (Z.eqb_spec cuda 0) as [Hc|Hc]; cbn [negb andb];
      apply Z.eqb_neq in Hbuf; cbn [Z.eqb]; rewrite ?Hbuf; cbn [app];
      rewrite <- ?app_assoc; try reflexivity.
    destruct (sameProcess =? 0); reflexivity.
Qed.

(** X4.  Round trip on an empty pool, for a request that
    [sharedBuffersInit] does not refuse ([cuda] or [sameProcess] is not
    0) and a pool size [nChannels * NCCL_SHARED_STEPS * p2pChunkSize]
    that is not 0.  With an allocator and a runtime that succeed, a
    [sharedBuffersInit] on a pool without [localPeers] allocates the
    array, the peer record of [localRank] and one buffer of that size,
    and hands that buffer and size out; the matching
    [sharedBuffersDestroy] then frees the buffer, the peer record and
    the array, in that order, and leaves the pool without [localPeers]
    again. *)
Theorem init_then_destroy_restores
    (comm : comm_t) (env : env_t) (cuda L type sameProcess nChannels : Z)
    (lg : list event) (o : outs) :
  (cuda =? 0) && (sameProcess =? 0) = false ->
  0 <= L < localRanks comm ->
  calloc_peers env = ncclSuccess -> calloc_peer env = ncclSuccess ->
  (cuda <> 0 ->
   fst (cudaCalloc env) = ncclSuccess /\ cudaFree env = true
   /\ (sameProcess = 0 -> fst (ipcGetMemHandle env) = true)) ->
  (cuda = 0 -> fst (cudaHostCalloc env) = ncclSuccess /\ cudaHostFree env = ncclSuccess) ->
  (sameProcess <> 0 -> out_gpuPtr o <> None -> out_cpuPtr o <> None) ->
  let sz := int32 (nChannels * NCCL_SHARED_STEPS * p2pChunkSize comm) in
  let buf := if cuda =? 0 then snd (cudaHostCalloc env) else snd (cudaCalloc env) in
  sz <> 0 -> buf <> 0 ->
  exists st1 o1,
    sharedBuffersInit comm env cuda L type sameProcess nChannels (mkPool None lg, o)
    = (Exit ncclSuccess, (st1, o1))
    /\ out_cpuPtr o1 = store_opt (out_cpuPtr o) buf
    /\ out_size o1 = store_opt (out_size o) sz
    /\ sharedBuffersDestroy comm env L type st1
       = (Exit ncclSuccess,
          mkPool None
            (lg ++ [EvCallocPeers (localRanks comm); EvCallocPeer L]
                ++ (if cuda =? 0 then [EvCudaHostCalloc buf sz]
                    else EvCudaCalloc buf sz
                         :: (if sameProcess =? 0 then [EvIpcGetMemHandle buf] else []))
                ++ [if cuda =? 0 then EvCudaHostFree buf else EvCudaFree buf;
                    EvFreePeer L; EvFreePeers])).
Proof. apply init_destroy_round_trip. Qed.

Lemma init_then_destroy_restores_witness :
  let comm := mkComm 2 1024 in
  let env := mkEnv ncclSuccess ncclSuccess (ncclSuccess, 4096) (true, 7)
                   (ncclSuccess, 8192) true ncclSuccess in
  exists st1 o1,
    sharedBuffersInit comm env 1 1 0 1 2 (mkPool None [], mkOuts None None None None)
    = (Exit ncclSuccess, (st1, o1))
    /\ sharedBuffersDestroy comm env 1 0 st1
       = (Exit ncclSuccess,
          mkPool None [EvCallocPeers 2; EvCallocPeer 1; EvCudaCalloc 4096 32768;
                       EvCudaFree 4096; EvFreePeer 1; EvFreePeers]).
Proof.
  intros comm env.
  pose proof (init_then_destroy_restores comm env 1 1 0 1 2 []
                (mkOuts None None None None)) as H.
  cbv zeta in H.
  destruct H as (st1 & o1 & H1 & _ & _ & H2);
    try reflexivity; try (cbn; lia); try discriminate;
    try (intros _ Hn; now elim Hn);
    try (intros _; repeat split; first [reflexivity | intros; discriminate]).
  exists st1, o1. split; [exact H1|exact H2].
Defined.

(** X5.  A failed allocation is not rolled back.  When the entry of a
    direction has no device buffer yet and the runtime refuses the
    allocation, [sharedBuffersInit] returns the runtime's error code,
    but the reference count of the entry has already been incremented
    and its size set, and the caller's [*size] has been written; no
    buffer is recorded. *)
Theorem sharedBuffersInit_failure_keeps_count
    (comm : comm_t) (env : env_t) (cuda L type sameProcess nChannels : Z)
    (st : pool) (ps : list (option ncclProxyPeer)) (peer : ncclProxyPeer) (o : outs) :
  localPeers st = Some ps -> 0 <= L -> ps !! Z.to_nat L = Some (Some peer) ->
  let x := dir type peer in
  cuda <> 0 -> cudaBuff x = 0 -> fst (cudaCalloc env) <> ncclSuccess ->
  sharedBuffersInit comm env cuda L type sameProcess nChannels (st, o)
  = (Exit (fst (cudaCalloc env)),
     (mkPool (Some (<[Z.to_nat L :=
                       Some (set_dir type peer
                               (mkP2p (int32 (refcount x + 1)) (size_of comm nChannels x)
                                      0 (hostBuff x) (p_ipc x)))]> ps))
             (log st),
      mkOuts (out_gpuPtr o) (out_cpuPtr o)
             (store_opt (out_size o) (size_of comm nChannels x)) (out_ipc o))).
Proof.
  intros Hps HL0 Hp x Hcuda Hcb Hfail.
  assert (HL : 0 <= L < Z.of_nat (length ps)) by (apply lookup_lt_Some in Hp; lia).
  unfold sharedBuffersInit.
  apply Z.eqb_neq in Hcuda. rewrite Hcuda. cbn [andb negb].
  unfold bind at 1. unfold lift at 1. cbn [get fst snd].
  unfold bind at 1.
  match goal with
  | |- context [when (bool_decide (localPeers st = None)) ?m (st, o)] =>
      assert (H1 : when (bool_decide (localPeers st = None)) m (st, o)
                   = (Next tt, (mkPool (Some ps) (log st), o)))
  end.
  { destruct st as [lp lg]; cbn [localPeers log] in *. subst lp.
    now rewrite bool_decide_eq_false_2 by discriminate. }
  rewrite H1. clear H1.
  unfold bind at 1.
  erewrite lift_run; [|apply (read_peer_at _ ps L (Some peer)); auto].
  unfold bind at 1.
  match goal with
  | |- context [when (bool_decide (Some peer = None)) ?m ?s] =>
      assert (H2 : when (bool_decide (Some peer = None)) m s = (Next tt, s))
        by (now rewrite bool_decide_eq_false_2 by discriminate)
  end.
  rewrite H2. clear H2.
  rewrite <- (list_insert_id ps (Z.to_nat L) (Some peer)) at 1 by exact Hp.
  rewrite <- (set_dir_dir type peer) at 1. fold x.
  unfold bind at 1. rewrite lift_read_state by exact HL.
  cbn [refcount p_size cudaBuff hostBuff p_ipc].
  unfold size_of. rewrite Hcb.
  set (sz := if p_size x =? 0
             then int32 (nChannels * NCCL_SHARED_STEPS * p2pChunkSize comm)
             else p_size x).
  match goal with
  | |- context [if p_size x =? 0 then ?a else ?b] =>
      match type of a with
      | ncclProxySharedP2p =>
          replace (if p_size x =? 0 then a else b)
            with (mkP2p (int32 (refcount x + 1)) sz 0 (hostBuff x) (p_ipc x))
            by (subst sz; now destruct (p_size x =? 0))
      end
  end.
  cbn [refcount p_size cudaBuff hostBuff p_ipc Z.eqb andb when].
  do 2 pool_step HL.
  unfold bind at 1. unfold bind at 1.
  destruct (fst (cudaCalloc env)) eqn:E; try contradiction; reflexivity.
Qed.

Lemma sharedBuffersInit_failure_keeps_count_witness :
  let comm := mkComm 2 1024 in
  let env := mkEnv ncclSuccess ncclSuccess (ncclSystemError, 0) (true, 7)
                   (ncclSuccess, 8192) true ncclSuccess in
  sharedBuffersInit comm env 1 1 0 1 2
    (mkPool (Some [None; Some zeroPeer]) [], mkOuts None None (Some 0) None)
  = (Exit ncclSystemError,
     (mkPool (Some [None; Some (mkPeer (mkP2p 1 32768 0 0 0) zeroP2p)]) [],
      mkOuts None None (Some 32768) None)).
Proof.
  intros comm env.
  apply (sharedBuffersInit_failure_keeps_count comm env 1 1 0 1 2
           (mkPool (Some [None; Some zeroPeer]) []) [None; Some zeroPeer] zeroPeer);
    try reflexivity; try lia; try discriminate.
Defined.

Lemma destroy_without_entry comm env L type st :
  (localPeers st = None
   \/ exists ps, localPeers st = Some ps /\ 0 <= L
        /\ (ps !! Z.to_nat L = Some None
            \/ exists peer, ps !! Z.to_nat L = Some (Some peer)
                            /\ p_size (dir type peer) = 0)) ->
  sharedBuffersDestroy comm env L type st = (Exit ncclInternalError, st).
Proof.
  intros H. unfold sharedBuffersDestroy. unfold bind at 1. cbn [get].
  unfold bind at 1.
  destruct H as [Hn|(ps & Hps & HL & H)].
  - match goal with
    | |- context [when ?c ?m st] =>
        assert (H1 : when c m st = (Exit ncclInternalError, st))
    end.
    { destruct st as [lp lg]; cbn [localPeers] in *. subst lp.
      now rewrite bool_decide_eq_true_2 by reflexivity. }
    now rewrite H1.
  - match goal with
    | |- context [when ?c ?m st] =>
        assert (H1 : when c m st = (Next tt, st))
    end.
    { destruct st as [lp lg]; cbn [localPeers] in *. subst lp.
      now rewrite bool_decide_eq_false_2 by discriminate. }
    rewrite H1. clear H1. unfold bind at 1.
    destruct H as [Hp|(peer & Hp & Hsz)].
    + rewrite (read_peer_at st ps L None) by auto.
      unfold bind at 1.
      match goal with
      | |- context [when ?c ?m st] =>
          assert (H2 : when c m st = (Exit ncclInternalError, st))
            by (now rewrite bool_decide_eq_true_2 by reflexivity)
      end.
      now rewrite H2.
    + rewrite (read_peer_at st ps L (Some peer)) by auto.
      unfold bind at 1.
      match goal with
      | |- context [when ?c ?m st] =>
          assert (H2 : when c m st = (Next tt, st))
            by (now rewrite bool_decide_eq_false_2 by discriminate)
      end.
      rewrite H2. clear H2. unfold bind at 1.
      rewrite (read_state_at st ps L type peer) by auto.
      rewrite Hsz. reflexivity.
Qed.

(** X6.  [sharedBuffersDestroy] returns [ncclInternalError], and leaves
    the pool as it was and asks nothing of the runtime, when there is
    nothing to destroy: the [localPeers] array is NULL, or the peer
    record of [localRank] is NULL, or the size of the entry of the
    direction is 0 (a direction that no [sharedBuffersInit] has set up,
    also when the other direction of the same peer is in use). *)
Theorem sharedBuffersDestroy_rejects_missing_entry
    (comm : comm_t) (env : env_t) (L type : Z) (st : pool) :
  (localPeers st = None
   \/ exists ps, localPeers st = Some ps /\ 0 <= L
        /\ (ps !! Z.to_nat L = Some None
            \/ exists peer, ps !! Z.to_nat L = Some (Some peer)
                            /\ p_size (dir type peer) = 0)) ->
  sharedBuffersDestroy comm env L type st = (Exit ncclInternalError, st).
Proof. apply destroy_without_entry. Qed.

Lemma sharedBuffersDestroy_rejects_missing_entry_witness :
  let comm := mkComm 2 1024 in
  let env := mkEnv ncclSuccess ncclSuccess (ncclSuccess, 4096) (true, 7)
                   (ncclSuccess, 8192) true ncclSuccess in
  let st := mkPool (Some [None; Some (mkPeer (mkP2p 1 32768 4096 0 0) zeroP2p)]) [] in
  sharedBuffersDestroy comm env 1 1 st = (Exit ncclInternalError, st).
Proof.
  intros comm env st.
  apply (sharedBuffersDestroy_rejects_missing_entry comm env 1 1 st).
  right. exists [None; Some (mkPeer (mkP2p 1 32768 4096 0 0) zeroP2p)].
  split; [reflexivity|]. split; [lia|]. right. eexists. split; reflexivity.
Defined.

(** X7.  An entry of a direction with its size set and count 1, while
    the other direction of the peer is in use.  [sharedBuffersDestroy],
    when the runtime's frees succeed, brings the count to 0 and frees
    every buffer of the direction, device or host, but leaves the buffer
    pointers and the size in the entry, and the peer record stays.  The
    next [sharedBuffersInit] of that direction that asks for a kind of
    buffer the entry had, unless it is refused ([cuda] and
    [sameProcess] both 0), therefore allocates nothing and hands out the
    pointer that was freed. *)
Theorem freed_buffer_is_handed_out_again
    (comm : comm_t) (env : env_t) (cuda L type sameProcess nChannels : Z)
    (st : pool) (ps : list (option ncclProxyPeer)) (peer : ncclProxyPeer) (o : outs) :
  localPeers st = Some ps ->
  Z.of_nat (length ps) = localRanks comm ->
  0 <= L ->
  ps !! Z.to_nat L = Some (Some peer) ->
  let x := dir type peer in
  refcount x = 1 -> p_size x <> 0 ->
  refcount (other_dir type peer) <> 0 ->
  (cudaBuff x <> 0 -> cudaFree env = true) ->
  (hostBuff x <> 0 -> cudaHostFree env = ncclSuccess) ->
  (sameProcess <> 0 -> out_gpuPtr o <> None -> out_cpuPtr o <> None) ->
  let x1 := mkP2p 0 (p_size x) (cudaBuff x) (hostBuff x) (p_ipc x) in
  let st1 := mkPool (Some (<[Z.to_nat L := Some (set_dir type peer x1)]> ps))
                    (log st ++ buffer_frees x) in
  sharedBuffersDestroy comm env L type st = (Exit ncclSuccess, st1)
  /\ (cudaBuff x <> 0 -> In (EvCudaFree (cudaBuff x)) (buffer_frees x))
  /\ (hostBuff x <> 0 -> In (EvCudaHostFree (hostBuff x)) (buffer_frees x))
  /\ (init_buffer cuda x <> 0 ->
      (cuda =? 0) && (sameProcess =? 0) = false ->
      exists st2 o2,
        sharedBuffersInit comm env cuda L type sameProcess nChannels (st1, o)
        = (Exit ncclSuccess, (st2, o2))
        /\ log st2 = log st1
        /\ out_cpuPtr o2 = store_opt (out_cpuPtr o) (init_buffer cuda x)
        /\ out_size o2 = store_opt (out_size o) (p_size x)).
Proof.
  intros Hps Hlen HL Hp x Hrc Hsz Hother Hcf Hhf Hout x1 st1.
  assert (Hlt : (Z.to_nat L < length ps)%nat) by (now apply lookup_lt_Some in Hp).
  set (peer1 := set_dir type peer x1).
  assert (Hd : sharedBuffersDestroy comm env L type st = (Exit ncclSuccess, st1)).
  { rewrite (sharedBuffersDestroy_frees comm env st ps L type peer); auto.
    unfold destroyed. fold x. rewrite Hrc. change (int32 (1 - 1)) with 0.
    change (with_refcount x 0) with x1. fold peer1. subst peer1.
    rewrite refcounts_set_dir.
    cbn [refcount x1 Z.eqb negb orb].
    apply Z.eqb_neq in Hother. rewrite Hother. reflexivity. }
  assert (Hx1 : dir type peer1 = x1) by (subst peer1; apply dir_set_dir).
  split; [exact Hd|]. split; [|split].
  - intros Hcb. unfold buffer_frees. apply Z.eqb_neq in Hcb. rewrite Hcb. now left.
  - intros Hhb. unfold buffer_frees. apply Z.eqb_neq in Hhb. rewrite Hhb.
    apply in_or_app. right. now left.
  - intros Hbuf Hguard.
    assert (Hib : init_buffer cuda x1 = init_buffer cuda x) by reflexivity.
    eexists _, _. split.
    + apply (sharedBuffersInit_shares_entry_gen comm env cuda L type sameProcess nChannels
               st1 (<[Z.to_nat L := Some peer1]> ps) peer1 o); auto.
      * now apply list_lookup_insert_eq.
      * now rewrite Hx1.
      * now rewrite Hx1, Hib.
    + split; [reflexivity|]. cbn [out_cpuPtr out_size]. now rewrite Hx1.
Qed.

Lemma freed_buffer_is_handed_out_again_witness :
  let comm := mkComm 2 1024 in
  let env := mkEnv ncclSuccess ncclSuccess (ncclSuccess, 12288) (true, 7)
                   (ncclSuccess, 8192) true ncclSuccess in
  let peer := mkPeer (mkP2p 1 32768 4096 0 0) (mkP2p 1 32768 20480 0 0) in
  let st := mkPool (Some [None; Some peer]) [] in
  let st1 := mkPool (Some [None; Some (mkPeer (mkP2p 0 32768 4096 0 0)
                                              (mkP2p 1 32768 20480 0 0))])
                    [EvCudaFree 4096] in
  sharedBuffersDestroy comm env 1 0 st = (Exit ncclSuccess, st1)
  /\ exists st2 o2,
       sharedBuffersInit comm env 1 1 0 1 2 (st1, mkOuts None (Some 0) None None)
       = (Exit ncclSuccess, (st2, o2))
       /\ log st2 = [EvCudaFree 4096]
       /\ out_cpuPtr o2 = Some 4096.
Proof.
  intros comm env peer st st1.
  pose proof (freed_buffer_is_handed_out_again comm env 1 1 0 1 2 st
                [None; Some peer] peer (mkOuts None (Some 0) None None)) as H.
  cbv zeta in H.
  destruct H as (H1 & _ & _ & H2);
    try reflexivity; try (cbn; lia); try discriminate;
    try (intros _ Hn; now elim Hn).
  split; [exact H1|].
  destruct H2 as (st2 & o2 & H3 & H4 & H5 & _); [discriminate|reflexivity|].
  exists st2, o2. split; [exact H3|]. split; [exact H4|exact H5].
Defined.

(** X8.  [sharedBuffersGet] lays the pool of a direction out in chunks
    of [p2pChunkSize] bytes, [NCCL_SHARED_STEPS] per channel.  When the
    pool size [nChannels * NCCL_SHARED_STEPS * p2pChunkSize] that
    [sharedBuffersInit] computes fits an [int], the chunk of every
    (channel, slot) with [channel < nChannels] and [slot <
    NCCL_SHARED_STEPS] lies inside the pool, and the chunks of two
    different (channel, slot) pairs do not overlap. *)
Theorem sharedBuffersGet_chunks
    (comm : comm_t) (nChannels c1 s1 c2 s2 : Z) :
  let chunk := p2pChunkSize comm in
  let o1 := sharedBuffersGet comm c1 s1 in
  let o2 := sharedBuffersGet comm c2 s2 in
  0 < chunk ->
  nChannels * NCCL_SHARED_STEPS * chunk < 2 ^ 31 ->
  0 <= c1 < nChannels -> 0 <= s1 < NCCL_SHARED_STEPS ->
  0 <= c2 < nChannels -> 0 <= s2 < NCCL_SHARED_STEPS ->
  o1 = chunk * (c1 * NCCL_SHARED_STEPS + s1)
  /\ 0 <= o1 /\ o1 + chunk <= int32 (nChannels * NCCL_SHARED_STEPS * chunk)
  /\ ((c1, s1) <> (c2, s2) -> o1 + chunk <= o2 \/ o2 + chunk <= o1).
Proof.
  intros chunk o1 o2 Hchunk Hfit Hc1 Hs1 Hc2 Hs2.
  unfold NCCL_SHARED_STEPS in *.
  assert (Hget : forall c s, 0 <= c < nChannels -> 0 <= s < 16 ->
            sharedBuffersGet comm c s = chunk * (c * 16 + s)
            /\ 0 <= c * 16 + s < nChannels * 16).
  { intros c s Hc Hs. unfold sharedBuffersGet, NCCL_SHARED_STEPS. fold chunk.
    assert (Hg : 0 <= c * 16 + s < nChannels * 16) by lia.
    assert (Hb : nChannels * 16 < 2 ^ 31) by nia.
    rewrite (int32_small (c * 16)) by lia.
    rewrite (int32_small (c * 16 + s)) by lia.
    rewrite int32_small by nia. auto. }
  destruct (Hget c1 s1 Hc1 Hs1) as [E1 G1], (Hget c2 s2 Hc2 Hs2) as [E2 G2].
  subst o1 o2. rewrite E1, E2.
  rewrite int32_small by nia.
  split; [reflexivity|]. split; [nia|]. split; [nia|].
  intros Hne.
  assert (Hd : c1 * 16 + s1 <> c2 * 16 + s2).
  { intros E. apply Hne. assert (c1 = c2) by lia. assert (s1 = s2) by lia. congruence. }
  assert (Hcase : c1 * 16 + s1 + 1 <= c2 * 16 + s2 \/ c2 * 16 + s2 + 1 <= c1 * 16 + s1)
    by lia.
  destruct Hcase; [left|right]; nia.
Qed.

Lemma sharedBuffersGet_chunks_witness :
  let comm := mkComm 2 1024 in
  sharedBuffersGet comm 1 3 = 1024 * 19
  /\ sharedBuffersGet comm 1 3 + 1024 <= sharedBuffersGet comm 1 4.
Proof.
  intros comm.
  pose proof (sharedBuffersGet_chunks comm 2 1 3 1 4) as H. cbv zeta in H.
  destruct H as (H1 & _ & _ & H2);
    try (subst comm; unfold NCCL_SHARED_STEPS; cbn; lia).
  split; [exact H1|].
  destruct H2 as [H2|H2]; [discriminate|exact H2|].
  exfalso. revert H2. vm_compute. intros H2. now apply H2.
Defined.

End PoolFacts.

(** ** Pre-connect and teardown *)

Module TeardownFacts.
Import Teardown.
Local Open Scope exec_scope.

Lemma proxySharedInit_run {R C} comm env l2r pid crank nChannels (w : world R C) :
  proxySharedInit comm env l2r pid crank nChannels w
  = let sameProcess := Z.b2z (pid (l2r (conn_localRank w)) =? pid crank) in
    match SharedPool.sharedBuffersInit comm env 1 (conn_localRank w) 0 sameProcess
            nChannels (pool w, SharedPool.mkOuts None None None None) with
    | (Next _, (p, _)) | (Exit ncclSuccess, (p, _)) =>
        (Exit ncclSuccess,
         mkWorld (conn_state w) (conn_localRank w) (transportResources w) p
                 (netComms w) (log w))
    | (Exit r, (p, _)) =>
        (Exit r, mkWorld (conn_state w) (conn_localRank w) (transportResources w) p
                         (netComms w) (log w))
    | (Undef, (p, _)) =>
        (Undef, mkWorld (conn_state w) (conn_localRank w) (transportResources w) p
                        (netComms w) (log w))
    end.
Proof.
  unfold proxySharedInit. unfold bind at 1. cbn [get]. unfold bind at 1.
  unfold NCCLCHECK_call, on_pool. cbv zeta.
  destruct (SharedPool.sharedBuffersInit _ _ _ _ _ _ _ _) as [[a|r|] [p o]];
    [reflexivity|destruct r; reflexivity|reflexivity].
Qed.

Lemma sendProxyFree_preconnected comm env param
    (w : world Connect.sendResources Connect.ncclSharedNetComms) :
  conn_state w = connSharedInitialized ->
  sendProxyFree comm env param w
  = match SharedPool.sharedBuffersDestroy comm (pool_env env) (conn_localRank w) 0
            (pool w) with
    | (Next _, p) | (Exit ncclSuccess, p) =>
        (Exit ncclSuccess,
         mkWorld (conn_state w) (conn_localRank w) (transportResources w) p
                 (netComms w) (log w))
    | (Exit r, p) =>
        (Exit r, mkWorld (conn_state w) (conn_localRank w) (transportResources w) p
                         (netComms w) (log w))
    | (Undef, p) =>
        (Undef, mkWorld (conn_state w) (conn_localRank w) (transportResources w) p
                        (netComms w) (log w))
    end.
Proof.
  intros Hst. destruct w as [cs L tr pl nc lg]. cbn [conn_state] in Hst. subst cs.
  unfold sendProxyFree. unfold bind at 1.
  cbn [get conn_state conn_localRank transportResources pool netComms log].
  cbn [is_connState when]. unfold bind at 1. unfold bind at 1.
  unfold NCCLCHECK_call, on_pool.
  cbn [conn_state conn_localRank transportResources pool netComms log].
  destruct (SharedPool.sharedBuffersDestroy _ _ _ _ _) as [[a|r|] p];
    [reflexivity|destruct r; reflexivity|reflexivity].
Qed.

Lemma recvProxyFree_preconnected comm env param
    (w : world RecvProxy.recvResources RecvConnect.ncclSharedNetComms) :
  conn_state w = connSharedInitialized ->
  recvProxyFree comm env param w
  = match SharedPool.sharedBuffersDestroy comm (pool_env env) (conn_localRank w) 1
            (pool w) with
    | (Next _, p) | (Exit ncclSuccess, p) =>
        (Exit ncclSuccess,
         mkWorld (conn_state w) (conn_localRank w) (transportResources w) p
                 (netComms w) (log w))
    | (Exit r, p) =>
        (Exit r, mkWorld (conn_state w) (conn_localRank w) (transportResources w) p
                         (netComms w) (log w))
    | (Undef, p) =>
        (Undef, mkWorld (conn_state w) (conn_localRank w) (transportResources w) p
                        (netComms w) (log w))
    end.
Proof.
  intros Hst. destruct w as [cs L tr pl nc lg]. cbn [conn_state] in Hst. subst cs.
  unfold recvProxyFree. unfold bind at 1.
  cbn [get conn_state conn_localRank transportResources pool netComms log].
  cbn [is_connState when]. unfold bind at 1. unfold bind at 1.
  unfold NCCLCHECK_call, on_pool.
  cbn [conn_state conn_localRank transportResources pool netComms log].
  destruct (SharedPool.sharedBuffersDestroy _ _ _ _ _) as [[a|r|] p];
    [reflexivity|destruct r; reflexivity|reflexivity].
Qed.

(** X9.  A connection that was only pre-connected by [proxySharedInit]
    is torn down by [sendProxyFree] through the shared pool alone.  On a
    proxy whose pool is still empty, with a pool size [nChannels *
    NCCL_SHARED_STEPS * p2pChunkSize] that is not 0 and with an
    allocator and a runtime that succeed: [proxySharedInit] allocates
    the peer array, the peer record and the device buffer of the send
    direction; [sendProxyFree] in state [connSharedInitialized] frees
    exactly these, leaves the pool empty again, and touches neither the
    resources of the connection (they are not freed), nor the shared
    fabric comms, nor the fabric. *)
Theorem preconnect_then_sendProxyFree
    (comm : SharedPool.comm_t) (env : env_t) (l2r pid : Z -> Z)
    (crank nChannels param L : Z) (tr : option Connect.sendResources)
    (nc : Z -> option (Z -> Connect.ncclSharedNetComms))
    (plog : list SharedPool.event) (lg : list event) :
  let penv := pool_env env in
  let w := mkWorld connSharedInitialized L tr (SharedPool.mkPool None plog) nc lg in
  let sz := int32 (nChannels * SharedPool.NCCL_SHARED_STEPS * SharedPool.p2pChunkSize comm) in
  let buf := snd (SharedPool.cudaCalloc penv) in
  let sameProcess := pid (l2r L) =? pid crank in
  0 <= L < SharedPool.localRanks comm ->
  SharedPool.calloc_peers penv = ncclSuccess -> SharedPool.calloc_peer penv = ncclSuccess ->
  fst (SharedPool.cudaCalloc penv) = ncclSuccess ->
  fst (SharedPool.ipcGetMemHandle penv) = true ->
  SharedPool.cudaFree penv = true ->
  sz <> 0 -> buf <> 0 ->
  exists w1,
    proxySharedInit comm penv l2r pid crank nChannels w = (Exit ncclSuccess, w1)
    /\ sendProxyFree comm env param w1
       = (Exit ncclSuccess,
          mkWorld connSharedInitialized L tr
            (SharedPool.mkPool None
               (plog ++ [SharedPool.EvCallocPeers (SharedPool.localRanks comm);
                         SharedPool.EvCallocPeer L]
                     ++ SharedPool.EvCudaCalloc buf sz
                        :: (if sameProcess then []
                            else [SharedPool.EvIpcGetMemHandle buf])
                     ++ [SharedPool.EvCudaFree buf; SharedPool.EvFreePeer L;
                         SharedPool.EvFreePeers]))
            nc lg).
Proof.
  intros penv w sz buf sameProcess HL Hcp Hcpeer Hcc Hipc Hcf Hsz Hbuf.
  pose proof (PoolFacts.init_destroy_round_trip comm penv 1 L 0 (Z.b2z sameProcess)
                nChannels plog (SharedPool.mkOuts None None None None)) as H.
  cbv zeta in H. cbn [Z.eqb andb SharedPool.out_gpuPtr] in H.
  destruct H as (st1 & o1 & Hinit & _ & _ & Hdestroy); auto;
    try (intros; discriminate); try (intros _ Hn; now elim Hn).
  eexists. split.
  - rewrite proxySharedInit_run. cbv zeta. subst w.
    cbn [conn_state conn_localRank transportResources pool netComms log].
    fold sameProcess. rewrite Hinit. reflexivity.
  - rewrite sendProxyFree_preconnected by reflexivity.
    cbn [conn_state conn_localRank transportResources pool netComms log].
    fold penv. rewrite Hdestroy. fold buf sz.
    destruct sameProcess; reflexivity.
Qed.

Lemma preconnect_then_sendProxyFree_witness :
  let comm := SharedPool.mkComm 2 1024 in
  let w := mkWorld connSharedInitialized 1 None (SharedPool.mkPool None [])
                   (fun _ => None) [] in
  exists w1,
    proxySharedInit comm example_pool_env (fun l => l) (fun _ => 7) 0 2 w
    = (Exit ncclSuccess, w1)
    /\ sendProxyFree comm example_env 1 w1
       = (Exit ncclSuccess,
          mkWorld connSharedInitialized 1 None
            (SharedPool.mkPool None
               [SharedPool.EvCallocPeers 2; SharedPool.EvCallocPeer 1;
                SharedPool.EvCudaCalloc 4096 32768; SharedPool.EvCudaFree 4096;
                SharedPool.EvFreePeer 1; SharedPool.EvFreePeers])
            (fun _ => None) []).
Proof.
  intros comm w.
  pose proof (preconnect_then_sendProxyFree comm example_env (fun l => l) (fun _ => 7)
                0 2 1 1 None (fun _ => None) [] []) as H.
  cbv zeta in H.
  destruct H as (w1 & H1 & H2); try reflexivity; try (cbn; lia); try discriminate.
  exists w1. split; [exact H1|exact H2].
Defined.

(** X10.  The pre-connect entry of both directions is the one function
    [proxySharedInit], which takes its reference on the send direction
    of the pool (direction 0), while [recvProxyFree] in state
    [connSharedInitialized] releases the receive direction (direction
    1).  So when no receive connection has set up the receive direction
    of the peer, a receive connection that was pre-connected cannot be
    torn down: [recvProxyFree] returns [ncclInternalError] and the
    reference taken by [proxySharedInit] stays. *)
Theorem preconnect_then_recvProxyFree
    (comm : SharedPool.comm_t) (env : env_t) (l2r pid : Z -> Z)
    (crank nChannels param : Z)
    (w : world RecvProxy.recvResources RecvConnect.ncclSharedNetComms) :
  let penv := pool_env env in
  let L := conn_localRank w in
  let sameProcess := Z.b2z (pid (l2r L) =? pid crank) in
  let peer := PoolLifecycle.peer_of comm (pool w) L in
  conn_state w = connSharedInitialized ->
  0 <= L < Z.of_nat (length (PoolLifecycle.peers_of comm (pool w))) ->
  PoolLifecycle.init_succeeds comm penv 1 L sameProcess (pool w) (SharedPool.send peer) ->
  SharedPool.p_size (SharedPool.recv peer) = 0 ->
  exists w1 ps1 peer1,
    proxySharedInit comm penv l2r pid crank nChannels w = (Exit ncclSuccess, w1)
    /\ SharedPool.localPeers (pool w1) = Some ps1
    /\ ps1 !! Z.to_nat L = Some (Some peer1)
    /\ SharedPool.refcount (SharedPool.send peer1)
       = int32 (SharedPool.refcount (SharedPool.send peer) + 1)
    /\ recvProxyFree comm env param w1 = (Exit ncclInternalError, w1).
Proof.
  intros penv L sameProcess peer Hst HL Hok Hrecv.
  pose proof (PoolFacts.sharedBuffersInit_spec comm penv 1 L 0 sameProcess nChannels
                (pool w) (SharedPool.mkOuts None None None None)) as Hinit.
  cbv zeta in Hinit. cbn [Z.eqb andb SharedPool.dir] in Hinit. fold peer in Hinit.
  specialize (Hinit eq_refl HL Hok (fun _ Hn => False_ind _ (Hn eq_refl))).
  set (y := PoolLifecycle.inited comm penv 1 sameProcess nChannels (SharedPool.send peer))
    in *.
  set (peer1 := SharedPool.set_dir 0 peer y).
  set (st1 := PoolLifecycle.after_init comm penv 1 L 0 sameProcess nChannels (pool w)) in *.
  set (w1 := mkWorld (conn_state w) (conn_localRank w) (transportResources w) st1
                     (netComms w) (log w)).
  assert (Hp1 : <[Z.to_nat L := Some peer1]> (PoolLifecycle.peers_of comm (pool w))
                !! Z.to_nat L = Some (Some peer1))
    by (apply list_lookup_insert_eq; lia).
  exists w1, (<[Z.to_nat L := Some peer1]> (PoolLifecycle.peers_of comm (pool w))), peer1.
  split; [|split; [|split; [|split]]].
  - rewrite proxySharedInit_run. cbv zeta. fold L sameProcess. now rewrite Hinit.
  - reflexivity.
  - exact Hp1.
  - reflexivity.
  - rewrite recvProxyFree_preconnected by exact Hst.
    change (pool w1) with st1. change (conn_localRank w1) with L.
    rewrite (PoolFacts.destroy_without_entry comm (pool_env env) L 1 st1).
    + subst w1. destruct w; reflexivity.
    + right. eexists. split; [reflexivity|]. split; [lia|]. right.
      exists peer1. split; [exact Hp1|].
      subst peer1. cbn. exact Hrecv.
Qed.

Lemma preconnect_then_recvProxyFree_witness :
  let comm := SharedPool.mkComm 2 1024 in
  let w := mkWorld connSharedInitialized 1 None (SharedPool.mkPool None [])
                   (fun _ => None) [] in
  exists w1,
    proxySharedInit comm example_pool_env (fun l => l) (fun _ => 7) 0 2 w
    = (Exit ncclSuccess, w1)
    /\ recvProxyFree comm example_env 1 w1 = (Exit ncclInternalError, w1).
Proof.
  intros comm w.
  pose proof (preconnect_then_recvProxyFree comm example_env (fun l => l) (fun _ => 7)
                0 2 1 w) as H.
  cbv zeta in H.
  destruct H as (w1 & ps1 & peer1 & H1 & _ & _ & _ & H2);
    [reflexivity | vm_compute; split; [discriminate|reflexivity]
    | repeat split; reflexivity | reflexivity | ].
  exists w1. split; [exact H1|exact H2].
Defined.






End TeardownFacts.

(** ** Setup of a proxy connection *)

Module SetupFacts.
Import Setup.
Local Open Scope exec_scope.

Ltac setup_eval :=
  cbv [sendProxySetup recvProxySetup bind get when ret exit emit modify
       NCCLCHECK CUDACHECK set_resources upd_resources set_conn_shared set_done
       set_respBuff transportResources conn_shared done respBuff log];
  cbn [negb app].

Lemma sendProxySetup_run cfg dma env req reqSize respSize (w : world Connect.sendResources) :
  reqSize = sizeof_setupReq ->
  calloc env = ncclSuccess -> fst (getProperties env) = ncclSuccess ->
  sendProxySetup cfg dma env req reqSize respSize w
  = let r := send_props cfg dma (snd (getProperties env))
               (send_fields req zeroSendResources) in
    let lg := log w ++ [EvCalloc; EvGetProperties (rq_netDev req)] in
    if respSize =? 0
    then (Exit ncclSuccess, mkWorld (Some r) (rq_shared req) 1 (respBuff w) lg)
    else (Exit ncclInternalError,
          mkWorld (Some r) (rq_shared req) (done w) (respBuff w) lg).
Proof.
  intros -> Hc Hp. destruct w as [tr cs d rb lg]. setup_eval.
  rewrite Z.eqb_refl, Hc, Hp. cbn [negb].
  destruct (respSize =? 0); cbn [negb]; rewrite <- ?app_assoc; reflexivity.
Qed.

Lemma recvProxySetup_run cfg dma env req reqSize respSize (w : world RecvProxy.recvResources) :
  reqSize = sizeof_setupReq ->
  calloc env = ncclSuccess -> fst (getProperties env) = ncclSuccess ->
  fst (listen env) = ncclSuccess ->
  recvProxySetup cfg dma env req reqSize respSize w
  = let r := recv_props cfg dma (snd (getProperties env))
               (recv_fields req zeroRecvResources) in
    let lg := log w ++ [EvCalloc; EvGetProperties (rq_netDev req)] in
    if respSize =? sizeof_ncclNetHandle_t cfg
    then (Exit ncclSuccess,
          mkWorld (Some (set_netListenComm (snd (snd (listen env))) r)) (rq_shared req) 1
                  (fst (snd (listen env))) (lg ++ [EvListen (rq_netDev req)]))
    else (Exit ncclInternalError,
          mkWorld (Some r) (rq_shared req) (done w) (respBuff w) lg).
Proof.
  intros -> Hc Hp Hl. destruct w as [tr cs d rb lg]. setup_eval.
  rewrite Z.eqb_refl, Hc, Hp. cbn [negb].
  destruct (respSize =? sizeof_ncclNetHandle_t cfg); cbn [negb];
    rewrite ?Hl, <- ?app_assoc; reflexivity.
Qed.

(** X12.  The two size checks of setup are not alike.  A request of the
    wrong size is refused at once: [sendProxySetup] and
    [recvProxySetup] return [ncclInternalError] and leave the connection
    as it was, without a call to the allocator or the fabric.  A
    response buffer of the wrong size is noticed only at the end: the
    function returns [ncclInternalError] with [*done] untouched, but by
    then the resources have been allocated, filled in and attached to
    the connection, and the device has been asked for its properties;
    the receive side has not opened a listen comm. *)
Theorem setup_size_checks
    (cfg : config) (dma : Z) (env : env_t) (req : setupReq) (reqSize respSize : Z) :
  (reqSize <> sizeof_setupReq ->
   (forall w, sendProxySetup cfg dma env req reqSize respSize w
              = (Exit ncclInternalError, w))
   /\ (forall w, recvProxySetup cfg dma env req reqSize respSize w
                 = (Exit ncclInternalError, w)))
  /\ (reqSize = sizeof_setupReq ->
      calloc env = ncclSuccess -> fst (getProperties env) = ncclSuccess ->
      (respSize <> 0 ->
       forall w : world Connect.sendResources,
         sendProxySetup cfg dma env req reqSize respSize w
         = (Exit ncclInternalError,
            mkWorld (Some (send_props cfg dma (snd (getProperties env))
                             (send_fields req zeroSendResources)))
                    (rq_shared req) (done w) (respBuff w)
                    (log w ++ [EvCalloc; EvGetProperties (rq_netDev req)])))
      /\ (respSize <> sizeof_ncclNetHandle_t cfg ->
          forall w : world RecvProxy.recvResources,
            recvProxySetup cfg dma env req reqSize respSize w
            = (Exit ncclInternalError,
               mkWorld (Some (recv_props cfg dma (snd (getProperties env))
                                (recv_fields req zeroRecvResources)))
                       (rq_shared req) (done w) (respBuff w)
                       (log w ++ [EvCalloc; EvGetProperties (rq_netDev req)])))).
Proof.
  split.
  - intros Hne. apply Z.eqb_neq in Hne.
    split; intros [tr cs d rb lg]; setup_eval; now rewrite Hne.
  - intros Heq Hc Hp. split; intros Hne w; apply Z.eqb_neq in Hne.
    + rewrite sendProxySetup_run by assumption. cbv zeta. now rewrite Hne.
    + destruct w as [tr cs d rb l]. subst reqSize. setup_eval.
      rewrite Z.eqb_refl, Hc, Hp. cbn [negb]. rewrite Hne. cbn [negb].
      rewrite <- ?app_assoc. reflexivity.
Qed.

Lemma setup_size_checks_witness :
  let cfg := mkConfig 64 4 in
  let env := mkEnv ncclSuccess (ncclSuccess, mkProps 7 2) (ncclSuccess, (11, 22)) in
  let req := mkSetupReq 3 1 5 1 0 1 0 2 0 in
  sendProxySetup cfg 1 env req 35 0 fresh_world = (Exit ncclInternalError, fresh_world)
  /\ exists r, sendProxySetup cfg 1 env req 36 8 fresh_world
               = (Exit ncclInternalError,
                  mkWorld (Some r) 1 0 0 [EvCalloc; EvGetProperties 0]).
Proof.
  intros cfg env req.
  destruct (setup_size_checks cfg 1 env req 35 0) as [H1 _].
  destruct (setup_size_checks cfg 1 env req 36 8) as [_ H2].
  split.
  - apply H1. discriminate.
  - eexists. apply H2; try reflexivity. discriminate.
Defined.

(** X13.  What a successful setup leaves.  With an allocator and a
    fabric that succeed and buffers of the right sizes,
    [sendProxySetup] returns [ncclSuccess] with [*done = 1] and attaches
    resources that carry the rank, local rank, remote rank, device,
    sharing mode, GDR mode, channel and connection index of the request
    (the connection records the sharing mode too), the [maxRecvs] of
    the device, and [useDmaBuf = 1] exactly when [useGdr],
    [comm->dmaBufSupport] and the DMA-BUF bit of the device's
    [ptrSupport] are all set (else 0).  Everything else is zero: the
    bank map is the zero-filled map with every slot NULL and every bank
    empty, there is no fabric comm and no staging memory yet, and the
    step counter is 0.  [recvProxySetup] does the same, records
    [needFlush] as well, and keeps the listen comm of the fabric, whose
    handle it returns in [respBuff]. *)
Theorem setup_result
    (cfg : config) (dma : Z) (env : env_t) (req : setupReq) :
  calloc env = ncclSuccess -> fst (getProperties env) = ncclSuccess ->
  fst (listen env) = ncclSuccess ->
  let props := snd (getProperties env) in
  let dmaBuf := Z.b2z (negb (rq_useGdr req =? 0) && negb (dma =? 0)
                       && negb (Z.land (ptrSupport props) (NCCL_PTR_DMABUF cfg) =? 0)) in
  (forall w : world Connect.sendResources,
     sendProxySetup cfg dma env req sizeof_setupReq 0 w
     = (Exit ncclSuccess,
        mkWorld
          (Some (Connect.mkSendResources BankMap.freshMap 0 0 0
                   (rq_rank req) (rq_localRank req) (rq_remoteRank req) (rq_netDev req)
                   (rq_useGdr req) dmaBuf (props_maxRecvs props) 0 0 (rq_shared req)
                   (rq_channelId req) (rq_connIndex req)
                   (fun _ => 0) (fun _ => 0) (fun _ => 0) 0))
          (rq_shared req) 1 (respBuff w)
          (log w ++ [EvCalloc; EvGetProperties (rq_netDev req)])))
  /\ (forall w : world RecvProxy.recvResources,
        recvProxySetup cfg dma env req sizeof_setupReq (sizeof_ncclNetHandle_t cfg) w
        = (Exit ncclSuccess,
           mkWorld
             (Some (RecvProxy.mkRecvResources BankMap.freshMap (snd (snd (listen env)))
                      0 0 0
                      (rq_rank req) (rq_localRank req) (rq_remoteRank req) 0
                      (rq_netDev req) (rq_useGdr req) dmaBuf (rq_needFlush req)
                      (props_maxRecvs props) 0 0 0 (rq_shared req)
                      (rq_channelId req) (rq_connIndex req)
                      (fun _ => 0) (fun _ => 0) (fun _ => 0) 0))
             (rq_shared req) 1 (fst (snd (listen env)))
             (log w ++ [EvCalloc; EvGetProperties (rq_netDev req);
                        EvListen (rq_netDev req)])))
  /\ (forall v n, BankMap.NCCL_NET_MAP_GET_POINTER BankMap.freshMap v n = 0)
  /\ (forall b, BankMap.size (BankMap.mem_at BankMap.freshMap b) = 0).
Proof.
  intros Hc Hp Hl props dmaBuf.
  split; [|split; [|split]].
  - intros w. rewrite sendProxySetup_run by auto. reflexivity.
  - intros w. rewrite recvProxySetup_run by auto. cbv zeta.
    rewrite Z.eqb_refl, <- app_assoc. reflexivity.
  - intros v n. destruct n; reflexivity.
  - reflexivity.
Qed.

Lemma setup_result_witness :
  let cfg := mkConfig 64 4 in
  let env := mkEnv ncclSuccess (ncclSuccess, mkProps 7 2) (ncclSuccess, (11, 22)) in
  let req := mkSetupReq 3 1 5 1 0 1 0 2 0 in
  exists r, sendProxySetup cfg 1 env req 36 0 fresh_world
            = (Exit ncclSuccess, mkWorld (Some r) 1 1 0 [EvCalloc; EvGetProperties 0])
            /\ Connect.useDmaBuf r = 1 /\ Connect.maxRecvs r = 2.
Proof.
  intros cfg env req.
  destruct (setup_result cfg 1 env req) as (H & _); try reflexivity.
  eexists. split; [apply (H fresh_world)|]. split; reflexivity.
Defined.

End SetupFacts.

(** ** The connect handshake *)

Module HandshakeFacts.
Import Connect ConnectFacts.
Local Open Scope exec_scope.

#[local] Arguments BankMap.NCCL_NET_MAP_ADD_POINTER : simpl never.

(** What the first part of connect leaves alone. *)
Lemma connect_fabric_frame cfg comm env reqSize (w : world) :
  hoare (fun s => s = w) (connect_fabric cfg comm env reqSize)
    (fun _ s => map (res s) = map (res w) /\ mem s = mem w /\ respBuff s = respBuff w
                /\ done s = 1 /\ netSendComm (res s) <> 0
                /\ reqSize = sizeof_ncclNetHandle_t cfg)
    (fun r s => r = ncclSuccess ->
                map (res s) = map (res w) /\ mem s = mem w /\ respBuff s = respBuff w
                /\ done s = 0 /\ netSendComm (res s) = 0).
Proof.
  set (F := fun s : world =>
              map (res s) = map (res w) /\ mem s = mem w /\ respBuff s = respBuff w).
  unfold connect_fabric.
  destruct (Z.eqb_spec reqSize (sizeof_ncclNetHandle_t cfg)) as [Hreq|Hreq]; cbn [negb when].
  2:{ eapply hoare_bind with (R := fun _ _ => False);
        [apply hoare_exit; intros s _ Hr; discriminate Hr|intros a s []]. }
  eapply hoare_bind with (R := fun _ => F).
  { apply hoare_ret. intros s ->. subst F. cbn. auto. }
  intros []. apply hoare_get_bind. intros w0 Hw0.
  eapply hoare_bind with (R := fun _ => F).
  { eapply hoare_conseq;
      [apply (stable_hoare F _ (fun _ => False))|now intros s ->|auto|].
    - destruct (negb (shared (res w0) =? 0)).
      + apply stable_bind; [apply stable_ensure_peer; subst F; inv_tac|intros ?].
        subst F. repeat stable_step.
      + subst F. repeat stable_step.
    - cbv beta. intros r s H Hr. now apply H in Hr. }
  intros []. apply hoare_get_bind. intros w1 Hw1.
  destruct (Z.eqb_spec (netSendComm (res w1)) 0) as [Hz|Hz].
  - eapply hoare_bind with (R := fun _ s => F s /\ done s = 0 /\ netSendComm (res s) = 0).
    + apply hoare_modify. intros s ->. subst F. cbn in *. intuition.
    + intros []. apply hoare_exit. intros s (HF & Hd & Hn) _. subst F. cbn in *. intuition.
  - apply hoare_modify. intros s ->. subst F. cbn in *. intuition.
Qed.

Lemma ready_call_sharedBuffersInit comm env bank :
  stable (fun s => done s = 1 /\ netSendComm (res s) <> 0)
         (call_sharedBuffersInit comm env bank).
Proof.
  intros w Hw. unfold call_sharedBuffersInit, NCCLCHECK_call.
  destruct (SharedPool.sharedBuffersInit _ _ _ _ _ _ _ _) as [[a|r|] [p o']].
  - inv_tac.
  - destruct r; first [inv_tac | discriminate].
  - exact Logic.I.
Qed.

Lemma ready_build_map cfg comm env :
  stable (fun s => done s = 1 /\ netSendComm (res s) <> 0) (build_map cfg comm env).
Proof.
  unfold build_map. repeat stable_step; apply ready_call_sharedBuffersInit.
Qed.

Lemma ready_allocate_banks cfg comm env :
  stable (fun s => done s = 1 /\ netSendComm (res s) <> 0) (allocate_banks cfg comm env).
Proof. unfold allocate_banks. repeat stable_step. Qed.

Lemma ready_init_staging :
  stable (fun s => done s = 1 /\ netSendComm (res s) <> 0) init_staging.
Proof. unfold init_staging, store_head, store_sizesFifo. repeat stable_step. Qed.

Lemma register_buffers_response cfg env respSize :
  hoare (fun s => done s = 1 /\ netSendComm (res s) <> 0)
    (register_buffers cfg env respSize)
    (fun _ _ => False)
    (fun r s => r = ncclSuccess ->
                done s = 1 /\ netSendComm (res s) <> 0
                /\ respSize = sizeof_connectMap cfg /\ respBuff s = Some (map (res s))).
Proof.
  unfold register_buffers.
  eapply hoare_bind; [apply stable_hoare; repeat stable_step|intros []].
  destruct (Z.eqb_spec respSize (sizeof_connectMap cfg)) as [Hr|Hr]; cbn [negb when].
  2:{ eapply hoare_bind with (R := fun _ _ => False);
        [apply hoare_exit; intros s _ H; discriminate H|intros a s []]. }
  eapply hoare_bind with (R := fun _ s => done s = 1 /\ netSendComm (res s) <> 0);
    [apply hoare_ret; auto|intros []].
  eapply hoare_bind with
    (R := fun _ s => (done s = 1 /\ netSendComm (res s) <> 0)
                     /\ respBuff s = Some (map (res s))).
  - apply hoare_modify. intros s Hs. cbn. auto.
  - intros []. apply hoare_exit. intros s ((Hd & Hn) & Hb) _. auto.
Qed.

Lemma sendProxyConnect_protocol cfg comm env reqSize respSize (w : world) :
  hoare (fun s => s = w) (sendProxyConnect cfg comm env reqSize respSize)
    (fun _ _ => False)
    (fun r s => r = ncclSuccess ->
       (done s = 0 /\ netSendComm (res s) = 0
        /\ map (res s) = map (res w) /\ mem s = mem w /\ respBuff s = respBuff w)
       \/ (done s = 1 /\ netSendComm (res s) <> 0
           /\ reqSize = sizeof_ncclNetHandle_t cfg /\ respSize = sizeof_connectMap cfg
           /\ respBuff s = Some (map (res s)))).
Proof.
  unfold sendProxyConnect.
  destruct (Z.eqb_spec reqSize (sizeof_ncclNetHandle_t cfg)) as [Hreq|Hreq].
  2:{ eapply hoare_bind with (R := fun _ _ => False);
        [|intros a; unfold hoare; intros s []].
      eapply hoare_conseq; [apply connect_fabric_frame|intros s Hs; exact Hs| |].
      - cbv beta. intros _ s H. tauto.
      - cbv beta. intros r s H Hr. left. apply H in Hr. tauto. }
  eapply hoare_bind with (R := fun _ s => done s = 1 /\ netSendComm (res s) <> 0).
  { eapply hoare_conseq; [apply connect_fabric_frame|intros s Hs; exact Hs| |].
    - cbv beta. intros _ s H. tauto.
    - cbv beta. intros r s H Hr. left. apply H in Hr. tauto. }
  intros [].
  eapply hoare_bind; [apply stable_hoare, ready_build_map|intros []].
  eapply hoare_bind; [apply stable_hoare, ready_allocate_banks|intros []].
  eapply hoare_bind; [apply stable_hoare, ready_init_staging|intros []].
  eapply hoare_conseq; [apply register_buffers_response|auto|auto|].
  cbv beta. intros r s H Hr. right. apply H in Hr. tauto.
Qed.

(** X14.  The connect handshake of the send side.  Whenever
    [sendProxyConnect] returns [ncclSuccess], [*done] is 0 or 1.  With
    [*done = 0] the fabric has not handed out a send comm yet and the
    call is to be repeated: the bank map, the staging memory and the
    response buffer are as they were.  With [*done = 1] the connection
    holds a fabric send comm, the request had the size of a fabric
    handle, the response buffer has the size of a bank map, and what it
    holds is a copy of the bank map of the resources. *)
Theorem sendProxyConnect_handshake
    (cfg : config) (comm : comm_t) (env : env_t) (reqSize respSize : Z) (w w' : world) :
  sendProxyConnect cfg comm env reqSize respSize w = (Exit ncclSuccess, w') ->
  (done w' = 0 /\ netSendComm (res w') = 0
   /\ map (res w') = map (res w) /\ mem w' = mem w /\ respBuff w' = respBuff w)
  \/ (done w' = 1 /\ netSendComm (res w') <> 0
      /\ reqSize = sizeof_ncclNetHandle_t cfg /\ respSize = sizeof_connectMap cfg
      /\ respBuff w' = Some (map (res w'))).
Proof.
  intros Hrun.
  pose proof (sendProxyConnect_protocol cfg comm env reqSize respSize w w eq_refl) as H.
  rewrite Hrun in H. exact (H eq_refl).
Qed.

Lemma sendProxyConnect_handshake_witness :
  let run := sendProxyConnect example_config example_comm example_env 64 2048
               example_world in
  done (snd run) = 1 /\ respBuff (snd run) = Some (map (res (snd run))).
Proof.
  intros run.
  assert (Hrun : sendProxyConnect example_config example_comm example_env 64 2048
                   example_world = (Exit ncclSuccess, snd run)).
  { assert (Hr : fst run = Exit ncclSuccess) by (vm_compute; reflexivity).
    rewrite <- Hr. subst run. now destruct (sendProxyConnect _ _ _ _ _ _). }
  destruct (sendProxyConnect_handshake _ _ _ _ _ _ _ Hrun)
    as [(Hd & _)|(Hd & _ & _ & _ & Hb)].
  - exfalso. revert Hd. vm_compute. discriminate.
  - split; [exact Hd|exact Hb].
Defined.

End HandshakeFacts.

(** ** The connect handshake, receive side *)

Module RecvHandshakeFacts.
Import RecvProxy RecvConnect.
Local Open Scope exec_scope.

Lemma sameProcess_ADD_POINTER m a b c n :
  BankMap.sameProcess (BankMap.NCCL_NET_MAP_ADD_POINTER m a b c n) = BankMap.sameProcess m.
Proof.
  unfold BankMap.NCCL_NET_MAP_ADD_POINTER.
  destruct (a =? 0), (negb (b =? 0)); destruct n; reflexivity.
Qed.

#[local] Arguments BankMap.NCCL_NET_MAP_ADD_POINTER : simpl never.

Ltac inv_tac :=
  intros; cbn in *; rewrite ?sameProcess_ADD_POINTER in *; intuition (auto; congruence).

Ltac stable_step :=
  lazymatch goal with
  | |- stable _ (bind get _) => apply stable_get_bind; intros ? ?
  | |- stable _ (bind _ _) => apply stable_bind; [|intros ?]
  | |- stable _ (ret _) => apply stable_ret
  | |- stable _ (when _ _) => apply stable_when
  | |- stable _ (NCCLCHECK _) => apply stable_NCCLCHECK
  | |- stable _ (CUDACHECK _) => apply stable_CUDACHECK
  | |- stable _ (modify _) => apply stable_modify; inv_tac
  | |- stable _ (exit _) => apply stable_exit; discriminate
  | |- stable _ undef => apply stable_undef
  | |- stable _ (for_loop _ _ _) => apply stable_for_loop; intros ?
  | |- stable _ (if _ then _ else _) => apply stable_if
  | |- stable _ (match ?x with _ => _ end) => destruct x
  | |- stable _ (emit _) => unfold emit
  | |- stable _ (upd_res _) => unfold upd_res
  | |- stable _ (upd_map _) => unfold upd_map
  | |- stable _ (upd_mapMem _ _) => unfold upd_mapMem
  | |- stable _ (ncclNetAccept _ _) => unfold ncclNetAccept
  end.

Lemma stable_on_recv_pool {A} (I : world -> Prop) (m : M SharedPool.pool A) :
  (forall p, match m p with (Exit r, _) => r <> ncclSuccess | _ => True end) ->
  (forall w p, I w -> I (set_pool w p)) ->
  stable I (on_pool m).
Proof.
  intros Hm HI w Hw. unfold on_pool. specialize (Hm (pool w)).
  destruct (m (pool w)) as [[a|r|] p]; auto.
Qed.

Ltac pool_step HI :=
  first
    [ apply stable_NCCLCHECK
    | apply stable_on_recv_pool;
      [ first [ apply ConnectFacts.read_peer_no_exit | apply ConnectFacts.write_peer_no_exit
              | intros ?; exact Logic.I ]
      | exact HI ] ].

Lemma stable_ensure_recv_peer I comm env L :
  (forall w p, I w -> I (set_pool w p)) -> stable I (ensure_peer comm env L).
Proof.
  intros HI. unfold ensure_peer.
  apply stable_get_bind; intros w Hw.
  apply stable_bind; [|intros ?].
  { apply stable_when. repeat (apply stable_bind; [|intros ?]); pool_step HI. }
  apply stable_bind; [|intros ?].
  { pool_step HI. }
  apply stable_when. repeat (apply stable_bind; [|intros ?]); pool_step HI.
Qed.

Lemma stable_recv_sharedBuffersInit (I : world -> Prop) comm env bank :
  (forall w p m, I w -> I (set_res (set_pool w p) (set_map (res w) (BankMap.set_mem (map (res w)) bank m)))) ->
  stable I (call_sharedBuffersInit comm env bank).
Proof.
  intros HI w Hw. unfold call_sharedBuffersInit, NCCLCHECK_call.
  destruct (SharedPool.sharedBuffersInit _ _ _ _ _ _ _ _) as [[a|r|] [p o']].
  - now apply HI.
  - destruct r; first [now apply HI | discriminate].
  - exact Logic.I.
Qed.

(** What the first part of connect leaves alone. *)
Lemma accept_fabric_frame cfg comm env reqBuff reqSize (w : world) :
  hoare (fun s => s = w) (accept_fabric cfg comm env reqBuff reqSize)
    (fun _ s => done s = 1 /\ netRecvComm (res s) <> 0
                /\ reqSize = Setup.sizeof_int /\ proxyRank (res s) = reqBuff
                /\ rank (res s) = rank (res w) /\ mem s = mem w)
    (fun r s => r = ncclSuccess ->
                map (res s) = map (res w) /\ mem s = mem w /\ respBuff s = respBuff w
                /\ done s = 0 /\ netRecvComm (res s) = 0).
Proof.
  set (F := fun s : world =>
              map (res s) = map (res w) /\ mem s = mem w /\ respBuff s = respBuff w
              /\ proxyRank (res s) = reqBuff /\ rank (res s) = rank (res w)).
  unfold accept_fabric.
  destruct (Z.eqb_spec reqSize Setup.sizeof_int) as [Hreq|Hreq]; cbn [negb when].
  2:{ eapply hoare_bind with (R := fun _ _ => False);
        [apply hoare_exit; intros s _ Hr; discriminate Hr
        |intros a; unfold hoare; intros s []]. }
  eapply hoare_bind with (R := fun _ s => s = w);
    [apply hoare_ret; auto|intros []].
  eapply hoare_bind with (R := fun _ => F).
  { unfold upd_res. apply hoare_modify. intros s ->. subst F. cbn. auto. }
  intros []. apply hoare_get_bind. intros w0 Hw0.
  eapply hoare_bind with (R := fun _ => F).
  { eapply hoare_conseq;
      [apply (stable_hoare F _ (fun _ => False))|now intros s ->|auto|].
    - destruct (negb (shared (res w0) =? 0)).
      + apply stable_bind; [apply stable_ensure_recv_peer; subst F; inv_tac|intros ?].
        subst F. repeat stable_step.
      + subst F. repeat stable_step.
    - cbv beta. intros r s H Hr. now apply H in Hr. }
  intros []. apply hoare_get_bind. intros w1 Hw1.
  destruct (Z.eqb_spec (netRecvComm (res w1)) 0) as [Hz|Hz].
  - eapply hoare_bind with (R := fun _ s => F s /\ done s = 0 /\ netRecvComm (res s) = 0).
    + apply hoare_modify. intros s ->. subst F. cbn in *. intuition.
    + intros []. apply hoare_exit. intros s (HF & Hd & Hn) _. subst F. cbn in *. intuition.
  - eapply hoare_bind with (R := fun _ s => F s /\ done s = 1 /\ netRecvComm (res s) <> 0).
    + apply hoare_modify. intros s ->. subst F. cbn in *. intuition.
    + intros [].
      eapply hoare_bind with (R := fun _ s => F s /\ done s = 1 /\ netRecvComm (res s) <> 0).
      * unfold emit. apply hoare_modify. subst F. cbn. intuition.
      * intros []. destruct (netCloseListen env); cbn [NCCLCHECK];
          first [ apply hoare_ret; subst F; cbn; intuition
                | apply hoare_exit; intros s _ Hr; discriminate Hr ].
Qed.

Section Accepted.
Variables (cfg : config) (comm : Connect.comm_t) (env : env_t) (reqBuff : Z) (w : world).

Lemma build_map_same_process :
  hoare (fun s => accepted reqBuff w s /\ mem s = mem w) (build_map cfg comm env)
        (fun _ s => accepted reqBuff w s /\ same_process comm w s /\ mem s = mem w) (fun r _ => r <> ncclSuccess).
Proof.
  unfold build_map. apply hoare_get_bind. intros w0 (HJ & Hm).
  set (sp := Z.b2z (Connect.pidHash comm (rank (res w0))
                    =? Connect.pidHash comm (Connect.comm_rank comm))).
  eapply hoare_bind with
    (R := fun _ s => accepted reqBuff w s /\ mem s = mem w /\ BankMap.sameProcess (map (res s)) = sp).
  { unfold upd_map, upd_res. apply hoare_modify. intros s ->. unfold accepted in *. cbn in *. intuition. }
  intros [].
  assert (Hrank : rank (res w0) = rank (res w)) by (unfold accepted in HJ; tauto).
  destruct (Z.eqb_spec (Connect.pidHash comm (rank (res w0)))
                       (Connect.pidHash comm (Connect.comm_rank comm))) as [Hpid|Hpid];
    subst sp; cbn [Z.b2z Z.eqb when].
  2:{ eapply hoare_bind with (R := fun _ _ => False);
        [apply hoare_exit; intros s _; discriminate
        |intros a; unfold hoare; intros s []]. }
  eapply hoare_bind with (R := fun _ s => accepted reqBuff w s /\ same_process comm w s /\ mem s = mem w).
  { apply hoare_ret. intros s (H1 & H2 & H3). unfold same_process in *. cbn. rewrite <- Hrank. auto. }
  intros [].
  match goal with |- hoare ?P ?m _ _ => change (stable P m) end.
  unfold accepted, same_process in *.
  repeat stable_step; apply stable_recv_sharedBuffersInit; inv_tac.
Qed.

Lemma allocate_banks_calloc :
  hoare (fun s => accepted reqBuff w s /\ same_process comm w s /\ mem s = mem w) (allocate_banks cfg comm env)
        (fun _ s => accepted reqBuff w s /\ same_process comm w s
                    /\ exists sz, mem s = Staging.calloc_at (snd (hostCalloc env)) sz (mem w))
        (fun r _ => r <> ncclSuccess).
Proof.
  unfold allocate_banks. apply hoare_get_bind. intros w0 Hw0. cbv zeta.
  eapply hoare_conseq with (P' := fun s => accepted reqBuff w s /\ same_process comm w s /\ mem s = mem w)
                          (E' := fun r _ => r <> ncclSuccess);
    [|now intros s ->|intros a s H; exact H|auto].
  eapply hoare_bind with (R := fun _ s => accepted reqBuff w s /\ same_process comm w s /\ mem s = mem w).
  { match goal with |- hoare ?P ?m _ _ => change (stable P m) end.
    unfold accepted, same_process in *. repeat stable_step. }
  intros [].
  eapply hoare_bind with (R := fun _ s => accepted reqBuff w s /\ same_process comm w s /\ mem s = mem w).
  { match goal with |- hoare ?P ?m _ _ => change (stable P m) end.
    apply stable_NCCLCHECK. }
  intros [].
  eapply hoare_bind with
    (R := fun _ s => accepted reqBuff w s /\ same_process comm w s
                     /\ exists sz, mem s = Staging.calloc_at (snd (hostCalloc env)) sz (mem w)).
  { eapply hoare_bind with (R := fun _ s => accepted reqBuff w s /\ same_process comm w s /\ mem s = mem w).
    { match goal with |- hoare ?P ?m _ _ => change (stable P m) end.
      unfold accepted, same_process in *. repeat stable_step. }
    intros [].
    eapply hoare_bind with
      (R := fun _ s => accepted reqBuff w s /\ same_process comm w s
                       /\ exists sz, mem s = Staging.calloc_at (snd (hostCalloc env)) sz (mem w)).
    { apply hoare_modify. intros s (H1 & H2 & H3). unfold accepted, same_process in *. cbn in *.
      rewrite H3. intuition eauto. }
    intros [].
    match goal with |- hoare ?P ?m _ _ => change (stable P m) end.
    unfold accepted, same_process in *. repeat stable_step. }
  intros [].
  match goal with |- hoare ?P ?m _ _ => change (stable P m) end.
  unfold accepted, same_process in *. repeat stable_step.
Qed.

Lemma point_staging_keeps : stable (banked comm env reqBuff w) point_staging.
Proof. unfold point_staging. unfold banked, accepted, same_process in *. repeat stable_step. Qed.

Lemma register_buffers_recv_response respSize :
  hoare (banked comm env reqBuff w) (register_buffers cfg env respSize)
    (fun _ _ => False)
    (fun r s => r = ncclSuccess ->
                banked comm env reqBuff w s /\ respSize = Connect.sizeof_connectMap (base cfg)
                /\ respBuff s = Some (map (res s))).
Proof.
  unfold register_buffers.
  eapply hoare_bind; [apply stable_hoare; unfold banked, accepted, same_process in *; repeat stable_step|intros []].
  destruct (Z.eqb_spec respSize (Connect.sizeof_connectMap (base cfg))) as [Hr|Hr];
    cbn [negb when].
  2:{ eapply hoare_bind with (R := fun _ _ => False);
        [apply hoare_exit; intros s _ H; discriminate H
        |intros a; unfold hoare; intros s []]. }
  eapply hoare_bind with (R := fun _ s => banked comm env reqBuff w s); [apply hoare_ret; auto|intros []].
  eapply hoare_bind with (R := fun _ s => banked comm env reqBuff w s /\ respBuff s = Some (map (res s))).
  - apply hoare_modify. intros s Hs. unfold banked, accepted, same_process in *. cbn in *. auto.
  - intros []. apply hoare_exit. intros s (HK & Hb) _. auto.
Qed.

Lemma recvProxyConnect_protocol reqSize respSize :
  hoare (fun s => s = w) (recvProxyConnect cfg comm env reqBuff reqSize respSize)
    (fun _ _ => False)
    (fun r s => r = ncclSuccess ->
       (done s = 0 /\ netRecvComm (res s) = 0
        /\ map (res s) = map (res w) /\ mem s = mem w /\ respBuff s = respBuff w)
       \/ (banked comm env reqBuff w s /\ reqSize = Setup.sizeof_int
           /\ respSize = Connect.sizeof_connectMap (base cfg)
           /\ respBuff s = Some (map (res s)))).
Proof.
  unfold recvProxyConnect.
  destruct (Z.eqb_spec reqSize Setup.sizeof_int) as [Hreq|Hreq].
  2:{ eapply hoare_bind with (R := fun _ _ => False);
        [|intros a; unfold hoare; intros s []].
      eapply hoare_conseq; [apply accept_fabric_frame|intros s Hs; exact Hs| |].
      - cbv beta. intros _ s H. tauto.
      - cbv beta. intros r s H Hr. left. apply H in Hr. tauto. }
  eapply hoare_bind with (R := fun _ s => accepted reqBuff w s /\ mem s = mem w).
  { eapply hoare_conseq; [apply accept_fabric_frame|intros s Hs; exact Hs| |].
    - cbv beta. unfold accepted in *. cbv beta. intros _ s H. tauto.
    - cbv beta. intros r s H Hr. left. apply H in Hr. tauto. }
  intros [].
  eapply hoare_bind with (R := fun _ s => accepted reqBuff w s /\ same_process comm w s /\ mem s = mem w).
  { eapply hoare_conseq; [apply build_map_same_process|auto|auto|].
    cbv beta. intros r s H Hr. contradiction. }
  intros [].
  eapply hoare_bind with (R := fun _ s => banked comm env reqBuff w s).
  { eapply hoare_conseq; [apply allocate_banks_calloc|auto|auto|].
    cbv beta. intros r s H Hr. contradiction. }
  intros [].
  eapply hoare_bind; [apply stable_hoare, point_staging_keeps|intros []].
  eapply hoare_conseq; [apply register_buffers_recv_response|auto|auto|].
  cbv beta. intros r s H Hr. right. apply H in Hr. tauto.
Qed.

End Accepted.

(** X15.  The connect handshake of the receive side.  Whenever
    [recvProxyConnect] returns [ncclSuccess], [*done] is 0 or 1.  With
    [*done = 0] the fabric has not accepted a connection yet and the
    call is to be repeated: the bank map, the staging memory and the
    response buffer are as they were.  With [*done = 1] the connection
    holds a fabric receive comm, the request was one [int] and is now
    the proxy rank of the resources, the rank of the connection lives
    in the process of the proxy and the map says so, the response
    buffer has the size of a bank map and holds a copy of the map of
    the resources, and the only change to the staging memory is the
    zeroed host bank: nothing is stored into [sendMem] or [recvMem]. *)
Theorem recvProxyConnect_handshake
    (cfg : config) (comm : Connect.comm_t) (env : env_t)
    (reqBuff reqSize respSize : Z) (w w' : world) :
  recvProxyConnect cfg comm env reqBuff reqSize respSize w = (Exit ncclSuccess, w') ->
  (done w' = 0 /\ netRecvComm (res w') = 0
   /\ map (res w') = map (res w) /\ mem w' = mem w /\ respBuff w' = respBuff w)
  \/ (done w' = 1 /\ netRecvComm (res w') <> 0
      /\ reqSize = Setup.sizeof_int /\ proxyRank (res w') = reqBuff
      /\ Connect.pidHash comm (rank (res w)) = Connect.pidHash comm (Connect.comm_rank comm)
      /\ BankMap.sameProcess (map (res w')) = 1
      /\ respSize = Connect.sizeof_connectMap (base cfg)
      /\ respBuff w' = Some (map (res w'))
      /\ exists sz, mem w' = Staging.calloc_at (snd (hostCalloc env)) sz (mem w)).
Proof.
  intros Hrun.
  pose proof (recvProxyConnect_protocol cfg comm env reqBuff w reqSize respSize w eq_refl) as H.
  rewrite Hrun in H. unfold banked, accepted, same_process in H.
  destruct (H eq_refl) as [H0|(((H1 & H2 & H3 & H4) & (H5 & H6) & H7) & H8 & H9 & H10)].
  - left. exact H0.
  - right. repeat split; assumption.
Qed.

Lemma recvProxyConnect_handshake_witness :
  let run := recvProxyConnect example_config example_comm example_env 3 4 2048
               example_world in
  done (snd run) = 1 /\ proxyRank (res (snd run)) = 3
  /\ respBuff (snd run) = Some (map (res (snd run))).
Proof.
  intros run.
  assert (Hrun : recvProxyConnect example_config example_comm example_env 3 4 2048
                   example_world = (Exit ncclSuccess, snd run)).
  { assert (Hr : fst run = Exit ncclSuccess) by (vm_compute; reflexivity).
    rewrite <- Hr. subst run. now destruct (recvProxyConnect _ _ _ _ _ _ _). }
  destruct (recvProxyConnect_handshake _ _ _ _ _ _ _ _ Hrun)
    as [(Hd & _)|(Hd & _ & _ & Hp & _ & _ & _ & Hb & _)].
  - exfalso. revert Hd. vm_compute. discriminate.
  - split; [exact Hd|split; [exact Hp|exact Hb]].
Defined.

End RecvHandshakeFacts.

(** ** Shared fabric comms, receive side *)

Module RecvReuseFacts.
Import RecvProxy RecvConnect.
Local Open Scope exec_scope.

#[local] Arguments BankMap.NCCL_NET_MAP_ADD_POINTER : simpl never.

Lemma accepts_snoc l e : accepts (l ++ [e]) = accepts l ++ (if is_accept e then [e] else []).
Proof. unfold accepts. rewrite List.filter_app. cbn. now destruct (is_accept e). Qed.

Ltac kept_tac :=
  intros; unfold comm_kept in *; cbn in *; rewrite ?accepts_snoc; cbn;
  rewrite ?app_nil_r; intuition (auto; congruence).

Ltac kept_step :=
  lazymatch goal with
  | |- stable _ (bind get _) => apply stable_get_bind; intros ? ?
  | |- stable _ (bind _ _) => apply stable_bind; [|intros ?]
  | |- stable _ (ret _) => apply stable_ret
  | |- stable _ (when _ _) => apply stable_when
  | |- stable _ (NCCLCHECK _) => apply stable_NCCLCHECK
  | |- stable _ (CUDACHECK _) => apply stable_CUDACHECK
  | |- stable _ (modify _) => apply stable_modify; kept_tac
  | |- stable _ (exit _) => apply stable_exit; discriminate
  | |- stable _ undef => apply stable_undef
  | |- stable _ (for_loop _ _ _) => apply stable_for_loop; intros ?
  | |- stable _ (if _ then _ else _) => apply stable_if
  | |- stable _ (match ?x with _ => _ end) => destruct x
  | |- stable _ (emit _) => unfold emit
  | |- stable _ (upd_res _) => unfold upd_res
  | |- stable _ (upd_map _) => unfold upd_map
  | |- stable _ (upd_mapMem _ _) => unfold upd_mapMem
  | |- stable _ (call_sharedBuffersInit _ _ _) =>
      apply RecvHandshakeFacts.stable_recv_sharedBuffersInit; kept_tac
  end.

Lemma build_map_keeps_comm cfg comm env w :
  stable (comm_kept w) (build_map cfg comm env).
Proof. unfold build_map. repeat kept_step. Qed.

Lemma allocate_banks_keeps_comm cfg comm env w :
  stable (comm_kept w) (allocate_banks cfg comm env).
Proof. unfold allocate_banks. repeat kept_step. Qed.

Lemma point_staging_keeps_comm w : stable (comm_kept w) point_staging.
Proof. unfold point_staging. repeat kept_step. Qed.

Lemma register_buffers_keeps_comm cfg env respSize w :
  hoare (comm_kept w) (register_buffers cfg env respSize)
    (fun _ _ => False) (fun r s => r = ncclSuccess -> comm_kept w s).
Proof.
  unfold register_buffers.
  eapply hoare_bind; [apply stable_hoare; repeat kept_step|intros []].
  eapply hoare_bind with (R := fun _ s => comm_kept w s).
  { eapply hoare_conseq with (E' := fun r _ => r <> ncclSuccess);
      [apply (stable_when (comm_kept w)), stable_exit; intros H; discriminate H
      |auto|auto|].
    cbv beta. intros r s H Hr. contradiction. }
  intros [].
  eapply hoare_bind with (R := fun _ s => comm_kept w s).
  - apply hoare_modify. kept_tac.
  - intros []. apply hoare_exit. auto.
Qed.

Lemma hoare_at {S A} (P : S -> Prop) (m : M S A) Q E :
  (forall s0, P s0 -> hoare (fun s => s = s0) m Q E) -> hoare P m Q E.
Proof. intros H s Hs. exact (H s Hs s eq_refl). Qed.

Lemma comm_kept_refl w : comm_kept w w.
Proof. unfold comm_kept. auto. Qed.

Lemma connect_tail_keeps_comm cfg comm env respSize w :
  hoare (comm_kept w)
    (build_map cfg comm env ;; allocate_banks cfg comm env ;; point_staging ;;
     register_buffers cfg env respSize)
    (fun _ _ => False) (fun r s => r = ncclSuccess -> comm_kept w s).
Proof.
  eapply hoare_bind; [apply stable_hoare, build_map_keeps_comm|intros []].
  eapply hoare_bind; [apply stable_hoare, allocate_banks_keeps_comm|intros []].
  eapply hoare_bind; [apply stable_hoare, point_staging_keeps_comm|intros []].
  apply register_buffers_keeps_comm.
Qed.

Section Shared.
Variables (cfg : config) (comm : Connect.comm_t) (env : env_t) (reqBuff : Z) (w : world).
Hypothesis Hsh : shared (res w) <> 0.
Hypothesis Hmax : 1 < maxRecvs (res w).
Hypothesis Hpar : Connect.ncclParamNetSharedComms (base cfg) <> 0.

Lemma accept_fabric_shared reqSize :
  hoare (fun s => s = w) (accept_fabric cfg comm env reqBuff reqSize)
    (fun _ s => shared_comm env reqBuff w <> 0 /\ done s = 1
                /\ netRecvComm (res s) = shared_comm env reqBuff w
                /\ (forall d, netComms s d = count_user env reqBuff w d)
                /\ accepts (log s)
                   = accepts (log w)
                     ++ (if recvComm (filed_comms w reqBuff) (channelId (res w)) =? 0
                         then [EvNetAccept (netListenComm (res w))] else []))
    (fun r s => r = ncclSuccess ->
                shared_comm env reqBuff w = 0 /\ done s = 0
                /\ netRecvComm (res s) = shared_comm env reqBuff w
                /\ (forall d, netComms s d = count_user env reqBuff w d)
                /\ accepts (log s)
                   = accepts (log w)
                     ++ (if recvComm (filed_comms w reqBuff) (channelId (res w)) =? 0
                         then [EvNetAccept (netListenComm (res w))] else [])).
Proof.
  unfold accept_fabric.
  destruct (Z.eqb_spec reqSize Setup.sizeof_int) as [Hreq|Hreq]; cbn [negb when].
  2:{ eapply hoare_bind with (R := fun _ _ => False);
        [apply hoare_exit; intros s _ Hr; discriminate Hr
        |intros a; unfold hoare; intros s []]. }
  eapply hoare_bind with (R := fun _ s => s = w); [apply hoare_ret; auto|intros []].
  set (w1 := set_res w (set_proxyRank (res w) reqBuff)).
  eapply hoare_bind with (R := fun _ s => s = w1).
  { unfold upd_res. apply hoare_modify. now intros s ->. }
  intros []. apply hoare_get_bind. intros w0 ->. cbv zeta.
  replace (negb (shared (res w1) =? 0)) with true
    by (symmetry; apply negb_true_iff, Z.eqb_neq; exact Hsh).
  replace ((1 <? maxRecvs (res w1)) && negb (Connect.ncclParamNetSharedComms (base cfg) =? 0))
    with true.
  2:{ symmetry. apply andb_true_iff. split;
        [apply Z.ltb_lt; exact Hmax|apply negb_true_iff, Z.eqb_neq; exact Hpar]. }
  set (c := shared_comm env reqBuff w).
  set (filed := recvComm (filed_comms w reqBuff) (channelId (res w))).
  set (acc := if filed =? 0 then [EvNetAccept (netListenComm (res w))] else []).
  change (netDev (res w1)) with (netDev (res w)).
  change (channelId (res w1)) with (channelId (res w)).
  change (netListenComm (res w1)) with (netListenComm (res w)).
  change (proxyRank (res w1)) with reqBuff.
  set (dev := netDev (res w)).
  (* what the steps up to the look-up of the comm keep *)
  pose (F := fun (lg : list event) (s : world) =>
               done s = done w /\ log s = lg
               /\ forall d, netComms s d = upd (netComms w) dev (Some (filed_comms w)) d).
  eapply hoare_bind with
    (R := fun _ s => done s = done w /\ netRecvComm (res s) = c
                     /\ (forall d, netComms s d = count_user env reqBuff w d)
                     /\ accepts (log s) = accepts (log w) ++ acc).
  { eapply hoare_bind with (R := fun _ s => exists p, s = set_pool w1 p).
    { eapply hoare_conseq with (E' := fun r _ => r <> ncclSuccess);
        [apply (RecvHandshakeFacts.stable_ensure_recv_peer
                  (fun s => exists p, s = set_pool w1 p))
        | | |].
      - intros s p (p0 & ->). exists p. reflexivity.
      - intros s ->. exists (pool w). reflexivity.
      - auto.
      - cbv beta. intros r s H Hr. contradiction. }
    intros []. apply hoare_get_bind. intros w0 (p & ->).
    change (netComms (set_pool w1 p) dev) with (netComms w dev).
    eapply hoare_bind with (R := fun _ s => F (log w) s).
    { subst F. unfold filed_comms. fold dev.
      destruct (netComms w dev) as [arr0|] eqn:Hnc.
      - rewrite bool_decide_eq_false_2 by discriminate. cbn [when default].
        apply hoare_ret. intros s ->. cbn. repeat split.
        intros d. unfold upd. destruct (Z.eqb_spec d dev) as [->|]; auto.
      - rewrite bool_decide_eq_true_2 by reflexivity. cbn [when default].
        eapply hoare_bind with (R := fun _ s => s = set_pool w1 p).
        { destruct (calloc_netComms env); cbn [NCCLCHECK];
            first [ apply hoare_ret; auto
                  | apply hoare_exit; intros s _ Hr; discriminate Hr ]. }
        intros []. apply hoare_modify. intros s ->. cbn. repeat split. }
    intros []. apply hoare_get_bind. intros w2 (Hd2 & Hl2 & Hn2).
    rewrite (Hn2 dev), upd_eq. fold filed.
    eapply hoare_bind with (R := fun c0 s => c0 = c /\ F (log w ++ acc) s).
    { subst c acc. unfold shared_comm. fold filed.
      destruct (filed =? 0).
      - unfold ncclNetAccept.
        eapply hoare_bind with
          (R := fun _ s => F (log w ++ [EvNetAccept (netListenComm (res w))]) s).
        { unfold emit. apply hoare_modify. intros s ->. subst F. cbn.
          rewrite Hl2. auto. }
        intros [].
        eapply hoare_bind with
          (R := fun _ s => F (log w ++ [EvNetAccept (netListenComm (res w))]) s).
        { destruct (fst (netAccept env)); cbn [NCCLCHECK];
            first [ apply hoare_ret; auto
                  | apply hoare_exit; intros s _ Hr; discriminate Hr ]. }
        intros []. apply hoare_ret. auto.
      - apply hoare_ret. intros s ->. subst F. cbn. rewrite app_nil_r. auto. }
    intros c0.
    eapply hoare_bind with
      (R := fun _ s => c0 = c /\ done s = done w /\ log s = log w ++ acc
                       /\ forall d, netComms s d = count_user env reqBuff w d).
    { apply hoare_modify. intros s (-> & Hd & Hl & Hn). cbn.
      repeat split; auto.
      intros d. unfold count_user. cbv zeta. fold dev c.
      destruct (Z.eqb_spec d dev) as [->|Hne].
      - rewrite !upd_eq. destruct (c =? 0); reflexivity.
      - rewrite !upd_ne by exact Hne. rewrite Hn. apply upd_ne. exact Hne. }
    intros []. unfold upd_res. apply hoare_modify.
    intros s (-> & Hd & Hl & Hn). cbn. repeat split; auto.
    rewrite Hl. unfold accepts. rewrite List.filter_app. f_equal.
    subst acc. now destruct (filed =? 0). }
  intros []. apply hoare_get_bind. intros w3 (Hd3 & Hc3 & Hn3 & Ha3).
  rewrite Hc3.
  destruct (Z.eqb_spec c 0) as [Hz|Hz].
  - eapply hoare_bind with
      (R := fun _ s => done s = 0 /\ netRecvComm (res s) = c
                       /\ (forall d, netComms s d = count_user env reqBuff w d)
                       /\ accepts (log s) = accepts (log w) ++ acc).
    + apply hoare_modify. intros s ->. cbn. auto.
    + intros []. apply hoare_exit. intros s (H1 & H2 & H3 & H4) _. auto.
  - eapply hoare_bind with
      (R := fun _ s => done s = 1 /\ netRecvComm (res s) = c
                       /\ (forall d, netComms s d = count_user env reqBuff w d)
                       /\ accepts (log s) = accepts (log w) ++ acc).
    + apply hoare_modify. intros s ->. cbn. auto.
    + intros [].
      eapply hoare_bind with
        (R := fun _ s => done s = 1 /\ netRecvComm (res s) = c
                         /\ (forall d, netComms s d = count_user env reqBuff w d)
                         /\ accepts (log s) = accepts (log w) ++ acc).
      * unfold emit. apply hoare_modify. intros s (H1 & H2 & H3 & H4). cbn.
        rewrite accepts_snoc. cbn. rewrite app_nil_r. auto.
      * intros []. destruct (netCloseListen env); cbn [NCCLCHECK];
          first [ apply hoare_ret; intros s (H1 & H2 & H3 & H4); auto
                | apply hoare_exit; intros s _ Hr; discriminate Hr ].
Qed.

Lemma recvProxyConnect_shared reqSize respSize :
  hoare (fun s => s = w) (recvProxyConnect cfg comm env reqBuff reqSize respSize)
    (fun _ _ => False)
    (fun r s => r = ncclSuccess ->
       let c := shared_comm env reqBuff w in
       netRecvComm (res s) = c
       /\ done s = (if c =? 0 then 0 else 1)
       /\ (forall d, netComms s d = count_user env reqBuff w d)
       /\ accepts (log s)
          = accepts (log w)
            ++ (if recvComm (filed_comms w reqBuff) (channelId (res w)) =? 0
                then [EvNetAccept (netListenComm (res w))] else [])).
Proof.
  unfold recvProxyConnect. cbv zeta.
  eapply hoare_bind; [eapply hoare_conseq; [apply accept_fabric_shared| | |]|].
  - intros s Hs. exact Hs.
  - intros a s H. exact H.
  - cbv beta. intros r s H Hr. destruct (H Hr) as (Hc & Hd & Hn & Hm & Ha).
    rewrite Hc at 2. auto.
  - intros []. apply hoare_at. intros s0 (Hc & Hd & Hn & Hm & Ha).
    eapply hoare_conseq; [apply (connect_tail_keeps_comm cfg comm env respSize s0)| | |].
    + intros s ->. apply comm_kept_refl.
    + auto.
    + cbv beta. intros r s H Hr. destruct (H Hr) as (K1 & K2 & K3 & K4).
      rewrite K1, K2, K3, K4.
      apply Z.eqb_neq in Hc. rewrite Hc. auto.
Qed.

End Shared.

(** X16.  The shared fabric comm of the receive side.  For a shared
    connection on a device with [maxRecvs > 1] and shared comms
    enabled, a [recvProxyConnect] that returns [ncclSuccess] has looked
    the comm up under (device, proxy rank of the request, channel): a
    filed comm is reused without a call to [ncclNetAccept], and only
    when none is filed is [ncclNetAccept] called, once, on the listen
    comm of the connection, and its answer filed.  The connection then
    holds that comm, [*done] is 1 exactly when it is not NULL, and the
    reference count of the entry has gone up by one exactly then; no
    other entry of the shared comms has changed. *)
Theorem recvProxyConnect_shared_comm
    (cfg : config) (comm : Connect.comm_t) (env : env_t)
    (reqBuff reqSize respSize : Z) (w w' : world) :
  shared (res w) <> 0 -> 1 < maxRecvs (res w) ->
  Connect.ncclParamNetSharedComms (base cfg) <> 0 ->
  recvProxyConnect cfg comm env reqBuff reqSize respSize w = (Exit ncclSuccess, w') ->
  let r := res w in
  let arr := default (fun _ => zeroSharedNetComms) (netComms w (netDev r)) in
  let filed := recvComm (arr reqBuff) (channelId r) in
  let count := recvRefCount (arr reqBuff) (channelId r) in
  let c := if filed =? 0 then snd (netAccept env) else filed in
  netRecvComm (res w') = c
  /\ done w' = (if c =? 0 then 0 else 1)
  /\ accepts (log w')
     = accepts (log w) ++ (if filed =? 0 then [EvNetAccept (netListenComm r)] else [])
  /\ (exists arr',
        netComms w' (netDev r) = Some arr'
        /\ recvComm (arr' reqBuff) (channelId r) = c
        /\ recvRefCount (arr' reqBuff) (channelId r)
           = (if c =? 0 then count else int32 (count + 1))
        /\ (forall ch, ch <> channelId r ->
              recvComm (arr' reqBuff) ch = recvComm (arr reqBuff) ch
              /\ recvRefCount (arr' reqBuff) ch = recvRefCount (arr reqBuff) ch)
        /\ (forall rk, rk <> reqBuff -> arr' rk = arr rk))
  /\ (forall d, d <> netDev r -> netComms w' d = netComms w d).
Proof.
  intros Hsh Hmax Hpar Hrun r arr filed count c.
  pose proof (recvProxyConnect_shared cfg comm env reqBuff w Hsh Hmax Hpar
                reqSize respSize w eq_refl) as H.
  rewrite Hrun in H. destruct (H eq_refl) as (H1 & H2 & H3 & H4).
  fold r in H1, H2, H3, H4.
  change (shared_comm env reqBuff w) with c in H1, H2.
  change (recvComm (filed_comms w reqBuff) (channelId r)) with filed in H4.
  repeat split; try assumption.
  - eexists. split; [rewrite H3; unfold count_user; apply upd_eq|].
    cbv zeta. change (filed_comms w) with arr. rewrite !upd_eq.
    change (shared_comm env reqBuff w) with c. cbn [recvComm recvRefCount].
    repeat split.
    + apply upd_eq.
    + destruct (c =? 0); [reflexivity|apply upd_eq].
    + now apply upd_ne.
    + destruct (c =? 0); [reflexivity|now apply upd_ne].
    + intros rk Hrk. now apply upd_ne.
  - intros d Hd. rewrite H3. unfold count_user. now apply upd_ne.
Qed.

Lemma recvProxyConnect_shared_comm_witness :
  let run := recvProxyConnect example_config example_comm example_env 3 4 2048
               example_shared_world in
  netRecvComm (res (snd run)) = 88 /\ done (snd run) = 1
  /\ accepts (log (snd run)) = [].
Proof.
  intros run.
  assert (Hrun : recvProxyConnect example_config example_comm example_env 3 4 2048
                   example_shared_world = (Exit ncclSuccess, snd run)).
  { assert (Hr : fst run = Exit ncclSuccess) by (vm_compute; reflexivity).
    rewrite <- Hr. subst run. now destruct (recvProxyConnect _ _ _ _ _ _ _). }
  pose proof (recvProxyConnect_shared_comm example_config example_comm example_env
                3 4 2048 example_shared_world (snd run)
                ltac:(vm_compute; discriminate) ltac:(vm_compute; reflexivity)
                ltac:(vm_compute; discriminate) Hrun) as H.
  cbv zeta in H. destruct H as (H1 & H2 & H3 & _).
  split; [exact H1|split; [exact H2|exact H3]].
Defined.

End RecvReuseFacts.

(** ** Shared fabric comms, send side *)

Module SendReuseFacts.
Import Connect SendShared.
Local Open Scope exec_scope.

#[local] Arguments BankMap.NCCL_NET_MAP_ADD_POINTER : simpl never.

Lemma connects_snoc l e :
  connects (l ++ [e]) = connects l ++ (if is_connect e then [e] else []).
Proof. unfold connects. rewrite List.filter_app. cbn. now destruct (is_connect e). Qed.

Ltac kept_tac :=
  intros; unfold comm_kept in *; cbn in *; rewrite ?connects_snoc; cbn;
  rewrite ?app_nil_r; intuition (auto; congruence).

Lemma send_sharedBuffersInit_keeps_comm w comm env bank :
  stable (comm_kept w) (call_sharedBuffersInit comm env bank).
Proof.
  intros s Hs. unfold call_sharedBuffersInit, NCCLCHECK_call.
  destruct (SharedPool.sharedBuffersInit _ _ _ _ _ _ _ _) as [[a|r|] [p o']].
  - revert Hs. kept_tac.
  - destruct r; first [revert Hs; kept_tac | discriminate].
  - exact Logic.I.
Qed.

Ltac kept_step :=
  lazymatch goal with
  | |- stable _ (bind get _) => apply stable_get_bind; intros ? ?
  | |- stable _ (bind _ _) => apply stable_bind; [|intros ?]
  | |- stable _ (ret _) => apply stable_ret
  | |- stable _ (when _ _) => apply stable_when
  | |- stable _ (NCCLCHECK _) => apply stable_NCCLCHECK
  | |- stable _ (CUDACHECK _) => apply stable_CUDACHECK
  | |- stable _ (modify _) => apply stable_modify; kept_tac
  | |- stable _ (exit _) => apply stable_exit; discriminate
  | |- stable _ undef => apply stable_undef
  | |- stable _ (for_loop _ _ _) => apply stable_for_loop; intros ?
  | |- stable _ (if _ then _ else _) => apply stable_if
  | |- stable _ (match ?x with _ => _ end) => destruct x
  | |- stable _ (emit _) => unfold emit
  | |- stable _ (upd_res _) => unfold upd_res
  | |- stable _ (upd_map _) => unfold upd_map
  | |- stable _ (upd_mapMem _ _) => unfold upd_mapMem
  | |- stable _ (store_head _) => unfold store_head
  | |- stable _ (store_sizesFifo _ _) => unfold store_sizesFifo
  | |- stable _ (call_sharedBuffersInit _ _ _) => apply send_sharedBuffersInit_keeps_comm
  end.

Lemma send_build_map_keeps_comm cfg comm env w :
  stable (comm_kept w) (build_map cfg comm env).
Proof. unfold build_map. repeat kept_step. Qed.

Lemma send_allocate_banks_keeps_comm cfg comm env w :
  stable (comm_kept w) (allocate_banks cfg comm env).
Proof. unfold allocate_banks. repeat kept_step. Qed.

Lemma init_staging_keeps_comm w : stable (comm_kept w) init_staging.
Proof. unfold init_staging. repeat kept_step. Qed.

Lemma send_register_buffers_keeps_comm cfg env respSize w :
  hoare (comm_kept w) (register_buffers cfg env respSize)
    (fun _ _ => False) (fun r s => r = ncclSuccess -> comm_kept w s).
Proof.
  unfold register_buffers.
  eapply hoare_bind; [apply stable_hoare; repeat kept_step|intros []].
  eapply hoare_bind with (R := fun _ s => comm_kept w s).
  { eapply hoare_conseq with (E' := fun r _ => r <> ncclSuccess);
      [apply (stable_when (comm_kept w)), stable_exit; intros H; discriminate H
      |auto|auto|].
    cbv beta. intros r s H Hr. contradiction. }
  intros [].
  eapply hoare_bind with (R := fun _ s => comm_kept w s).
  - apply hoare_modify. kept_tac.
  - intros []. apply hoare_exit. auto.
Qed.

Lemma send_comm_kept_refl w : comm_kept w w.
Proof. unfold comm_kept. auto. Qed.

Lemma send_tail_keeps_comm cfg comm env respSize w :
  hoare (comm_kept w)
    (build_map cfg comm env ;; allocate_banks cfg comm env ;; init_staging ;;
     register_buffers cfg env respSize)
    (fun _ _ => False) (fun r s => r = ncclSuccess -> comm_kept w s).
Proof.
  eapply hoare_bind; [apply stable_hoare, send_build_map_keeps_comm|intros []].
  eapply hoare_bind; [apply stable_hoare, send_allocate_banks_keeps_comm|intros []].
  eapply hoare_bind; [apply stable_hoare, init_staging_keeps_comm|intros []].
  apply send_register_buffers_keeps_comm.
Qed.

Section Shared.
Variables (cfg : config) (comm : comm_t) (env : env_t) (w : world).
Hypothesis Hsh : shared (res w) <> 0.
Hypothesis Hmax : 1 < maxRecvs (res w).
Hypothesis Hpar : ncclParamNetSharedComms cfg <> 0.

Lemma connect_fabric_shared reqSize :
  hoare (fun s => s = w) (connect_fabric cfg comm env reqSize)
    (fun _ s => shared_comm env w <> 0 /\ done s = 1
                /\ netSendComm (res s) = shared_comm env w
                /\ (forall d, netComms s d = count_user env w d)
                /\ connects (log s)
                   = connects (log w)
                     ++ (if sendComm (filed_comms w (remoteRank (res w)))
                                     (channelId (res w)) =? 0
                         then [EvNetConnect (netDev (res w))] else []))
    (fun r s => r = ncclSuccess ->
                shared_comm env w = 0 /\ done s = 0
                /\ netSendComm (res s) = shared_comm env w
                /\ (forall d, netComms s d = count_user env w d)
                /\ connects (log s)
                   = connects (log w)
                     ++ (if sendComm (filed_comms w (remoteRank (res w)))
                                     (channelId (res w)) =? 0
                         then [EvNetConnect (netDev (res w))] else [])).
Proof.
  unfold connect_fabric.
  destruct (Z.eqb_spec reqSize (sizeof_ncclNetHandle_t cfg)) as [Hreq|Hreq];
    cbn [negb when].
  2:{ eapply hoare_bind with (R := fun _ _ => False);
        [apply hoare_exit; intros s _ Hr; discriminate Hr
        |intros a; unfold hoare; intros s []]. }
  eapply hoare_bind with (R := fun _ s => s = w); [apply hoare_ret; auto|intros []].
  apply hoare_get_bind. intros w0 ->. cbv zeta.
  replace (negb (shared (res w) =? 0)) with true
    by (symmetry; apply negb_true_iff, Z.eqb_neq; exact Hsh).
  replace ((1 <? maxRecvs (res w)) && negb (ncclParamNetSharedComms cfg =? 0)) with true.
  2:{ symmetry. apply andb_true_iff. split;
        [apply Z.ltb_lt; exact Hmax|apply negb_true_iff, Z.eqb_neq; exact Hpar]. }
  set (c := shared_comm env w).
  set (filed := sendComm (filed_comms w (remoteRank (res w))) (channelId (res w))).
  set (acc := if filed =? 0 then [EvNetConnect (netDev (res w))] else []).
  set (dev := netDev (res w)).
  (* what the steps up to the look-up of the comm keep *)
  pose (F := fun (lg : list event) (s : world) =>
               done s = done w /\ log s = lg
               /\ forall d, netComms s d = upd (netComms w) dev (Some (filed_comms w)) d).
  eapply hoare_bind with
    (R := fun _ s => done s = done w /\ netSendComm (res s) = c
                     /\ (forall d, netComms s d = count_user env w d)
                     /\ connects (log s) = connects (log w) ++ acc).
  { eapply hoare_bind with (R := fun _ s => exists p, s = set_pool w p).
    { eapply hoare_conseq with (E' := fun r _ => r <> ncclSuccess);
        [apply (ConnectFacts.stable_ensure_peer (fun s => exists p, s = set_pool w p))
        | | |].
      - intros s p (p0 & ->). exists p. reflexivity.
      - intros s ->. exists (pool w). now destruct w.
      - auto.
      - cbv beta. intros r s H Hr. contradiction. }
    intros []. apply hoare_get_bind. intros w0 (p & ->).
    change (netComms (set_pool w p) dev) with (netComms w dev).
    eapply hoare_bind with (R := fun _ s => F (log w) s).
    { subst F. unfold filed_comms. fold dev.
      destruct (netComms w dev) as [arr0|] eqn:Hnc.
      - rewrite bool_decide_eq_false_2 by discriminate. cbn [when default].
        apply hoare_ret. intros s ->. cbn. repeat split.
        intros d. unfold upd. destruct (Z.eqb_spec d dev) as [->|]; auto.
      - rewrite bool_decide_eq_true_2 by reflexivity. cbn [when default].
        eapply hoare_bind with (R := fun _ s => s = set_pool w p).
        { destruct (calloc_netComms env); cbn [NCCLCHECK];
            first [ apply hoare_ret; auto
                  | apply hoare_exit; intros s _ Hr; discriminate Hr ]. }
        intros []. apply hoare_modify. intros s ->. cbn. repeat split. }
    intros []. apply hoare_get_bind. intros w2 (Hd2 & Hl2 & Hn2).
    rewrite (Hn2 dev), upd_eq. fold filed.
    eapply hoare_bind with (R := fun c0 s => c0 = c /\ F (log w ++ acc) s).
    { subst c acc. unfold shared_comm. fold filed.
      destruct (filed =? 0).
      - unfold ncclNetConnect.
        eapply hoare_bind with (R := fun _ s => F (log w ++ [EvNetConnect dev]) s).
        { unfold emit. apply hoare_modify. intros s ->. subst F. cbn.
          rewrite Hl2. auto. }
        intros [].
        eapply hoare_bind with (R := fun _ s => F (log w ++ [EvNetConnect dev]) s).
        { destruct (fst (netConnect env)); cbn [NCCLCHECK];
            first [ apply hoare_ret; auto
                  | apply hoare_exit; intros s _ Hr; discriminate Hr ]. }
        intros []. apply hoare_ret. auto.
      - apply hoare_ret. intros s ->. subst F. cbn. rewrite app_nil_r. auto. }
    intros c0.
    eapply hoare_bind with
      (R := fun _ s => c0 = c /\ done s = done w /\ log s = log w ++ acc
                       /\ forall d, netComms s d = count_user env w d).
    { apply hoare_modify. intros s (-> & Hd & Hl & Hn). cbn.
      repeat split; auto.
      intros d. unfold count_user. cbv zeta. fold dev c.
      destruct (Z.eqb_spec d dev) as [->|Hne].
      - rewrite !upd_eq. destruct (c =? 0); reflexivity.
      - rewrite !upd_ne by exact Hne. rewrite Hn. apply upd_ne. exact Hne. }
    intros []. unfold upd_res. apply hoare_modify.
    intros s (-> & Hd & Hl & Hn). cbn. repeat split; auto.
    rewrite Hl. unfold connects. rewrite List.filter_app. f_equal.
    subst acc. now destruct (filed =? 0). }
  intros []. apply hoare_get_bind. intros w3 (Hd3 & Hc3 & Hn3 & Ha3).
  rewrite Hc3.
  destruct (Z.eqb_spec c 0) as [Hz|Hz].
  - eapply hoare_bind with
      (R := fun _ s => done s = 0 /\ netSendComm (res s) = c
                       /\ (forall d, netComms s d = count_user env w d)
                       /\ connects (log s) = connects (log w) ++ acc).
    + apply hoare_modify. intros s ->. cbn. auto.
    + intros []. apply hoare_exit. intros s (H1 & H2 & H3 & H4) _. auto.
  - apply hoare_modify. intros s ->. cbn. auto.
Qed.

Lemma sendProxyConnect_shared reqSize respSize :
  hoare (fun s => s = w) (sendProxyConnect cfg comm env reqSize respSize)
    (fun _ _ => False)
    (fun r s => r = ncclSuccess ->
       let c := shared_comm env w in
       netSendComm (res s) = c
       /\ done s = (if c =? 0 then 0 else 1)
       /\ (forall d, netComms s d = count_user env w d)
       /\ connects (log s)
          = connects (log w)
            ++ (if sendComm (filed_comms w (remoteRank (res w))) (channelId (res w)) =? 0
                then [EvNetConnect (netDev (res w))] else [])).
Proof.
  unfold sendProxyConnect. cbv zeta.
  eapply hoare_bind; [eapply hoare_conseq; [apply connect_fabric_shared| | |]|].
  - intros s Hs. exact Hs.
  - intros a s H. exact H.
  - cbv beta. intros r s H Hr. destruct (H Hr) as (Hc & Hd & Hn & Hm & Ha).
    rewrite Hc at 2. auto.
  - intros []. apply RecvReuseFacts.hoare_at. intros s0 (Hc & Hd & Hn & Hm & Ha).
    eapply hoare_conseq; [apply (send_tail_keeps_comm cfg comm env respSize s0)| | |].
    + intros s ->. apply send_comm_kept_refl.
    + auto.
    + cbv beta. intros r s H Hr. destruct (H Hr) as (K1 & K2 & K3 & K4).
      rewrite K1, K2, K3, K4.
      apply Z.eqb_neq in Hc. rewrite Hc. auto.
Qed.

End Shared.

(** X17.  The shared fabric comm of the send side.  For a shared
    connection on a device with [maxRecvs > 1] and shared comms
    enabled, a [sendProxyConnect] that returns [ncclSuccess] has looked
    the comm up under (device, remote rank, channel): a filed comm is
    reused without a call to [ncclNetConnect], and only when none is
    filed is [ncclNetConnect] called, once, on the device of the
    connection, and its answer filed.  The connection then holds that
    comm, [*done] is 1 exactly when it is not NULL, and the reference
    count of the entry has gone up by one exactly then; no other entry
    of the shared comms has changed. *)
Theorem sendProxyConnect_shared_comm
    (cfg : config) (comm : comm_t) (env : env_t) (reqSize respSize : Z) (w w' : world) :
  shared (res w) <> 0 -> 1 < maxRecvs (res w) -> ncclParamNetSharedComms cfg <> 0 ->
  sendProxyConnect cfg comm env reqSize respSize w = (Exit ncclSuccess, w') ->
  let r := res w in
  let arr := default (fun _ => zeroSharedNetComms) (netComms w (netDev r)) in
  let filed := sendComm (arr (remoteRank r)) (channelId r) in
  let count := sendRefCount (arr (remoteRank r)) (channelId r) in
  let c := if filed =? 0 then snd (netConnect env) else filed in
  netSendComm (res w') = c
  /\ done w' = (if c =? 0 then 0 else 1)
  /\ connects (log w')
     = connects (log w) ++ (if filed =? 0 then [EvNetConnect (netDev r)] else [])
  /\ (exists arr',
        netComms w' (netDev r) = Some arr'
        /\ sendComm (arr' (remoteRank r)) (channelId r) = c
        /\ sendRefCount (arr' (remoteRank r)) (channelId r)
           = (if c =? 0 then count else int32 (count + 1))
        /\ (forall ch, ch <> channelId r ->
              sendComm (arr' (remoteRank r)) ch = sendComm (arr (remoteRank r)) ch
              /\ sendRefCount (arr' (remoteRank r)) ch
                 = sendRefCount (arr (remoteRank r)) ch)
        /\ (forall rk, rk <> remoteRank r -> arr' rk = arr rk))
  /\ (forall d, d <> netDev r -> netComms w' d = netComms w d).
Proof.
  intros Hsh Hmax Hpar Hrun r arr filed count c.
  pose proof (sendProxyConnect_shared cfg comm env w Hsh Hmax Hpar
                reqSize respSize w eq_refl) as H.
  rewrite Hrun in H. destruct (H eq_refl) as (H1 & H2 & H3 & H4).
  fold r in H1, H2, H3, H4.
  change (shared_comm env w) with c in H1, H2.
  change (sendComm (filed_comms w (remoteRank r)) (channelId r)) with filed in H4.
  repeat split; try assumption.
  - eexists. split; [rewrite H3; unfold count_user; apply upd_eq|].
    cbv zeta. change (filed_comms w) with arr. rewrite !upd_eq.
    change (shared_comm env w) with c. cbn [sendComm sendRefCount].
    repeat split.
    + apply upd_eq.
    + destruct (c =? 0); [reflexivity|apply upd_eq].
    + now apply upd_ne.
    + destruct (c =? 0); [reflexivity|now apply upd_ne].
    + intros rk Hrk. now apply upd_ne.
  - intros d Hd. rewrite H3. unfold count_user. now apply upd_ne.
Qed.

Lemma sendProxyConnect_shared_comm_witness :
  let run := sendProxyConnect example_config example_comm example_env 64 2048
               example_shared_world in
  netSendComm (res (snd run)) = 88 /\ done (snd run) = 1
  /\ connects (log (snd run)) = [].
Proof.
  intros run.
  assert (Hrun : sendProxyConnect example_config example_comm example_env 64 2048
                   example_shared_world = (Exit ncclSuccess, snd run)).
  { assert (Hr : fst run = Exit ncclSuccess) by (vm_compute; reflexivity).
    rewrite <- Hr. subst run. now destruct (sendProxyConnect _ _ _ _ _ _). }
  pose proof (sendProxyConnect_shared_comm example_config example_comm example_env
                64 2048 example_shared_world (snd run)
                ltac:(vm_compute; discriminate) ltac:(vm_compute; reflexivity)
                ltac:(vm_compute; discriminate) Hrun) as H.
  cbv zeta in H. destruct H as (H1 & H2 & H3 & _).
  split; [exact H1|split; [exact H2|exact H3]].
Defined.

End SendReuseFacts.
